(** * Exact-rational linear algebra engine: the two [matrix-operations] libraries

    This development embeds the JavaScript engine of the repository in Rocq:

    - [New]: [AdvancedAlgebraCalculator/lib/matrix-operations.js]
      (classes [Fraction] and [MatrixOperations]);
    - [Old]: [lib/matrix-operations-old.js] (the same two classes, the earlier
      and more defensive implementation).

    Conventions of the embedding.

    - A JavaScript number is an IEEE-754 binary64 value: Rocq's primitive
      [float].  [Math.floor], [Math.round], [%] and the conversions between
      integers and numbers are computed exactly through [SpecFloat].
    - The fields of a [Fraction] are mathematical integers ([Z]); the source
      stores them in numbers, so the embedding is exact as long as numerators
      and denominators stay below 2^53 (the engine's documented range).
    - A call either returns, throws, never returns, or leaves the modelled
      fragment of JavaScript: type [outcome].
    - JavaScript's implicit conversions are written out where the source
      relies on them ([ToNumber] of a [Fraction] goes through [toString]).

    The methods are embedded twice.  [New] and [Old] take arrays as values:
    a matrix is the list of its rows.  [NewStore] and [OldStore] keep every
    array in a store and pass it by reference, with the loops of the source
    writing into the store; they decide what a call may change in the arrays
    of its caller.  The last part relates the two: on a matrix held in the
    store, [calculateDeterminant], [reduceToRowEchelon] and [calculateRank]
    of [NewStore] end as the methods of [New] do on the matrix as a value.

    The part on exact arithmetic reads a [Fraction] with a positive
    denominator as the rational number it denotes ([Qof], in [QArith]) and
    states what the methods compute on matrices and vectors of such
    Fractions, where the source takes no step through floating point: the
    field laws and the canonical form of Fractions, their texts, the vector
    operations, [reduceToRowEchelon] with [calculateRank], [analyzeVectors]
    and [extractSolution], [multiplyMatrices] and [calculateInverse].  The
    pivot searches compare [toFloat()] values; the statements on
    [calculateInverse] hold for whatever row such a search selects, and
    nothing is stated on [gaussianElimination] and [calculateDeterminant],
    whose elimination is right only for the row the search is meant to
    find. *)

From Stdlib Require Import ZArith Znumtheory List String Ascii Floats Bool Lia Arith.
From Stdlib Require Import DecimalString DecimalPos DecimalZ.
From Stdlib Require Import QArith.
Close Scope Q_scope.
Import ListNotations.

Set Warnings "-inexact-float".
Local Open Scope string_scope.
Local Open Scope list_scope.
Local Open Scope Z_scope.

(* ================================================================== *)
(** * The JavaScript fragment shared by both libraries *)

Module JS.

(** ** Results of a call *)

Inductive JsError : Type :=
| EmptyInput       (* the "cannot be empty" guards at the top of each method *)
| ShapeError       (* not a 2-d array, not square, lengths do not match *)
| DivisionByZero   (* Old.Fraction.divide *)
| ZeroVector       (* Old.normalizeVector *)
| NotInvertible    (* New.calculateInverse *)
| TypeError.       (* a property read on [undefined] *)

Inductive outcome (A : Type) : Type :=
| Ret (a : A)          (* the call returns [a] *)
| Throw (e : JsError)  (* the call throws *)
| Hang                 (* the call never returns *)
| Beyond.              (* the call leaves the modelled fragment *)

Arguments Ret {A} a.
Arguments Throw {A} e.
Arguments Hang {A}.
Arguments Beyond {A}.

Definition bind {A B : Type} (c : outcome A) (k : A -> outcome B) : outcome B :=
  match c with
  | Ret a => k a
  | Throw e => Throw e
  | Hang => Hang
  | Beyond => Beyond
  end.

Notation "'let*' x ':=' c 'in' k" := (bind c (fun x => k))
  (at level 10, x pattern, c at level 100, k at level 200).

(** [for (x of l) s = body(x, s)] *)
Fixpoint foldM {A S : Type} (body : A -> S -> outcome S) (l : list A) (s : S)
  : outcome S :=
  match l with
  | [] => Ret s
  | x :: l' => let* s' := body x s in foldM body l' s'
  end.

(** [l.map(f)] for an [f] that may fail *)
Fixpoint mapM {A B : Type} (f : A -> outcome B) (l : list A) : outcome (list B) :=
  match l with
  | [] => Ret []
  | x :: l' => let* y := f x in let* ys := mapM f l' in Ret (y :: ys)
  end.

(** The indices [lo, lo+1, ..., hi-1] of [for (let i = lo; i < hi; i++)]. *)
Definition range (lo hi : nat) : list nat := seq lo (hi - lo).

(** ** Numbers *)

Abbreviation number := float (only parsing).

Definition Z2F (z : Z) : number := SF2Prim (binary_normalize prec emax z 0 false).

(** The integer [v] and exponent [e] with [x = v * 2^e], for a finite [x]. *)
Definition decompose (x : number) : option (Z * Z) :=
  match Prim2SF x with
  | S754_zero _ => Some (0, 0)
  | S754_finite s m e => Some (if s then Z.neg m else Z.pos m, e)
  | S754_infinity _ | S754_nan => None
  end.

(** [Math.floor] of a finite number, as an integer. *)
Definition floorZ (x : number) : option Z :=
  match decompose x with
  | Some (v, e) => Some (if 0 <=? e then v * 2 ^ e else v / 2 ^ (- e))
  | None => None
  end.

(** [Math.floor(x)] *)
Definition Math_floor (x : number) : number :=
  match floorZ x with
  | Some z => Z2F z
  | None => x
  end.

(** [Math.round(x)]: the nearest integer, halves towards +infinity. *)
Definition roundZ (x : number) : option Z :=
  match decompose x with
  | Some (v, e) =>
      Some (if 0 <=? e then v * 2 ^ e else (2 * v + 2 ^ (- e)) / 2 ^ (1 - e))
  | None => None
  end.

Definition Math_round (x : number) : number :=
  match roundZ x with
  | Some z => Z2F z
  | None => x
  end.

(** [Number.isInteger(x)] *)
Definition Number_isInteger (x : number) : bool :=
  match decompose x with
  | Some (v, e) => if 0 <=? e then true else v mod 2 ^ (- e) =? 0
  | None => false
  end.

(** The integer an integer-valued number denotes. *)
Definition toZ (x : number) : option Z :=
  if Number_isInteger x then floorZ x else None.

(** [a % b] on numbers: the exact remainder, with the sign of [a]. *)
Definition rem (a b : number) : number :=
  match Prim2SF a, Prim2SF b with
  | S754_nan, _ | _, S754_nan | S754_infinity _, _ | _, S754_zero _ => nan
  | _, S754_infinity _ => a
  | S754_zero _, _ => a
  | S754_finite sa ma ea, S754_finite _ mb eb =>
      let e := Z.min ea eb in
      let r := (Z.pos ma * 2 ^ (ea - e)) mod (Z.pos mb * 2 ^ (eb - e)) in
      let x := SF2Prim (binary_normalize prec emax r e false) in
      if sa then (- x)%float else x
  end.

(** [Math.pow(10, k)] for the small exponents the engine uses. *)
Definition pow10 (k : Z) : number :=
  if 0 <=? k then Z2F (10 ^ k) else (1 / Z2F (10 ^ (- k)))%float.

(** [a > b], [a < b], [a === b], [a !== b] on numbers *)
Definition gt (a b : number) : bool := (b <? a)%float.
Definition lt (a b : number) : bool := (a <? b)%float.
Definition seq_num (a b : number) : bool := (a =? b)%float.
Definition sne_num (a b : number) : bool := negb (a =? b)%float.

(** ** Strings *)

(** [n.toString()] of an integer in decimal. *)
Definition Z_toString (z : Z) : string := NilZero.string_of_int (Z.to_int z).

(** [x.toString()] of a number: integers below 1e21 print in plain decimal,
    [NaN] and the infinities by name; other renderings are not modelled. *)
Definition number_toString (x : number) : outcome string :=
  if is_nan x then Ret "NaN"
  else if (x =? infinity)%float then Ret "Infinity"
  else if (x =? neg_infinity)%float then Ret "-Infinity"
  else match toZ x with
       | Some z => if Z.abs z <? 10 ^ 21 then Ret (Z_toString z) else Beyond
       | None => Beyond
       end.

Definition is_digit (c : ascii) : bool :=
  let n := nat_of_ascii c in (48 <=? n)%nat && (n <=? 57)%nat.

Definition digit_val (c : ascii) : Z := Z.of_nat (nat_of_ascii c) - 48.

(** White space that [parseInt] skips (the ASCII part of it). *)
Definition is_space (c : ascii) : bool :=
  let n := nat_of_ascii c in
  ((9 <=? n)%nat && (n <=? 13)%nat) || (n =? 32)%nat.

Fixpoint skip_spaces (s : string) : string :=
  match s with
  | String c s' => if is_space c then skip_spaces s' else s
  | EmptyString => s
  end.

(** The longest prefix of decimal digits, read as an integer. *)
Fixpoint read_digits (acc : option Z) (s : string) : option Z * string :=
  match s with
  | String c s' =>
      if is_digit c
      then read_digits (Some (10 * match acc with Some a => a | None => 0 end
                              + digit_val c)) s'
      else (acc, s)
  | EmptyString => (acc, s)
  end.

(** [parseInt(s, 10)]; [None] is [NaN]. *)
Definition parseInt10 (s : string) : option Z :=
  match skip_spaces s with
  | String "-" s' => option_map Z.opp (fst (read_digits None s'))
  | String "+" s' => fst (read_digits None s')
  | s' => fst (read_digits None s')
  end.

(** [s.split('/')] *)
Fixpoint split_slash_aux (cur : string) (s : string) : list string :=
  match s with
  | EmptyString => [cur]
  | String c s' =>
      if Ascii.eqb c "/" then cur :: split_slash_aux "" s'
      else split_slash_aux (cur ++ String c "")%string s'
  end.

Definition split_slash (s : string) : list string := split_slash_aux "" s.

Definition includes_slash (s : string) : bool :=
  (1 <? List.length (split_slash s))%nat.

(** [s.match(/^(-?\d+)\/(\d+)$/)]: the two captured groups. *)
Definition all_digits (s : string) : bool :=
  match s with
  | EmptyString => false
  | _ => forallb is_digit (list_ascii_of_string s)
  end.

Definition match_fraction (s : string) : option (string * string) :=
  match split_slash s with
  | [p; q] =>
      let digits := match p with String "-" p' => p' | _ => p end in
      if all_digits digits && all_digits q then Some (p, q) else None
  | _ => None
  end.

End JS.

(* ================================================================== *)
(** * Data shared by the two libraries

    Both files declare [class Fraction] with the fields [numerator] and
    [denominator] and the same [toFloat()]; both keep a matrix as an array
    of rows whose entries are [Fraction]s or numbers, and both run the same
    Euclidean loop and the same pivot search. *)

Module Data.
Import JS.

Record Fraction : Type := mkFraction { numerator : Z; denominator : Z }.

(** The loop of [static gcd(a, b)]:
    [while (b !== 0) { const temp = b; b = a % b; a = temp; } return a;] *)
Fixpoint gcd_loop (fuel : nat) (a b : Z) : Z :=
  match fuel with
  | O => a
  | S k => if b =? 0 then a else gcd_loop k b (Z.rem a b)
  end.

(** Two iterations at least halve [b]: this many iterations reach [b = 0]
    (lemma [gcd_loop_Zgcd]). *)
Definition gcd_fuel (b : Z) : nat := S (2 * Z.to_nat (Z.log2_up (b + 1))).

(** [toFloat()]: [return this.numerator / this.denominator;] *)
Definition toFloat (f : Fraction) : number :=
  (Z2F (numerator f) / Z2F (denominator f))%float.

(** A matrix entry is a [Fraction] or a number. *)
Inductive Scalar : Type :=
| SFrac (f : Fraction)
| SNum (x : number).

(** [ToNumber] of a [Fraction] object: [valueOf] is not overridden, so the
    conversion reads [Number(f.toString())]: the numerator when the
    denominator is 1, NaN for the text [n/d]. *)
Definition Fraction_toNumber (f : Fraction) : number :=
  if denominator f =? 1 then Z2F (numerator f) else nan.

Definition toNumber (v : Scalar) : number :=
  match v with
  | SFrac f => Fraction_toNumber f
  | SNum x => x
  end.

Definition Vector := list Scalar.
Definition Matrix := list Vector.

(** A read beyond an array yields [undefined], which arithmetic and the zero
    tests treat as NaN. *)
Definition undefined : Scalar := SNum nan.

Definition cell (M : Matrix) (i j : nat) : Scalar := nth j (nth i M []) undefined.

Fixpoint update {A : Type} (l : list A) (k : nat) (v : A) : list A :=
  match l, k with
  | [], _ => []
  | _ :: l', O => v :: l'
  | x :: l', S k' => x :: update l' k' v
  end.

(** [M[i][j] = v] *)
Definition set_cell (M : Matrix) (i j : nat) (v : Scalar) : Matrix :=
  update M i (update (nth i M []) j v).

(** [[M[i], M[p]] = [M[p], M[i]]] *)
Definition swap_rows (M : Matrix) (i p : nat) : Matrix :=
  update (update M i (nth p M [])) p (nth i M []).

(** [v instanceof Fraction] *)
Definition isFraction (v : Scalar) : bool :=
  match v with
  | SFrac _ => true
  | SNum _ => false
  end.

(** [x instanceof Fraction ? Math.abs(x.toFloat()) : Math.abs(x)] *)
Definition absOf (x : Scalar) : number :=
  match x with
  | SFrac f => abs (toFloat f)
  | SNum y => abs y
  end.

(** The pivot search of the elimination loops: the first row of [i..m-1]
    whose entry in column [i] is strictly largest in absolute value. *)
Definition findPivotRow (M : Matrix) (i m : nat) : nat :=
  fold_left
    (fun pivotRow j =>
       if gt (absOf (cell M j i)) (absOf (cell M pivotRow i)) then j else pivotRow)
    (range i m) i.

End Data.

(* ================================================================== *)
(** * AdvancedAlgebraCalculator/lib/matrix-operations.js *)

Module New.
Import JS Data.

(** ** class Fraction *)

(** [static gcd(a, b)] *)
Definition gcd (a b : Z) : Z := gcd_loop (gcd_fuel b) a b.

(** The same loop on numbers; [None] when [fuel] iterations do not end it. *)
Fixpoint gcd_number (fuel : nat) (a b : number) : option number :=
  match fuel with
  | O => None
  | S k => if sne_num b 0 then gcd_number k b (rem a b) else Some a
  end.

(** [constructor(numerator, denominator)] on two integers:
    [gcd = Fraction.gcd(|numerator|, |denominator|)], both fields divided by
    it, then the sign moved to the numerator.  With both arguments 0 the
    fields are [0/0 = NaN], which a [Fraction] of this embedding cannot hold. *)
Definition Fraction_new (numerator denominator : Z) : outcome Fraction :=
  let g := gcd (Z.abs numerator) (Z.abs denominator) in
  if g =? 0 then Beyond
  else
    let n := numerator / g in
    let d := denominator / g in
    if d <? 0 then Ret (mkFraction (- n) (- d)) else Ret (mkFraction n d).

(** [new Fraction(x, y)] on two numbers.  Integer-valued arguments are the
    integers they denote.  With [x] NaN or infinite and [y] a non-zero
    integer, [Fraction.gcd] never returns (lemma [New_gcd_number_diverges]). *)
Definition Fraction_of_numbers (x y : number) : outcome Fraction :=
  match toZ x, toZ y with
  | Some p, Some q => Fraction_new p q
  | None, Some q =>
      match decompose x with
      | Some _ => Beyond
      | None => if q =? 0 then Beyond else Hang
      end
  | _, None => Beyond
  end.

(** [new Fraction(x)]: [denominator === undefined] gives denominator 1. *)
Definition Fraction_of_number (x : number) : outcome Fraction :=
  Fraction_of_numbers x 1.

(** [new Fraction(s)] on a string: [/^(-?\d+)\/(\d+)$/] or [parseInt].
    [parseInt] yields NaN on a string with no leading integer, and
    [Fraction.gcd(NaN, 1)] never returns. *)
Definition Fraction_of_string (s : string) : outcome Fraction :=
  match match_fraction s with
  | Some (p, q) =>
      match parseInt10 p, parseInt10 q with
      | Some n, Some d => Fraction_new n d
      | _, _ => Beyond
      end
  | None =>
      match skip_spaces s with
      | String "0" (String "x" _) | String "0" (String "X" _) => Beyond
      | _ => match parseInt10 s with
             | Some n => Fraction_new n 1
             | None => Hang
             end
      end
  end.

(** [add], [subtract], [multiply], [divide] on a [Fraction] operand *)
Definition add (a b : Fraction) : outcome Fraction :=
  Fraction_new (numerator a * denominator b + numerator b * denominator a)
               (denominator a * denominator b).

Definition subtract (a b : Fraction) : outcome Fraction :=
  Fraction_new (numerator a * denominator b - numerator b * denominator a)
               (denominator a * denominator b).

Definition multiply (a b : Fraction) : outcome Fraction :=
  Fraction_new (numerator a * numerator b) (denominator a * denominator b).

Definition divide (a b : Fraction) : outcome Fraction :=
  Fraction_new (numerator a * denominator b) (denominator a * numerator b).

(** [toString()] *)
Definition toString (f : Fraction) : string :=
  if denominator f =? 1 then Z_toString (numerator f)
  else (Z_toString (numerator f) ++ "/" ++ Z_toString (denominator f))%string.

(** ** Scalars *)

(** [if (!(other instanceof Fraction)) other = new Fraction(other)] *)
Definition asFraction (other : Scalar) : outcome Fraction :=
  match other with
  | SFrac f => Ret f
  | SNum x => Fraction_of_number x
  end.

(** ** class MatrixOperations *)

Inductive FormatType : Type := integer | rational | otherFormat.

Record MatrixOperations : Type := mkEngine {
  precision : Z;
  useFractions : bool;
  formatType : FormatType
}.

(** [constructor()] *)
Definition engine : MatrixOperations := mkEngine 10 true rational.

(** [setFormatType('decimal')] *)
Definition decimalEngine : MatrixOperations := mkEngine 10 false rational.

(** [toFraction(num)] on a number: [new Fraction(Math.round(num * 10^10), 10^10)] *)
Definition toFraction_number (num : number) : outcome Fraction :=
  let denominator := pow10 10 in
  let numerator := Math_round (num * denominator)%float in
  Fraction_of_numbers numerator denominator.

Definition toFraction (num : Scalar) : outcome Fraction :=
  match num with
  | SFrac f => Ret f
  | SNum x => toFraction_number x
  end.

(** [convertToAppropriateType(value)] on a number or a [Fraction] *)
Definition convertToAppropriateType (this : MatrixOperations) (value : Scalar)
  : outcome Scalar :=
  match value with
  | SNum x =>
      if useFractions this
      then let* f := toFraction_number x in Ret (SFrac f)
      else Ret (SNum x)
  | SFrac f => Ret (SFrac f)
  end.

(** [isZero(value)] *)
Definition isZero (value : Scalar) : bool :=
  match value with
  | SFrac f => numerator f =? 0
  | SNum x => lt (abs x) 1e-10
  end.

(** Values that also include the strings [+] may build. *)
Inductive value : Type :=
| VScalar (v : Scalar)
| VStr (s : string).

(** Rendered text.  The decimal rendering of a number that is not an integer
    is kept symbolic: [Printed x] is [x.toString()], [Fixed x d] is
    [x.toFixed(d)]. *)
Inductive text : Type :=
| Text (s : string)
| Printed (x : number)
| Fixed (x : number) (digits : Z).

Definition number_text (x : number) : text :=
  match number_toString x with
  | Ret s => Text s
  | _ => Printed x
  end.

Definition Fraction_text (f : Fraction) : text := Text (toString f).

(** [formatNumber(num, formatType)] *)
Definition formatNumber (this : MatrixOperations) (num : value) (fmt : FormatType)
  : outcome text :=
  match fmt with
  | integer =>
      match num with
      | VScalar v => Ret (number_text (Math_round (toNumber v)))
      | VStr _ => Beyond
      end
  | rational =>
      let* num' :=
        match num with
        | VScalar (SFrac f) => Ret num
        | VScalar (SNum x) =>
            if useFractions this
            then let* f := toFraction_number x in Ret (VScalar (SFrac f))
            else Ret num
        | VStr s =>
            if useFractions this
            then let* f := Fraction_of_string s in Ret (VScalar (SFrac f))
            else Ret num
        end in
      match num' with
      | VScalar (SFrac f) =>
          if denominator f =? 1 then Ret (Text (Z_toString (numerator f)))
          else Ret (Text (Z_toString (numerator f) ++ "/"
                          ++ Z_toString (denominator f))%string)
      | VScalar (SNum x) => Ret (Fixed x (precision this))
      | VStr _ => Throw TypeError     (* a string has no [toFixed] *)
      end
  | otherFormat =>
      match num with
      | VScalar (SFrac f) => Ret (Fraction_text f)
      | VScalar (SNum x) => Ret (number_text x)
      | VStr s => Ret (Text s)
      end
  end.

(** [round(num, precision)]: [Math.round(num * 10^precision) / 10^precision] *)
Definition round (num : Scalar) (precision : Z) : number :=
  let factor := pow10 precision in
  (Math_round (toNumber num * factor) / factor)%float.

(** ** Matrices: arrays of rows *)

(** [copyMatrix(matrix)] *)
Definition copyMatrix (M : Matrix) : Matrix := map (fun row => row) M.

(** [factor = M[j][i] instanceof Fraction ? M[j][i].divide(pivot) : M[j][i] / pivot] *)
Definition eliminationFactor (a pivot : Scalar) : outcome Scalar :=
  match a with
  | SFrac fa =>
      let* p := asFraction pivot in
      let* q := divide fa p in Ret (SFrac q)
  | SNum x => Ret (SNum (x / toNumber pivot)%float)
  end.

(** One cell of a row combination: [a = a - factor * b], exact when all three
    are [Fraction]s, otherwise on numbers and converted back when
    [useFractions]. *)
Definition combine (this : MatrixOperations) (a b factor : Scalar) : outcome Scalar :=
  match a, b, factor with
  | SFrac fa, SFrac fb, SFrac ff =>
      let* p := multiply ff fb in
      let* r := subtract fa p in Ret (SFrac r)
  | _, _, _ =>
      let x := (toNumber a - toNumber factor * toNumber b)%float in
      if useFractions this
      then let* r := toFraction_number x in Ret (SFrac r)
      else Ret (SNum x)
  end.

(** [for (let k = from; k < n; k++) M[j][k] -= factor * M[i][k]] *)
Definition combineRow (this : MatrixOperations) (i j from n : nat) (factor : Scalar)
  (M : Matrix) : outcome Matrix :=
  foldM (fun k M =>
           let* v := combine this (cell M j k) (cell M i k) factor in
           Ret (set_cell M j k v))
        (range from n) M.

(** ** calculateDeterminant *)

(** The body of [for (let j = i + 1; j < n; j++)] *)
Definition eliminateBelow (this : MatrixOperations) (i n : nat) (pivot : Scalar)
  (j : nat) (M : Matrix) : outcome Matrix :=
  let* factor := eliminationFactor (cell M j i) pivot in
  combineRow this i j i n factor M.

(** The elimination loop.  [det] collects [-1] for each row swap and each
    pivot; [None] is the early [return { result: 0 }] on a zero pivot. *)
Fixpoint determinantLoop (this : MatrixOperations) (n : nat) (columns : list nat)
  (M : Matrix) (det : list Scalar) : outcome (option (Matrix * list Scalar)) :=
  match columns with
  | [] => Ret (Some (M, det))
  | i :: columns' =>
      let pivotRow := findPivotRow M i n in
      let M1 := if (pivotRow =? i)%nat then M else swap_rows M i pivotRow in
      let det1 := if (pivotRow =? i)%nat then det else det ++ [SNum (-1)] in
      let pivot := cell M1 i i in
      if isZero pivot then Ret None
      else
        let* M2 := foldM (eliminateBelow this i n pivot) (range (i + 1) n) M1 in
        determinantLoop this n columns' M2 (det1 ++ [pivot])
  end.

(** [for (const val of det)]: the running [determinant] starts as the
    number 1.  [determinant *= val] converts a [Fraction] with [ToNumber]. *)
Definition determinantStep (val determinant : Scalar) : outcome Scalar :=
  match val with
  | SFrac v =>
      let* d := asFraction determinant in
      let* r := multiply d v in Ret (SFrac r)
  | SNum v => Ret (SNum (toNumber determinant * v)%float)
  end.

Definition calculateDeterminant (this : MatrixOperations) (matrix : Matrix)
  : outcome Scalar :=
  match matrix with
  | [] => Throw EmptyInput
  | row0 :: _ =>
      if (List.length row0 =? 0)%nat then Throw ShapeError
      else
        let n := List.length matrix in
        if negb (n =? List.length row0)%nat then Throw ShapeError
        else
          let* processedMatrix := mapM (mapM (convertToAppropriateType this)) matrix in
          let* r := determinantLoop this n (range 0 n) processedMatrix [] in
          match r with
          | None => Ret (SNum 0)
          | Some (_, det) =>
              let* determinant := foldM determinantStep det (SNum 1) in
              let* formattedResult :=
                formatNumber this (VScalar determinant) (formatType this) in
              Ret determinant
          end
  end.

(** ** calculateCharacteristicPolynomial *)

(** [generateCombinations(arr, k)]: [backtrack(start, combo)] pushes [combo]
    once it has [k] elements, and otherwise extends it with each later
    element of [arr] in turn. *)
Fixpoint backtrack {A : Type} (k : nat) (rest : list A) (combo : list A)
  : list (list A) :=
  if (List.length combo =? k)%nat then [combo]
  else match rest with
       | [] => []
       | x :: rest' => backtrack k rest' (combo ++ [x]) ++ backtrack k rest' combo
       end.

Definition generateCombinations {A : Type} (arr : list A) (k : nat) : list (list A) :=
  backtrack k arr [].

(** [extractPrincipalMinor(matrix, indices)] *)
Definition extractPrincipalMinor (M : Matrix) (indices : list nat) : Matrix :=
  map (fun i => map (fun j => cell M i j) indices) indices.

(** [sum += x].  [+] converts a [Fraction] operand with [toString] and then
    concatenates. *)
Definition value_toString (v : value) : outcome string :=
  match v with
  | VScalar (SFrac f) => Ret (toString f)
  | VScalar (SNum x) => number_toString x
  | VStr s => Ret s
  end.

Definition plusAssign (sum : value) (x : Scalar) : outcome value :=
  match sum, x with
  | VScalar (SNum a), SNum b => Ret (VScalar (SNum (a + b)%float))
  | _, _ =>
      let* l := value_toString sum in
      let* r := value_toString (VScalar x) in
      Ret (VStr (l ++ r)%string)
  end.

(** [calculatePrincipalMinorsSum(matrix, k)] *)
Definition calculatePrincipalMinorsSum (this : MatrixOperations) (M : Matrix) (k : nat)
  : outcome value :=
  if (k =? 0)%nat then Ret (VScalar (SNum 1))
  else
    let n := List.length M in
    if (n <? k)%nat then Ret (VScalar (SNum 0))
    else
      let combinations := generateCombinations (range 0 n) k in
      foldM (fun combo sum =>
               let minor := extractPrincipalMinor M combo in
               let* det := calculateDeterminant this minor in
               plusAssign sum det)
            combinations (VScalar (SNum 0)).

Definition calculateCharacteristicPolynomial (this : MatrixOperations) (matrix : Matrix)
  : outcome (list text) :=
  match matrix with
  | [] => Throw EmptyInput
  | row0 :: _ =>
      if (List.length row0 =? 0)%nat then Throw ShapeError
      else
        let n := List.length matrix in
        if negb (n =? List.length row0)%nat then Throw ShapeError
        else
          let* processedMatrix := mapM (mapM (convertToAppropriateType this)) matrix in
          let* coefficients :=
            mapM (calculatePrincipalMinorsSum this processedMatrix) (range 0 (n + 1)) in
          mapM (fun coeff => formatNumber this coeff (formatType this)) coefficients
  end.

(** ** Row reduction *)

(** [gaussianElimination(matrix)]: forward elimination with partial pivoting;
    a zero pivot skips the column ([continue]). *)
Definition gaussianStep (this : MatrixOperations) (m n : nat) (i : nat) (result : Matrix)
  : outcome Matrix :=
  let pivotRow := findPivotRow result i m in
  let result1 := if (pivotRow =? i)%nat then result else swap_rows result i pivotRow in
  let pivot := cell result1 i i in
  if isZero pivot then Ret result1
  else
    foldM (fun j M =>
             let* factor := eliminationFactor (cell M j i) pivot in
             combineRow this i j i n factor M)
          (range (i + 1) m) result1.

Definition gaussianElimination (this : MatrixOperations) (matrix : Matrix)
  : outcome Matrix :=
  let m := List.length matrix in
  let n := List.length (nth 0 matrix []) in
  foldM (gaussianStep this m n) (range 0 (Nat.min m n)) (copyMatrix matrix).

(** [while (pivotRow < m && isZero(result[pivotRow][pivotCol])) pivotRow++] *)
Fixpoint firstNonZeroRow (result : Matrix) (pivotCol : nat) (rows : list nat) (m : nat)
  : nat :=
  match rows with
  | [] => m
  | r :: rows' =>
      if isZero (cell result r pivotCol)
      then firstNonZeroRow result pivotCol rows' m
      else r
  end.

(** One cell of a row scaling: [a /= pivot], exact when both are [Fraction]s,
    otherwise on numbers and converted back when [useFractions]. *)
Definition scaleDown (this : MatrixOperations) (a pivot : Scalar) : outcome Scalar :=
  match a, pivot with
  | SFrac fa, SFrac p => let* q := divide fa p in Ret (SFrac q)
  | _, _ =>
      let x := (toNumber a / toNumber pivot)%float in
      if useFractions this
      then let* f := toFraction_number x in Ret (SFrac f)
      else Ret (SNum x)
  end.

(** [result[i][j] /= pivot] for [j = pivotCol .. n-1] *)
Definition normalizeRow (this : MatrixOperations) (i pivotCol n : nat) (pivot : Scalar)
  (result : Matrix) : outcome Matrix :=
  foldM (fun j M =>
           let* v := scaleDown this (cell M i j) pivot in
           Ret (set_cell M i j v))
        (range pivotCol n) result.

(** [for (let j = 0; j < m; j++) if (j !== i && !isZero(result[j][pivotCol]))] *)
Definition eliminateOthers (this : MatrixOperations) (i pivotCol m n : nat)
  (result : Matrix) : outcome Matrix :=
  foldM (fun j M =>
           if negb (j =? i)%nat && negb (isZero (cell M j pivotCol))
           then combineRow this i j pivotCol n (cell M j pivotCol) M
           else Ret M)
        (range 0 m) result.

(** The loop of [reduceToRowEchelon].  Every iteration advances [pivotCol]
    (a column without pivot undoes the [i++] with [i--]), so the recursion is
    on the columns still to try; the loop ends when [i] reaches [m] or no
    column is left ([break]). *)
Fixpoint rowEchelonLoop (this : MatrixOperations) (m n : nat) (columns : list nat)
  (i : nat) (result : Matrix) : outcome Matrix :=
  match columns with
  | [] => Ret result
  | pivotCol :: columns' =>
      if (m <=? i)%nat then Ret result
      else
        let pivotRow := firstNonZeroRow result pivotCol (range i m) m in
        if (pivotRow =? m)%nat then rowEchelonLoop this m n columns' i result
        else
          let result1 := swap_rows result i pivotRow in
          let pivot := cell result1 i pivotCol in
          let* result2 := normalizeRow this i pivotCol n pivot result1 in
          let* result3 := eliminateOthers this i pivotCol m n result2 in
          rowEchelonLoop this m n columns' (i + 1) result3
  end.

Definition reduceToRowEchelon (this : MatrixOperations) (matrix : Matrix)
  : outcome Matrix :=
  let m := List.length matrix in
  let n := List.length (nth 0 matrix []) in
  rowEchelonLoop this m n (range 0 n) 0 (copyMatrix matrix).

(** [calculateRank(matrix)]: the rows with a non-zero entry among the first
    [matrix[0].length] columns. *)
Definition calculateRank (matrix : Matrix) : nat :=
  let n := List.length (nth 0 matrix []) in
  List.length
    (filter (fun i => existsb (fun j => negb (isZero (cell matrix i j))) (range 0 n))
            (range 0 (List.length matrix))).

(** [row.findIndex(val => !this.isZero(val))]; [None] is [-1]. *)
Fixpoint findIndexNonZero (row : Vector) (k : nat) : option nat :=
  match row with
  | [] => None
  | v :: row' => if isZero v then findIndexNonZero row' (S k) else Some k
  end.

(** [findPivotColumns(rref)] *)
Definition findPivotColumns (rref : Matrix) : list nat :=
  fst (fold_left
         (fun (acc : list nat * option nat) row =>
            let '(pivotColumns, lastPivotCol) := acc in
            match findIndexNonZero row 0 with
            | Some pivotIndex =>
                if match lastPivotCol with
                   | None => true
                   | Some l => (l <? pivotIndex)%nat
                   end
                then (pivotColumns ++ [pivotIndex], Some pivotIndex)
                else acc
            | None => acc
            end)
         rref ([], None)).

(** ** solveEquations *)

(** Back substitution of a known unknown: [sum -= coefficient * known],
    exact when all three are [Fraction]s. *)
Definition substitute (this : MatrixOperations) (sum coefficient known : Scalar)
  : outcome Scalar :=
  match sum, coefficient, known with
  | SFrac a, SFrac b, SFrac c =>
      let* p := multiply b c in
      let* r := subtract a p in Ret (SFrac r)
  | _, _, _ =>
      let x := (toNumber sum - toNumber coefficient * toNumber known)%float in
      if useFractions this
      then let* f := toFraction_number x in Ret (SFrac f)
      else Ret (SNum x)
  end.

(** [extractSolution(rref)]: rows from the last to the first. *)
Definition extractSolutionRow (this : MatrixOperations) (rref : Matrix) (n : nat)
  (i : nat) (solution : Vector) : outcome Vector :=
  match findIndexNonZero (nth i rref []) 0 with
  | None => Ret solution
  | Some pivotIndex =>
      let* sum :=
        foldM (fun j sum =>
                 let sj := nth j solution undefined in
                 if isZero sj then Ret sum
                 else substitute this sum (cell rref i j) sj)
              (range (pivotIndex + 1) n) (cell rref i n) in
      Ret (update solution pivotIndex sum)
  end.

Definition extractSolution (this : MatrixOperations) (rref : Matrix) : outcome Vector :=
  let n := (List.length (nth 0 rref []) - 1)%nat in
  foldM (extractSolutionRow this rref n)
        (rev (range 0 (List.length rref)))
        (repeat (SNum 0) n).

(** The pivot index of a row, when it is a coefficient column. *)
Definition coefficientPivot (rref : Matrix) (n i : nat) : option nat :=
  match findIndexNonZero (nth i rref []) 0 with
  | Some pivotIndex => if (pivotIndex <? n)%nat then Some pivotIndex else None
  | None => None
  end.

(** [findParticularSolutionAndBasis(rref)].  [round] and unary minus convert
    their operand to a number. *)
Definition findParticularSolutionAndBasis (rref : Matrix)
  : list number * list (list number) :=
  let m := List.length rref in
  let n := (List.length (nth 0 rref []) - 1)%nat in
  let rows := range 0 m in
  let pivotColumns :=
    flat_map (fun i => match coefficientPivot rref n i with
                       | Some p => [p]
                       | None => []
                       end) rows in
  let freeVariables :=
    filter (fun j => negb (existsb (Nat.eqb j) pivotColumns)) (range 0 n) in
  let particularSolution :=
    fold_left (fun sol i => match coefficientPivot rref n i with
                            | Some p => update sol p (cell rref i n)
                            | None => sol
                            end)
              rows (repeat (SNum 0) n) in
  let basisOf freeVar :=
    fold_left (fun basis i =>
                 match coefficientPivot rref n i with
                 | Some p =>
                     if (p =? freeVar)%nat then basis
                     else update basis p (SNum (- toNumber (cell rref i freeVar))%float)
                 | None => basis
                 end)
              rows (update (repeat (SNum 0) n) freeVar (SNum 1)) in
  (map (fun v => round v 6) particularSolution,
   map (fun freeVar => map (fun v => round v 6) (basisOf freeVar)) freeVariables).

Inductive SolutionType : Type := inconsistent | unique | infinite.

Record Solution : Type := mkSolution {
  type : SolutionType;
  rankA : nat;
  rankAugmented : nat;
  solution : option (list text);
  particularSolution : option (list text);
  basis : list (list text)
}.

Definition formatVector (this : MatrixOperations) (vec : Vector) : outcome (list text) :=
  mapM (fun v => formatNumber this (VScalar v) (formatType this)) vec.

Definition solveEquations (this : MatrixOperations) (matrix : Matrix) (vector : Vector)
  : outcome Solution :=
  match matrix, vector with
  | [], _ => Throw EmptyInput
  | _, [] => Throw EmptyInput
  | row0 :: _, _ =>
      if (List.length row0 =? 0)%nat then Throw ShapeError
      else
        let m := List.length matrix in
        let n := List.length row0 in
        if negb (m =? List.length vector)%nat then Throw ShapeError
        else
          let* processedMatrix := mapM (mapM (convertToAppropriateType this)) matrix in
          let* processedVector := mapM (convertToAppropriateType this) vector in
          let augmentedMatrix :=
            map (fun i => nth i processedMatrix [] ++ [nth i processedVector undefined])
                (range 0 m) in
          let* gaussMatrix := gaussianElimination this augmentedMatrix in
          let* rref := reduceToRowEchelon this gaussMatrix in
          let rankA := calculateRank (map (fun row => removelast row) rref) in
          let rankAugmented := calculateRank rref in
          if (rankA <? rankAugmented)%nat then
            Ret (mkSolution inconsistent rankA rankAugmented None None [])
          else if (rankA =? rankAugmented)%nat && (rankA =? n)%nat then
            let* solution := extractSolution this rref in
            let* formatted := formatVector this solution in
            Ret (mkSolution unique rankA rankAugmented (Some formatted) None [])
          else
            let '(partSol, basisSolutions) := findParticularSolutionAndBasis rref in
            let* formatted := formatVector this (map SNum partSol) in
            let* formattedBasis :=
              mapM (fun vec => formatVector this (map SNum vec)) basisSolutions in
            Ret (mkSolution infinite rankA rankAugmented None (Some formatted)
                            formattedBasis)
  end.

(** ** analyzeVectors *)

(** [calculateLinearRelation(vectors, pivotColumns)]: [return [];] *)
Definition calculateLinearRelation (vectors : list Vector) (pivotColumns : list nat)
  : list Vector := [].

Record Analysis : Type := mkAnalysis {
  rank : nat;
  isLinearlyIndependent : bool;
  basisVectors : list (list text);
  relation : list (list text)
}.

Definition formatVectors (this : MatrixOperations) (vecs : list Vector)
  : outcome (list (list text)) :=
  mapM (formatVector this) vecs.

Definition analyzeVectors (this : MatrixOperations) (vectors : list Vector)
  : outcome Analysis :=
  match vectors with
  | [] => Throw EmptyInput
  | v0 :: _ =>
      if (List.length v0 =? 0)%nat then Throw ShapeError
      else
        let n := List.length v0 in
        let* processedVectors := mapM (mapM (convertToAppropriateType this)) vectors in
        (* the vectors as the columns of a matrix *)
        let matrix :=
          map (fun i => map (fun j => cell processedVectors j i)
                            (range 0 (List.length processedVectors)))
              (range 0 n) in
        let* rref := reduceToRowEchelon this matrix in
        let rank := calculateRank rref in
        let independent := (rank =? List.length processedVectors)%nat in
        let basis :=
          if independent then processedVectors
          else map (fun colIndex => nth colIndex processedVectors [])
                   (findPivotColumns rref) in
        let relation :=
          if independent then []
          else calculateLinearRelation processedVectors (findPivotColumns rref) in
        let* formattedBasis := formatVectors this basis in
        let* formattedRelation := formatVectors this relation in
        Ret (mkAnalysis rank independent formattedBasis formattedRelation)
  end.

(** ** Vectors *)

(** [ToNumber] of a value; the conversion of a string is not modelled. *)
Definition value_toNumber (v : value) : outcome number :=
  match v with
  | VScalar s => Ret (toNumber s)
  | VStr _ => Beyond
  end.

(** [dotProduct(vector1, vector2)]: [product] starts as the number 0; a pair
    of [Fraction]s adds to a [Fraction] product and replaces any other. *)
Definition dotProduct (vector1 vector2 : Vector) : outcome value :=
  if negb (List.length vector1 =? List.length vector2)%nat then Throw ShapeError
  else
    foldM (fun i product =>
             match nth i vector1 undefined, nth i vector2 undefined with
             | SFrac a, SFrac b =>
                 let* temp := multiply a b in
                 match product with
                 | VScalar (SFrac p) => let* r := add p temp in Ret (VScalar (SFrac r))
                 | _ => Ret (VScalar (SFrac temp))
                 end
             | a, b => plusAssign product (SNum (toNumber a * toNumber b)%float)
             end)
          (range 0 (List.length vector1)) (VScalar (SNum 0)).

(** [scalarMultiply(vector, scalar)] *)
Definition scalarMultiply (this : MatrixOperations) (vector : Vector) (scalar : Scalar)
  : outcome Vector :=
  mapM (fun component =>
          match component, scalar with
          | SFrac c, SFrac s => let* r := multiply c s in Ret (SFrac r)
          | _, _ =>
              let result := (toNumber component * toNumber scalar)%float in
              if useFractions this
              then let* f := toFraction_number result in Ret (SFrac f)
              else Ret (SNum result)
          end)
       vector.

(** [addVectors(vector1, vector2)]: two [Fraction]s add exactly and two
    numbers add as numbers; [+] on a [Fraction] and a number concatenates
    their texts, which [toFraction] then reads as a [Fraction]. *)
Definition addVectors (this : MatrixOperations) (vector1 vector2 : Vector)
  : outcome Vector :=
  if negb (List.length vector1 =? List.length vector2)%nat then Throw ShapeError
  else
    mapM (fun index =>
            match nth index vector1 undefined, nth index vector2 undefined with
            | SFrac a, SFrac b => let* r := add a b in Ret (SFrac r)
            | SNum x, SNum y =>
                let result := (x + y)%float in
                if useFractions this
                then let* f := toFraction_number result in Ret (SFrac f)
                else Ret (SNum result)
            | a, b =>
                let* l := value_toString (VScalar a) in
                let* r := value_toString (VScalar b) in
                if useFractions this
                then let* f := Fraction_of_string (l ++ r)%string in Ret (SFrac f)
                else Beyond
            end)
         (range 0 (List.length vector1)).

(** [subtractVectors(vector1, vector2)] *)
Definition subtractVectors (this : MatrixOperations) (vector1 vector2 : Vector)
  : outcome Vector :=
  if negb (List.length vector1 =? List.length vector2)%nat then Throw ShapeError
  else
    mapM (fun index =>
            match nth index vector1 undefined, nth index vector2 undefined with
            | SFrac a, SFrac b => let* r := subtract a b in Ret (SFrac r)
            | a, b =>
                let result := (toNumber a - toNumber b)%float in
                if useFractions this
                then let* f := toFraction_number result in Ret (SFrac f)
                else Ret (SNum result)
            end)
         (range 0 (List.length vector1)).

(** [vectorNorm(vector)] *)
Definition vectorNorm (vector : Vector) : outcome number :=
  let* dot := dotProduct vector vector in
  match dot with
  | VScalar (SFrac f) => Ret (sqrt (toFloat f))
  | _ => let* x := value_toNumber dot in Ret (sqrt x)
  end.

(** [normalizeVector(vector)]:
    [return this.scalarMultiply(vector, 1 / this.vectorNorm(vector));] *)
Definition normalizeVector (this : MatrixOperations) (vector : Vector)
  : outcome Vector :=
  let* norm := vectorNorm vector in
  scalarMultiply this vector (SNum (1 / norm)%float).

(** ** schmidtOrthonormalization *)

(** The body of [for (let j = 0; j < i; j++)] *)
Definition subtractProjection (this : MatrixOperations) (v : Vector)
  (orthogonal : list Vector) (j : nat) (u : Vector) : outcome Vector :=
  let orth := nth j orthogonal [] in
  let* dot := dotProduct v orth in
  let* normSq := dotProduct orth orth in
  let* d := value_toNumber dot in
  let* ns := value_toNumber normSq in
  let* proj := scalarMultiply this orth (SNum (d / ns)%float) in
  subtractVectors this u proj.

(** The body of [for (let i = 0; i < n; i++)] *)
Definition schmidtStep (this : MatrixOperations) (processedVectors : list Vector)
  (i : nat) (state : list Vector * list Vector)
  : outcome (list Vector * list Vector) :=
  let '(orthogonal, orthonormal) := state in
  let v := nth i processedVectors [] in
  let* u := foldM (subtractProjection this v orthogonal) (range 0 i) v in
  let orthogonal' := orthogonal ++ [u] in
  let* norm := vectorNorm u in
  if negb (isZero (SNum norm))
  then let* e := scalarMultiply this u (SNum (1 / norm)%float) in
       Ret (orthogonal', orthonormal ++ [e])
  else Ret (orthogonal', orthonormal).

Record Schmidt : Type := mkSchmidt {
  orthogonal : list (list text);
  orthonormal : list (list text)
}.

Definition schmidtOrthonormalization (this : MatrixOperations) (vectors : list Vector)
  : outcome Schmidt :=
  match vectors with
  | [] => Throw EmptyInput
  | v0 :: _ =>
      if (List.length v0 =? 0)%nat then Throw ShapeError
      else
        let n := List.length vectors in
        let* processedVectors := mapM (mapM (convertToAppropriateType this)) vectors in
        let* (orthogonal, orthonormal) :=
          foldM (schmidtStep this processedVectors) (range 0 n) ([], []) in
        let* formattedOrthogonal := formatVectors this orthogonal in
        let* formattedOrthonormal := formatVectors this orthonormal in
        Ret (mkSchmidt formattedOrthogonal formattedOrthonormal)
  end.

(** ** calculateInverse, multiplyMatrices: the operations on one entry *)

(** [product = factor * b]: exact on two [Fraction]s, otherwise on numbers
    and converted back when [useFractions] ([calculateInverse],
    [multiplyMatrices]). *)
Definition productOf (this : MatrixOperations) (factor b : Scalar) : outcome Scalar :=
  match factor, b with
  | SFrac ff, SFrac fb => let* p := multiply ff fb in Ret (SFrac p)
  | _, _ =>
      let x := (toNumber factor * toNumber b)%float in
      if useFractions this
      then let* f := toFraction_number x in Ret (SFrac f)
      else Ret (SNum x)
  end.

(** [a -= product] of [calculateInverse] *)
Definition minus (this : MatrixOperations) (a product : Scalar) : outcome Scalar :=
  match a, product with
  | SFrac fa, SFrac fp => let* r := subtract fa fp in Ret (SFrac r)
  | _, _ =>
      let x := (toNumber a - toNumber product)%float in
      if useFractions this
      then let* f := toFraction_number x in Ret (SFrac f)
      else Ret (SNum x)
  end.

(** [r += product] of [multiplyMatrices]: exact on two [Fraction]s, a sum of
    two numbers; [+] on a number and a [Fraction] concatenates their texts,
    and an entry that is a text is not modelled. *)
Definition accumulate (r product : Scalar) : outcome Scalar :=
  match r, product with
  | SFrac fr, SFrac fp => let* s := add fr fp in Ret (SFrac s)
  | SNum x, SNum y => Ret (SNum (x + y)%float)
  | _, _ => Beyond
  end.

(** [new Array(n).fill(0).map((_, idx) => convert(idx === i ? 1 : 0))] *)
Definition identityRow (this : MatrixOperations) (n i : nat) : outcome Vector :=
  mapM (fun idx => convertToAppropriateType this (SNum (if (idx =? i)%nat then 1 else 0)))
       (range 0 n).

(** [createIdentityMatrix(size)]: rows of the number 0 with the number 1 on
    the diagonal *)
Definition createIdentityMatrix (size : nat) : Matrix :=
  map (fun i => map (fun j => SNum (if (j =? i)%nat then 1 else 0)) (range 0 size))
      (range 0 size).

(** ** multiplyMatrices *)

(** [multiplyMatrices(matrix1, matrix2)]: the entries of the result start at
    zero, a [Fraction] when [useFractions], and collect the products
    [matrix1[i][k] * matrix2[k][j]] for [k = 0 .. cols1 - 1]. *)
Definition multiplyMatrices (this : MatrixOperations) (matrix1 matrix2 : Matrix)
  : outcome (list (list text)) :=
  match matrix1, matrix2 with
  | [], _ => Throw EmptyInput
  | _, [] => Throw EmptyInput
  | first1 :: _, first2 :: _ =>
      if (List.length first1 =? 0)%nat then Throw ShapeError
      else if (List.length first2 =? 0)%nat then Throw ShapeError
      else
        let rows1 := List.length matrix1 in
        let cols1 := List.length first1 in
        let rows2 := List.length matrix2 in
        let cols2 := List.length first2 in
        if negb (cols1 =? rows2)%nat then Throw ShapeError
        else
          let* processedMatrix1 := mapM (mapM (convertToAppropriateType this)) matrix1 in
          let* processedMatrix2 := mapM (mapM (convertToAppropriateType this)) matrix2 in
          let* zero :=
            if useFractions this
            then let* f := Fraction_of_number 0 in Ret (SFrac f)
            else Ret (SNum 0) in
          let* result :=
            foldM (fun i result =>
                     foldM (fun j result =>
                              foldM (fun k result =>
                                       let* product :=
                                         productOf this (cell processedMatrix1 i k)
                                                   (cell processedMatrix2 k j) in
                                       let* v := accumulate (cell result i j) product in
                                       Ret (set_cell result i j v))
                                    (range 0 cols1) result)
                           (range 0 cols2) result)
                  (range 0 rows1) (repeat (repeat zero cols2) rows1) in
          formatVectors this result
  end.

(** ** calculateInverse *)

(** The body of [for (let i = 0; i < n; i++)] of the Gauss-Jordan loop: the
    pivot search in column [i], the swap, the division of row [i] by the
    pivot, and the elimination of column [i] from every other row, each on
    all [2n] columns. *)
Definition inverseStep (this : MatrixOperations) (n : nat) (i : nat) (augMatrix : Matrix)
  : outcome Matrix :=
  let pivotRow := findPivotRow augMatrix i n in
  let augMatrix1 :=
    if (pivotRow =? i)%nat then augMatrix else swap_rows augMatrix i pivotRow in
  let pivot := cell augMatrix1 i i in
  if isZero pivot then Throw NotInvertible
  else
    let* augMatrix2 := normalizeRow this i 0 (2 * n) pivot augMatrix1 in
    foldM (fun j augMatrix =>
             if (j =? i)%nat then Ret augMatrix
             else
               let factor := cell augMatrix j i in
               foldM (fun k augMatrix =>
                        let* product := productOf this factor (cell augMatrix i k) in
                        let* v := minus this (cell augMatrix j k) product in
                        Ret (set_cell augMatrix j k v))
                     (range 0 (2 * n)) augMatrix)
          (range 0 n) augMatrix2.

(** [calculateInverse(matrix)]: Gauss-Jordan elimination on [A | I]; the
    result is the right half, formatted. *)
Definition calculateInverse (this : MatrixOperations) (matrix : Matrix)
  : outcome (list (list text)) :=
  match matrix with
  | [] => Throw EmptyInput
  | row0 :: _ =>
      if (List.length row0 =? 0)%nat then Throw ShapeError
      else
        let n := List.length matrix in
        if negb (n =? List.length row0)%nat then Throw ShapeError
        else
          let* augMatrix :=
            mapM (fun i =>
                    let* row := mapM (convertToAppropriateType this) (nth i matrix []) in
                    let* unitRow := identityRow this n i in
                    Ret (row ++ unitRow))
                 (range 0 n) in
          let* reduced := foldM (inverseStep this n) (range 0 n) augMatrix in
          let inverseMatrix := map (fun i => skipn n (nth i reduced [])) (range 0 n) in
          formatVectors this inverseMatrix
  end.

(** ** setFormatType, getFormatType *)

(** The format named by a string kept in [this.formatType]. *)
Definition formatOfString (formatType : string) : FormatType :=
  if String.eqb formatType "integer" then integer
  else if String.eqb formatType "rational" then rational
  else otherFormat.

(** [setFormatType(formatType)]: the object after the call *)
Definition setFormatType (this : MatrixOperations) (formatType : string)
  : MatrixOperations :=
  if String.eqb formatType "integer"
  then mkEngine (precision this) (useFractions this) integer
  else if String.eqb formatType "decimal"
  then mkEngine (precision this) false rational
  else if String.eqb formatType "fraction"
  then mkEngine (precision this) true rational
  else mkEngine (precision this) (useFractions this) (formatOfString formatType).

(** [getFormatType()] *)
Definition getFormatType (this : MatrixOperations) : FormatType := formatType this.

(** ** LaTeX *)

(** [s.replace(/c/g, by)] for a character [c] and a replacement without [$] patterns *)
Fixpoint replaceAll (c : ascii) (by_ : string) (s : string) : string :=
  match s with
  | EmptyString => EmptyString
  | String a s' =>
      if Ascii.eqb a c then (by_ ++ replaceAll c by_ s')%string
      else String a (replaceAll c by_ s')
  end.

(** [formatStringToLatex(text)]: nine replacements in turn.  The replacement
    text [\$] ends in a [$] that no pattern character follows, so it is
    inserted as it stands. *)
Definition formatStringToLatex (text : string) : string :=
  replaceAll "~" "\~"
    (replaceAll "^" "\^"
       (replaceAll "_" "\_"
          (replaceAll "#" "\#"
             (replaceAll "$" "\$"
                (replaceAll "%" "\%"
                   (replaceAll "<" "\lt"
                      (replaceAll ">" "\gt"
                         (replaceAll "&" "\&" text)))))))).

(** [text.includes(word)] *)
Fixpoint includes (word text : string) : bool :=
  String.prefix word text
  || match text with
     | EmptyString => false
     | String _ text' => includes word text'
     end.

Definition latexMarkers : list string :=
  ["\begin"; "\end"; "\frac"; "\sqrt"; "\sum"; "\prod"; "\int"; "\lim"; "\log";
   "\sin"; "\cos"; "\tan"]%string.

(** [containsLatexMarkers(text)]: the regular expression is an alternation
    of these twelve words. *)
Definition containsLatexMarkers (text : string) : bool :=
  existsb (fun word => includes word text) latexMarkers.

Definition startsWith (text : string) (c : ascii) : bool :=
  match text with
  | String a _ => Ascii.eqb a c
  | EmptyString => false
  end.

Fixpoint endsWith (text : string) (c : ascii) : bool :=
  match text with
  | EmptyString => false
  | String a EmptyString => Ascii.eqb a c
  | String _ text' => endsWith text' c
  end.

(** [autoWrapMath(text)] *)
Definition autoWrapMath (text : string) : string :=
  if containsLatexMarkers text
  then if negb (startsWith text "$") && negb (endsWith text "$")
       then ("$" ++ text ++ "$")%string
       else text
  else text.

(** The string that [formatNumber] returns; a number that is not an integer
    prints in a form that is not modelled. *)
Definition formatted (this : MatrixOperations) (v : Scalar) (fmt : FormatType)
  : outcome string :=
  let* t := formatNumber this (VScalar v) fmt in
  match t with
  | Text s => Ret s
  | Printed _ | Fixed _ _ => Beyond
  end.

(** [vectorToLatex(vector)] *)
Definition vectorToLatex (this : MatrixOperations) (vector : Vector) : outcome string :=
  let formatType := getFormatType this in
  let* entries := mapM (fun v => formatted this v formatType) vector in
  Ret ("\begin{pmatrix}" ++ String.concat "\\" entries ++ "\end{pmatrix}")%string.

(** [matrixToLatex(matrix)] *)
Definition matrixToLatex (this : MatrixOperations) (matrix : Matrix) : outcome string :=
  let formatType := getFormatType this in
  let* lines :=
    mapM (fun row =>
            let* entries := mapM (fun col => formatted this col formatType) row in
            Ret (String.concat " & " entries))
         matrix in
  Ret ("\begin{pmatrix}" ++ String.concat "\\" lines ++ "\end{pmatrix}")%string.

(** [numberToLatex(num)]: every [/] of the formatted number becomes the
    seven characters [\\frac{]. *)
Definition numberToLatex (this : MatrixOperations) (num : Scalar) : outcome string :=
  let* s := formatted this num (getFormatType this) in
  Ret (replaceAll "/" "\\frac{" s).

End New.

(* ================================================================== *)
(** * lib/matrix-operations-old.js *)

Module Old.
Import JS Data.

(** ** class Fraction *)

(** [static gcd(a, b)]: [a = Math.abs(a); b = Math.abs(b);] and the loop *)
Definition gcd (a b : Z) : Z :=
  gcd_loop (gcd_fuel (Z.abs b)) (Z.abs a) (Z.abs b).

(** [reduce()]: both fields divided by their gcd, with [Math.floor] *)
Definition reduce (f : Fraction) : Fraction :=
  let commonDivisor := gcd (numerator f) (denominator f) in
  mkFraction (numerator f / commonDivisor) (denominator f / commonDivisor).

(** [constructor(numerator, denominator = 1)] on two integers:
    [this.numerator = parseInt(numerator, 10) || 0;]
    [this.denominator = parseInt(denominator, 10) || 1;]
    the sign moved to the numerator, then [reduce()]. *)
Definition Fraction_new (numerator denominator : Z) : Fraction :=
  let n := numerator in
  let d := if denominator =? 0 then 1 else denominator in
  reduce (if d <? 0 then mkFraction (- n) (- d) else mkFraction n d).

(** [parseInt(x, 10)] is [NaN] for no integer; [NaN || d] is [d]. *)
Definition orElse (parsed : option Z) (d : Z) : Z :=
  match parsed with
  | Some z => z
  | None => d
  end.

(** [new Fraction(s)] on a string: [s.split('/')] *)
Definition Fraction_of_string (s : string) : Fraction :=
  match split_slash s with
  | [p; q] => Fraction_new (orElse (parseInt10 p) 0) (orElse (parseInt10 q) 1)
  | _ => Fraction_new (orElse (parseInt10 s) 0) 1
  end.

(** [parseInt(x, 10)] on a number reads the decimal rendering of [x]: the
    integer part of a number printed in plain decimal (an integer below 1e21,
    or a magnitude of at least 1e-6); NaN and the infinities give NaN.
    Numbers printed in exponent notation are not modelled. *)
Definition parseInt_number (x : number) : outcome (option Z) :=
  match toZ x with
  | Some z => if Z.abs z <? 10 ^ 21 then Ret (Some z) else Beyond
  | None =>
      if negb (is_finite x) then Ret None
      else if lt (abs x) 1e-6 || negb (lt (abs x) 1e21) then Beyond
      else match floorZ (abs x) with
           | Some z => Ret (Some (if lt x 0 then - z else z))
           | None => Beyond
           end
  end.

(** [new Fraction(x, y)] on two numbers *)
Definition Fraction_of_numbers (x y : number) : outcome Fraction :=
  let* n := parseInt_number x in
  let* d := parseInt_number y in
  Ret (Fraction_new (orElse n 0) (orElse d 1)).

Definition Fraction_of_number (x : number) : outcome Fraction :=
  Fraction_of_numbers x 1.

(** The loop of [fromFloat]: at most [maxIterations = 20] rounds of
    [reciprocal = 1 / remainder; floor = Math.floor(reciprocal); ...] while
    [remainder > Math.pow(10, -precision)]. *)
Fixpoint fromFloat_loop (iterationsLeft : nat) (precision : Z)
  (numerator denominator tempNumerator tempDenominator remainder : number)
  : number * number :=
  match iterationsLeft with
  | O => (numerator, denominator)
  | S iterationsLeft' =>
      if gt remainder (pow10 (- precision)) then
        let reciprocal := (1 / remainder)%float in
        let floor := Math_floor reciprocal in
        let newNumerator := (floor * numerator + tempNumerator)%float in
        let newDenominator := (floor * denominator + tempDenominator)%float in
        fromFloat_loop iterationsLeft' precision newNumerator newDenominator
                       numerator denominator (reciprocal - floor)%float
      else (numerator, denominator)
  end.

(** [static fromFloat(value, precision = 10)] *)
Definition fromFloat (value : number) (precision : Z) : outcome Fraction :=
  if Number_isInteger value then Fraction_of_numbers value 1
  else
    let floor := Math_floor value in
    let remainder := (value - floor)%float in
    let '(numerator, denominator) :=
      fromFloat_loop 20 precision 1 0 0 1 remainder in
    let numerator' := if lt value 0 then (- numerator)%float else numerator in
    Fraction_of_numbers numerator' denominator.

(** [add], [subtract], [multiply] on a [Fraction] operand *)
Definition add (a b : Fraction) : Fraction :=
  Fraction_new (numerator a * denominator b + numerator b * denominator a)
               (denominator a * denominator b).

Definition subtract (a b : Fraction) : Fraction :=
  Fraction_new (numerator a * denominator b - numerator b * denominator a)
               (denominator a * denominator b).

Definition multiply (a b : Fraction) : Fraction :=
  Fraction_new (numerator a * numerator b) (denominator a * denominator b).

(** [divide(other)]: [if (other.numerator === 0) throw new Error(...)] *)
Definition divide (a b : Fraction) : outcome Fraction :=
  if numerator b =? 0 then Throw DivisionByZero
  else Ret (Fraction_new (numerator a * denominator b) (denominator a * numerator b)).

(** [toString(forceFraction = false)] *)
Definition toString (f : Fraction) : string :=
  if denominator f =? 1 then Z_toString (numerator f)
  else if numerator f <? 0
       then ("-" ++ Z_toString (Z.abs (numerator f)) ++ "/"
             ++ Z_toString (denominator f))%string
       else (Z_toString (numerator f) ++ "/" ++ Z_toString (denominator f))%string.

(** ** Scalars *)

(** [_normalizeOperand(operand)] *)
Definition normalizeOperand (operand : Scalar) : outcome Fraction :=
  match operand with
  | SFrac f => Ret f
  | SNum x => Fraction_of_number x
  end.

(** ** class MatrixOperations *)

Inductive FormatType : Type := integer | rational.

Record MatrixOperations : Type := mkEngine {
  precision : Z;
  useFractions : bool;
  formatType : FormatType
}.

Definition engine : MatrixOperations := mkEngine 10 true rational.
Definition decimalEngine : MatrixOperations := mkEngine 10 false rational.

(** [toFraction(value)]: [Fraction.fromFloat(value, this.precision)] *)
Definition toFraction (this : MatrixOperations) (value : number) : outcome Fraction :=
  fromFloat value (precision this).

(** [round(num)]: a [Fraction] is kept; a number is rounded to [precision]
    decimals. *)
Definition round (this : MatrixOperations) (num : Scalar) : Scalar :=
  match num with
  | SFrac f => SFrac f
  | SNum x =>
      SNum (Math_round (x * pow10 (precision this)) / pow10 (precision this))%float
  end.

(** [convertToAppropriateType(value)] (the later of the two definitions of
    the class, which is the one in force) on a number or a [Fraction] *)
Definition convertToAppropriateType (this : MatrixOperations) (value : Scalar)
  : outcome Scalar :=
  match value with
  | SFrac f => Ret (SFrac f)
  | SNum x =>
      if useFractions this
      then let* f := toFraction this x in Ret (SFrac f)
      else Ret (SNum x)
  end.

Definition isZeroScalar (value : Scalar) : bool :=
  match value with
  | SFrac f => numerator f =? 0
  | SNum x => lt (abs x) 1e-10
  end.

(** ** calculateDeterminant *)

(** [factor]: both [Fraction]s divide exactly; otherwise the quotient of the
    numbers, turned into a [Fraction] when [useFractions]. *)
Definition quotient (this : MatrixOperations) (a b : Scalar) : outcome Scalar :=
  match a, b with
  | SFrac fa, SFrac fb => let* q := divide fa fb in Ret (SFrac q)
  | _, _ =>
      let x := (toNumber a / toNumber b)%float in
      if useFractions this
      then let* f := toFraction this x in Ret (SFrac f)
      else Ret (SNum x)
  end.

(** [product = factor * b] *)
Definition product (this : MatrixOperations) (factor b : Scalar) : outcome Scalar :=
  match factor, b with
  | SFrac ff, SFrac fb => Ret (SFrac (multiply ff fb))
  | SNum x, SNum y =>
      if useFractions this
      then let* f := toFraction this (x * y)%float in Ret (SFrac f)
      else Ret (SNum (x * y)%float)
  | _, _ => Ret (SNum (toNumber factor * toNumber b)%float)
  end.

(** [a = a - product], without rounding ([calculateDeterminant]) *)
Definition difference (this : MatrixOperations) (a p : Scalar) : outcome Scalar :=
  match a, p with
  | SFrac fa, SFrac fp => Ret (SFrac (subtract fa fp))
  | _, _ =>
      let x := (toNumber a - toNumber p)%float in
      if useFractions this
      then let* f := toFraction this x in Ret (SFrac f)
      else Ret (SNum x)
  end.

(** The body of [for (let j = i + 1; j < n; j++)] *)
Definition eliminateBelow (this : MatrixOperations) (i n : nat) (j : nat) (M : Matrix)
  : outcome Matrix :=
  let* factor := quotient this (cell M j i) (cell M i i) in
  foldM (fun k M =>
           let* p := product this factor (cell M i k) in
           let* v := difference this (cell M j k) p in
           Ret (set_cell M j k v))
        (range i n) M.

(** The elimination loop; [None] is the early
    [return { result: new Fraction(0), steps }] on a zero pivot. *)
Fixpoint determinantLoop (this : MatrixOperations) (n : nat) (columns : list nat)
  (M : Matrix) (swapCount : nat) : outcome (option (Matrix * nat)) :=
  match columns with
  | [] => Ret (Some (M, swapCount))
  | i :: columns' =>
      let pivotRow := findPivotRow M i n in
      let M1 := if (pivotRow =? i)%nat then M else swap_rows M i pivotRow in
      let swapCount1 := if (pivotRow =? i)%nat then swapCount else S swapCount in
      if isZeroScalar (cell M1 i i) then Ret None
      else
        let* M2 := foldM (eliminateBelow this i n) (range (i + 1) n) M1 in
        determinantLoop this n columns' M2 swapCount1
  end.

(** [result = new Fraction(1); for (i) result = result.multiply(M[i][i])] *)
Definition diagonalProduct (M : Matrix) (n : nat) : outcome Fraction :=
  foldM (fun i result =>
           let* d := normalizeOperand (cell M i i) in
           Ret (multiply result d))
        (range 0 n) (Fraction_new 1 1).

Definition calculateDeterminant (this : MatrixOperations) (matrix : Matrix)
  : outcome Scalar :=
  match matrix with
  | [] => Throw EmptyInput
  | row0 :: _ =>
      if (List.length row0 =? 0)%nat then Throw ShapeError
      else
        let n := List.length matrix in
        if negb (List.length row0 =? n)%nat then Throw ShapeError
        else if negb (forallb (fun row => (List.length row =? n)%nat) matrix)
        then Throw ShapeError
        else if (n =? 1)%nat then convertToAppropriateType this (cell matrix 0 0)
        else
          let* detMatrix := mapM (mapM (convertToAppropriateType this)) matrix in
          let* r := determinantLoop this n (range 0 n) detMatrix 0 in
          match r with
          | None => Ret (SFrac (Fraction_new 0 1))
          | Some (M, swapCount) =>
              let* result := diagonalProduct M n in
              Ret (SFrac (if Nat.odd swapCount
                          then multiply result (Fraction_new (-1) 1)
                          else result))
          end
  end.

(** ** calculateCharacteristicPolynomial *)

(** [generateCombinations(arr, r)]: the combinations with [arr[0]], then the
    ones without it. *)
Fixpoint generateCombinations {A : Type} (arr : list A) (r : nat) : list (list A) :=
  match r with
  | O => [[]]
  | S r' =>
      match arr with
      | [] => []
      | first :: rest =>
          map (cons first) (generateCombinations rest r')
          ++ generateCombinations rest r
      end
  end.

(** [new Fraction(value)] on a [Fraction] object: the constructor reads
    [parseInt(value, 10)], that is [parseInt(value.toString(), 10)]. *)
Definition Fraction_of_Fraction (value : Fraction) : Fraction :=
  Fraction_new (orElse (parseInt10 (toString value)) 0) 1.

(** [extractPrincipalMinor(matrix, indices)]:
    [row.push(value instanceof Fraction ? new Fraction(value) : value)] *)
Definition extractPrincipalMinor (M : Matrix) (indices : list nat) : Matrix :=
  map (fun i =>
         map (fun j => match cell M i j with
                       | SFrac f => SFrac (Fraction_of_Fraction f)
                       | SNum x => SNum x
                       end)
             indices)
      indices.

(** [sum = sum.add(det)] with [useFractions], else [sum += det]; the
    concatenation that [+] performs on a [Fraction] is not modelled. *)
Definition accumulate (this : MatrixOperations) (sum det : Scalar) : outcome Scalar :=
  if useFractions this then
    match sum with
    | SFrac s => let* d := normalizeOperand det in Ret (SFrac (add s d))
    | SNum _ => Throw TypeError
    end
  else
    match sum, det with
    | SNum a, SNum b => Ret (SNum (a + b)%float)
    | _, _ => Beyond
    end.

(** [calculatePrincipalMinorsSum(matrix, r)] *)
Definition calculatePrincipalMinorsSum (this : MatrixOperations) (matrix : Matrix)
  (r : nat) : outcome Scalar :=
  if (r =? 0)%nat then Ret (SNum 1)
  else
    let n := List.length matrix in
    let combinations := generateCombinations (range 0 n) r in
    let* processedMatrix := mapM (mapM (convertToAppropriateType this)) matrix in
    foldM (fun combo sum =>
             let minor := extractPrincipalMinor processedMatrix combo in
             let* det := calculateDeterminant this minor in
             accumulate this sum det)
          combinations
          (if useFractions this then SFrac (Fraction_new 0 1) else SNum 0).

(** The sign [(-1)^r] of a coefficient *)
Definition signedCoefficient (r : nat) (minorsSum : Scalar) : Scalar :=
  match minorsSum with
  | SFrac s => if Nat.even r then SFrac s else SFrac (multiply (Fraction_new (-1) 1) s)
  | SNum x => SNum (x * (if Nat.even r then 1 else -1))%float
  end.

(** The coefficients of [calculateCharacteristicPolynomial(matrix)], from the
    leading one down. *)
Definition calculateCharacteristicPolynomial (this : MatrixOperations) (matrix : Matrix)
  : outcome (list Scalar) :=
  match matrix with
  | [] => Throw EmptyInput
  | row0 :: _ =>
      let n := List.length matrix in
      if negb (List.length row0 =? n)%nat then Throw ShapeError
      else
        let* inputMatrix := mapM (mapM (convertToAppropriateType this)) matrix in
        if (n =? 2)%nat then
          (* x^2 - tr(A) x + det(A) *)
          let a := cell inputMatrix 0 0 in
          let b := cell inputMatrix 0 1 in
          let c := cell inputMatrix 1 0 in
          let d := cell inputMatrix 1 1 in
          match a with
          | SFrac fa =>
              let* fd := normalizeOperand d in
              match b with
              | SFrac fb =>
                  let* fc := normalizeOperand c in
                  let trace := add fa fd in
                  let det := subtract (multiply fa fd) (multiply fb fc) in
                  Ret [SNum 1; SFrac (multiply trace (Fraction_new (-1) 1)); SFrac det]
              | SNum _ => Throw TypeError
              end
          | SNum xa =>
              let trace := (xa + toNumber d)%float in
              let det := (xa * toNumber d - toNumber b * toNumber c)%float in
              Ret [SNum 1; SNum (- trace)%float; SNum det]
          end
        else
          let* coefficients :=
            mapM (fun r =>
                    let* minorsSum := calculatePrincipalMinorsSum this inputMatrix r in
                    Ret (signedCoefficient r minorsSum))
                 (range 1 (n + 1)) in
          Ret (SNum 1 :: coefficients)
  end.

(** ** analyzeVectors *)

(** [for (let k = j; k < m; k++) if (|M[i][k]| > |M[i][pivotCol]|) pivotCol = k] *)
Definition findPivotCol (M : Matrix) (i j m : nat) : nat :=
  fold_left
    (fun pivotCol k =>
       if gt (absOf (cell M i k)) (absOf (cell M i pivotCol)) then k else pivotCol)
    (range j m) j.

(** [[M[k][j], M[k][p]] = [M[k][p], M[k][j]]] for every row [k] *)
Definition swap_columns (M : Matrix) (n j p : nat) : Matrix :=
  fold_left (fun M k => set_cell (set_cell M k j (cell M k p)) k p (cell M k j))
            (range 0 n) M.

(** The quotients and differences of [analyzeVectors] round a number with
    [this.round]. *)
Definition roundedQuotient (this : MatrixOperations) (a pivot : Scalar) : outcome Scalar :=
  match a, pivot with
  | SFrac fa, SFrac fp => let* q := divide fa fp in Ret (SFrac q)
  | _, _ =>
      match round this (SNum (toNumber a / toNumber pivot)%float) with
      | SNum x =>
          if useFractions this
          then let* f := toFraction this x in Ret (SFrac f)
          else Ret (SNum x)
      | SFrac f => Ret (SFrac f)
      end
  end.

Definition roundedDifference (this : MatrixOperations) (a p : Scalar) : outcome Scalar :=
  match a, p with
  | SFrac fa, SFrac fp => Ret (SFrac (subtract fa fp))
  | _, _ =>
      match round this (SNum (toNumber a - toNumber p)%float) with
      | SNum x =>
          if useFractions this
          then let* f := toFraction this x in Ret (SFrac f)
          else Ret (SNum x)
      | SFrac f => Ret (SFrac f)
      end
  end.

Definition isNonZero (value : Scalar) : bool :=
  match value with
  | SFrac f => negb (numerator f =? 0)
  | SNum x => gt (abs x) 1e-10
  end.

(** The body of [for (let k = 0; k < m; k++) if (k !== j)]: column [k] minus
    [factor] times column [j], on the rows [i .. n-1]. *)
Definition eliminateColumn (this : MatrixOperations) (i j n : nat) (k : nat) (M : Matrix)
  : outcome Matrix :=
  if (k =? j)%nat then Ret M
  else if negb (isNonZero (cell M i k)) then Ret M
  else
    let* factor := quotient this (cell M i k) (cell M i j) in
    foldM (fun l M =>
             let* p := product this factor (cell M l j) in
             let* v := roundedDifference this (cell M l k) p in
             Ret (set_cell M l k v))
          (range i n) M.

(** The loop [for (let i = 0, j = 0; i < n && j < m; i++)]: the state is the
    matrix, [j] (also the rank and the number of pivot columns) and the
    original index of each column. *)
Fixpoint analyzeLoop (this : MatrixOperations) (n m : nat) (rows : list nat)
  (M : Matrix) (j : nat) (columnIndices : list nat)
  : outcome (Matrix * nat * list nat) :=
  match rows with
  | [] => Ret (M, j, columnIndices)
  | i :: rows' =>
      if (m <=? j)%nat then Ret (M, j, columnIndices)
      else
        let pivotCol := findPivotCol M i j m in
        if isZeroScalar (cell M i pivotCol)
        then analyzeLoop this n m rows' M j columnIndices
        else
          let M1 := if (pivotCol =? j)%nat then M else swap_columns M n j pivotCol in
          let columnIndices1 :=
            if (pivotCol =? j)%nat then columnIndices
            else update (update columnIndices j (nth pivotCol columnIndices O))
                        pivotCol (nth j columnIndices O) in
          let pivot := cell M1 i j in
          let* M2 :=
            foldM (fun k M =>
                     let* v := roundedQuotient this (cell M k j) pivot in
                     Ret (set_cell M k j v))
                  (range i n) M1 in
          let* M3 := foldM (eliminateColumn this i j n) (range 0 m) M2 in
          analyzeLoop this n m rows' M3 (S j) columnIndices1
  end.

Record Analysis : Type := mkAnalysis {
  isLinearlyIndependent : bool;
  rank : nat;
  maxIndependentSet : list Vector;
  pivotColumns : list nat
}.

(** Equality of two entries under [JSON.stringify] *)
Definition json_eqb (a b : Scalar) : bool :=
  match a, b with
  | SFrac f, SFrac g =>
      (numerator f =? numerator g) && (denominator f =? denominator g)
  | SNum x, SNum y => (x =? y)%float || (negb (is_finite x) && negb (is_finite y))
  | _, _ => false
  end.

Fixpoint vector_json_eqb (u v : Vector) : bool :=
  match u, v with
  | [], [] => true
  | a :: u', b :: v' => json_eqb a b && vector_json_eqb u' v'
  | _, _ => false
  end.

(** [.filter((vec, index, self) => self.findIndex(v => same(v, vec)) === index)] *)
Fixpoint dedupe (seen : list Vector) (vecs : list Vector) : list Vector :=
  match vecs with
  | [] => []
  | v :: vecs' =>
      if existsb (vector_json_eqb v) seen then dedupe seen vecs'
      else v :: dedupe (seen ++ [v]) vecs'
  end.

Definition analyzeVectors (this : MatrixOperations) (vectors : list Vector)
  : outcome Analysis :=
  match vectors with
  | [] => Throw EmptyInput
  | v0 :: _ =>
      if (List.length v0 =? 0)%nat then Throw ShapeError
      else
        let m := List.length vectors in
        let n := List.length v0 in
        if negb (forallb (fun v => (List.length v =? n)%nat) vectors)
        then Throw ShapeError
        else
          let* matrix :=
            mapM (fun i => mapM (fun j => convertToAppropriateType this (cell vectors j i))
                                (range 0 m))
                 (range 0 n) in
          let* (M, rank, columnIndices) :=
            analyzeLoop this n m (range 0 n) matrix 0 (range 0 m) in
          let maxIndependentSet :=
            dedupe [] (map (fun colIndex => nth (nth colIndex columnIndices O) vectors [])
                           (range 0 rank)) in
          Ret (mkAnalysis (rank =? m)%nat rank maxIndependentSet
                          (map S (range 0 rank)))
  end.

(** ** Vectors *)

(** The product of two converted entries, in [dotProduct] and
    [scalarMultiply]: a [Fraction] multiplies the other operand as a
    [Fraction]; two numbers multiply as numbers. *)
Definition times (this : MatrixOperations) (v1 v2 : Scalar) : outcome Scalar :=
  match v1, v2 with
  | SFrac a, _ => let* b := normalizeOperand v2 in Ret (SFrac (multiply a b))
  | SNum _, SFrac b => let* a := normalizeOperand v1 in Ret (SFrac (multiply b a))
  | SNum x, SNum y =>
      if useFractions this
      then let* f := toFraction this (x * y)%float in Ret (SFrac f)
      else Ret (SNum (x * y)%float)
  end.

(** [result = result.add(product)] or [result += product]; [+] on a number
    and a [Fraction] concatenates text, which is not modelled. *)
Definition plus (result term : Scalar) : outcome Scalar :=
  match result, term with
  | SFrac r, _ => let* t := normalizeOperand term in Ret (SFrac (add r t))
  | SNum x, SNum y => Ret (SNum (x + y)%float)
  | SNum _, SFrac _ => Beyond
  end.

Definition zeroOf (this : MatrixOperations) : Scalar :=
  if useFractions this then SFrac (Fraction_new 0 1) else SNum 0.

(** [dotProduct(vector1, vector2)] *)
Definition dotProduct (this : MatrixOperations) (vector1 vector2 : Vector)
  : outcome Scalar :=
  if negb (List.length vector1 =? List.length vector2)%nat then Throw ShapeError
  else
    foldM (fun i result =>
             let* v1 := convertToAppropriateType this (nth i vector1 undefined) in
             let* v2 := convertToAppropriateType this (nth i vector2 undefined) in
             let* p := times this v1 v2 in
             plus result p)
          (range 0 (List.length vector1)) (zeroOf this).

(** [scalarMultiply(vector, scalar)] *)
Definition scalarMultiply (this : MatrixOperations) (vector : Vector) (scalar : Scalar)
  : outcome Vector :=
  let* scalarType := convertToAppropriateType this scalar in
  mapM (fun component =>
          let* v := convertToAppropriateType this component in
          times this v scalarType)
       vector.

(** [addVectors(vector1, vector2)] *)
Definition addVectors (this : MatrixOperations) (vector1 vector2 : Vector)
  : outcome Vector :=
  if negb (List.length vector1 =? List.length vector2)%nat then Throw ShapeError
  else
    mapM (fun i =>
            let* v1 := convertToAppropriateType this (nth i vector1 undefined) in
            let* v2 := convertToAppropriateType this (nth i vector2 undefined) in
            match v1, v2 with
            | SFrac a, _ => let* b := normalizeOperand v2 in Ret (SFrac (add a b))
            | SNum _, SFrac b => let* a := normalizeOperand v1 in Ret (SFrac (add b a))
            | SNum x, SNum y =>
                if useFractions this
                then let* f := toFraction this (x + y)%float in Ret (SFrac f)
                else Ret (SNum (x + y)%float)
            end)
         (range 0 (List.length vector1)).

(** [subtractVectors(vector1, vector2)] *)
Definition subtractVectors (this : MatrixOperations) (vector1 vector2 : Vector)
  : outcome Vector :=
  if negb (List.length vector1 =? List.length vector2)%nat then Throw ShapeError
  else
    mapM (fun i =>
            let* v1 := convertToAppropriateType this (nth i vector1 undefined) in
            let* v2 := convertToAppropriateType this (nth i vector2 undefined) in
            match v1, v2 with
            | SFrac a, _ => let* b := normalizeOperand v2 in Ret (SFrac (subtract a b))
            | SNum _, SFrac b =>
                let* a := normalizeOperand v1 in Ret (SFrac (subtract a b))
            | SNum x, SNum y =>
                if useFractions this
                then let* f := toFraction this (x - y)%float in Ret (SFrac f)
                else Ret (SNum (x - y)%float)
            end)
         (range 0 (List.length vector1)).

Definition isNumber (v : Scalar) : bool :=
  match v with
  | SNum _ => true
  | SFrac _ => false
  end.

(** [vectorNorm(vector)]: a vector of numbers only is summed on numbers;
    otherwise the squares are summed in the numeric mode, and the square
    root is taken on numbers. *)
Definition vectorNorm (this : MatrixOperations) (vector : Vector) : outcome number :=
  if forallb isNumber vector then
    Ret (sqrt (fold_left (fun sumOfSquares v => (sumOfSquares + toNumber v * toNumber v)%float)
                         vector 0%float))
  else
    let* sumOfSquares :=
      foldM (fun element sumOfSquares =>
               let* v := convertToAppropriateType this element in
               let* square :=
                 match v with
                 | SFrac f => Ret (SFrac (multiply f f))
                 | SNum x =>
                     if useFractions this
                     then let* f := toFraction this (x * x)%float in Ret (SFrac f)
                     else Ret (SNum (x * x)%float)
                 end in
               plus sumOfSquares square)
            vector (zeroOf this) in
    match sumOfSquares with
    | SFrac f => Ret (sqrt (toFloat f))
    | SNum x => Ret (sqrt x)
    end.

(** [normalizeVector(vector)]: throws on a norm below 1e-10; returns numbers,
    each entry times [1 / norm]. *)
Definition scaleEntry (scalar : number) (element : Scalar) : number :=
  match element with
  | SFrac f => (toFloat f * scalar)%float
  | SNum x => (x * scalar)%float
  end.

Definition normalizeVector (this : MatrixOperations) (vector : Vector)
  : outcome (list number) :=
  let* norm := vectorNorm this vector in
  if lt (abs norm) 1e-10 then Throw ZeroVector
  else Ret (map (scaleEntry (1 / norm)%float) vector).

(** ** schmidtOrthonormalization *)

(** [safeDivide(a, b)] *)
Definition safeDivide (this : MatrixOperations) (a b : Scalar) : outcome Scalar :=
  if match b with
     | SFrac fb => numerator fb =? 0
     | SNum y => (y =? 0)%float
     end
  then Throw DivisionByZero
  else
    match a, b with
    | SFrac fa, _ =>
        let* fb := normalizeOperand b in
        let* q := divide fa fb in Ret (SFrac q)
    | SNum _, SFrac fb =>
        let* fa := normalizeOperand a in
        let* q := divide fa fb in Ret (SFrac q)
    | SNum x, SNum y =>
        if useFractions this
        then let* f := toFraction this (x / y)%float in Ret (SFrac f)
        else Ret (SNum (x / y)%float)
    end.

(** The body of [for (let j = 0; j < i; j++)] *)
Definition subtractProjection (this : MatrixOperations) (orthogonalVectors : list Vector)
  (j : nat) (u : Vector) : outcome Vector :=
  let vOrth := nth j orthogonalVectors [] in
  let* dotUOrth := dotProduct this u vOrth in
  let* dotOrthOrth := dotProduct this vOrth vOrth in
  if match dotOrthOrth with
     | SFrac f => numerator f =? 0
     | SNum x => lt (abs x) 1e-12
     end
  then Ret u
  else
    let* projectionCoeff := safeDivide this dotUOrth dotOrthOrth in
    let* projection := scalarMultiply this vOrth projectionCoeff in
    subtractVectors this u projection.

(** [el instanceof Fraction ? new Fraction(el.numerator, el.denominator) : el] *)
Definition copyEntry (el : Scalar) : Scalar :=
  match el with
  | SFrac f => SFrac (Fraction_new (numerator f) (denominator f))
  | SNum x => SNum x
  end.

(** The body of [for (let i = 0; i < m; i++)] *)
Definition schmidtStep (this : MatrixOperations) (processedVectors : list Vector)
  (i : nat) (state : list Vector * list (list number))
  : outcome (list Vector * list (list number)) :=
  let '(orthogonalVectors, orthonormalVectors) := state in
  let* u := foldM (subtractProjection this orthogonalVectors) (range 0 i)
                  (map copyEntry (nth i processedVectors [])) in
  let uCopy := map copyEntry u in
  let* e := normalizeVector this u in
  Ret (orthogonalVectors ++ [uCopy], orthonormalVectors ++ [e]).

Record Schmidt : Type := mkSchmidt {
  independent : bool;
  rankOf : nat;
  orthogonalVectors : list Vector;
  orthonormalVectors : list (list number)
}.

(** The orthogonalization proper, run on an independent family *)
Definition orthonormalize (this : MatrixOperations) (vectors : list Vector)
  : outcome Schmidt :=
  let m := List.length vectors in
  let* processedVectors := mapM (mapM (convertToAppropriateType this)) vectors in
  let* (orthogonalVectors, orthonormalVectors) :=
    foldM (schmidtStep this processedVectors) (range 0 m) ([], []) in
  Ret (mkSchmidt true m orthogonalVectors orthonormalVectors).

Definition schmidtOrthonormalization (this : MatrixOperations) (vectors : list Vector)
  : outcome Schmidt :=
  match vectors with
  | [] => Throw EmptyInput
  | v0 :: _ =>
      if (List.length v0 =? 0)%nat then Throw ShapeError
      else
        let m := List.length vectors in
        let n := List.length v0 in
        if negb (forallb (fun v => (List.length v =? n)%nat) vectors)
        then Throw ShapeError
        else
          (* first decide whether the family is linearly independent *)
          let* linearityResult := analyzeVectors this vectors in
          if negb (isLinearlyIndependent linearityResult)
          then Ret (mkSchmidt false (rank linearityResult) [] [])
          else orthonormalize this vectors
  end.

(** ** solveEquations: on the numbers as given *)

Definition NumMatrix := list (list number).

Definition entry (M : NumMatrix) (i j : nat) : number := nth j (nth i M []) nan.

Definition set_entry (M : NumMatrix) (i j : nat) (v : number) : NumMatrix :=
  update M i (update (nth i M []) j v).

Definition swap_num_rows (M : NumMatrix) (i p : nat) : NumMatrix :=
  update (update M i (nth p M [])) p (nth i M []).

(** [isZero(value)]: [Math.abs(value) < 1e-10] *)
Definition isZero (value : number) : bool := lt (abs value) 1e-10.

(** The search [while (this.isZero(result[i][lead])) { i++; if (i === m)
    { i = r; lead++; if (lead === n) return result; } }]: the first column
    from [lead] with a non-zero entry in the rows [r .. m-1], and the first
    such row; [None] when no column is left. *)
Fixpoint findLead (result : NumMatrix) (r m : nat) (columns : list nat)
  : option (nat * nat) :=
  match columns with
  | [] => None
  | lead :: columns' =>
      match find (fun i => negb (isZero (entry result i lead))) (range r m) with
      | Some i => Some (i, lead)
      | None => findLead result r m columns'
      end
  end.

(** The body of [for (let r = 0; r < m; r++)] after the search *)
Definition reduceRow (result : NumMatrix) (m n r i lead : nat) : NumMatrix :=
  let result1 := swap_num_rows result i r in
  let lv := entry result1 r lead in
  let result2 :=
    if negb (isZero lv)
    then fold_left (fun M j => set_entry M r j (entry M r j / lv)%float)
                   (range lead n) result1
    else result1 in
  fold_left
    (fun M i' =>
       if negb (i' =? r)%nat && negb (isZero (entry M i' lead))
       then let lv' := entry M i' lead in
            fold_left (fun M j => set_entry M i' j
                                    (entry M i' j - lv' * entry M r j)%float)
                      (range lead n) M
       else M)
    (range 0 m) result2.

Fixpoint rowEchelonLoop (m n : nat) (rows : list nat) (lead : nat) (result : NumMatrix)
  : NumMatrix :=
  match rows with
  | [] => result
  | r :: rows' =>
      if (n <=? lead)%nat then result
      else
        match findLead result r m (range lead n) with
        | None => result
        | Some (i, lead') =>
            rowEchelonLoop m n rows' (S lead') (reduceRow result m n r i lead')
        end
  end.

(** [reduceToRowEchelon(matrix)]; [matrix[0].length] of an empty matrix
    throws. *)
Definition reduceToRowEchelon (matrix : NumMatrix) : outcome NumMatrix :=
  match matrix with
  | [] => Throw TypeError
  | row0 :: _ =>
      let m := List.length matrix in
      let n := List.length row0 in
      Ret (rowEchelonLoop m n (range 0 m) 0 matrix)
  end.

(** [calculateRank(matrix)]: the rows of the reduced matrix that are not all
    zero. *)
Definition calculateRank (matrix : NumMatrix) : outcome nat :=
  let* rref := reduceToRowEchelon matrix in
  Ret (List.length (filter (fun row => negb (forallb isZero row)) rref)).

(** [round(val, 6)]: the second argument is ignored. *)
Definition roundNumber (this : MatrixOperations) (x : number) : number :=
  (Math_round (x * pow10 (precision this)) / pow10 (precision this))%float.

(** [gaussianElimination(augmentedMatrix)]: back substitution over
    [n = augmentedMatrix.length] unknowns. *)
Definition gaussianElimination (this : MatrixOperations) (augmentedMatrix : NumMatrix)
  : list number :=
  let n := List.length augmentedMatrix in
  let x :=
    fold_left
      (fun x i =>
         let sum := fold_left (fun sum j => (sum + entry augmentedMatrix i j * nth j x nan)%float)
                              (range (i + 1) n) 0%float in
         update x i ((entry augmentedMatrix i n - sum) / entry augmentedMatrix i i)%float)
      (rev (range 0 n)) (repeat 0%float n) in
  map (roundNumber this) x.

Definition findIndexNonZero (row : list number) : option nat :=
  find (fun k => negb (isZero (nth k row nan))) (range 0 (List.length row)).

Definition coefficientPivot (rref : NumMatrix) (n i : nat) : option nat :=
  match findIndexNonZero (nth i rref []) with
  | Some pivotIndex => if (pivotIndex <? n)%nat then Some pivotIndex else None
  | None => None
  end.

(** [findParticularSolutionAndBasis(rref)] *)
Definition findParticularSolutionAndBasis (this : MatrixOperations) (rref : NumMatrix)
  : list number * list (list number) :=
  let m := List.length rref in
  let n := (List.length (nth 0 rref []) - 1)%nat in
  let rows := range 0 m in
  let pivots :=
    flat_map (fun i => match coefficientPivot rref n i with
                       | Some p => [p]
                       | None => []
                       end) rows in
  let freeVariables :=
    filter (fun j => negb (existsb (Nat.eqb j) pivots)) (range 0 n) in
  let particularSolution :=
    fold_left (fun sol i => match coefficientPivot rref n i with
                            | Some p => update sol p (entry rref i n)
                            | None => sol
                            end)
              rows (repeat 0%float n) in
  let basisOf freeVar :=
    fold_left (fun basis i =>
                 match coefficientPivot rref n i with
                 | Some p =>
                     if (p =? freeVar)%nat then basis
                     else update basis p (- entry rref i freeVar)%float
                 | None => basis
                 end)
              rows (update (repeat 0%float n) freeVar 1%float) in
  (map (roundNumber this) particularSolution,
   map (fun freeVar => map (roundNumber this) (basisOf freeVar)) freeVariables).

Inductive Solution : Type :=
| NoSolution (rankA rankAugmented : nat)
| UniqueSolution (solution : list number) (rankA rankAugmented : nat)
| InfiniteSolutions (particularSolution : list number)
                    (basisSolutions : list (list number))
                    (rankA rankAugmented : nat) (dimension : nat).

Definition solveEquations (this : MatrixOperations) (matrix : NumMatrix)
  (constants : list number) : outcome Solution :=
  if negb (List.length matrix =? List.length constants)%nat then Throw ShapeError
  else if negb (forallb (fun row => (List.length row =? List.length (nth 0 matrix []))%nat)
                        matrix)
  then Throw ShapeError
  else
    let augmentedMatrix :=
      map (fun i => nth i matrix [] ++ [nth i constants nan])
          (range 0 (List.length matrix)) in
    let* rref := reduceToRowEchelon augmentedMatrix in
    let* rankA := calculateRank matrix in
    let* rankAugmented := calculateRank rref in
    let n := List.length (nth 0 matrix []) in
    if (rankA <? rankAugmented)%nat then Ret (NoSolution rankA rankAugmented)
    else if (rankA =? rankAugmented)%nat && (rankA =? n)%nat then
      Ret (UniqueSolution (gaussianElimination this rref) rankA rankAugmented)
    else
      let '(particularSolution, basisSolutions) :=
        findParticularSolutionAndBasis this rref in
      Ret (InfiniteSolutions particularSolution basisSolutions rankA rankAugmented
                             (n - rankA)).

(** ** The other methods of the two classes *)

(** [generateCombinations(arr, r)] with its test [arr.length < r] written
    out, where the definition above lets the recursion run into the empty
    array. *)
Fixpoint generateCombinationsChecked {A : Type} (arr : list A) (r : nat)
  : list (list A) :=
  match r with
  | O => [[]]
  | S r' =>
      if (List.length arr <? r)%nat then []
      else
        match arr with
        | [] => []
        | first :: rest =>
            map (cons first) (generateCombinationsChecked rest r')
            ++ generateCombinationsChecked rest r
        end
  end.

(** [format(options)] of a [Fraction], with the options [useMixedNumbers]
    and [forceFraction].  [Math.floor] of the quotient of two integers of the
    exact range is their integer quotient, and [%] on two numbers that are
    not negative is the remainder. *)
Definition format (f : Fraction) (useMixedNumbers forceFraction : bool) : string :=
  if negb useMixedNumbers && negb forceFraction && (denominator f =? 1)
  then Z_toString (numerator f)
  else if useMixedNumbers && (denominator f <? Z.abs (numerator f))
  then
    let integerPart := Z.abs (numerator f) / denominator f in
    let fractionalPart := Z.rem (Z.abs (numerator f)) (denominator f) in
    let sign := if numerator f <? 0 then "-" else "" in
    if fractionalPart =? 0 then (sign ++ Z_toString integerPart)%string
    else (sign ++ Z_toString integerPart ++ " " ++ Z_toString fractionalPart
          ++ "/" ++ Z_toString (denominator f))%string
  else toString f.

(** [formatFraction(fraction)] *)
Definition formatFraction (fraction : Fraction) : string := toString fraction.

(** [setFormatType(formatType)]: the object after the call *)
Definition setFormatType (this : MatrixOperations) (formatType : string)
  : MatrixOperations :=
  if String.eqb formatType "integer"
  then mkEngine (precision this) (useFractions this) integer
  else if String.eqb formatType "decimal"
  then mkEngine (precision this) false rational
  else mkEngine (precision this) true rational.

(** [getFormatType()] *)
Definition getFormatType (this : MatrixOperations) : FormatType := formatType this.

(** [copyMatrix(matrix)] *)
Definition copyMatrix (matrix : Matrix) : outcome Matrix :=
  match matrix with
  | [] => Throw EmptyInput
  | row0 :: _ =>
      if (List.length row0 =? 0)%nat then Throw ShapeError
      else Ret (map (fun row => row) matrix)
  end.

(** [createIdentityMatrix(size)] *)
Definition createIdentityMatrix (size : nat) : Matrix :=
  map (fun i => map (fun j => SNum (if (i =? j)%nat then 1 else 0)) (range 0 size))
      (range 0 size).

End Old.

(* ================================================================== *)
(** * Arrays in a store

    The definitions above take a matrix as a value.  JavaScript passes an
    array by reference, and the elimination loops write into arrays and
    exchange rows; whether such a write can reach an array of the caller is
    a question about references.  Here every array of entries and every
    array of arrays that the methods read, create or write is an object of
    a store, and methods are written over the store with the same loops and
    the same operations on entries as above.

    A [Fraction] is a value: its fields are assigned in the constructor
    only.  Arrays of indices ([columnIndices], [pivotColumns],
    [freeVariables]) hold no entry of a matrix and are lists; the [steps]
    trace is left out, as above. *)

Module Store.
Import JS Data.

(** An array is known by its place in the store. *)
Definition loc := nat.

(** An array of entries (a row, a vector, a list of pivots) or an array of
    arrays (a matrix, a family of vectors). *)
Inductive array : Type :=
| Cells (cells : list Scalar)
| Rows (rows : list loc).

Definition heap := list array.

(** A method: from the store at the call to its result and the store when
    it returns, throws or is abandoned. *)
Definition M (A : Type) : Type := heap -> outcome A * heap.

Definition ret {A : Type} (a : A) : M A := fun h => (Ret a, h).

Definition lift {A : Type} (o : outcome A) : M A := fun h => (o, h).

Definition bindM {A B : Type} (c : M A) (k : A -> M B) : M B :=
  fun h =>
    match c h with
    | (Ret a, h') => k a h'
    | (Throw e, h') => (Throw e, h')
    | (Hang, h') => (Hang, h')
    | (Beyond, h') => (Beyond, h')
    end.

Notation "'let!' x ':=' c 'in' k" := (bindM c (fun x => k))
  (at level 10, x pattern, c at level 100, k at level 200, right associativity).

Fixpoint forH {A : Type} (body : A -> M unit) (l : list A) : M unit :=
  match l with
  | [] => ret tt
  | a :: l' => let! _ := body a in forH body l'
  end.

Fixpoint foldH {A S : Type} (body : A -> S -> M S) (l : list A) (s : S) : M S :=
  match l with
  | [] => ret s
  | a :: l' => let! s' := body a s in foldH body l' s'
  end.

Fixpoint mapH {A B : Type} (f : A -> M B) (l : list A) : M (list B) :=
  match l with
  | [] => ret []
  | a :: l' => let! b := f a in let! bs := mapH f l' in ret (b :: bs)
  end.

(** [[...]], [new Array(n)], [a.map(f)], [a.slice(k)], [a.concat(x)]: a new
    array at the end of the store. *)
Definition alloc (a : array) : M loc := fun h => (Ret (List.length h), h ++ [a]).

Definition load (l : loc) : M array :=
  fun h => match nth_error h l with
           | Some a => (Ret a, h)
           | None => (Beyond, h)
           end.

Definition store (l : loc) (a : array) : M unit :=
  fun h => match nth_error h l with
           | Some _ => (Ret tt, update h l a)
           | None => (Beyond, h)
           end.

(** [l[k] = v]: a write beyond the end extends the array, the cells in
    between being holes. *)
Definition assign {A : Type} (hole : A) (l : list A) (k : nat) (v : A) : list A :=
  if (k <? List.length l)%nat then update l k v
  else l ++ repeat hole (k - List.length l) ++ [v].

(** The entries of an array of entries, the rows of an array of arrays; an
    array of the other sort is beyond this model. *)
Definition cellsOf (l : loc) : M (list Scalar) :=
  let! a := load l in
  match a with
  | Cells cells => ret cells
  | Rows _ => lift Beyond
  end.

Definition rowsOf (l : loc) : M (list loc) :=
  let! a := load l in
  match a with
  | Rows rows => ret rows
  | Cells _ => lift Beyond
  end.

(** [w[i]], about to be indexed or measured: [undefined[j]] throws. *)
Definition getRow (w : loc) (i : nat) : M loc :=
  let! rows := rowsOf w in
  match nth_error rows i with
  | Some r => ret r
  | None => lift (Throw TypeError)
  end.

(** [v[j]] *)
Definition getEntry (v : loc) (j : nat) : M Scalar :=
  let! cells := cellsOf v in
  ret (nth j cells undefined).

(** [v[j] = x] *)
Definition setEntry (v : loc) (j : nat) (x : Scalar) : M unit :=
  let! cells := cellsOf v in
  store v (Cells (assign undefined cells j x)).

(** [w[i][j]] *)
Definition getCell (w : loc) (i j : nat) : M Scalar :=
  let! r := getRow w i in
  getEntry r j.

(** [w[i][j] = x] *)
Definition setCell (w : loc) (i j : nat) (x : Scalar) : M unit :=
  let! r := getRow w i in
  setEntry r j x.

(** [w[i] = r], inside the array or at its end; a write further out would
    leave holes among the rows. *)
Definition setRow (w : loc) (i : nat) (r : loc) : M unit :=
  let! rows := rowsOf w in
  if (i <? List.length rows)%nat then store w (Rows (update rows i r))
  else if (i =? List.length rows)%nat then store w (Rows (rows ++ [r]))
  else lift Beyond.

(** [[w[i], w[p]] = [w[p], w[i]]]: the right-hand side is read first. *)
Definition swapRows (w : loc) (i p : nat) : M unit :=
  let! rp := getRow w p in
  let! ri := getRow w i in
  let! _ := setRow w i rp in
  setRow w p ri.

(** [d.push(x)] *)
Definition pushEntry (d : loc) (x : Scalar) : M unit :=
  let! cells := cellsOf d in store d (Cells (cells ++ [x])).

(** [w.push(r)] *)
Definition pushRow (w : loc) (r : loc) : M unit :=
  let! rows := rowsOf w in store w (Rows (rows ++ [r])).

(** The entries of a matrix, row by row, as they are at this point. *)
Definition readMatrix (w : loc) : M Matrix :=
  let! rows := rowsOf w in mapH cellsOf rows.

(** A new array for each row and a new array of them. *)
Definition newMatrix (rows : Matrix) : M loc :=
  let! locs := mapH (fun cells => alloc (Cells cells)) rows in
  alloc (Rows locs).

(** [matrix.length] and [matrix[0].length] after the tests
    [matrix.length === 0] and [matrix[0].length === 0] at the head of the
    public methods *)
Definition dimensions (matrix : loc) : M (nat * nat) :=
  let! rows := rowsOf matrix in
  match rows with
  | [] => lift (Throw EmptyInput)
  | row0 :: _ =>
      let! cells := cellsOf row0 in
      if (List.length cells =? 0)%nat then lift (Throw ShapeError)
      else ret (List.length rows, List.length cells)
  end.

(** [matrix.length] and [matrix[0].length] without a test: [matrix[0]] of an
    empty array is [undefined]. *)
Definition shape (matrix : loc) : M (nat * nat) :=
  let! rows := rowsOf matrix in
  let! row0 := getRow matrix 0 in
  let! cells := cellsOf row0 in
  ret (List.length rows, List.length cells).

(** [matrix.map(row => [...row])] *)
Definition copyMatrix (matrix : loc) : M loc :=
  let! rows := rowsOf matrix in
  let! rows' := mapH (fun row => let! cells := cellsOf row in alloc (Cells cells)) rows in
  alloc (Rows rows').

End Store.

(* ================================================================== *)
(** * AdvancedAlgebraCalculator/lib/matrix-operations.js on the store *)

Module NewStore.
Import JS Data Store New.

(** [matrix.map(row => row.map(value => this.convertToAppropriateType(value)))] *)
Definition convertMatrix (this : MatrixOperations) (matrix : loc) : M loc :=
  let! rows := rowsOf matrix in
  let! rows' :=
    mapH (fun row =>
            let! cells := cellsOf row in
            let! cells' := lift (mapM (convertToAppropriateType this) cells) in
            alloc (Cells cells'))
         rows in
  alloc (Rows rows').

(** [for (let k = from; k < n; k++) w[j][k] -= factor * w[i][k]] *)
Definition combineRow (this : MatrixOperations) (w : loc) (i j from n : nat)
  (factor : Scalar) : M unit :=
  forH (fun k =>
          let! a := getCell w j k in
          let! b := getCell w i k in
          let! v := lift (combine this a b factor) in
          setCell w j k v)
       (range from n).

(** The body of [for (let j = i + 1; j < m; j++)] of the forward
    eliminations *)
Definition eliminateBelow (this : MatrixOperations) (w : loc) (i n : nat)
  (pivot : Scalar) (j : nat) : M unit :=
  let! a := getCell w j i in
  let! factor := lift (eliminationFactor a pivot) in
  combineRow this w i j i n factor.

(** ** calculateDeterminant *)

(** The elimination loop; [false] is the early [return { result: 0 }]. *)
Fixpoint determinantLoop (this : MatrixOperations) (n : nat) (columns : list nat)
  (processedMatrix det : loc) : M bool :=
  match columns with
  | [] => ret true
  | i :: columns' =>
      let! snapshot := readMatrix processedMatrix in
      let pivotRow := findPivotRow snapshot i n in
      let! _ :=
        if (pivotRow =? i)%nat then ret tt
        else let! _ := swapRows processedMatrix i pivotRow in
             pushEntry det (SNum (-1)) in
      let! pivot := getCell processedMatrix i i in
      if isZero pivot then ret false
      else
        let! _ := pushEntry det pivot in
        let! _ := forH (eliminateBelow this processedMatrix i n pivot)
                       (range (i + 1)%nat n) in
        determinantLoop this n columns' processedMatrix det
  end.

Definition calculateDeterminant (this : MatrixOperations) (matrix : loc) : M Scalar :=
  let! (n, columns) := dimensions matrix in
  if negb (n =? columns)%nat then lift (Throw ShapeError)
  else
    let! det := alloc (Cells []) in
    let! processedMatrix := convertMatrix this matrix in
    let! finished := determinantLoop this n (range 0 n) processedMatrix det in
    if finished then
      let! vals := cellsOf det in
      let! determinant := lift (foldM determinantStep vals (SNum 1)) in
      let! formattedResult :=
        lift (formatNumber this (VScalar determinant) (formatType this)) in
      ret determinant
    else ret (SNum 0).

(** ** gaussianElimination, reduceToRowEchelon, calculateRank *)

Definition gaussianStep (this : MatrixOperations) (result : loc) (m n : nat) (i : nat)
  : M unit :=
  let! snapshot := readMatrix result in
  let pivotRow := findPivotRow snapshot i m in
  let! _ := if (pivotRow =? i)%nat then ret tt else swapRows result i pivotRow in
  let! pivot := getCell result i i in
  if isZero pivot then ret tt
  else forH (eliminateBelow this result i n pivot) (range (i + 1)%nat m).

Definition gaussianElimination (this : MatrixOperations) (matrix : loc) : M loc :=
  let! (m, n) := shape matrix in
  let! result := Store.copyMatrix matrix in
  let! _ := forH (gaussianStep this result m n) (range 0 (Nat.min m n)) in
  ret result.

(** [result[i][j] /= pivot] for [j = pivotCol .. n-1] *)
Definition normalizeRow (this : MatrixOperations) (result : loc) (i from n : nat)
  (pivot : Scalar) : M unit :=
  forH (fun j =>
          let! a := getCell result i j in
          let! v := lift (scaleDown this a pivot) in
          setCell result i j v)
       (range from n).

(** [for (let j = 0; j < m; j++) if (j !== i && !isZero(result[j][pivotCol]))] *)
Definition eliminateOthers (this : MatrixOperations) (result : loc)
  (i pivotCol m n : nat) : M unit :=
  forH (fun j =>
          let! factor := getCell result j pivotCol in
          if negb (j =? i)%nat && negb (isZero factor)
          then combineRow this result i j pivotCol n factor
          else ret tt)
       (range 0 m).

Fixpoint rowEchelonLoop (this : MatrixOperations) (m n : nat) (columns : list nat)
  (i : nat) (result : loc) : M unit :=
  match columns with
  | [] => ret tt
  | pivotCol :: columns' =>
      if (m <=? i)%nat then ret tt
      else
        let! snapshot := readMatrix result in
        let pivotRow := firstNonZeroRow snapshot pivotCol (range i m) m in
        if (pivotRow =? m)%nat then rowEchelonLoop this m n columns' i result
        else
          let! _ := swapRows result i pivotRow in
          let! pivot := getCell result i pivotCol in
          let! _ := normalizeRow this result i pivotCol n pivot in
          let! _ := eliminateOthers this result i pivotCol m n in
          rowEchelonLoop this m n columns' (i + 1)%nat result
  end.

Definition reduceToRowEchelon (this : MatrixOperations) (matrix : loc) : M loc :=
  let! (m, n) := shape matrix in
  let! result := Store.copyMatrix matrix in
  let! _ := rowEchelonLoop this m n (range 0 n) 0 result in
  ret result.

(** [calculateRank(matrix)] only reads. *)
Definition calculateRank (matrix : loc) : M nat :=
  let! (m, n) := shape matrix in
  let! snapshot := readMatrix matrix in
  ret (New.calculateRank snapshot).

(** ** solveEquations *)

(** The body of [for (let i = rref.length - 1; i >= 0; i--)] *)
Definition extractSolutionRow (this : MatrixOperations) (rref solution : loc) (n : nat)
  (i : nat) : M unit :=
  let! row := getRow rref i in
  let! cells := cellsOf row in
  match findIndexNonZero cells 0 with
  | None => ret tt
  | Some pivotIndex =>
      let! start := getCell rref i n in
      let! sum :=
        foldH (fun j sum =>
                 let! sj := getEntry solution j in
                 if isZero sj then ret sum
                 else
                   let! coefficient := getCell rref i j in
                   lift (substitute this sum coefficient sj))
              (range (pivotIndex + 1)%nat n) start in
      setEntry solution pivotIndex sum
  end.

Definition extractSolution (this : MatrixOperations) (rref : loc) : M loc :=
  let! (m, columns) := shape rref in
  let n := (columns - 1)%nat in
  let! solution := alloc (Cells (repeat (SNum 0) n)) in
  let! _ := forH (extractSolutionRow this rref solution n) (rev (range 0 m)) in
  ret solution.

(** [findParticularSolutionAndBasis(rref)]; the set of pivot columns and the
    list of free variables hold indices only. *)
Definition findParticularSolutionAndBasis (rref : loc) : M (loc * loc) :=
  let! (m, columns) := shape rref in
  let n := (columns - 1)%nat in
  let! particularSolution := alloc (Cells (repeat (SNum 0) n)) in
  let! basisSolutions := alloc (Rows []) in
  let! snapshot := readMatrix rref in
  let pivotColumns :=
    flat_map (fun i => match coefficientPivot snapshot n i with
                       | Some p => [p]
                       | None => []
                       end) (range 0 m) in
  let freeVariables :=
    filter (fun j => negb (existsb (Nat.eqb j) pivotColumns)) (range 0 n) in
  let! _ :=
    forH (fun i =>
            match coefficientPivot snapshot n i with
            | Some pivotIndex =>
                let! b := getCell rref i n in
                setEntry particularSolution pivotIndex b
            | None => ret tt
            end)
         (range 0 m) in
  let! _ :=
    forH (fun freeVar =>
            let! basis := alloc (Cells (repeat (SNum 0) n)) in
            let! _ := setEntry basis freeVar (SNum 1) in
            let! _ :=
              forH (fun i =>
                      match coefficientPivot snapshot n i with
                      | Some pivotIndex =>
                          if (pivotIndex =? freeVar)%nat then ret tt
                          else
                            let! c := getCell rref i freeVar in
                            setEntry basis pivotIndex (SNum (- toNumber c)%float)
                      | None => ret tt
                      end)
                   (range 0 m) in
            let! cells := cellsOf basis in
            let! rounded := alloc (Cells (map (fun v => SNum (round v 6)) cells)) in
            pushRow basisSolutions rounded)
         freeVariables in
  let! cells := cellsOf particularSolution in
  let! rounded := alloc (Cells (map (fun v => SNum (round v 6)) cells)) in
  ret (rounded, basisSolutions).

Definition solveEquations (this : MatrixOperations) (matrix vector : loc)
  : M Solution :=
  let! rows := rowsOf matrix in
  let! constants := cellsOf vector in
  match rows, constants with
  | [], _ => lift (Throw EmptyInput)
  | _, [] => lift (Throw EmptyInput)
  | row0 :: _, _ =>
      let! cells0 := cellsOf row0 in
      if (List.length cells0 =? 0)%nat then lift (Throw ShapeError)
      else
        let m := List.length rows in
        let n := List.length cells0 in
        if negb (m =? List.length constants)%nat then lift (Throw ShapeError)
        else
          let! processedMatrix := convertMatrix this matrix in
          let! converted := lift (mapM (convertToAppropriateType this) constants) in
          let! processedVector := alloc (Cells converted) in
          let! augmentedMatrix := alloc (Rows []) in
          let! _ :=
            forH (fun i =>
                    let! row := getRow processedMatrix i in
                    let! cells := cellsOf row in
                    let! b := getEntry processedVector i in
                    let! augmented := alloc (Cells (cells ++ [b])) in
                    pushRow augmentedMatrix augmented)
                 (range 0 m) in
          let! gaussMatrix := gaussianElimination this augmentedMatrix in
          let! rref := reduceToRowEchelon this gaussMatrix in
          let! snapshot := readMatrix rref in
          let! coefficients := newMatrix (map (fun row => removelast row) snapshot) in
          let! rankA := calculateRank coefficients in
          let! rankAugmented := calculateRank rref in
          if (rankA <? rankAugmented)%nat then
            ret (mkSolution inconsistent rankA rankAugmented None None [])
          else if (rankA =? rankAugmented)%nat && (rankA =? n)%nat then
            let! solution := extractSolution this rref in
            let! cells := cellsOf solution in
            let! formatted := lift (formatVector this cells) in
            ret (mkSolution unique rankA rankAugmented (Some formatted) None [])
          else
            let! (partSol, basisSolutions) := findParticularSolutionAndBasis rref in
            let! cells := cellsOf partSol in
            let! formatted := lift (formatVector this cells) in
            let! basis := readMatrix basisSolutions in
            let! formattedBasis := lift (formatVectors this basis) in
            ret (mkSolution infinite rankA rankAugmented None (Some formatted)
                            formattedBasis)
  end.

(** ** multiplyMatrices *)

Definition multiplyMatrices (this : MatrixOperations) (matrix1 matrix2 : loc)
  : M (list (list text)) :=
  let! lines1 := rowsOf matrix1 in
  let! lines2 := rowsOf matrix2 in
  match lines1, lines2 with
  | [], _ => lift (Throw EmptyInput)
  | _, [] => lift (Throw EmptyInput)
  | first1 :: _, first2 :: _ =>
      let! cells1 := cellsOf first1 in
      let! cells2 := cellsOf first2 in
      if (List.length cells1 =? 0)%nat then lift (Throw ShapeError)
      else if (List.length cells2 =? 0)%nat then lift (Throw ShapeError)
      else
        let rows1 := List.length lines1 in
        let cols1 := List.length cells1 in
        let rows2 := List.length lines2 in
        let cols2 := List.length cells2 in
        if negb (cols1 =? rows2)%nat then lift (Throw ShapeError)
        else
          let! result := alloc (Rows []) in
          let! processedMatrix1 := convertMatrix this matrix1 in
          let! processedMatrix2 := convertMatrix this matrix2 in
          let! _ :=
            forH (fun i =>
                    let! line := alloc (Cells []) in
                    let! _ := setRow result i line in
                    forH (fun j =>
                            let! zero :=
                              if useFractions this
                              then let! f := lift (Fraction_of_number 0) in ret (SFrac f)
                              else ret (SNum 0) in
                            setCell result i j zero)
                         (range 0 cols2))
                 (range 0 rows1) in
          let! _ :=
            forH (fun i =>
                    forH (fun j =>
                            forH (fun k =>
                                    let! a := getCell processedMatrix1 i k in
                                    let! b := getCell processedMatrix2 k j in
                                    let! product := lift (productOf this a b) in
                                    let! r := getCell result i j in
                                    let! v := lift (accumulate r product) in
                                    setCell result i j v)
                                 (range 0 cols1))
                         (range 0 cols2))
                 (range 0 rows1) in
          let! entries := readMatrix result in
          lift (formatVectors this entries)
  end.

(** ** calculateInverse *)

(** The body of [for (let i = 0; i < n; i++)] of the Gauss-Jordan loop *)
Definition inverseStep (this : MatrixOperations) (augMatrix : loc) (n : nat) (i : nat)
  : M unit :=
  let! snapshot := readMatrix augMatrix in
  let pivotRow := findPivotRow snapshot i n in
  let! _ := if (pivotRow =? i)%nat then ret tt else swapRows augMatrix i pivotRow in
  let! pivot := getCell augMatrix i i in
  if isZero pivot then lift (Throw NotInvertible)
  else
    let! _ := normalizeRow this augMatrix i 0 (2 * n)%nat pivot in
    forH (fun j =>
            if (j =? i)%nat then ret tt
            else
              let! factor := getCell augMatrix j i in
              forH (fun k =>
                      let! b := getCell augMatrix i k in
                      let! product := lift (productOf this factor b) in
                      let! a := getCell augMatrix j k in
                      let! v := lift (minus this a product) in
                      setCell augMatrix j k v)
                   (range 0 (2 * n)%nat))
         (range 0 n).

Definition calculateInverse (this : MatrixOperations) (matrix : loc)
  : M (list (list text)) :=
  let! (n, columns) := dimensions matrix in
  if negb (n =? columns)%nat then lift (Throw ShapeError)
  else
    let! augMatrix := alloc (Rows []) in
    let! _ :=
      forH (fun i =>
              let! line := getRow matrix i in
              let! cells := cellsOf line in
              let! row := lift (mapM (convertToAppropriateType this) cells) in
              let! unitRow := lift (identityRow this n i) in
              let! augmented := alloc (Cells (row ++ unitRow)) in
              pushRow augMatrix augmented)
           (range 0 n) in
    let! _ := forH (inverseStep this augMatrix n) (range 0 n) in
    let! inverseMatrix := alloc (Rows []) in
    let! _ :=
      forH (fun i =>
              let! line := getRow augMatrix i in
              let! cells := cellsOf line in
              let! half := alloc (Cells (skipn n cells)) in
              pushRow inverseMatrix half)
           (range 0 n) in
    let! entries := readMatrix inverseMatrix in
    lift (formatVectors this entries).

(** ** schmidtOrthonormalization *)

(** The vector methods read their arguments and return a new array. *)
Definition dotProduct (vector1 vector2 : loc) : M value :=
  let! cells1 := cellsOf vector1 in
  let! cells2 := cellsOf vector2 in
  lift (New.dotProduct cells1 cells2).

Definition scalarMultiply (this : MatrixOperations) (vector : loc) (scalar : Scalar)
  : M loc :=
  let! cells := cellsOf vector in
  let! result := lift (New.scalarMultiply this cells scalar) in
  alloc (Cells result).

Definition subtractVectors (this : MatrixOperations) (vector1 vector2 : loc) : M loc :=
  let! cells1 := cellsOf vector1 in
  let! cells2 := cellsOf vector2 in
  let! result := lift (New.subtractVectors this cells1 cells2) in
  alloc (Cells result).

Definition vectorNorm (vector : loc) : M number :=
  let! cells := cellsOf vector in
  lift (New.vectorNorm cells).

(** The body of [for (let j = 0; j < i; j++)] *)
Definition subtractProjection (this : MatrixOperations) (v orthogonal : loc)
  (j : nat) (u : loc) : M loc :=
  let! orth := getRow orthogonal j in
  let! dot := dotProduct v orth in
  let! normSq := dotProduct orth orth in
  let! d := lift (value_toNumber dot) in
  let! ns := lift (value_toNumber normSq) in
  let! proj := scalarMultiply this orth (SNum (d / ns)%float) in
  subtractVectors this u proj.

(** The body of [for (let i = 0; i < n; i++)] *)
Definition schmidtStep (this : MatrixOperations)
  (processedVectors orthogonal orthonormal : loc) (i : nat) : M unit :=
  let! v := getRow processedVectors i in
  let! cells := cellsOf v in
  let! u0 := alloc (Cells cells) in
  let! u := foldH (subtractProjection this v orthogonal) (range 0 i) u0 in
  let! _ := pushRow orthogonal u in
  let! norm := vectorNorm u in
  if negb (isZero (SNum norm))
  then let! e := scalarMultiply this u (SNum (1 / norm)%float) in
       pushRow orthonormal e
  else ret tt.

Definition schmidtOrthonormalization (this : MatrixOperations) (vectors : loc)
  : M Schmidt :=
  let! (n, dim) := dimensions vectors in
  let! processedVectors := convertMatrix this vectors in
  let! orthogonal := alloc (Rows []) in
  let! orthonormal := alloc (Rows []) in
  let! _ := forH (schmidtStep this processedVectors orthogonal orthonormal)
                 (range 0 n) in
  let! orthogonalEntries := readMatrix orthogonal in
  let! orthonormalEntries := readMatrix orthonormal in
  let! formattedOrthogonal := lift (formatVectors this orthogonalEntries) in
  let! formattedOrthonormal := lift (formatVectors this orthonormalEntries) in
  ret (mkSchmidt formattedOrthogonal formattedOrthonormal).

End NewStore.

(* ================================================================== *)
(** * lib/matrix-operations-old.js on the store *)

Module OldStore.
Import JS Data Store Old.

(** [for (i) if (matrix[i].length !== n) throw] *)
Definition sameLengths (matrix : loc) (count n : nat) : M unit :=
  forH (fun i =>
          let! row := getRow matrix i in
          let! cells := cellsOf row in
          if (List.length cells =? n)%nat then ret tt else lift (Throw ShapeError))
       (range 0 count).

(** [matrix.map(row => row.map(value => this.convertToAppropriateType(value)))] *)
Definition convertMatrix (this : MatrixOperations) (matrix : loc) : M loc :=
  let! rows := rowsOf matrix in
  let! rows' :=
    mapH (fun row =>
            let! cells := cellsOf row in
            let! cells' := lift (mapM (convertToAppropriateType this) cells) in
            alloc (Cells cells'))
         rows in
  alloc (Rows rows').

(** ** calculateDeterminant *)

(** The body of [for (let j = i + 1; j < n; j++)] *)
Definition eliminateBelow (this : MatrixOperations) (detMatrix : loc) (i n : nat)
  (j : nat) : M unit :=
  let! a := getCell detMatrix j i in
  let! p := getCell detMatrix i i in
  let! factor := lift (quotient this a p) in
  forH (fun k =>
          let! b := getCell detMatrix i k in
          let! prod := lift (product this factor b) in
          let! c := getCell detMatrix j k in
          let! v := lift (difference this c prod) in
          setCell detMatrix j k v)
       (range i n).

(** The elimination loop; [None] is the early return on a zero pivot. *)
Fixpoint determinantLoop (this : MatrixOperations) (n : nat) (columns : list nat)
  (detMatrix : loc) (swapCount : nat) : M (option nat) :=
  match columns with
  | [] => ret (Some swapCount)
  | i :: columns' =>
      let! snapshot := readMatrix detMatrix in
      let pivotRow := findPivotRow snapshot i n in
      let! _ := if (pivotRow =? i)%nat then ret tt
                else swapRows detMatrix i pivotRow in
      let swapCount1 := if (pivotRow =? i)%nat then swapCount else S swapCount in
      let! pivotValue := getCell detMatrix i i in
      if isZeroScalar pivotValue then ret None
      else
        let! _ := forH (eliminateBelow this detMatrix i n) (range (i + 1) n) in
        determinantLoop this n columns' detMatrix swapCount1
  end.

Definition calculateDeterminant (this : MatrixOperations) (matrix : loc) : M Scalar :=
  let! (n, columns) := dimensions matrix in
  if negb (columns =? n)%nat then lift (Throw ShapeError)
  else
    let! _ := sameLengths matrix n n in
    if (n =? 1)%nat then
      let! only := getCell matrix 0 0 in
      lift (convertToAppropriateType this only)
    else
      let! detMatrix := convertMatrix this matrix in
      let! r := determinantLoop this n (range 0 n) detMatrix 0 in
      match r with
      | None => ret (SFrac (Fraction_new 0 1))
      | Some swapCount =>
          let! triangular := readMatrix detMatrix in
          let! result := lift (diagonalProduct triangular n) in
          ret (SFrac (if Nat.odd swapCount
                      then multiply result (Fraction_new (-1) 1)
                      else result))
      end.

(** ** analyzeVectors *)

(** The body of [for (let k = 0; k < m; k++) if (k !== j)] *)
Definition eliminateColumn (this : MatrixOperations) (matrix : loc) (i j n : nat)
  (k : nat) : M unit :=
  if (k =? j)%nat then ret tt
  else
    let! currentValue := getCell matrix i k in
    if negb (isNonZero currentValue) then ret tt
    else
      let! pivotEntry := getCell matrix i j in
      let! factor := lift (quotient this currentValue pivotEntry) in
      forH (fun l =>
              let! b := getCell matrix l j in
              let! p := lift (product this factor b) in
              let! a := getCell matrix l k in
              let! v := lift (roundedDifference this a p) in
              setCell matrix l k v)
           (range i n).

(** [for (k) [matrix[k][j], matrix[k][p]] = [matrix[k][p], matrix[k][j]]] *)
Definition swapColumns (matrix : loc) (n j p : nat) : M unit :=
  forH (fun k =>
          let! a := getCell matrix k p in
          let! b := getCell matrix k j in
          let! _ := setCell matrix k j a in
          setCell matrix k p b)
       (range 0 n).

(** The loop [for (let i = 0, j = 0; i < n && j < m; i++)]; [columnIndices]
    holds indices only. *)
Fixpoint analyzeLoop (this : MatrixOperations) (n m : nat) (rows : list nat)
  (matrix : loc) (j : nat) (columnIndices : list nat) : M (nat * list nat) :=
  match rows with
  | [] => ret (j, columnIndices)
  | i :: rows' =>
      if (m <=? j)%nat then ret (j, columnIndices)
      else
        let! snapshot := readMatrix matrix in
        let pivotCol := findPivotCol snapshot i j m in
        let! pivotValue := getCell matrix i pivotCol in
        if isZeroScalar pivotValue
        then analyzeLoop this n m rows' matrix j columnIndices
        else
          let! _ := if (pivotCol =? j)%nat then ret tt
                    else swapColumns matrix n j pivotCol in
          let columnIndices1 :=
            if (pivotCol =? j)%nat then columnIndices
            else update (update columnIndices j (nth pivotCol columnIndices O))
                        pivotCol (nth j columnIndices O) in
          let! pivot := getCell matrix i j in
          let! _ :=
            forH (fun k =>
                    let! a := getCell matrix k j in
                    let! v := lift (roundedQuotient this a pivot) in
                    setCell matrix k j v)
                 (range i n) in
          let! _ := forH (eliminateColumn this matrix i j n) (range 0 m) in
          analyzeLoop this n m rows' matrix (S j) columnIndices1
  end.

Definition analyzeVectors (this : MatrixOperations) (vectors : loc) : M Analysis :=
  let! (m, n) := dimensions vectors in
  let! _ := sameLengths vectors m n in
  let! matrix := alloc (Rows []) in
  let! _ :=
    forH (fun i =>
            let! line := alloc (Cells []) in
            let! _ := setRow matrix i line in
            forH (fun j =>
                    let! x := getCell vectors j i in
                    let! v := lift (convertToAppropriateType this x) in
                    setCell matrix i j v)
                 (range 0 m))
         (range 0 n) in
  let! (rank, columnIndices) :=
    analyzeLoop this n m (range 0 n) matrix 0 (range 0 m) in
  let! given := readMatrix vectors in
  let maxIndependentSet :=
    dedupe [] (map (fun colIndex => nth (nth colIndex columnIndices O) given [])
                   (range 0 rank)) in
  ret (mkAnalysis (rank =? m)%nat rank maxIndependentSet (map S (range 0 rank))).

(** ** schmidtOrthonormalization *)

(** The vector methods read their arguments and return a new array. *)
Definition dotProduct (this : MatrixOperations) (vector1 vector2 : loc) : M Scalar :=
  let! cells1 := cellsOf vector1 in
  let! cells2 := cellsOf vector2 in
  lift (Old.dotProduct this cells1 cells2).

Definition scalarMultiply (this : MatrixOperations) (vector : loc) (scalar : Scalar)
  : M loc :=
  let! cells := cellsOf vector in
  let! result := lift (Old.scalarMultiply this cells scalar) in
  alloc (Cells result).

Definition subtractVectors (this : MatrixOperations) (vector1 vector2 : loc) : M loc :=
  let! cells1 := cellsOf vector1 in
  let! cells2 := cellsOf vector2 in
  let! result := lift (Old.subtractVectors this cells1 cells2) in
  alloc (Cells result).

Definition normalizeVector (this : MatrixOperations) (vector : loc) : M loc :=
  let! cells := cellsOf vector in
  let! result := lift (Old.normalizeVector this cells) in
  alloc (Cells (map SNum result)).

(** [u.map(el => el instanceof Fraction ? new Fraction(...) : el)] *)
Definition copyVector (vector : loc) : M loc :=
  let! cells := cellsOf vector in
  alloc (Cells (map copyEntry cells)).

(** The body of [for (let j = 0; j < i; j++)] *)
Definition subtractProjection (this : MatrixOperations) (orthogonalVectors : loc)
  (j : nat) (u : loc) : M loc :=
  let! vOrth := getRow orthogonalVectors j in
  let! dotUOrth := dotProduct this u vOrth in
  let! dotOrthOrth := dotProduct this vOrth vOrth in
  if match dotOrthOrth with
     | SFrac f => numerator f =? 0
     | SNum x => lt (abs x) 1e-12
     end
  then ret u
  else
    let! projectionCoeff := lift (safeDivide this dotUOrth dotOrthOrth) in
    let! projection := scalarMultiply this vOrth projectionCoeff in
    subtractVectors this u projection.

(** The body of [for (let i = 0; i < m; i++)] *)
Definition schmidtStep (this : MatrixOperations)
  (processedVectors orthogonalVectors orthonormalVectors : loc) (i : nat) : M unit :=
  let! v := getRow processedVectors i in
  let! u0 := copyVector v in
  let! u := foldH (subtractProjection this orthogonalVectors) (range 0 i) u0 in
  let! uCopy := copyVector u in
  let! _ := pushRow orthogonalVectors uCopy in
  let! e := normalizeVector this u in
  pushRow orthonormalVectors e.

Definition orthonormalize (this : MatrixOperations) (vectors : loc) (m : nat)
  : M Schmidt :=
  let! processedVectors := convertMatrix this vectors in
  let! orthogonalVectors := alloc (Rows []) in
  let! orthonormalVectors := alloc (Rows []) in
  let! _ := forH (schmidtStep this processedVectors orthogonalVectors orthonormalVectors)
                 (range 0 m) in
  let! orthogonal := readMatrix orthogonalVectors in
  let! orthonormal := readMatrix orthonormalVectors in
  ret (mkSchmidt true m orthogonal (map (map toNumber) orthonormal)).

Definition schmidtOrthonormalization (this : MatrixOperations) (vectors : loc)
  : M Schmidt :=
  let! (m, n) := dimensions vectors in
  let! _ := sameLengths vectors m n in
  let! linearityResult := analyzeVectors this vectors in
  if negb (isLinearlyIndependent linearityResult)
  then ret (mkSchmidt false (rank linearityResult) [] [])
  else orthonormalize this vectors m.

(** ** reduceToRowEchelon, calculateRank, solveEquations: on numbers *)

(** The entries as numbers: arithmetic and [Math.abs] convert their
    operands. *)
Definition numbers (entries : Matrix) : NumMatrix := map (map toNumber) entries.

(** The body of [for (let r = 0; r < m; r++)] after the search *)
Definition reduceRow (result : loc) (m n r i lead : nat) : M unit :=
  let! _ := swapRows result i r in
  let! lv := getCell result r lead in
  let! _ :=
    if negb (isZero (toNumber lv))
    then forH (fun j =>
                 let! a := getCell result r j in
                 setCell result r j (SNum (toNumber a / toNumber lv)%float))
              (range lead n)
    else ret tt in
  forH (fun i' =>
          let! lv' := getCell result i' lead in
          if negb (i' =? r)%nat && negb (isZero (toNumber lv'))
          then forH (fun j =>
                       let! a := getCell result i' j in
                       let! b := getCell result r j in
                       setCell result i' j
                               (SNum (toNumber a - toNumber lv' * toNumber b)%float))
                    (range lead n)
          else ret tt)
       (range 0 m).

Fixpoint rowEchelonLoop (m n : nat) (rows : list nat) (lead : nat) (result : loc)
  : M unit :=
  match rows with
  | [] => ret tt
  | r :: rows' =>
      if (n <=? lead)%nat then ret tt
      else
        let! snapshot := readMatrix result in
        match findLead (numbers snapshot) r m (range lead n) with
        | None => ret tt
        | Some (i, lead') =>
            let! _ := reduceRow result m n r i lead' in
            rowEchelonLoop m n rows' (S lead') result
        end
  end.

Definition reduceToRowEchelon (matrix : loc) : M loc :=
  let! (m, n) := shape matrix in
  let! result := Store.copyMatrix matrix in
  let! _ := rowEchelonLoop m n (range 0 m) 0 result in
  ret result.

Definition calculateRank (matrix : loc) : M nat :=
  let! rref := reduceToRowEchelon matrix in
  let! snapshot := readMatrix rref in
  ret (List.length (filter (fun row => negb (forallb isZero row)) (numbers snapshot))).

(** [gaussianElimination(augmentedMatrix)]: back substitution into
    [x = new Array(n).fill(0)] *)
Definition gaussianElimination (this : MatrixOperations) (augmentedMatrix : loc)
  : M loc :=
  let! rows := rowsOf augmentedMatrix in
  let n := List.length rows in
  let! x := alloc (Cells (repeat (SNum 0) n)) in
  let! _ :=
    forH (fun i =>
            let! sum :=
              foldH (fun j sum =>
                       let! a := getCell augmentedMatrix i j in
                       let! xj := getEntry x j in
                       ret (sum + toNumber a * toNumber xj)%float)
                    (range (i + 1) n) 0%float in
            let! b := getCell augmentedMatrix i n in
            let! d := getCell augmentedMatrix i i in
            setEntry x i (SNum ((toNumber b - sum) / toNumber d)%float))
         (rev (range 0 n)) in
  let! cells := cellsOf x in
  alloc (Cells (map (fun v => SNum (roundNumber this (toNumber v))) cells)).

Definition findParticularSolutionAndBasis (this : MatrixOperations) (rref : loc)
  : M (loc * loc) :=
  let! (m, columns) := shape rref in
  let n := (columns - 1)%nat in
  let! particularSolution := alloc (Cells (repeat (SNum 0) n)) in
  let! basisSolutions := alloc (Rows []) in
  let! snapshot := readMatrix rref in
  let pivotColumns :=
    flat_map (fun i => match coefficientPivot (numbers snapshot) n i with
                       | Some p => [p]
                       | None => []
                       end) (range 0 m) in
  let freeVariables :=
    filter (fun j => negb (existsb (Nat.eqb j) pivotColumns)) (range 0 n) in
  let! _ :=
    forH (fun i =>
            match coefficientPivot (numbers snapshot) n i with
            | Some pivotIndex =>
                let! b := getCell rref i n in
                setEntry particularSolution pivotIndex b
            | None => ret tt
            end)
         (range 0 m) in
  let! _ :=
    forH (fun freeVar =>
            let! basis := alloc (Cells (repeat (SNum 0) n)) in
            let! _ := setEntry basis freeVar (SNum 1) in
            let! _ :=
              forH (fun i =>
                      match coefficientPivot (numbers snapshot) n i with
                      | Some pivotIndex =>
                          if (pivotIndex =? freeVar)%nat then ret tt
                          else
                            let! c := getCell rref i freeVar in
                            setEntry basis pivotIndex (SNum (- toNumber c)%float)
                      | None => ret tt
                      end)
                   (range 0 m) in
            let! cells := cellsOf basis in
            let! rounded :=
              alloc (Cells (map (fun v => SNum (roundNumber this (toNumber v))) cells)) in
            pushRow basisSolutions rounded)
         freeVariables in
  let! cells := cellsOf particularSolution in
  let! rounded :=
    alloc (Cells (map (fun v => SNum (roundNumber this (toNumber v))) cells)) in
  ret (rounded, basisSolutions).

Definition solveEquations (this : MatrixOperations) (matrix constants : loc)
  : M Solution :=
  let! rows := rowsOf matrix in
  let! given := cellsOf constants in
  if negb (List.length rows =? List.length given)%nat then lift (Throw ShapeError)
  else
    let! augmentedMatrix := alloc (Rows []) in
    let! _ :=
      forH (fun i =>
              let! row := getRow matrix i in
              let! cells := cellsOf row in
              let! row0 := getRow matrix 0 in
              let! cells0 := cellsOf row0 in
              if negb (List.length cells =? List.length cells0)%nat
              then lift (Throw ShapeError)
              else
                let! b := getEntry constants i in
                let! augmented := alloc (Cells (cells ++ [b])) in
                pushRow augmentedMatrix augmented)
           (range 0 (List.length rows)) in
    let! rref := reduceToRowEchelon augmentedMatrix in
    let! rankA := calculateRank matrix in
    let! rankAugmented := calculateRank rref in
    let! (_, n) := shape matrix in
    if (rankA <? rankAugmented)%nat then ret (NoSolution rankA rankAugmented)
    else if (rankA =? rankAugmented)%nat && (rankA =? n)%nat then
      let! x := gaussianElimination this rref in
      let! solution := cellsOf x in
      ret (UniqueSolution (map toNumber solution) rankA rankAugmented)
    else
      let! (particular, basisSolutions) := findParticularSolutionAndBasis this rref in
      let! particularSolution := cellsOf particular in
      let! basis := readMatrix basisSolutions in
      ret (InfiniteSolutions (map toNumber particularSolution) (numbers basis)
                             rankA rankAugmented (n - rankA)).

End OldStore.

(* ================================================================== *)
(** * The predicates of the statements *)

Import JS Data Store.

(** Positive denominator, lowest terms. *)
Definition reduced (n d : Z) : Prop := 0 < d /\ Z.gcd (Z.abs n) d = 1.

(** A Fraction with a non-zero denominator. *)
Definition rationalEntry (v : Scalar) : Prop :=
  match v with
  | SFrac f => denominator f <> 0
  | SNum _ => False
  end.

Definition rationalRow (n : nat) (row : Vector) : Prop :=
  List.length row = n /\ Forall rationalEntry row.

(** An [m] x [n] matrix of such Fractions. *)
Definition rationalMatrix (m n : nat) (M : Matrix) : Prop :=
  List.length M = m /\ Forall (rationalRow n) M.

(** A Fraction that is not zero. *)
Definition nonzeroEntry (v : Scalar) : Prop :=
  match v with
  | SFrac f => denominator f <> 0 /\ numerator f <> 0
  | SNum _ => False
  end.

(** A store of the caller: the rows (1, 2) and (3, 4), the matrix of these
    two rows at place 2, and the vector (5, 11) at place 3. *)
Definition sampleStore : heap :=
  [Cells [SNum 1; SNum 2]; Cells [SNum 3; SNum 4]; Rows [0%nat; 1%nat];
   Cells [SNum 5; SNum 11]].

Definition sampleMatrix : Matrix := [[SNum 1; SNum 2]; [SNum 3; SNum 4]].

(** An array made during the call: its place is beyond the store of the
    caller, which had [base] arrays. *)
Definition owned (base : nat) (l : loc) : Prop := (base <= l)%nat.

(** An array of arrays made during the call holds such arrays only. *)
Definition closed (base : nat) (a : array) : Prop :=
  match a with
  | Cells _ => True
  | Rows rows => Forall (owned base) rows
  end.

(** The store [h] is the store [h0] of the caller, unchanged, followed by
    arrays made since. *)
Definition extends (h0 h : heap) : Prop :=
  exists ext, h = h0 ++ ext /\ Forall (closed (List.length h0)) ext.

(** Run from any such store, [c] leaves such a store, and a result
    satisfies [Q]. *)
Definition triple {A : Type} (h0 : heap) (c : M A) (Q : A -> Prop) : Prop :=
  forall h, extends h0 h ->
            extends h0 (snd (c h)) /\ forall a, fst (c h) = Ret a -> Q a.

(** Every array of the store at the call is as it was, whatever the
    outcome. *)
Definition preserves {A : Type} (c : M A) : Prop :=
  forall h, firstn (List.length h) (snd (c h)) = h.


(* ================================================================== *)
(** ** The store against values *)

(** The rows at [rows] hold the rows of [M]. *)
Definition rowsHold (h : heap) (rows : list loc) (M : Matrix) : Prop :=
  Forall2 (fun r cells => nth_error h r = Some (Cells cells)) rows M.

(** The array of arrays at [w] is a matrix of the method: its rows are
    distinct arrays, and they hold [M]. *)
Definition working (h : heap) (w : loc) (rows : list loc) (M : Matrix) : Prop :=
  nth_error h w = Some (Rows rows) /\ NoDup rows /\ rowsHold h rows M.

(** [m] rows of [n] entries *)
Definition shaped (m n : nat) (M : Matrix) : Prop :=
  List.length M = m /\ Forall (fun row => List.length row = n) M.

(** The run [x] on the store and the run [y] on values end alike, and when
    they return their results are related by [R]. *)
Definition agrees {A B : Type} (x : outcome A * heap) (y : outcome B)
  (R : A -> heap -> B -> Prop) : Prop :=
  match y with
  | Ret b => exists a, fst x = Ret a /\ R a (snd x) b
  | Throw e => fst x = Throw e
  | Hang => fst x = Hang
  | Beyond => fst x = Beyond
  end.

(** What else the method keeps in the store, beside the matrix at [w]: a
    fact that no write into the matrix disturbs. *)
Definition stable (w : loc) (F : heap -> list loc -> Prop) : Prop :=
  forall h h' rows rows',
    F h rows ->
    (forall l, ~ In l rows -> l <> w -> nth_error h' l = nth_error h l) ->
    (forall l, In l rows' <-> In l rows) ->
    F h' rows'.

Definition Inv (w : loc) (m n : nat) (F : heap -> list loc -> Prop) (h : heap)
  (M : Matrix) : Prop :=
  exists rows, working h w rows M /\ shaped m n M /\ F h rows.

(** The list of pivots at [det], beside the matrix at [w]. *)
Definition keeps (w det : loc) (dl : list Scalar) (h : heap) (rows : list loc) : Prop :=
  nth_error h det = Some (Cells dl) /\ ~ In det rows /\ det <> w.

(** The invariant of a method that keeps nothing but its matrix. *)
Definition nothing (h : heap) (rows : list loc) : Prop := True.


(** ** Exact arithmetic: the predicates of the statements on Fractions *)

(** ** Fractions as rational numbers *)

(** A Fraction in lowest terms with a positive denominator. *)
Definition lowest (f : Fraction) : Prop := reduced (numerator f) (denominator f).

(** The value of a Fraction with a positive denominator, as a rational. *)
Definition Qof (f : Fraction) : Q := Qmake (numerator f) (Z.to_pos (denominator f)).

(** ** Printing and reading a Fraction *)

(** The integer that [read_digits] accumulates over the digits [d], from [acc]. *)
Fixpoint uint_value (d : Decimal.uint) (acc : Z) : Z :=
  match d with
  | Decimal.Nil => acc
  | Decimal.D0 l => uint_value l (10 * acc + 0)
  | Decimal.D1 l => uint_value l (10 * acc + 1)
  | Decimal.D2 l => uint_value l (10 * acc + 2)
  | Decimal.D3 l => uint_value l (10 * acc + 3)
  | Decimal.D4 l => uint_value l (10 * acc + 4)
  | Decimal.D5 l => uint_value l (10 * acc + 5)
  | Decimal.D6 l => uint_value l (10 * acc + 6)
  | Decimal.D7 l => uint_value l (10 * acc + 7)
  | Decimal.D8 l => uint_value l (10 * acc + 8)
  | Decimal.D9 l => uint_value l (10 * acc + 9)
  end.

(** A string that does not go on with a digit. *)
Definition no_digit_ahead (rest : string) : Prop :=
  match rest with
  | EmptyString => True
  | String c _ => is_digit c = false
  end.

(** ** Combinations and principal minors *)

(** [c] is got from [l] by leaving elements out. *)
Inductive subseq {A : Type} : list A -> list A -> Prop :=
| subseq_nil : subseq [] []
| subseq_take (x : A) (c l : list A) : subseq c l -> subseq (x :: c) (x :: l)
| subseq_skip (x : A) (c l : list A) : subseq c l -> subseq c (x :: l).

(** The number of ways to choose [k] of [n] elements (Pascal's rule). *)
Fixpoint choose (n k : nat) : nat :=
  match k, n with
  | O, _ => 1
  | S _, O => 0
  | S k', S n' => choose n' k' + choose n' k
  end.

(** ** Vectors of Fractions *)

(** The vector of the Fractions [v]. *)
Definition fractions (v : list Fraction) : Vector := map SFrac v.

(** Entry by entry: [op a b] for the entries [a] of [v] and [b] of [w]. *)
Definition pointwise (op : Fraction -> Fraction -> Fraction) (v w : list Fraction)
  : list Fraction :=
  map (fun ab => op (fst ab) (snd ab)) (combine v w).

(** The sum of the products of the entries, as a rational. *)
Definition dotQ (v w : list Fraction) : Q :=
  fold_right (fun ab s => Qplus (Qmult (Qof (fst ab)) (Qof (snd ab))) s) 0%Q (combine v w).

Definition positiveFraction (f : Fraction) : Prop := 0 < denominator f.

Definition zeroFraction : Fraction := mkFraction 0 1.

(** The sum of a list of Fractions, from [p] on. *)
Definition sumFrom (p : Fraction) (l : list Fraction) : Fraction := fold_left Old.add l p.

(** ** Row operations over the rationals *)

(** A Fraction with a positive denominator. *)
Definition posEntry (v : Scalar) : Prop :=
  match v with
  | SFrac f => positiveFraction f
  | SNum _ => False
  end.

(** An [m] x [n] matrix of such Fractions. *)
Definition posMatrix (m n : nat) (M : Matrix) : Prop :=
  List.length M = m /\ Forall (fun row => List.length row = n /\ Forall posEntry row) M.

(** The Fraction at row [r], column [c]. *)
Definition entry (M : Matrix) (r c : nat) : Fraction :=
  match cell M r c with
  | SFrac f => f
  | SNum _ => zeroFraction
  end.

(** Its value. *)
Definition val (M : Matrix) (r c : nat) : Q := Qof (entry M r c).

(** [f 0 + ... + f (n - 1)] *)
Fixpoint sumQ (f : nat -> Q) (n : nat) : Q :=
  match n with
  | O => 0%Q
  | S k => (sumQ f k + f k)%Q
  end.

(** Row [r] of [M] times the column vector [x]. *)
Definition rowDot (M : Matrix) (n : nat) (x : nat -> Q) (r : nat) : Q :=
  sumQ (fun c => val M r c * x c)%Q n.

(** [x] is orthogonal to every row of [M]. *)
Definition inKernel (m n : nat) (M : Matrix) (x : nat -> Q) : Prop :=
  forall r, (r < m)%nat -> Qeq (rowDot M n x r) 0%Q.

Definition oneFraction : Fraction := mkFraction 1 1.

(** The quotient of two Fractions, for a divisor that is not zero. *)
Definition quotientOf (a p : Fraction) : Fraction :=
  Old.Fraction_new (numerator a * denominator p) (denominator a * numerator p).

(** Row [k] has the pivot 1/1 in column [p]: zeros before it in the row,
    and zeros elsewhere in the column. *)
Definition pivotAt (m : nat) (R : Matrix) (k p : nat) : Prop :=
  cell R k p = SFrac oneFraction
  /\ (forall r, (r < m)%nat -> r <> k -> New.isZero (cell R r p) = true)
  /\ (forall c, (c < p)%nat -> New.isZero (cell R k c) = true).

(** Reduced row echelon form, with the pivot of row [k] in column
    [nth k pivots 0]. *)
Definition rrefForm (m n : nat) (R : Matrix) (pivots : list nat) : Prop :=
  (List.length pivots <= m)%nat
  /\ (forall k, (k < List.length pivots)%nat ->
                (nth k pivots O < n)%nat /\ pivotAt m R k (nth k pivots O))
  /\ (forall k k', (k < k' < List.length pivots)%nat ->
                   (nth k pivots O < nth k' pivots O)%nat)
  /\ (forall r c, (List.length pivots <= r < m)%nat -> (c < n)%nat ->
                  New.isZero (cell R r c) = true).

(** ** Linear independence *)

(** Only the zero vector is orthogonal to every row: the columns of [M]
    are linearly independent over the rationals. *)
Definition trivialKernel (m n : nat) (M : Matrix) : Prop :=
  forall x, inKernel m n M x -> forall c, (c < n)%nat -> Qeq (x c) 0%Q.

(** The place of [c] in [ps]. *)
Fixpoint indexOf (ps : list nat) (c : nat) : option nat :=
  match ps with
  | [] => None
  | p :: ps' => if (p =? c)%nat then Some O else option_map S (indexOf ps' c)
  end.

(** The vectors [vs], of dimension [n], have only the trivial linear
    relation over the rationals: a combination of them with the coefficients
    [x 0], [x 1], ... is the zero vector only when all coefficients are 0. *)
Definition independentFamily (n : nat) (vs : list (list Fraction)) : Prop :=
  forall x : nat -> Q,
    (forall i, (i < n)%nat ->
               Qeq (sumQ (fun j => Qof (nth i (nth j vs []) zeroFraction) * x j)%Q
                         (List.length vs)) 0%Q) ->
    forall j, (j < List.length vs)%nat -> Qeq (x j) 0%Q.

(** Vectors of Fractions with positive denominators, of dimension [n]. *)
Definition positiveFamily (n : nat) (vs : list (list Fraction)) : Prop :=
  Forall (fun v => List.length v = n /\ Forall positiveFraction v) vs.

(** ** Products of matrices *)

(** The product of two matrices of Fractions, entry by entry, as rationals *)
Definition productQ (A B : Matrix) (k : nat) (i j : nat) : Q :=
  sumQ (fun l => val A i l * val B l j)%Q k.

(** The text of a matrix of Fractions in the rational format *)
Definition textOf (C : Matrix) : list (list New.text) :=
  map (map (fun v => match v with
                     | SFrac f => New.Text (New.toString f)
                     | SNum x => New.Printed x
                     end)) C.

(** The identity matrix in Fractions *)
Definition identityFractions (size : nat) : Matrix :=
  map (fun i => map (fun j => SFrac (if (j =? i)%nat then oneFraction else zeroFraction))
                    (range 0 size))
      (range 0 size).

(** ** Inverses *)

(** [M] is [n] x [2n], and its right half times [A] is its left half. *)
Definition augmented (n : nat) (A M : Matrix) : Prop :=
  forall r c, (r < n)%nat -> (c < n)%nat ->
              Qeq (sumQ (fun l => val M r (n + l) * val A l c)%Q n) (val M r c).

(** The first [i] columns of [M] are those of the identity matrix. *)
Definition unitColumns (n i : nat) (M : Matrix) : Prop :=
  forall r c, (r < n)%nat -> (c < i)%nat ->
              Qeq (val M r c) (if (c =? r)%nat then 1 else 0)%Q.

(** The rows of [M0] are combinations of the rows of [M]: [F * M = M0] for a
    matrix [F] of rationals. *)
Definition traced (n w : nat) (M0 M : Matrix) : Prop :=
  exists F : nat -> nat -> Q,
    forall r c, (r < n)%nat -> (c < w)%nat ->
                Qeq (sumQ (fun l => F r l * val M l c)%Q n) (val M0 r c).

(** The augmented matrix [A | I] that [calculateInverse] starts from, for a
    matrix of Fractions in fraction mode *)
Definition augmentedStart (n : nat) (A : Matrix) : Matrix :=
  map (fun i => nth i A []
                ++ map (fun idx => SFrac (if (idx =? i)%nat then oneFraction
                                          else zeroFraction)) (range 0 n))
      (range 0 n).

(** [R] is the inverse of [A]: both products are the identity matrix. *)
Definition inverseOf (n : nat) (A R : Matrix) : Prop :=
  forall i j, (i < n)%nat -> (j < n)%nat ->
              Qeq (productQ R A n i j) (if (j =? i)%nat then 1 else 0)%Q
              /\ Qeq (productQ A R n i j) (if (j =? i)%nat then 1 else 0)%Q.

(** ** Systems of linear equations *)

(** [y] solves the system with the augmented matrix [Ab] of [m] equations in
    [n] unknowns: row [r] is [Ab[r][0] y0 + ... + Ab[r][n-1] y(n-1) = Ab[r][n]]. *)
Definition solves (m n : nat) (Ab : Matrix) (y : nat -> Q) : Prop :=
  forall r, (r < m)%nat -> Qeq (sumQ (fun c => val Ab r c * y c)%Q n) (val Ab r n).

(** The state of [extractSolution] once the rows from [i] on are done: the
    unknowns from [i] on hold the last column of their rows. *)
Definition solvedFrom (n : nat) (R : Matrix) (i : nat) (solution : Vector) : Prop :=
  List.length solution = n
  /\ forall j, (i <= j < n)%nat ->
               exists f, nth j solution undefined = SFrac f
                         /\ positiveFraction f /\ Qeq (Qof f) (val R j n).

(** ** LaTeX and formats *)

(** The text that [formatStringToLatex] puts for one character *)
Definition escapeChar (c : ascii) : string :=
  if Ascii.eqb c "&" then "\&"
  else if Ascii.eqb c ">" then "\gt"
  else if Ascii.eqb c "<" then "\lt"
  else if Ascii.eqb c "%" then "\%"
  else if Ascii.eqb c "$" then "\$"
  else if Ascii.eqb c "#" then "\#"
  else if Ascii.eqb c "_" then "\_"
  else if Ascii.eqb c "^" then "\^"
  else if Ascii.eqb c "~" then "\~"
  else String c "".

(** The characters that [formatStringToLatex] replaces *)
Definition special (c : ascii) : bool :=
  existsb (Ascii.eqb c) ["&"; ">"; "<"; "%"; "$"; "#"; "_"; "^"; "~"]%char.

(** * Facts about the embedded code *)

Import JS Data.

(** ** Fraction.gcd is the greatest common divisor *)

Lemma gcd_loop_S (k : nat) (a b : Z) :
  gcd_loop (S k) a b = if b =? 0 then a else gcd_loop k b (Z.rem a b).
Proof. reflexivity. Qed.

(** Two rounds of the loop at least halve the second argument, so
    [2n + 1] rounds suffice below [2^n]. *)
Lemma gcd_loop_Zgcd (n : nat) :
  forall a b, 0 <= a -> 0 <= b < 2 ^ Z.of_nat n ->
              gcd_loop (S (2 * n)) a b = Z.gcd a b.
Proof.
  induction n as [|n IH]; intros a b Ha Hb.
  - assert (b = 0) by (change (2 ^ Z.of_nat 0) with 1 in Hb; lia). subst b.
    cbn. rewrite Z.gcd_0_r. lia.
  - replace (S (2 * S n)) with (S (S (S (2 * n)))) by lia.
    rewrite gcd_loop_S.
    destruct (Z.eqb_spec b 0) as [->|Hb0].
    + rewrite Z.gcd_0_r. lia.
    + assert (Hr1 : 0 <= Z.rem a b < b) by (apply Z.rem_bound_pos; lia).
      assert (Hg1 : Z.gcd b (Z.rem a b) = Z.gcd a b).
      { rewrite Z.rem_mod_nonneg by lia.
        rewrite Z.gcd_comm. rewrite Z.gcd_mod by lia.
        apply Z.gcd_comm. }
      rewrite gcd_loop_S.
      destruct (Z.eqb_spec (Z.rem a b) 0) as [Hz|Hnz].
      * rewrite <- Hg1, Hz, Z.gcd_0_r. lia.
      * set (r1 := Z.rem a b) in *.
        assert (Hr2 : 0 <= Z.rem b r1 < r1) by (apply Z.rem_bound_pos; lia).
        assert (Hhalf : 2 * Z.rem b r1 < b).
        { rewrite Z.rem_mod_nonneg by lia.
          pose proof (Z.div_mod b r1 ltac:(lia)) as Hdm.
          assert (1 <= b / r1) by (apply Z.div_le_lower_bound; lia).
          pose proof (Z.mod_pos_bound b r1 ltac:(lia)). nia. }
        rewrite IH.
        -- rewrite <- Hg1. rewrite Z.rem_mod_nonneg by lia.
           rewrite (Z.gcd_comm r1). rewrite Z.gcd_mod by lia. apply Z.gcd_comm.
        -- lia.
        -- split; [lia|].
           rewrite Nat2Z.inj_succ, Z.pow_succ_r in Hb by lia. lia.
Qed.

Lemma gcd_fuel_enough (b : Z) :
  0 <= b -> b < 2 ^ Z.of_nat (Z.to_nat (Z.log2_up (b + 1))).
Proof.
  intros Hb. rewrite Z2Nat.id by apply Z.log2_up_nonneg.
  destruct (Z.eq_dec b 0) as [->|Hnz]; [reflexivity|].
  pose proof (Z.log2_up_spec (b + 1) ltac:(lia)). lia.
Qed.

Lemma New_gcd_is_Zgcd (a b : Z) : 0 <= a -> 0 <= b -> New.gcd a b = Z.gcd a b.
Proof.
  intros Ha Hb. unfold New.gcd, gcd_fuel.
  apply gcd_loop_Zgcd; [assumption|]. split; [assumption|].
  now apply gcd_fuel_enough.
Qed.

Lemma Old_gcd_is_Zgcd (a b : Z) : Old.gcd a b = Z.gcd a b.
Proof.
  unfold Old.gcd, gcd_fuel.
  rewrite gcd_loop_Zgcd.
  - now rewrite Z.gcd_abs_l, Z.gcd_abs_r.
  - apply Z.abs_nonneg.
  - split; [apply Z.abs_nonneg|]. apply gcd_fuel_enough, Z.abs_nonneg.
Qed.

(** ** The invariant of a Fraction *)


Lemma reduced_quotient (p q : Z) :
  q <> 0 ->
  let g := Z.gcd p q in
  let n := p / g in
  let d := q / g in
  0 < g /\ p = g * n /\ q = g * d /\ Z.gcd n d = 1 /\ d <> 0.
Proof.
  intros Hq g n d.
  assert (Hg : 0 < g).
  { pose proof (Z.gcd_nonneg p q). subst g.
    destruct (Z.eq_dec (Z.gcd p q) 0) as [E|E]; [|lia].
    apply Z.gcd_eq_0_r in E. contradiction. }
  assert (Hp : p = g * n).
  { subst n. rewrite <- Z.divide_div_mul_exact by (try lia; apply Z.gcd_divide_l).
    rewrite Z.mul_comm, Z.div_mul by lia. reflexivity. }
  assert (Hq' : q = g * d).
  { subst d. rewrite <- Z.divide_div_mul_exact by (try lia; apply Z.gcd_divide_r).
    rewrite Z.mul_comm, Z.div_mul by lia. reflexivity. }
  repeat split; try assumption.
  - subst n d g. apply Z.gcd_div_gcd; [lia | reflexivity].
  - intros Hd. rewrite Hd in Hq'. lia.
Qed.

(** [new Fraction(p, q)] of the new library, for [q <> 0]. *)
Lemma New_Fraction_new_reduced (p q : Z) :
  q <> 0 ->
  exists f, New.Fraction_new p q = Ret f
            /\ reduced (numerator f) (denominator f)
            /\ numerator f * q = p * denominator f.
Proof.
  intros Hq. unfold New.Fraction_new.
  rewrite New_gcd_is_Zgcd by apply Z.abs_nonneg.
  rewrite Z.gcd_abs_l, Z.gcd_abs_r.
  destruct (reduced_quotient p q Hq) as (Hg & Hp & Hq' & Hgcd & Hd).
  set (g := Z.gcd p q) in *. set (n := p / g) in *. set (d := q / g) in *.
  destruct (Z.eqb_spec g 0); [lia|].
  destruct (Z.ltb_spec d 0).
  - eexists; split; [reflexivity|]. cbn. unfold reduced. repeat split.
    + lia.
    + rewrite Z.gcd_abs_l, Z.gcd_opp_l, Z.gcd_opp_r. exact Hgcd.
    + rewrite Hq' at 1. rewrite Hp at 1. ring.
  - eexists; split; [reflexivity|]. cbn. unfold reduced. repeat split.
    + lia.
    + rewrite Z.gcd_abs_l. exact Hgcd.
    + rewrite Hq' at 1. rewrite Hp at 1. ring.
Qed.

(** Zero is stored as 0/1. *)
Lemma reduced_zero (d : Z) : reduced 0 d -> d = 1.
Proof. intros [Hd Hg]. cbn in Hg. rewrite Z.abs_eq in Hg; lia. Qed.

(** [new Fraction(p, q)] of the old library: every pair of integers. *)
Lemma Old_Fraction_new_reduced (p q : Z) :
  let f := Old.Fraction_new p q in
  reduced (numerator f) (denominator f)
  /\ (q <> 0 -> numerator f * q = p * denominator f)
  /\ (q = 0 -> numerator f = p /\ denominator f = 1).
Proof.
  unfold Old.Fraction_new, Old.reduce.
  destruct (Z.eqb_spec q 0) as [->|Hq].
  - cbn [Z.ltb Z.compare numerator denominator].
    rewrite Old_gcd_is_Zgcd, Z.gcd_1_r, !Z.div_1_r.
    cbn. unfold reduced. rewrite Z.gcd_1_r. repeat split; lia.
  - destruct (Z.ltb_spec q 0) as [Hneg|Hpos];
      cbn [numerator denominator]; rewrite Old_gcd_is_Zgcd.
    + destruct (reduced_quotient (- p) (- q) ltac:(lia)) as (Hg & Hp & Hq' & Hgcd & Hd).
      set (g := Z.gcd (- p) (- q)) in *.
      cbn. unfold reduced. repeat split.
      * nia.
      * rewrite Z.gcd_abs_l. exact Hgcd.
      * intros _. nia.
      * lia.
      * lia.
    + destruct (reduced_quotient p q Hq) as (Hg & Hp & Hq' & Hgcd & Hd).
      set (g := Z.gcd p q) in *.
      cbn. unfold reduced. repeat split.
      * nia.
      * rewrite Z.gcd_abs_l. exact Hgcd.
      * intros _. nia.
      * lia.
      * lia.
Qed.

(** ** Fraction.gcd on a NaN or an infinity never returns *)

Lemma rem_nan_r (a : float) : rem a nan = nan.
Proof.
  unfold rem. change (Prim2SF nan) with S754_nan.
  destruct (Prim2SF a); reflexivity.
Qed.

Lemma gcd_number_nan_r (fuel : nat) (a : float) : New.gcd_number fuel a nan = None.
Proof.
  revert a. induction fuel as [|k IH]; intros a; [reflexivity|].
  cbn [New.gcd_number]. change (sne_num nan 0) with true. cbn iota.
  rewrite rem_nan_r. apply IH.
Qed.

(** [Math.abs] of a number that is not finite is NaN or +infinity, and the
    first round of the loop computes [a % b = NaN]. *)
Lemma New_gcd_number_diverges (fuel : nat) (x y : float) (q : Z) :
  decompose x = None -> toZ y = Some q -> q <> 0 ->
  New.gcd_number fuel (abs x) (abs y) = None.
Proof.
  intros Hx Hy Hq.
  assert (Hax : Prim2SF (abs x) = S754_nan \/ Prim2SF (abs x) = S754_infinity false).
  { rewrite FloatAxioms.abs_spec. unfold decompose in Hx.
    destruct (Prim2SF x); try discriminate; cbn; auto. }
  assert (Hay : exists m e, Prim2SF (abs y) = S754_finite false m e).
  { rewrite FloatAxioms.abs_spec. unfold toZ, Number_isInteger, floorZ, decompose in Hy.
    destruct (Prim2SF y) as [s|s| |s m e]; cbn in *; try discriminate.
    - injection Hy as <-. contradiction.
    - eauto. }
  destruct Hay as (m & e & Hay).
  destruct fuel as [|k]; [reflexivity|]. cbn [New.gcd_number].
  assert (Hne : sne_num (abs y) 0 = true).
  { unfold sne_num. rewrite FloatAxioms.eqb_spec, Hay. reflexivity. }
  rewrite Hne.
  assert (Hrem : rem (abs x) (abs y) = nan).
  { unfold rem. rewrite Hay. destruct Hax as [-> | ->]; reflexivity. }
  rewrite Hrem. apply gcd_number_nan_r.
Qed.

(** ** C5, C1: division by a zero Fraction *)

(** C5 (code defect). [Fraction.divide] of the new library has no zero test:
    dividing 1/2 by 0/1 returns the object 1/0, and no call of [divide]
    throws.  The old library throws when the divisor's numerator is 0
    (see below). *)
Theorem C5_new_divide_never_fails :
  New.divide (mkFraction 1 2) (mkFraction 0 1) = Ret (mkFraction 1 0)
  /\ forall a b e, New.divide a b <> Throw e.
Proof.
  split; [reflexivity|].
  intros a b e. unfold New.divide, New.Fraction_new.
  destruct (_ =? 0); [discriminate|].
  destruct (_ <? 0); discriminate.
Qed.

(** C1 (code defect). In the new library two constructions yield a Fraction
    whose denominator is 0, so not strictly positive: the quotient of 3/4 by
    0/1, and the string 3/0. *)
Theorem C1_new_zero_denominator :
  (exists f, New.divide (mkFraction 3 4) (mkFraction 0 1) = Ret f
             /\ denominator f = 0
             /\ ~ reduced (numerator f) (denominator f))
  /\ (exists f, New.Fraction_of_string "3/0" = Ret f
                /\ denominator f = 0
                /\ ~ reduced (numerator f) (denominator f)).
Proof.
  split; exists (mkFraction 1 0); (split; [reflexivity|]);
    (split; [reflexivity|]); unfold reduced; cbn; lia.
Qed.



(** ** Where the invariant of a Fraction holds *)




(** ** C6: a Fraction from a number *)

(** [Fraction.fromFloat] of the old library runs the continued-fraction loop
    without the integer part of its first step: for 0.5 the loop sees the
    reciprocal 2 and the result is 2/1; for 0.25 it is 4/1. *)
Lemma Old_fromFloat_one_half :
  Old.fromFloat 0.5 10 = Ret (mkFraction 2 1)
  /\ Old.fromFloat 0.25 10 = Ret (mkFraction 4 1).
Proof. split; vm_compute; reflexivity. Qed.


Lemma toZ_integer (x : number) (z : Z) : toZ x = Some z -> Number_isInteger x = true.
Proof. unfold toZ. destruct (Number_isInteger x); [reflexivity | discriminate]. Qed.



(** ** C2: the determinant *)

(** C2 (code defect). On [[0.5, 0, 0], [0, 0, 1], [0, 1, 0]] the new
    [calculateDeterminant] finds the pivots 1/2, 1, 1 with one row swap, so
    [det = [1/2, -1, 1, 1]]; none is zero.  The product loop reaches
    [determinant *= -1] with [determinant] the Fraction 1/2, whose conversion
    to a number is NaN, and [new Fraction(NaN)] never returns.  The old
    library, on the same rational matrix, returns the product of the diagonal
    1/2 * 1 * 1 with the sign of one swap: -1/2. *)
Theorem C2_new_determinant_hangs :
  New.calculateDeterminant New.engine
    [[SNum 0.5; SNum 0; SNum 0];
     [SNum 0; SNum 0; SNum 1];
     [SNum 0; SNum 1; SNum 0]] = Hang
  /\ New.determinantLoop New.engine 3 (range 0 3)
       [[SFrac (mkFraction 1 2); SFrac (mkFraction 0 1);
         SFrac (mkFraction 0 1)];
        [SFrac (mkFraction 0 1); SFrac (mkFraction 0 1);
         SFrac (mkFraction 1 1)];
        [SFrac (mkFraction 0 1); SFrac (mkFraction 1 1);
         SFrac (mkFraction 0 1)]] []
     = Ret (Some
         ([[SFrac (mkFraction 1 2); SFrac (mkFraction 0 1);
            SFrac (mkFraction 0 1)];
           [SFrac (mkFraction 0 1); SFrac (mkFraction 1 1);
            SFrac (mkFraction 0 1)];
           [SFrac (mkFraction 0 1); SFrac (mkFraction 0 1);
            SFrac (mkFraction 1 1)]],
          [SFrac (mkFraction 1 2); SNum (-1);
           SFrac (mkFraction 1 1); SFrac (mkFraction 1 1)]))
  /\ Old.calculateDeterminant Old.engine
       [[SFrac (mkFraction 1 2); SNum 0; SNum 0];
        [SNum 0; SNum 0; SNum 1];
        [SNum 0; SNum 1; SNum 0]]
     = Ret (SFrac (mkFraction (-1) 2)).
Proof. repeat split; vm_compute; reflexivity. Qed.

(** ** C4: the characteristic polynomial *)

(** C4 (code defect). For [[2, 0], [0, 3]] the new
    [calculateCharacteristicPolynomial] returns the texts 1, 23, 6: the sums
    of principal minors carry no sign [(-1)^r], and [sum += det.result] on a
    Fraction concatenates text ("0" + "2" + "3"), which [formatNumber] reads
    back with [parseInt].  The old library returns 1, -5, 6 on this matrix,
    but its [extractPrincipalMinor] copies a Fraction through [parseInt]:
    for the 1 x 1 matrix [[1/2]] it returns 1, -1. *)
Theorem C4_new_characteristic_polynomial :
  New.calculateCharacteristicPolynomial New.engine
    [[SNum 2; SNum 0]; [SNum 0; SNum 3]]
  = Ret [New.Text "1"; New.Text "23"; New.Text "6"]
  /\ Old.calculateCharacteristicPolynomial Old.engine
       [[SNum 2; SNum 0]; [SNum 0; SNum 3]]
     = Ret [SNum 1; SFrac (mkFraction (-5) 1);
            SFrac (mkFraction 6 1)]
  /\ Old.calculateCharacteristicPolynomial Old.engine
       [[SFrac (mkFraction 1 2)]]
     = Ret [SNum 1; SFrac (mkFraction (-1) 1)].
Proof. repeat split; vm_compute; reflexivity. Qed.

(** ** C3: linear systems *)

(** C3 (code defect). Both libraries solve [[1, 2], [3, 4]] x = [5, 11] as
    the unique solution [1, 2].  On the one equation 2x + 4y = 1 the new
    [solveEquations] classifies the system as infinite and then rounds the
    particular solution 1/2 with [Math.round(Fraction)], which is NaN;
    formatting NaN never returns.  On the consistent 3 x 2 system
    x = 1, y = 2, 0 = 0 the old [solveEquations] classifies the system as
    unique and back-substitutes over three unknowns: NaN, NaN, NaN. *)
Theorem C3_solveEquations_defects :
  New.solveEquations New.engine
    [[SNum 1; SNum 2]; [SNum 3; SNum 4]] [SNum 5; SNum 11]
  = Ret (New.mkSolution New.unique 2 2 (Some [New.Text "1"; New.Text "2"]) None [])
  /\ Old.solveEquations Old.engine [[1; 2]; [3; 4]]%float [5; 11]%float
     = Ret (Old.UniqueSolution [1; 2]%float 2 2)
  /\ New.solveEquations New.engine [[SNum 2; SNum 4]] [SNum 1] = Hang
  /\ Old.solveEquations Old.engine [[1; 0]; [0; 1]; [0; 0]]%float [1; 2; 0]%float
     = Ret (Old.UniqueSolution [nan; nan; nan]%float 2 2).
Proof. repeat split; vm_compute; reflexivity. Qed.

(** ** Loops that cannot fail *)

Lemma foldM_invariant {A S : Type} (P : S -> Prop) (body : A -> S -> outcome S)
  (l : list A) :
  (forall x s, In x l -> P s -> exists s', body x s = Ret s' /\ P s') ->
  forall s, P s -> exists s', foldM body l s = Ret s' /\ P s'.
Proof.
  induction l as [|x l IH]; intros Hbody s Hs; cbn.
  - eauto.
  - destruct (Hbody x s (or_introl eq_refl) Hs) as (s1 & -> & Hs1). cbn.
    apply IH; [|assumption]. intros y t Hy. apply Hbody. now right.
Qed.

Lemma mapM_invariant {A B : Type} (Q : B -> Prop) (f : A -> outcome B) (l : list A) :
  (forall x, In x l -> exists y, f x = Ret y /\ Q y) ->
  exists ys, mapM f l = Ret ys /\ Forall Q ys /\ List.length ys = List.length l.
Proof.
  induction l as [|x l IH]; intros Hf; cbn.
  - exists []. auto.
  - destruct (Hf x (or_introl eq_refl)) as (y & -> & Hy). cbn.
    destruct IH as (ys & -> & Hys & Hlen); [intros z Hz; apply Hf; now right|].
    cbn. exists (y :: ys). cbn. auto.
Qed.

Lemma mapM_Ret_id {A : Type} (f : A -> outcome A) (l : list A) :
  (forall x, In x l -> f x = Ret x) -> mapM f l = Ret l.
Proof.
  induction l as [|x l IH]; intros Hf; cbn; [reflexivity|].
  rewrite Hf by now left. cbn. rewrite IH; [reflexivity|].
  intros y Hy. apply Hf. now right.
Qed.

Lemma in_range (lo hi k : nat) : In k (range lo hi) <-> (lo <= k < hi)%nat.
Proof. unfold range. rewrite in_seq. lia. Qed.

(** ** Arrays *)

Lemma update_length {A : Type} (l : list A) (k : nat) (v : A) :
  List.length (update l k v) = List.length l.
Proof.
  revert k. induction l as [|x l IH]; intros [|k]; cbn; auto.
Qed.

Lemma update_Forall {A : Type} (P : A -> Prop) (l : list A) (k : nat) (v : A) :
  Forall P l -> P v -> Forall P (update l k v).
Proof.
  intros Hl Hv. revert k. induction Hl as [|x l Hx Hl IH]; intros [|k]; cbn; auto.
Qed.

Lemma nth_Forall {A : Type} (P : A -> Prop) (l : list A) (k : nat) (d : A) :
  Forall P l -> (k < List.length l)%nat -> P (nth k l d).
Proof.
  intros Hl Hk. rewrite Forall_forall in Hl. apply Hl. now apply nth_In.
Qed.

Lemma nth_update_eq {A : Type} (l : list A) (k : nat) (v d : A) :
  (k < List.length l)%nat -> nth k (update l k v) d = v.
Proof.
  revert k. induction l as [|x l IH]; intros [|k] Hk; cbn in *; try lia; auto.
  apply IH. lia.
Qed.

Lemma nth_update_neq {A : Type} (l : list A) (k j : nat) (v d : A) :
  k <> j -> nth j (update l k v) d = nth j l d.
Proof.
  revert k j. induction l as [|x l IH]; intros [|k] [|j] Hkj; cbn; auto; try lia.
Qed.

Lemma swap_rows_nth (M : Matrix) (i p : nat) :
  (i < List.length M)%nat -> (p < List.length M)%nat ->
  nth i (swap_rows M i p) [] = nth p M [].
Proof.
  intros Hi Hp. unfold swap_rows.
  destruct (Nat.eq_dec p i) as [->|Hne].
  - rewrite nth_update_eq; [reflexivity|]. now rewrite update_length.
  - rewrite nth_update_neq by assumption. now apply nth_update_eq.
Qed.

(** ** Rational matrices of the new library *)


Lemma rationalMatrix_row (m n : nat) (M : Matrix) (i : nat) :
  rationalMatrix m n M -> (i < m)%nat -> rationalRow n (nth i M []).
Proof. intros [Hm HM] Hi. apply nth_Forall; [assumption | lia]. Qed.

Lemma rationalMatrix_cell (m n : nat) (M : Matrix) (i j : nat) :
  rationalMatrix m n M -> (i < m)%nat -> (j < n)%nat ->
  rationalEntry (cell M i j).
Proof.
  intros HM Hi Hj. destruct (rationalMatrix_row m n M i HM Hi) as [Hlen Hrow].
  unfold cell. apply nth_Forall; [assumption | lia].
Qed.

Lemma rationalMatrix_set_cell (m n : nat) (M : Matrix) (i j : nat) (v : Scalar) :
  rationalMatrix m n M -> (i < m)%nat -> rationalEntry v ->
  rationalMatrix m n (set_cell M i j v).
Proof.
  intros HM Hi Hv. pose proof (rationalMatrix_row m n M i HM Hi) as [Hlen Hrow].
  destruct HM as [Hm HM]. unfold set_cell. split.
  - now rewrite update_length.
  - apply update_Forall; [assumption|]. split.
    + now rewrite update_length.
    + now apply update_Forall.
Qed.

Lemma rationalMatrix_swap_rows (m n : nat) (M : Matrix) (i p : nat) :
  rationalMatrix m n M -> (i < m)%nat -> (p < m)%nat ->
  rationalMatrix m n (swap_rows M i p).
Proof.
  intros HM Hi Hp.
  pose proof (rationalMatrix_row m n M i HM Hi).
  pose proof (rationalMatrix_row m n M p HM Hp).
  destruct HM as [Hm HM]. unfold swap_rows. split.
  - now rewrite !update_length.
  - now repeat apply update_Forall.
Qed.

(** ** Exact arithmetic cannot fail on such Fractions *)

Lemma New_Fraction_new_total (p q : Z) :
  q <> 0 -> exists f, New.Fraction_new p q = Ret f /\ denominator f <> 0.
Proof.
  intros Hq. destruct (New_Fraction_new_reduced p q Hq) as (f & Hf & [Hd _] & _).
  exists f. split; [assumption | lia].
Qed.

Lemma New_multiply_total (a b : Fraction) :
  denominator a <> 0 -> denominator b <> 0 ->
  exists f, New.multiply a b = Ret f /\ denominator f <> 0.
Proof. intros. apply New_Fraction_new_total. nia. Qed.

Lemma New_subtract_total (a b : Fraction) :
  denominator a <> 0 -> denominator b <> 0 ->
  exists f, New.subtract a b = Ret f /\ denominator f <> 0.
Proof. intros. apply New_Fraction_new_total. nia. Qed.

Lemma New_divide_total (a b : Fraction) :
  denominator a <> 0 -> numerator b <> 0 ->
  exists f, New.divide a b = Ret f /\ denominator f <> 0.
Proof. intros. apply New_Fraction_new_total. nia. Qed.

Lemma New_combine_rational (this : New.MatrixOperations) (a b factor : Scalar) :
  rationalEntry a -> rationalEntry b -> rationalEntry factor ->
  exists v, New.combine this a b factor = Ret v /\ rationalEntry v.
Proof.
  destruct a as [fa|], b as [fb|], factor as [ff|]; cbn; try contradiction.
  intros Ha Hb Hf.
  destruct (New_multiply_total ff fb Hf Hb) as (p & -> & Hp). cbn.
  destruct (New_subtract_total fa p Ha Hp) as (r & -> & Hr). cbn.
  exists (SFrac r). auto.
Qed.

Lemma New_combineRow_rational (this : New.MatrixOperations) (m n i j from : nat)
  (factor : Scalar) (M : Matrix) :
  rationalMatrix m n M -> (i < m)%nat -> (j < m)%nat -> rationalEntry factor ->
  exists M', New.combineRow this i j from n factor M = Ret M' /\ rationalMatrix m n M'.
Proof.
  intros HM Hi Hj Hf. unfold New.combineRow.
  apply (foldM_invariant (rationalMatrix m n)); [|assumption].
  intros k M0 Hk HM0. apply in_range in Hk.
  destruct (New_combine_rational this (cell M0 j k) (cell M0 i k) factor)
    as (v & -> & Hv);
    try (apply (rationalMatrix_cell m n); assumption || lia); [assumption|].
  cbn. eexists; split; [reflexivity|].
  now apply rationalMatrix_set_cell.
Qed.

(** ** reduceToRowEchelon of the new library returns on a rational matrix *)

Lemma New_isZero_numerator (v : Scalar) :
  rationalEntry v -> New.isZero v = false ->
  exists f, v = SFrac f /\ denominator f <> 0 /\ numerator f <> 0.
Proof.
  destruct v as [f|]; cbn; [|contradiction].
  intros Hd Hz. exists f. repeat split; [assumption|].
  now apply Z.eqb_neq.
Qed.

Lemma New_normalizeRow_rational (this : New.MatrixOperations) (m n i pivotCol : nat)
  (pivot : Scalar) (M : Matrix) :
  rationalMatrix m n M -> (i < m)%nat ->
  rationalEntry pivot -> New.isZero pivot = false ->
  exists M', New.normalizeRow this i pivotCol n pivot M = Ret M'
             /\ rationalMatrix m n M'.
Proof.
  intros HM Hi Hp Hz.
  destruct (New_isZero_numerator pivot Hp Hz) as (p & -> & Hpd & Hpn).
  unfold New.normalizeRow.
  apply (foldM_invariant (rationalMatrix m n)); [|assumption].
  intros j M0 Hj HM0. apply in_range in Hj.
  pose proof (rationalMatrix_cell m n M0 i j HM0 Hi ltac:(lia)) as Hc.
  destruct (cell M0 i j) as [a|]; cbn in Hc; [|contradiction].
  unfold New.scaleDown.
  destruct (New_divide_total a p Hc Hpn) as (q & -> & Hq). cbn.
  eexists; split; [reflexivity|].
  now apply rationalMatrix_set_cell.
Qed.

Lemma New_eliminateOthers_rational (this : New.MatrixOperations) (m n i pivotCol : nat)
  (M : Matrix) :
  rationalMatrix m n M -> (i < m)%nat -> (pivotCol < n)%nat ->
  exists M', New.eliminateOthers this i pivotCol m n M = Ret M'
             /\ rationalMatrix m n M'.
Proof.
  intros HM Hi Hc. unfold New.eliminateOthers.
  apply (foldM_invariant (rationalMatrix m n)); [|assumption].
  intros j M0 Hj HM0. apply in_range in Hj.
  destruct (negb (j =? i)%nat && negb (New.isZero (cell M0 j pivotCol))).
  - apply (New_combineRow_rational this m n); try assumption; try lia.
    apply (rationalMatrix_cell m n); assumption || lia.
  - eauto.
Qed.

Lemma New_firstNonZeroRow_spec (M : Matrix) (c : nat) (rows : list nat) (m : nat) :
  let r := New.firstNonZeroRow M c rows m in
  r = m \/ (In r rows /\ New.isZero (cell M r c) = false).
Proof.
  induction rows as [|r0 rows IH]; cbn; [now left|].
  destruct (New.isZero (cell M r0 c)) eqn:Hz.
  - destruct IH as [IH|[IH1 IH2]]; [now left | right; auto].
  - right. auto.
Qed.

Lemma New_rowEchelonLoop_rational (this : New.MatrixOperations) (m n : nat)
  (columns : list nat) :
  (forall c, In c columns -> (c < n)%nat) ->
  forall i M, rationalMatrix m n M ->
  exists M', New.rowEchelonLoop this m n columns i M = Ret M'
             /\ rationalMatrix m n M'.
Proof.
  induction columns as [|pivotCol columns IH]; intros Hcols i M HM; cbn.
  - eauto.
  - assert (Hc : (pivotCol < n)%nat) by (apply Hcols; now left).
    assert (Hcols' : forall c, In c columns -> (c < n)%nat)
      by (intros c Hin; apply Hcols; now right).
    destruct (Nat.leb_spec m i) as [Hmi|Hmi]; [eauto|].
    pose proof (New_firstNonZeroRow_spec M pivotCol (range i m) m) as Hrow.
    cbv zeta in Hrow.
    destruct (Nat.eqb_spec (New.firstNonZeroRow M pivotCol (range i m) m) m)
      as [E|E]; [now apply IH|].
    destruct Hrow as [Hrow|[Hin Hnz]]; [contradiction|].
    apply in_range in Hin.
    remember (New.firstNonZeroRow M pivotCol (range i m) m) as pivotRow.
    assert (HM1 : rationalMatrix m n (swap_rows M i pivotRow))
      by (apply rationalMatrix_swap_rows; assumption || lia).
    assert (Hpivot : cell (swap_rows M i pivotRow) i pivotCol
                     = cell M pivotRow pivotCol).
    { unfold cell. destruct HM as [Hm _].
      rewrite swap_rows_nth by lia. reflexivity. }
    rewrite Hpivot.
    destruct (New_normalizeRow_rational this m n i pivotCol
                (cell M pivotRow pivotCol) (swap_rows M i pivotRow))
      as (M2 & -> & HM2); try assumption.
    { apply (rationalMatrix_cell m n); assumption || lia. }
    cbn.
    destruct (New_eliminateOthers_rational this m n i pivotCol M2)
      as (M3 & -> & HM3); try assumption.
    cbn. now apply IH.
Qed.

Lemma copyMatrix_id (M : Matrix) : New.copyMatrix M = M.
Proof. unfold New.copyMatrix. apply map_id. Qed.

Lemma New_reduceToRowEchelon_rational (this : New.MatrixOperations) (m n : nat)
  (M : Matrix) :
  (0 < m)%nat -> rationalMatrix m n M ->
  exists M', New.reduceToRowEchelon this M = Ret M' /\ rationalMatrix m n M'.
Proof.
  intros Hm HM. unfold New.reduceToRowEchelon. rewrite copyMatrix_id.
  destruct (rationalMatrix_row m n M 0 HM Hm) as [Hlen _].
  destruct HM as [HmM HM]. rewrite HmM, Hlen.
  apply New_rowEchelonLoop_rational.
  - intros c Hc. apply in_range in Hc. lia.
  - now split.
Qed.

(** ** C10: analyzeVectors never reports a linear relation *)

Lemma New_formatNumber_Fraction (this : New.MatrixOperations) (f : Fraction)
  (fmt : New.FormatType) :
  exists t, New.formatNumber this (New.VScalar (SFrac f)) fmt = Ret t.
Proof.
  destruct fmt; cbn; eauto.
  destruct (denominator f =? 1); eauto.
Qed.

Lemma New_formatVectors_rational (this : New.MatrixOperations) (vecs : list Vector) :
  Forall (Forall rationalEntry) vecs ->
  exists ts, New.formatVectors this vecs = Ret ts.
Proof.
  intros Hv. unfold New.formatVectors.
  destruct (mapM_invariant (fun _ => True) (New.formatVector this) vecs)
    as (ts & Hts & _); [|eauto].
  intros vec Hvec. rewrite Forall_forall in Hv. specialize (Hv vec Hvec).
  unfold New.formatVector.
  destruct (mapM_invariant (fun _ => True)
              (fun v => New.formatNumber this (New.VScalar v) (New.formatType this)) vec)
    as (t & Ht & _); [|eauto].
  intros v Hin. rewrite Forall_forall in Hv. specialize (Hv v Hin).
  destruct v as [f|]; [|contradiction].
  destruct (New_formatNumber_Fraction this f (New.formatType this)) as (t & ->).
  eauto.
Qed.



(** ** C8: normalizeVector *)

Lemma mapM_length {A B : Type} (f : A -> outcome B) (l : list A) (ys : list B) :
  mapM f l = Ret ys -> List.length ys = List.length l.
Proof.
  revert ys. induction l as [|x l IH]; cbn; intros ys H.
  - now inversion H.
  - destruct (f x); try discriminate. cbn in H.
    destruct (mapM f l); try discriminate. cbn in H.
    inversion H; subst. cbn. f_equal. now apply IH.
Qed.

Lemma mapM_forallb {A B : Type} (Q : B -> bool) (f : A -> outcome B) (l : list A)
  (ys : list B) :
  (forall x y, f x = Ret y -> Q y = true) ->
  mapM f l = Ret ys -> forallb Q ys = true.
Proof.
  intros Hf. revert ys. induction l as [|x l IH]; cbn; intros ys H.
  - now inversion H.
  - destruct (f x) eqn:Hx; try discriminate. cbn in H.
    destruct (mapM f l); try discriminate. cbn in H.
    inversion H; subst. cbn. rewrite (Hf x a Hx). now apply IH.
Qed.

(** The old [vectorNorm] returns on a vector of numbers, and in rational mode
    on a vector of Fractions. *)
Lemma Old_vectorNorm_returns (this : Old.MatrixOperations) (vector : Vector) :
  forallb Old.isNumber vector = true
  \/ (Old.useFractions this = true /\ forallb isFraction vector = true) ->
  exists norm, Old.vectorNorm this vector = Ret norm.
Proof.
  intros H. unfold Old.vectorNorm.
  destruct (forallb Old.isNumber vector) eqn:Hnum; [eauto|].
  destruct H as [H|[Huse Hfrac]]; [discriminate|].
  destruct (foldM_invariant (fun s => exists f, s = SFrac f)
              (fun element sumOfSquares =>
                 let* v := Old.convertToAppropriateType this element in
                 let* square :=
                   match v with
                   | SFrac f => Ret (SFrac (Old.multiply f f))
                   | SNum x =>
                       if Old.useFractions this
                       then let* f := Old.toFraction this (x * x)%float in Ret (SFrac f)
                       else Ret (SNum (x * x)%float)
                   end in
                 Old.plus sumOfSquares square)
              vector) with (s := Old.zeroOf this) as (s & -> & (f & ->)).
  - intros x s Hin (r & ->). rewrite forallb_forall in Hfrac.
    specialize (Hfrac x Hin). destruct x as [fx|]; [|discriminate].
    cbn. eauto.
  - unfold Old.zeroOf. rewrite Huse. eauto.
  - cbn. eauto.
Qed.




(** ** Reading a matrix after a write *)

Lemma update_overflow {A : Type} (l : list A) (k : nat) (v : A) :
  (List.length l <= k)%nat -> update l k v = l.
Proof.
  revert k. induction l as [|x l IH]; intros [|k] Hk; cbn in *; try lia; auto.
  f_equal. apply IH. lia.
Qed.

Lemma cell_set_cell_same (M : Matrix) (i j : nat) (v : Scalar) :
  (i < List.length M)%nat -> (j < List.length (nth i M []))%nat ->
  cell (set_cell M i j v) i j = v.
Proof.
  intros Hi Hj. unfold cell, set_cell.
  rewrite nth_update_eq by assumption. now apply nth_update_eq.
Qed.

Lemma cell_set_cell_other (M : Matrix) (i j i' j' : nat) (v : Scalar) :
  i' <> i \/ j' <> j -> cell (set_cell M i j v) i' j' = cell M i' j'.
Proof.
  intros H. unfold cell, set_cell.
  destruct (Nat.eq_dec i' i) as [->|Hi].
  - destruct H as [H|H]; [contradiction|].
    destruct (Nat.lt_ge_cases i (List.length M)) as [Hlt|Hge].
    + rewrite nth_update_eq by assumption. now apply nth_update_neq.
    + now rewrite update_overflow.
  - rewrite nth_update_neq by auto. reflexivity.
Qed.

(** ** analyzeVectors of the old library returns on a rational family *)


Lemma Old_Fraction_new_denominator (p q : Z) :
  denominator (Old.Fraction_new p q) <> 0.
Proof.
  destruct (Old_Fraction_new_reduced p q) as ([Hd _] & _). lia.
Qed.

Lemma Old_divide_nonzero (a b : Fraction) :
  denominator a <> 0 -> numerator b <> 0 ->
  exists q, Old.divide a b = Ret q /\ denominator q <> 0
            /\ (numerator a <> 0 -> denominator b <> 0 -> numerator q <> 0).
Proof.
  intros Ha Hb. unfold Old.divide.
  destruct (Z.eqb_spec (numerator b) 0); [contradiction|].
  eexists; split; [reflexivity|]. split; [apply Old_Fraction_new_denominator|].
  intros Hna Hdb Hq.
  destruct (Old_Fraction_new_reduced (numerator a * denominator b)
                                     (denominator a * numerator b))
    as ([Hd _] & Hv & _).
  specialize (Hv ltac:(nia)). cbv zeta in *. rewrite Hq in Hv. nia.
Qed.

Lemma Old_isZeroScalar_nonzero (v : Scalar) :
  rationalEntry v -> Old.isZeroScalar v = false -> nonzeroEntry v.
Proof.
  destruct v as [f|]; cbn; [|contradiction].
  intros Hd Hz. split; [assumption|]. now apply Z.eqb_neq.
Qed.

Lemma Old_roundedQuotient_rational (this : Old.MatrixOperations) (a pivot : Scalar) :
  rationalEntry a -> nonzeroEntry pivot ->
  exists v, Old.roundedQuotient this a pivot = Ret v /\ rationalEntry v
            /\ (nonzeroEntry a -> nonzeroEntry v).
Proof.
  destruct a as [fa|], pivot as [fp|]; cbn; try contradiction.
  intros Ha [Hpd Hpn].
  destruct (Old_divide_nonzero fa fp Ha Hpn) as (q & -> & Hq & Hnz). cbn.
  exists (SFrac q). repeat split; try assumption.
  apply Hnz; tauto.
Qed.

Lemma Old_findPivotCol_bounds (M : Matrix) (i j m : nat) :
  (j < m)%nat -> (j <= Old.findPivotCol M i j m < m)%nat.
Proof.
  intros Hj. unfold Old.findPivotCol.
  assert (H : forall l acc, (forall k, In k l -> (j <= k < m)%nat) ->
                            (j <= acc < m)%nat ->
                            (j <= fold_left
                                    (fun pivotCol k =>
                                       if gt (absOf (cell M i k))
                                             (absOf (cell M i pivotCol))
                                       then k else pivotCol) l acc < m)%nat).
  { induction l as [|k l IH]; intros acc Hl Hacc; cbn; [assumption|].
    apply IH; [intros k' Hk'; apply Hl; now right|].
    match goal with |- context [if ?c then _ else _] => destruct c end;
      [apply Hl; now left | assumption]. }
  apply H; [|lia]. intros k Hk. apply in_range in Hk. lia.
Qed.

(** [swap_columns] exchanges the two columns in every row. *)
Lemma Old_swap_columns_spec (n m j p : nat) (rows : list nat) :
  (j < m)%nat -> (p < m)%nat -> j <> p ->
  NoDup rows -> (forall k, In k rows -> (k < n)%nat) ->
  forall M M', rationalMatrix n m M ->
  M' = fold_left
         (fun M k => set_cell (set_cell M k j (cell M k p)) k p (cell M k j))
         rows M ->
  rationalMatrix n m M'
  /\ (forall r, In r rows -> cell M' r j = cell M r p)
  /\ (forall r c, ~ In r rows -> cell M' r c = cell M r c).
Proof.
  intros Hj Hp Hjp. induction rows as [|k rows IH]; intros Hnd Hrows M M' HM ->.
  - cbn [fold_left]. repeat split; [apply HM | apply HM | contradiction].
  - cbn [fold_left].
    inversion Hnd as [|? ? Hk Hnd']; subst.
    assert (Hkn : (k < n)%nat) by (apply Hrows; now left).
    set (M1 := set_cell (set_cell M k j (cell M k p)) k p (cell M k j)).
    assert (HM1 : rationalMatrix n m M1).
    { unfold M1. apply rationalMatrix_set_cell; try assumption.
      - apply rationalMatrix_set_cell; try assumption.
        now apply (rationalMatrix_cell n m).
      - now apply (rationalMatrix_cell n m). }
    destruct (IH Hnd' (fun r Hr => Hrows r (or_intror Hr)) M1 _ HM1 eq_refl)
      as (HM' & Hin & Hout).
    split; [exact HM'|]. split.
    + intros r [<-|Hr].
      * rewrite Hout by assumption. unfold M1.
        rewrite cell_set_cell_other by (right; assumption).
        apply cell_set_cell_same.
        -- destruct HM as [-> _]. assumption.
        -- destruct (rationalMatrix_row n m M k HM Hkn) as [-> _]. assumption.
      * rewrite Hin by assumption. unfold M1.
        assert (r <> k) by (intros ->; contradiction).
        rewrite !cell_set_cell_other by (left; assumption). reflexivity.
    + intros r c Hr. rewrite Hout by (intros H'; apply Hr; now right). unfold M1.
      rewrite !cell_set_cell_other by (left; intros ->; apply Hr; now left).
      reflexivity.
Qed.

Lemma range_NoDup (lo hi : nat) : NoDup (range lo hi).
Proof. apply seq_NoDup. Qed.

Lemma range_cons (lo hi : nat) : (lo < hi)%nat -> range lo hi = lo :: range (S lo) hi.
Proof.
  intros H. unfold range. replace (hi - lo)%nat with (S (hi - S lo)) by lia.
  reflexivity.
Qed.

(** The normalization of the pivot column leaves a non-zero pivot. *)
Lemma Old_normalizeColumn_rational (this : Old.MatrixOperations) (n m i j : nat)
  (M : Matrix) :
  rationalMatrix n m M -> (i < n)%nat -> (j < m)%nat -> nonzeroEntry (cell M i j) ->
  exists M',
    foldM (fun k M0 =>
             let* v := Old.roundedQuotient this (cell M0 k j) (cell M i j) in
             Ret (set_cell M0 k j v))
          (range i n) M = Ret M'
    /\ rationalMatrix n m M' /\ nonzeroEntry (cell M' i j).
Proof.
  intros HM Hi Hj Hnz. rewrite range_cons by assumption. cbn [foldM].
  destruct (Old_roundedQuotient_rational this (cell M i j) (cell M i j))
    as (q & -> & Hq & Hqnz); [now apply (rationalMatrix_cell n m) | assumption |].
  cbn [bind].
  apply (foldM_invariant
           (fun M0 => rationalMatrix n m M0 /\ nonzeroEntry (cell M0 i j))).
  - intros k M0 Hk [HM0 Hnz0]. apply in_range in Hk.
    destruct (Old_roundedQuotient_rational this (cell M0 k j) (cell M i j))
      as (v & -> & Hv & _); [apply (rationalMatrix_cell n m); assumption || lia
                            | assumption |].
    cbn. eexists; split; [reflexivity|]. split.
    + apply rationalMatrix_set_cell; assumption || lia.
    + rewrite cell_set_cell_other by (left; lia). assumption.
  - split.
    + now apply rationalMatrix_set_cell.
    + rewrite cell_set_cell_same.
      * now apply Hqnz.
      * destruct HM as [-> _]. assumption.
      * destruct (rationalMatrix_row n m M i HM Hi) as [-> _]. assumption.
Qed.

Lemma Old_eliminateColumn_rational (this : Old.MatrixOperations) (n m i j k : nat)
  (M : Matrix) :
  rationalMatrix n m M -> (i < n)%nat -> (j < m)%nat -> (k < m)%nat ->
  nonzeroEntry (cell M i j) ->
  exists M', Old.eliminateColumn this i j n k M = Ret M'
             /\ rationalMatrix n m M' /\ nonzeroEntry (cell M' i j).
Proof.
  intros HM Hi Hj Hk Hnz. unfold Old.eliminateColumn.
  destruct (Nat.eqb_spec k j) as [->|Hkj]; [eauto|].
  destruct (negb (Old.isNonZero (cell M i k))); [eauto|].
  pose proof (rationalMatrix_cell n m M i k HM Hi Hk) as Hik.
  unfold Old.quotient.
  destruct (cell M i k) as [fa|] eqn:Ea; [|contradiction].
  destruct (cell M i j) as [fb|] eqn:Eb; [|contradiction].
  destruct Hnz as [Hbd Hbn].
  destruct (Old_divide_nonzero fa fb Hik Hbn) as (factor & -> & Hfd & _).
  cbn [bind].
  apply (foldM_invariant
           (fun M0 => rationalMatrix n m M0 /\ nonzeroEntry (cell M0 i j))).
  - intros l M0 Hl [HM0 Hnz0]. apply in_range in Hl.
    pose proof (rationalMatrix_cell n m M0 l j HM0 ltac:(lia) Hj) as Hlj.
    pose proof (rationalMatrix_cell n m M0 l k HM0 ltac:(lia) Hk) as Hlk.
    destruct (cell M0 l j) as [fj|]; [|contradiction].
    destruct (cell M0 l k) as [fk|]; [|contradiction].
    cbn. eexists; split; [reflexivity|]. split.
    + apply rationalMatrix_set_cell; try assumption; try lia.
      cbn. apply Old_Fraction_new_denominator.
    + rewrite cell_set_cell_other by (right; auto). assumption.
  - rewrite Eb. cbn. auto.
Qed.

Lemma Old_analyzeLoop_returns (this : Old.MatrixOperations) (n m : nat)
  (rows : list nat) :
  (forall i, In i rows -> (i < n)%nat) ->
  forall M j columnIndices, rationalMatrix n m M ->
  exists M' rank columnIndices',
    Old.analyzeLoop this n m rows M j columnIndices = Ret (M', rank, columnIndices').
Proof.
  induction rows as [|i rows IH]; intros Hrows M j ci HM; cbn.
  - eauto.
  - assert (Hi : (i < n)%nat) by (apply Hrows; now left).
    assert (Hrows' : forall i', In i' rows -> (i' < n)%nat)
      by (intros i' H'; apply Hrows; now right).
    destruct (Nat.leb_spec m j) as [Hmj|Hmj]; [eauto|].
    pose proof (Old_findPivotCol_bounds M i j m Hmj) as Hpc.
    set (pivotCol := Old.findPivotCol M i j m) in *.
    destruct (Old.isZeroScalar (cell M i pivotCol)) eqn:Hz; [now apply IH|].
    assert (Hnz : nonzeroEntry (cell M i pivotCol)).
    { apply Old_isZeroScalar_nonzero; [|assumption].
      apply (rationalMatrix_cell n m); assumption || lia. }
    assert (HM1 : rationalMatrix n m
                    (if (pivotCol =? j)%nat then M
                     else Old.swap_columns M n j pivotCol)
                  /\ nonzeroEntry
                       (cell (if (pivotCol =? j)%nat then M
                              else Old.swap_columns M n j pivotCol) i j)).
    { destruct (Nat.eqb_spec pivotCol j) as [E|E].
      - rewrite <- E. auto.
      - unfold Old.swap_columns.
        destruct (Old_swap_columns_spec n m j pivotCol (range 0 n)
                    Hmj ltac:(lia) ltac:(auto) (range_NoDup 0 n)
                    ltac:(intros k Hk; apply in_range in Hk; lia) M _ HM eq_refl)
          as (H1 & H2 & _).
        split; [exact H1|]. rewrite H2; [assumption|]. apply in_range. lia. }
    destruct HM1 as [HM1 Hnz1].
    set (M1 := if (pivotCol =? j)%nat then M else Old.swap_columns M n j pivotCol) in *.
    destruct (Old_normalizeColumn_rational this n m i j M1 HM1 Hi Hmj Hnz1)
      as (M2 & -> & HM2 & Hnz2).
    cbn [bind].
    destruct (foldM_invariant
                (fun M0 => rationalMatrix n m M0 /\ nonzeroEntry (cell M0 i j))
                (Old.eliminateColumn this i j n) (range 0 m)) with (s := M2)
      as (M3 & -> & HM3 & _).
    + intros k M0 Hk [HM0 Hnz0]. apply in_range in Hk.
      apply (Old_eliminateColumn_rational this n m); assumption || lia.
    + auto.
    + cbn [bind]. now apply IH.
Qed.

Lemma mapM_map {A B : Type} (f : A -> outcome B) (g : A -> B) (l : list A) :
  (forall x, In x l -> f x = Ret (g x)) -> mapM f l = Ret (map g l).
Proof.
  induction l as [|x l IH]; intros Hf; cbn; [reflexivity|].
  rewrite Hf by now left. cbn. rewrite IH; [reflexivity|].
  intros y Hy. apply Hf. now right.
Qed.

Lemma rationalRow_lengths (n : nat) (vectors : list Vector) :
  Forall (rationalRow n) vectors ->
  forallb (fun v => (List.length v =? n)%nat) vectors = true.
Proof.
  intros H. apply forallb_forall. intros v Hv. rewrite Forall_forall in H.
  destruct (H v Hv) as [-> _]. apply Nat.eqb_refl.
Qed.

(** The family as the columns of a matrix: [matrix[i][j] = vectors[j][i]]. *)
Lemma columns_rationalMatrix (n : nat) (vectors : list Vector) :
  Forall (rationalRow n) vectors ->
  rationalMatrix n (List.length vectors)
    (map (fun i => map (fun j => cell vectors j i) (range 0 (List.length vectors)))
         (range 0 n)).
Proof.
  intros Hv. unfold rationalMatrix. split.
  - unfold range. now rewrite length_map, length_seq, Nat.sub_0_r.
  - apply Forall_forall. intros row Hrow. apply in_map_iff in Hrow.
    destruct Hrow as (i & <- & Hi). apply in_range in Hi. split.
    + unfold range. now rewrite length_map, length_seq, Nat.sub_0_r.
    + apply Forall_forall. intros v Hin. apply in_map_iff in Hin.
      destruct Hin as (j & <- & Hj). apply in_range in Hj.
      apply (rationalMatrix_cell (List.length vectors) n);
        [now split | exact (proj2 Hj) | exact (proj2 Hi)].
Qed.

Lemma Old_analyzeVectors_returns (this : Old.MatrixOperations)
  (vectors : list Vector) (n : nat) :
  vectors <> [] -> n <> 0%nat -> Forall (rationalRow n) vectors ->
  exists r, Old.analyzeVectors this vectors = Ret r
            /\ Old.isLinearlyIndependent r = (Old.rank r =? List.length vectors)%nat.
Proof.
  intros Hne Hn Hv. unfold Old.analyzeVectors.
  destruct vectors as [|v0 rest]; [contradiction|].
  assert (Hv0 : rationalRow n v0) by now inversion Hv.
  destruct Hv0 as [Hlen0 _]. rewrite Hlen0.
  destruct (Nat.eqb_spec n 0); [contradiction|].
  rewrite (rationalRow_lengths n _ Hv). cbn [negb].
  pose proof (columns_rationalMatrix n (v0 :: rest) Hv) as HM.
  unfold Vector in *.
  rewrite (mapM_map _ (fun i => map (fun j => cell (v0 :: rest) j i)
                                    (range 0 (List.length (v0 :: rest))))).
  - cbn [bind].
    destruct (Old_analyzeLoop_returns this n (List.length (v0 :: rest)) (range 0 n)
                ltac:(intros i Hi; apply in_range in Hi; lia) _ 0%nat
                (range 0 (List.length (v0 :: rest))) HM)
      as (M' & rank & ci & ->).
    cbn. eexists; split; reflexivity.
  - intros i Hi. apply in_range in Hi. apply mapM_map.
    intros j Hj. apply in_range in Hj.
    pose proof (rationalMatrix_cell (List.length (v0 :: rest)) n (v0 :: rest) j i
                  ltac:(now split) (proj2 Hj) (proj2 Hi)) as Hc.
    destruct (cell (v0 :: rest) j i); [reflexivity | contradiction].
Qed.

(** ** C7: Gram-Schmidt and the independence analysis *)

Lemma New_schmidtStep_length (this : New.MatrixOperations) (pv : list Vector) (i : nat)
  (st st' : list Vector * list Vector) :
  New.schmidtStep this pv i st = Ret st' ->
  List.length (fst st') = S (List.length (fst st)).
Proof.
  destruct st as [o e]. unfold New.schmidtStep.
  destruct (foldM _ _ _) as [u| | |]; try discriminate. cbn [bind].
  destruct (New.vectorNorm u) as [norm| | |]; try discriminate. cbn [bind].
  destruct (negb _).
  - destruct (New.scalarMultiply _ _ _); try discriminate. cbn.
    intros H; inversion H; subst. cbn. rewrite length_app. cbn. lia.
  - intros H; inversion H; subst. cbn. rewrite length_app. cbn. lia.
Qed.

Lemma New_schmidt_fold_length (this : New.MatrixOperations) (pv : list Vector)
  (l : list nat) :
  forall st st', foldM (New.schmidtStep this pv) l st = Ret st' ->
                 List.length (fst st') = (List.length (fst st) + List.length l)%nat.
Proof.
  induction l as [|i l IH]; cbn; intros st st' H.
  - inversion H; subst. lia.
  - destruct (New.schmidtStep this pv i st) as [st1| | |] eqn:Hstep; try discriminate.
    cbn in H. apply IH in H. apply New_schmidtStep_length in Hstep. lia.
Qed.

Lemma range_length (lo hi : nat) : List.length (range lo hi) = (hi - lo)%nat.
Proof. unfold range. apply length_seq. Qed.




(** ** Frames: what a method may write *)

Lemma extends_refl h : extends h h.
Proof. exists []. split; [now rewrite app_nil_r | constructor]. Qed.

Lemma triple_preserves {A : Type} (c : M A) :
  (forall h0, exists Q, triple h0 c Q) -> preserves c.
Proof.
  intros H h. destruct (H h) as [Q HQ].
  destruct (HQ h (extends_refl h)) as [[ext [-> _]] _].
  rewrite firstn_app, Nat.sub_diag, firstn_all. cbn. now rewrite app_nil_r.
Qed.

Lemma triple_ret {A : Type} h0 (a : A) (Q : A -> Prop) : Q a -> triple h0 (ret a) Q.
Proof. intros HQ h Hh. split; [exact Hh|]. cbn. intros a' [= <-]. exact HQ. Qed.

Lemma triple_lift {A : Type} h0 (o : outcome A) (Q : A -> Prop) :
  (forall a, o = Ret a -> Q a) -> triple h0 (lift o) Q.
Proof. intros HQ h Hh. split; [exact Hh|]. exact HQ. Qed.

Lemma triple_weaken {A : Type} h0 (c : M A) (P Q : A -> Prop) :
  triple h0 c P -> (forall a, P a -> Q a) -> triple h0 c Q.
Proof.
  intros Hc HPQ h Hh. destruct (Hc h Hh) as [H1 H2]. split; [exact H1|].
  intros a Ha. apply HPQ, H2, Ha.
Qed.

Lemma triple_bind {A B : Type} h0 (c : M A) (k : A -> M B) (P : A -> Prop)
  (Q : B -> Prop) :
  triple h0 c P -> (forall a, P a -> triple h0 (k a) Q) -> triple h0 (bindM c k) Q.
Proof.
  intros Hc Hk h Hh. destruct (Hc h Hh) as [H1 H2]. unfold bindM.
  destruct (c h) as [[a| | |] h']; cbn in *;
    try (split; [exact H1 | discriminate]).
  apply (Hk a (H2 a eq_refl) h' H1).
Qed.

Lemma triple_any {A : Type} h0 (c : M A) (P : A -> Prop) :
  triple h0 c P -> triple h0 c (fun _ => True).
Proof. intros H. eapply triple_weaken; [exact H | trivial]. Qed.

Lemma triple_forH {A : Type} h0 (body : A -> M unit) (l : list A) :
  (forall a, triple h0 (body a) (fun _ => True)) ->
  triple h0 (forH body l) (fun _ => True).
Proof.
  intros Hb. induction l as [|a l IH]; cbn.
  - now apply triple_ret.
  - eapply triple_bind; [apply Hb | intros _ _; exact IH].
Qed.

Lemma triple_foldH {A S : Type} h0 (body : A -> S -> M S) (I : S -> Prop)
  (l : list A) :
  (forall a s, I s -> triple h0 (body a s) I) ->
  forall s, I s -> triple h0 (foldH body l s) I.
Proof.
  intros Hb. induction l as [|a l IH]; intros s Hs; cbn.
  - now apply triple_ret.
  - eapply triple_bind; [now apply Hb | exact IH].
Qed.

Lemma triple_mapH {A B : Type} h0 (f : A -> M B) (l : list A) (Q : B -> Prop) :
  (forall a, triple h0 (f a) Q) -> triple h0 (mapH f l) (Forall Q).
Proof.
  intros Hf. induction l as [|a l IH]; cbn.
  - apply triple_ret. constructor.
  - eapply triple_bind; [apply Hf|]. intros b Hb.
    eapply triple_bind; [apply IH|]. intros bs Hbs.
    apply triple_ret. now constructor.
Qed.

(** ** The operations on the store *)

Lemma triple_alloc h0 (a : array) :
  closed (List.length h0) a -> triple h0 (alloc a) (owned (List.length h0)).
Proof.
  intros Ha h [ext [-> Hext]]. cbn. split.
  - exists (ext ++ [a]). split; [now rewrite app_assoc|].
    apply Forall_app. split; [exact Hext | now constructor].
  - intros l [= <-]. unfold owned. rewrite length_app. lia.
Qed.

Lemma triple_load h0 (l : loc) :
  triple h0 (load l)
         (fun a => owned (List.length h0) l -> closed (List.length h0) a).
Proof.
  intros h [ext [-> Hext]]. unfold load.
  destruct (nth_error (h0 ++ ext) l) as [a|] eqn:Hl; cbn.
  - split; [now exists ext|]. intros a' [= <-] Hown.
    unfold owned in Hown. rewrite nth_error_app2 in Hl by exact Hown.
    apply nth_error_In in Hl. rewrite Forall_forall in Hext. now apply Hext.
  - split; [now exists ext | discriminate].
Qed.

Lemma update_app_r {A : Type} (l1 l2 : list A) (k : nat) (v : A) :
  (List.length l1 <= k)%nat ->
  update (l1 ++ l2) k v = l1 ++ update l2 (k - List.length l1) v.
Proof.
  revert k. induction l1 as [|x l1 IH]; intros k Hk; cbn.
  - now rewrite Nat.sub_0_r.
  - destruct k as [|k]; [cbn in Hk; lia|]. cbn in *. f_equal. apply IH. lia.
Qed.

Lemma triple_store h0 (l : loc) (a : array) :
  owned (List.length h0) l -> closed (List.length h0) a ->
  triple h0 (store l a) (fun _ => True).
Proof.
  intros Hl Ha h [ext [-> Hext]]. unfold store.
  destruct (nth_error (h0 ++ ext) l); cbn.
  - split; [|trivial]. exists (update ext (l - List.length h0) a). split.
    + now apply update_app_r.
    + now apply update_Forall.
  - split; [now exists ext | trivial].
Qed.

(** ** The operations on arrays *)

(** A proof walks the method: each step is an operation whose frame is known, or
    a loop over such steps. *)

Create HintDb frame.
Create HintDb frame_any.

Ltac frame_prim :=
  first [ solve [eauto 3 with frame] | solve [eauto 3 with frame_any] ].

Ltac frame_step :=
  lazymatch goal with
  | |- triple _ (bindM (mapH _ _) _) _ =>
      eapply triple_bind; [ eapply triple_mapH; intros | intros ]
  | |- triple ?h (bindM (foldH _ _ _) _) _ =>
      first [ eapply (triple_bind _ _ _ (owned (List.length h)));
              [ eapply triple_foldH; [ intros | assumption ] | intros ]
            | eapply (triple_bind _ _ _ (fun _ => True));
              [ eapply (triple_foldH _ _ (fun _ => True)); [ intros | exact I ]
              | intros ] ]
  | |- triple _ (bindM _ _) _ =>
      first [ eapply triple_bind; [ frame_prim | intros ]
            | eapply (triple_bind _ _ _ (fun _ => True)); [ | intros ] ]
  | |- triple _ (ret _) _ => apply triple_ret; auto
  | |- triple _ (lift _) _ => apply triple_lift; try discriminate; auto
  | |- triple _ (forH _ _) _ => apply triple_forH; intros
  | |- triple _ (if ?b then _ else _) _ => destruct b
  | |- triple _ (match ?x with _ => _ end) _ => destruct x
  | |- triple _ _ _ =>
      first [ frame_prim | eapply triple_weaken; [ frame_prim | solve [auto] ] ]
  end.

Ltac frame := repeat frame_step.

Lemma triple_lift_any {A : Type} h0 (o : outcome A) : triple h0 (lift o) (fun _ => True).
Proof. now apply triple_lift. Qed.

#[local] Hint Resolve triple_lift_any : frame.

Lemma triple_cellsOf h0 (l : loc) : triple h0 (cellsOf l) (fun _ => True).
Proof.
  unfold cellsOf. eapply triple_bind; [apply triple_load|]. intros a _.
  destruct a; [now apply triple_ret | now apply triple_lift].
Qed.

Lemma triple_rowsOf_any h0 (l : loc) : triple h0 (rowsOf l) (fun _ => True).
Proof.
  unfold rowsOf. eapply triple_bind; [apply triple_load|]. intros a _.
  destruct a; [now apply triple_lift | now apply triple_ret].
Qed.

Lemma triple_rowsOf h0 (l : loc) :
  owned (List.length h0) l ->
  triple h0 (rowsOf l) (Forall (owned (List.length h0))).
Proof.
  intros Hl. unfold rowsOf. eapply triple_bind; [apply triple_load|]. intros a Ha.
  destruct a as [cells|rows].
  - apply triple_lift. discriminate.
  - apply triple_ret. exact (Ha Hl).
Qed.

#[local] Hint Resolve triple_cellsOf triple_rowsOf : frame.
#[local] Hint Resolve triple_rowsOf_any : frame_any.

Lemma triple_getRow h0 (w : loc) (i : nat) :
  owned (List.length h0) w -> triple h0 (getRow w i) (owned (List.length h0)).
Proof.
  intros Hw. unfold getRow.
  eapply triple_bind; [now apply triple_rowsOf|]. intros rows Hrows.
  destruct (nth_error rows i) as [r|] eqn:Hr.
  - apply triple_ret. rewrite Forall_forall in Hrows.
    eapply Hrows, nth_error_In, Hr.
  - apply triple_lift. discriminate.
Qed.

Lemma triple_getRow_any h0 (w : loc) (i : nat) :
  triple h0 (getRow w i) (fun _ => True).
Proof. unfold getRow. frame. Qed.

#[local] Hint Resolve triple_getRow : frame.
#[local] Hint Resolve triple_getRow_any : frame_any.

Lemma triple_store_cells h0 (l : loc) (cells : list Scalar) :
  owned (List.length h0) l -> triple h0 (store l (Cells cells)) (fun _ => True).
Proof. intros Hl. now apply triple_store. Qed.

Lemma triple_store_rows h0 (l : loc) (rows : list loc) :
  owned (List.length h0) l -> Forall (owned (List.length h0)) rows ->
  triple h0 (store l (Rows rows)) (fun _ => True).
Proof. intros Hl Hrows. now apply triple_store. Qed.

Lemma Forall_snoc {A : Type} (P : A -> Prop) (l : list A) (x : A) :
  Forall P l -> P x -> Forall P (l ++ [x]).
Proof. intros Hl Hx. apply Forall_app. split; [assumption | now constructor]. Qed.

#[local] Hint Resolve triple_store_cells triple_store_rows update_Forall Forall_snoc
  : frame.

Lemma triple_getEntry h0 (v : loc) (j : nat) : triple h0 (getEntry v j) (fun _ => True).
Proof. unfold getEntry. frame. Qed.

Lemma triple_setEntry h0 (v : loc) (j : nat) (x : Scalar) :
  owned (List.length h0) v -> triple h0 (setEntry v j x) (fun _ => True).
Proof. intros Hv. unfold setEntry. frame. Qed.

#[local] Hint Resolve triple_getEntry triple_setEntry : frame.

Lemma triple_getCell h0 (w : loc) (i j : nat) :
  triple h0 (getCell w i j) (fun _ => True).
Proof. unfold getCell. frame. Qed.

Lemma triple_setCell h0 (w : loc) (i j : nat) (x : Scalar) :
  owned (List.length h0) w -> triple h0 (setCell w i j x) (fun _ => True).
Proof. intros Hw. unfold setCell. frame. Qed.

Lemma triple_setRow h0 (w : loc) (i : nat) (r : loc) :
  owned (List.length h0) w -> owned (List.length h0) r ->
  triple h0 (setRow w i r) (fun _ => True).
Proof. intros Hw Hr. unfold setRow. frame. Qed.

#[local] Hint Resolve triple_getCell triple_setCell triple_setRow : frame.

Lemma triple_swapRows h0 (w : loc) (i p : nat) :
  owned (List.length h0) w -> triple h0 (swapRows w i p) (fun _ => True).
Proof. intros Hw. unfold swapRows. frame. Qed.

Lemma triple_pushEntry h0 (d : loc) (x : Scalar) :
  owned (List.length h0) d -> triple h0 (pushEntry d x) (fun _ => True).
Proof. intros Hd. unfold pushEntry. frame. Qed.

Lemma triple_pushRow h0 (w r : loc) :
  owned (List.length h0) w -> owned (List.length h0) r ->
  triple h0 (pushRow w r) (fun _ => True).
Proof. intros Hw Hr. unfold pushRow. frame. Qed.

Lemma triple_alloc_cells h0 (cells : list Scalar) :
  triple h0 (alloc (Cells cells)) (owned (List.length h0)).
Proof. now apply triple_alloc. Qed.

Lemma triple_alloc_rows h0 (rows : list loc) :
  Forall (owned (List.length h0)) rows ->
  triple h0 (alloc (Rows rows)) (owned (List.length h0)).
Proof. intros H. now apply triple_alloc. Qed.

#[local] Hint Resolve triple_swapRows triple_pushEntry triple_pushRow
  triple_alloc_cells triple_alloc_rows : frame.

Lemma triple_readMatrix h0 (w : loc) : triple h0 (readMatrix w) (fun _ => True).
Proof.
  unfold readMatrix. frame.
  eapply triple_any. apply triple_mapH. intros r. apply triple_cellsOf.
Qed.

Lemma triple_newMatrix h0 (rows : Matrix) :
  triple h0 (newMatrix rows) (owned (List.length h0)).
Proof.
  unfold newMatrix. frame.
Qed.

Lemma triple_copyMatrix h0 (matrix : loc) :
  triple h0 (copyMatrix matrix) (owned (List.length h0)).
Proof.
  unfold copyMatrix. frame.
Qed.

#[local] Hint Resolve triple_readMatrix triple_newMatrix triple_copyMatrix : frame.

Lemma dimensions_frame h0 (matrix : loc) : triple h0 (dimensions matrix) (fun _ => True).
Proof. unfold dimensions. frame. Qed.

Lemma shape_frame h0 (matrix : loc) : triple h0 (shape matrix) (fun _ => True).
Proof. unfold shape. frame. Qed.

#[local] Hint Resolve dimensions_frame shape_frame : frame.

(** ** The methods of the new library write into their own arrays *)

Section NewFrame.
Variable h0 : heap.
Variable this : New.MatrixOperations.

Lemma New_convertMatrix_frame matrix : triple h0 (NewStore.convertMatrix this matrix) (owned (List.length h0)).
Proof. unfold NewStore.convertMatrix. frame. Qed.

#[local] Hint Resolve New_convertMatrix_frame : frame.

Lemma New_combineRow_frame w i j from n factor :
  owned (List.length h0) w -> triple h0 (NewStore.combineRow this w i j from n factor) (fun _ => True).
Proof. intros Hw. unfold NewStore.combineRow. frame. Qed.

#[local] Hint Resolve New_combineRow_frame : frame.

Lemma New_eliminateBelow_frame w i n pivot j :
  owned (List.length h0) w -> triple h0 (NewStore.eliminateBelow this w i n pivot j) (fun _ => True).
Proof. intros Hw. unfold NewStore.eliminateBelow. frame. Qed.

#[local] Hint Resolve New_eliminateBelow_frame : frame.

Lemma New_determinantLoop_frame n columns w det :
  owned (List.length h0) w -> owned (List.length h0) det ->
  triple h0 (NewStore.determinantLoop this n columns w det) (fun _ => True).
Proof.
  intros Hw Hd. induction columns as [|i columns IH]; cbn [NewStore.determinantLoop].
  - frame.
  - frame.
Qed.

#[local] Hint Resolve New_determinantLoop_frame : frame.

Lemma New_calculateDeterminant_frame matrix :
  triple h0 (NewStore.calculateDeterminant this matrix) (fun _ => True).
Proof. unfold NewStore.calculateDeterminant. frame. Qed.

#[local] Hint Resolve New_calculateDeterminant_frame : frame.

Lemma New_gaussianStep_frame result m n i :
  owned (List.length h0) result -> triple h0 (NewStore.gaussianStep this result m n i) (fun _ => True).
Proof. intros Hw. unfold NewStore.gaussianStep. frame. Qed.

#[local] Hint Resolve New_gaussianStep_frame : frame.

Lemma New_gaussianElimination_frame matrix :
  triple h0 (NewStore.gaussianElimination this matrix) (owned (List.length h0)).
Proof. unfold NewStore.gaussianElimination. frame. Qed.

Lemma New_normalizeRow_frame result i from n pivot :
  owned (List.length h0) result ->
  triple h0 (NewStore.normalizeRow this result i from n pivot) (fun _ => True).
Proof. intros Hw. unfold NewStore.normalizeRow. frame. Qed.

Lemma New_eliminateOthers_frame result i pivotCol m n :
  owned (List.length h0) result ->
  triple h0 (NewStore.eliminateOthers this result i pivotCol m n) (fun _ => True).
Proof. intros Hw. unfold NewStore.eliminateOthers. frame. Qed.

#[local] Hint Resolve New_gaussianElimination_frame New_normalizeRow_frame
  New_eliminateOthers_frame : frame.

Lemma New_rowEchelonLoop_frame m n columns result :
  owned (List.length h0) result ->
  forall i, triple h0 (NewStore.rowEchelonLoop this m n columns i result) (fun _ => True).
Proof.
  intros Hw. induction columns as [|pivotCol columns IH]; intros i;
    cbn [NewStore.rowEchelonLoop]; frame.
Qed.

#[local] Hint Resolve New_rowEchelonLoop_frame : frame.

Lemma New_reduceToRowEchelon_frame matrix :
  triple h0 (NewStore.reduceToRowEchelon this matrix) (owned (List.length h0)).
Proof. unfold NewStore.reduceToRowEchelon. frame. Qed.

Lemma New_calculateRank_frame matrix :
  triple h0 (NewStore.calculateRank matrix) (fun _ => True).
Proof. unfold NewStore.calculateRank. frame. Qed.

#[local] Hint Resolve New_reduceToRowEchelon_frame New_calculateRank_frame : frame.

Lemma New_extractSolutionRow_frame rref solution n i :
  owned (List.length h0) solution ->
  triple h0 (NewStore.extractSolutionRow this rref solution n i) (fun _ => True).
Proof. intros Hs. unfold NewStore.extractSolutionRow. frame. Qed.

#[local] Hint Resolve New_extractSolutionRow_frame : frame.

Lemma New_extractSolution_frame rref :
  triple h0 (NewStore.extractSolution this rref) (owned (List.length h0)).
Proof. unfold NewStore.extractSolution. frame. Qed.

Lemma New_findParticularSolutionAndBasis_frame rref :
  triple h0 (NewStore.findParticularSolutionAndBasis rref)
         (fun r => owned (List.length h0) (fst r) /\ owned (List.length h0) (snd r)).
Proof. unfold NewStore.findParticularSolutionAndBasis. frame. Qed.

#[local] Hint Resolve New_extractSolution_frame
  New_findParticularSolutionAndBasis_frame : frame.

Lemma New_solveEquations_frame matrix vector :
  triple h0 (NewStore.solveEquations this matrix vector) (fun _ => True).
Proof. unfold NewStore.solveEquations. frame. Qed.

Lemma New_multiplyMatrices_frame matrix1 matrix2 :
  triple h0 (NewStore.multiplyMatrices this matrix1 matrix2) (fun _ => True).
Proof. unfold NewStore.multiplyMatrices. frame. Qed.

Lemma New_inverseStep_frame augMatrix n i :
  owned (List.length h0) augMatrix -> triple h0 (NewStore.inverseStep this augMatrix n i) (fun _ => True).
Proof. intros Hw. unfold NewStore.inverseStep. frame. Qed.

#[local] Hint Resolve New_inverseStep_frame : frame.

Lemma New_calculateInverse_frame matrix :
  triple h0 (NewStore.calculateInverse this matrix) (fun _ => True).
Proof. unfold NewStore.calculateInverse. frame. Qed.

Lemma New_dotProduct_frame vector1 vector2 :
  triple h0 (NewStore.dotProduct vector1 vector2) (fun _ => True).
Proof. unfold NewStore.dotProduct. frame. Qed.

Lemma New_scalarMultiply_frame vector scalar :
  triple h0 (NewStore.scalarMultiply this vector scalar) (owned (List.length h0)).
Proof. unfold NewStore.scalarMultiply. frame. Qed.

Lemma New_subtractVectors_frame vector1 vector2 :
  triple h0 (NewStore.subtractVectors this vector1 vector2) (owned (List.length h0)).
Proof. unfold NewStore.subtractVectors. frame. Qed.

Lemma New_vectorNorm_frame vector :
  triple h0 (NewStore.vectorNorm vector) (fun _ => True).
Proof. unfold NewStore.vectorNorm. frame. Qed.

#[local] Hint Resolve New_dotProduct_frame New_scalarMultiply_frame
  New_subtractVectors_frame New_vectorNorm_frame : frame.

Lemma New_subtractProjection_frame v orthogonal j u :
  triple h0 (NewStore.subtractProjection this v orthogonal j u) (owned (List.length h0)).
Proof. unfold NewStore.subtractProjection. frame. Qed.

#[local] Hint Resolve New_subtractProjection_frame : frame.

Lemma New_schmidtStep_frame processedVectors orthogonal orthonormal i :
  owned (List.length h0) processedVectors -> owned (List.length h0) orthogonal -> owned (List.length h0) orthonormal ->
  triple h0 (NewStore.schmidtStep this processedVectors orthogonal orthonormal i)
         (fun _ => True).
Proof. intros Hp Ho He. unfold NewStore.schmidtStep. frame. Qed.

#[local] Hint Resolve New_schmidtStep_frame : frame.

Lemma New_schmidtOrthonormalization_frame vectors :
  triple h0 (NewStore.schmidtOrthonormalization this vectors) (fun _ => True).
Proof. unfold NewStore.schmidtOrthonormalization. frame. Qed.

End NewFrame.

(** ** The methods of the old library write into their own arrays *)

Section OldFrame.
Variable h0 : heap.
Variable this : Old.MatrixOperations.

Lemma Old_sameLengths_frame matrix count n :
  triple h0 (OldStore.sameLengths matrix count n) (fun _ => True).
Proof. unfold OldStore.sameLengths. frame. Qed.

Lemma Old_convertMatrix_frame matrix :
  triple h0 (OldStore.convertMatrix this matrix) (owned (List.length h0)).
Proof. unfold OldStore.convertMatrix. frame. Qed.

#[local] Hint Resolve Old_sameLengths_frame Old_convertMatrix_frame : frame.

Lemma Old_eliminateBelow_frame w i n j :
  owned (List.length h0) w ->
  triple h0 (OldStore.eliminateBelow this w i n j) (fun _ => True).
Proof. intros Hw. unfold OldStore.eliminateBelow. frame. Qed.

#[local] Hint Resolve Old_eliminateBelow_frame : frame.

Lemma Old_determinantLoop_frame n columns w :
  owned (List.length h0) w ->
  forall swapCount,
    triple h0 (OldStore.determinantLoop this n columns w swapCount) (fun _ => True).
Proof.
  intros Hw. induction columns as [|i columns IH]; intros swapCount;
    cbn [OldStore.determinantLoop]; frame.
Qed.

#[local] Hint Resolve Old_determinantLoop_frame : frame.

Lemma Old_calculateDeterminant_frame matrix :
  triple h0 (OldStore.calculateDeterminant this matrix) (fun _ => True).
Proof. unfold OldStore.calculateDeterminant. frame. Qed.

Lemma Old_eliminateColumn_frame matrix i j n k :
  owned (List.length h0) matrix ->
  triple h0 (OldStore.eliminateColumn this matrix i j n k) (fun _ => True).
Proof. intros Hw. unfold OldStore.eliminateColumn. frame. Qed.

Lemma Old_swapColumns_frame matrix n j p :
  owned (List.length h0) matrix ->
  triple h0 (OldStore.swapColumns matrix n j p) (fun _ => True).
Proof. intros Hw. unfold OldStore.swapColumns. frame. Qed.

#[local] Hint Resolve Old_eliminateColumn_frame Old_swapColumns_frame : frame.

Lemma Old_analyzeLoop_frame n m rows matrix :
  owned (List.length h0) matrix ->
  forall j columnIndices,
    triple h0 (OldStore.analyzeLoop this n m rows matrix j columnIndices)
           (fun _ => True).
Proof.
  intros Hw. induction rows as [|i rows IH]; intros j columnIndices;
    cbn [OldStore.analyzeLoop]; frame.
Qed.

#[local] Hint Resolve Old_analyzeLoop_frame : frame.

Lemma Old_analyzeVectors_frame vectors :
  triple h0 (OldStore.analyzeVectors this vectors) (fun _ => True).
Proof. unfold OldStore.analyzeVectors. frame. Qed.

#[local] Hint Resolve Old_analyzeVectors_frame : frame.

Lemma Old_dotProduct_frame vector1 vector2 :
  triple h0 (OldStore.dotProduct this vector1 vector2) (fun _ => True).
Proof. unfold OldStore.dotProduct. frame. Qed.

Lemma Old_scalarMultiply_frame vector scalar :
  triple h0 (OldStore.scalarMultiply this vector scalar) (owned (List.length h0)).
Proof. unfold OldStore.scalarMultiply. frame. Qed.

Lemma Old_subtractVectors_frame vector1 vector2 :
  triple h0 (OldStore.subtractVectors this vector1 vector2) (owned (List.length h0)).
Proof. unfold OldStore.subtractVectors. frame. Qed.

Lemma Old_normalizeVector_frame vector :
  triple h0 (OldStore.normalizeVector this vector) (owned (List.length h0)).
Proof. unfold OldStore.normalizeVector. frame. Qed.

Lemma Old_copyVector_frame vector :
  triple h0 (OldStore.copyVector vector) (owned (List.length h0)).
Proof. unfold OldStore.copyVector. frame. Qed.

#[local] Hint Resolve Old_dotProduct_frame Old_scalarMultiply_frame
  Old_subtractVectors_frame Old_normalizeVector_frame Old_copyVector_frame : frame.

Lemma Old_subtractProjection_frame orthogonalVectors j u :
  owned (List.length h0) u ->
  triple h0 (OldStore.subtractProjection this orthogonalVectors j u)
         (owned (List.length h0)).
Proof. intros Hu. unfold OldStore.subtractProjection. frame. Qed.

#[local] Hint Resolve Old_subtractProjection_frame : frame.

Lemma Old_schmidtStep_frame processedVectors orthogonalVectors orthonormalVectors i :
  owned (List.length h0) processedVectors -> owned (List.length h0) orthogonalVectors ->
  owned (List.length h0) orthonormalVectors ->
  triple h0 (OldStore.schmidtStep this processedVectors orthogonalVectors
                                  orthonormalVectors i)
         (fun _ => True).
Proof. intros Hp Ho He. unfold OldStore.schmidtStep. frame. Qed.

#[local] Hint Resolve Old_schmidtStep_frame : frame.

Lemma Old_orthonormalize_frame vectors m :
  triple h0 (OldStore.orthonormalize this vectors m) (fun _ => True).
Proof. unfold OldStore.orthonormalize. frame. Qed.

#[local] Hint Resolve Old_orthonormalize_frame : frame.

Lemma Old_schmidtOrthonormalization_frame vectors :
  triple h0 (OldStore.schmidtOrthonormalization this vectors) (fun _ => True).
Proof. unfold OldStore.schmidtOrthonormalization. frame. Qed.

Lemma Old_reduceRow_frame result m n r i lead :
  owned (List.length h0) result ->
  triple h0 (OldStore.reduceRow result m n r i lead) (fun _ => True).
Proof. intros Hw. unfold OldStore.reduceRow. frame. Qed.

#[local] Hint Resolve Old_reduceRow_frame : frame.

Lemma Old_rowEchelonLoop_frame m n rows result :
  owned (List.length h0) result ->
  forall lead, triple h0 (OldStore.rowEchelonLoop m n rows lead result) (fun _ => True).
Proof.
  intros Hw. induction rows as [|r rows IH]; intros lead;
    cbn [OldStore.rowEchelonLoop]; frame.
Qed.

#[local] Hint Resolve Old_rowEchelonLoop_frame : frame.

Lemma Old_reduceToRowEchelon_frame matrix :
  triple h0 (OldStore.reduceToRowEchelon matrix) (owned (List.length h0)).
Proof. unfold OldStore.reduceToRowEchelon. frame. Qed.

#[local] Hint Resolve Old_reduceToRowEchelon_frame : frame.

Lemma Old_calculateRank_frame matrix :
  triple h0 (OldStore.calculateRank matrix) (fun _ => True).
Proof. unfold OldStore.calculateRank. frame. Qed.

Lemma Old_gaussianElimination_frame augmentedMatrix :
  triple h0 (OldStore.gaussianElimination this augmentedMatrix) (owned (List.length h0)).
Proof. unfold OldStore.gaussianElimination. frame. Qed.

Lemma Old_findParticularSolutionAndBasis_frame rref :
  triple h0 (OldStore.findParticularSolutionAndBasis this rref)
         (fun r => owned (List.length h0) (fst r) /\ owned (List.length h0) (snd r)).
Proof. unfold OldStore.findParticularSolutionAndBasis. frame. Qed.

#[local] Hint Resolve Old_calculateRank_frame Old_gaussianElimination_frame
  Old_findParticularSolutionAndBasis_frame : frame.

Lemma Old_solveEquations_frame matrix constants :
  triple h0 (OldStore.solveEquations this matrix constants) (fun _ => True).
Proof. unfold OldStore.solveEquations. frame. Qed.

End OldFrame.

(** ** C9: the arrays of the caller are never written *)

(** C9. Whatever arrays the store holds at the call, and whichever of them
    are passed as the matrix and vector arguments, when [calculateDeterminant],
    [calculateInverse], [reduceToRowEchelon], [calculateRank],
    [solveEquations], [multiplyMatrices] or [schmidtOrthonormalization] of
    the new library, or [calculateDeterminant], [reduceToRowEchelon],
    [calculateRank], [solveEquations], [analyzeVectors] or
    [schmidtOrthonormalization] of the old one, returns or throws, every one
    of these arrays holds what it held at the call: row exchanges, scalings
    and combinations write into arrays the method made itself. *)
Theorem C9_inputs_are_not_written :
  (forall this matrix, preserves (NewStore.calculateDeterminant this matrix))
  /\ (forall this matrix, preserves (NewStore.calculateInverse this matrix))
  /\ (forall this matrix, preserves (NewStore.reduceToRowEchelon this matrix))
  /\ (forall matrix, preserves (NewStore.calculateRank matrix))
  /\ (forall this matrix vector,
         preserves (NewStore.solveEquations this matrix vector))
  /\ (forall this matrix1 matrix2,
         preserves (NewStore.multiplyMatrices this matrix1 matrix2))
  /\ (forall this vectors, preserves (NewStore.schmidtOrthonormalization this vectors))
  /\ (forall this matrix, preserves (OldStore.calculateDeterminant this matrix))
  /\ (forall matrix, preserves (OldStore.reduceToRowEchelon matrix))
  /\ (forall matrix, preserves (OldStore.calculateRank matrix))
  /\ (forall this matrix constants,
         preserves (OldStore.solveEquations this matrix constants))
  /\ (forall this vectors, preserves (OldStore.analyzeVectors this vectors))
  /\ (forall this vectors, preserves (OldStore.schmidtOrthonormalization this vectors)).
Proof.
  repeat split; intros; apply triple_preserves; intros h0; eexists.
  - apply New_calculateDeterminant_frame.
  - apply New_calculateInverse_frame.
  - apply New_reduceToRowEchelon_frame.
  - apply New_calculateRank_frame.
  - apply New_solveEquations_frame.
  - apply New_multiplyMatrices_frame.
  - apply New_schmidtOrthonormalization_frame.
  - apply Old_calculateDeterminant_frame.
  - apply Old_reduceToRowEchelon_frame.
  - apply Old_calculateRank_frame.
  - apply Old_solveEquations_frame.
  - apply Old_analyzeVectors_frame.
  - apply Old_schmidtOrthonormalization_frame.
Qed.

(** ** The two embeddings on an example *)

(** On the matrix [[1, 2], [3, 4]] and the vector (5, 11) kept in a store,
    the methods on the store return what the methods on values return, and
    the two methods embedded on the store only return the inverse
    [[-2, 1], [3/2, -1/2]] and the square [[7, 10], [15, 22]]. *)
Lemma store_methods_on_sample :
  fst (NewStore.calculateDeterminant New.engine 2%nat sampleStore)
  = New.calculateDeterminant New.engine sampleMatrix
  /\ fst (NewStore.solveEquations New.engine 2%nat 3%nat sampleStore)
     = New.solveEquations New.engine sampleMatrix [SNum 5; SNum 11]
  /\ fst (NewStore.schmidtOrthonormalization New.decimalEngine 2%nat sampleStore)
     = New.schmidtOrthonormalization New.decimalEngine sampleMatrix
  /\ fst (bindM (NewStore.reduceToRowEchelon New.engine 2%nat) readMatrix sampleStore)
     = New.reduceToRowEchelon New.engine sampleMatrix
  /\ fst (OldStore.calculateDeterminant Old.engine 2%nat sampleStore)
     = Old.calculateDeterminant Old.engine sampleMatrix
  /\ fst (OldStore.solveEquations Old.engine 2%nat 3%nat sampleStore)
     = Old.solveEquations Old.engine [[1; 2]; [3; 4]]%float [5; 11]%float
  /\ fst (OldStore.analyzeVectors Old.engine 2%nat sampleStore)
     = Old.analyzeVectors Old.engine sampleMatrix
  /\ fst (OldStore.schmidtOrthonormalization Old.engine 2%nat sampleStore)
     = Old.schmidtOrthonormalization Old.engine sampleMatrix
  /\ fst (NewStore.calculateInverse New.engine 2%nat sampleStore)
     = Ret [[New.Text "-2"; New.Text "1"]; [New.Text "3/2"; New.Text "-1/2"]]
  /\ fst (NewStore.multiplyMatrices New.engine 2%nat 2%nat sampleStore)
     = Ret [[New.Text "7"; New.Text "10"]; [New.Text "15"; New.Text "22"]].
Proof. repeat split; vm_compute; reflexivity. Qed.

(** ** The methods on the store compute what the methods on values compute *)

Lemma agrees_bind {A B A' B' : Type} (c : M A) (k : A -> M B) (p : outcome A')
  (q : A' -> outcome B') (h : heap) (R : A -> heap -> A' -> Prop)
  (Q : B -> heap -> B' -> Prop) :
  agrees (c h) p R ->
  (forall a h' a', R a h' a' -> agrees (k a h') (q a') Q) ->
  agrees (bindM c k h) (bind p q) Q.
Proof.
  unfold agrees, bindM. intros Hc Hk.
  destruct p as [a'| | |]; cbn in *.
  - destruct Hc as (a & Ha & HR). destruct (c h) as [o h']. cbn in *. subst o.
    apply (Hk a h' a' HR).
  - destruct (c h) as [o h']. cbn in *. now subst o.
  - destruct (c h) as [o h']. cbn in *. now subst o.
  - destruct (c h) as [o h']. cbn in *. now subst o.
Qed.

Lemma agrees_ret {A B : Type} (a : A) (b : B) (h : heap) (R : A -> heap -> B -> Prop) :
  R a h b -> agrees (ret a h) (Ret b) R.
Proof. intros HR. exists a. split; [reflexivity | exact HR]. Qed.

Lemma agrees_lift {A : Type} (o : outcome A) (h : heap) (R : A -> heap -> A -> Prop) :
  (forall a, o = Ret a -> R a h a) -> agrees (lift o h) o R.
Proof. intros HR. destruct o; cbn; auto. eauto. Qed.

Lemma agrees_then {A B A' : Type} (c : M A) (k : A -> M B) (p : outcome A')
  (h : heap) (R : A -> heap -> A' -> Prop) (Q : B -> heap -> A' -> Prop) :
  agrees (c h) p R ->
  (forall a h' a', R a h' a' -> agrees (k a h') (Ret a') Q) ->
  agrees (bindM c k h) p Q.
Proof.
  intros Hc Hk. destruct p as [a'| | |].
  - apply (agrees_bind c k (Ret a') (fun x => Ret x) h R Q Hc Hk).
  - apply (agrees_bind c k (Throw e) (fun x : A' => Ret x) h R Q Hc Hk).
  - apply (agrees_bind c k Hang (fun x : A' => Ret x) h R Q Hc Hk).
  - apply (agrees_bind c k Beyond (fun x : A' => Ret x) h R Q Hc Hk).
Qed.

Lemma agrees_forH {A S : Type} (I : heap -> S -> Prop) (body : A -> M unit)
  (step : A -> S -> outcome S) (l : list A) :
  (forall a h s, In a l -> I h s ->
                 agrees (body a h) (step a s) (fun _ h' s' => I h' s')) ->
  forall h s, I h s ->
              agrees (forH body l h) (foldM step l s) (fun _ h' s' => I h' s').
Proof.
  induction l as [|a l IH]; intros Hbody h s Hs; cbn [forH foldM].
  - now apply agrees_ret.
  - apply (agrees_bind _ _ _ _ _ (fun _ h' s' => I h' s')).
    + apply Hbody; [now left | assumption].
    + intros _ h' s' Hs'. apply IH; [|assumption].
      intros b h1 s1 Hb. apply Hbody. now right.
Qed.

(** ** Reading and writing a matrix of the method *)

Lemma rowsHold_row (h : heap) (rows : list loc) (M : Matrix) (i : nat) :
  rowsHold h rows M -> (i < List.length M)%nat ->
  exists r, nth_error rows i = Some r /\ nth_error h r = Some (Cells (nth i M [])).
Proof.
  intros H. revert i. induction H as [|r cells rows M Hr H IH]; intros i Hi; cbn in *.
  - lia.
  - destruct i as [|i]; cbn; [eauto|]. apply IH. lia.
Qed.

Lemma rowsHold_length (h : heap) (rows : list loc) (M : Matrix) :
  rowsHold h rows M -> List.length rows = List.length M.
Proof. intros H. induction H; cbn; congruence. Qed.

Lemma rowsOf_working (h : heap) (w : loc) (rows : list loc) (M : Matrix) :
  working h w rows M -> rowsOf w h = (Ret rows, h).
Proof. intros (Hw & _). unfold rowsOf, bindM, load. now rewrite Hw. Qed.

Lemma cellsOf_at (h : heap) (r : loc) (cells : list Scalar) :
  nth_error h r = Some (Cells cells) -> cellsOf r h = (Ret cells, h).
Proof. intros Hr. unfold cellsOf, bindM, load. now rewrite Hr. Qed.

Lemma mapH_cellsOf (h : heap) (rows : list loc) (M : Matrix) :
  rowsHold h rows M -> mapH cellsOf rows h = (Ret M, h).
Proof.
  intros H. induction H as [|r cells rows M Hr H IH]; cbn [mapH]; [reflexivity|].
  unfold bindM at 1. rewrite (cellsOf_at h r cells Hr).
  unfold bindM at 1. rewrite IH. reflexivity.
Qed.

Lemma readMatrix_working (h : heap) (w : loc) (rows : list loc) (M : Matrix) :
  working h w rows M -> readMatrix w h = (Ret M, h).
Proof.
  intros Hw. unfold readMatrix, bindM. rewrite (rowsOf_working h w rows M Hw).
  apply mapH_cellsOf, Hw.
Qed.

Lemma getRow_working (h : heap) (w : loc) (rows : list loc) (M : Matrix) (i : nat) :
  working h w rows M -> (i < List.length M)%nat ->
  exists r, nth_error rows i = Some r
            /\ nth_error h r = Some (Cells (nth i M []))
            /\ getRow w i h = (Ret r, h).
Proof.
  intros Hw Hi. destruct (rowsHold_row h rows M i (proj2 (proj2 Hw)) Hi) as (r & Hr & Hc).
  exists r. repeat split; try assumption.
  unfold getRow, bindM. rewrite (rowsOf_working h w rows M Hw). now rewrite Hr.
Qed.

Lemma getCell_working (h : heap) (w : loc) (rows : list loc) (M : Matrix) (i j : nat) :
  working h w rows M -> (i < List.length M)%nat ->
  getCell w i j h = (Ret (cell M i j), h).
Proof.
  intros Hw Hi. destruct (getRow_working h w rows M i Hw Hi) as (r & _ & Hc & Hg).
  unfold getCell, bindM. rewrite Hg. unfold getEntry, bindM.
  rewrite (cellsOf_at h r _ Hc). reflexivity.
Qed.

Lemma nth_error_update_eq {A : Type} (l : list A) (k : nat) (v : A) :
  (k < List.length l)%nat -> nth_error (update l k v) k = Some v.
Proof.
  revert k. induction l as [|x l IH]; intros [|k] Hk; cbn in *; try lia; auto.
  apply IH. lia.
Qed.

Lemma nth_error_update_neq {A : Type} (l : list A) (k k' : nat) (v : A) :
  k <> k' -> nth_error (update l k v) k' = nth_error l k'.
Proof.
  revert k k'. induction l as [|x l IH]; intros [|k] [|k'] Hk; cbn; auto;
    try congruence.
Qed.

Lemma nth_error_swap {A : Type} (l : list A) (i p : nat) (a b : A) (x : nat) :
  nth_error l i = Some a -> nth_error l p = Some b ->
  nth_error (update (update l i b) p a) x
  = nth_error l (if (x =? p)%nat then i else if (x =? i)%nat then p else x).
Proof.
  intros Hi Hp.
  assert (Hli : (i < List.length l)%nat) by (apply nth_error_Some; congruence).
  assert (Hlp : (p < List.length l)%nat) by (apply nth_error_Some; congruence).
  destruct (Nat.eqb_spec x p) as [->|Hxp].
  - rewrite nth_error_update_eq by now rewrite update_length. now rewrite Hi.
  - rewrite nth_error_update_neq by congruence.
    destruct (Nat.eqb_spec x i) as [->|Hxi].
    + rewrite nth_error_update_eq by assumption. now rewrite Hp.
    + now rewrite nth_error_update_neq by congruence.
Qed.

Lemma NoDup_swap {A : Type} (l : list A) (i p : nat) (a b : A) :
  NoDup l -> nth_error l i = Some a -> nth_error l p = Some b ->
  NoDup (update (update l i b) p a).
Proof.
  intros Hnd Hi Hp.
  assert (Hli : (i < List.length l)%nat) by (apply nth_error_Some; congruence).
  assert (Hlp : (p < List.length l)%nat) by (apply nth_error_Some; congruence).
  rewrite NoDup_nth_error in *. intros x y Hx Hxy.
  rewrite !update_length in Hx.
  rewrite !(nth_error_swap l i p a b) in Hxy by assumption.
  apply Hnd in Hxy.
  - destruct (Nat.eqb_spec x p), (Nat.eqb_spec y p),
      (Nat.eqb_spec x i), (Nat.eqb_spec y i); congruence.
  - destruct (Nat.eqb_spec x p); [assumption|].
    destruct (Nat.eqb_spec x i); assumption.
Qed.

Lemma Forall2_update {A B : Type} (P : A -> B -> Prop) (l : list A) (l' : list B)
  (k : nat) (a : A) (b : B) :
  Forall2 P l l' -> P a b -> Forall2 P (update l k a) (update l' k b).
Proof.
  intros H Hab. revert k. induction H; intros [|k]; cbn; constructor; auto.
Qed.

Lemma rowsHold_frame (h h' : heap) (rows : list loc) (M : Matrix) :
  (forall r, In r rows -> nth_error h' r = nth_error h r) ->
  rowsHold h rows M -> rowsHold h' rows M.
Proof.
  intros Hsame H. induction H as [|r cells rows M Hr H IH]; constructor.
  - rewrite Hsame; [assumption | now left].
  - apply IH. intros r' Hr'. apply Hsame. now right.
Qed.

Lemma rowsHold_update (h : heap) (rows : list loc) (M : Matrix) (i : nat) (r : loc)
  (cells : list Scalar) :
  rowsHold h rows M -> NoDup rows -> nth_error rows i = Some r ->
  rowsHold (update h r (Cells cells)) rows (update M i cells).
Proof.
  intros H. revert i. induction H as [|r0 cells0 rows M Hr0 H IH]; intros i Hnd Hi.
  - destruct i; discriminate.
  - inversion Hnd as [|? ? Hnotin Hnd']; subst.
    destruct i as [|i]; cbn in *.
    + injection Hi as <-. constructor.
      * apply nth_error_update_eq. apply nth_error_Some. congruence.
      * apply (rowsHold_frame h); [|assumption].
        intros r' Hr'. apply nth_error_update_neq. intros ->. contradiction.
    + constructor.
      * rewrite nth_error_update_neq; [assumption|].
        intros ->. apply Hnotin. eapply nth_error_In, Hi.
      * now apply IH.
Qed.

Lemma store_at (h : heap) (l : loc) (a b : array) :
  nth_error h l = Some a -> store l b h = (Ret tt, update h l b).
Proof. intros Hl. unfold store. now rewrite Hl. Qed.

Lemma setCell_working (h : heap) (w : loc) (rows : list loc) (M : Matrix) (i j : nat)
  (v : Scalar) :
  working h w rows M -> (i < List.length M)%nat -> (j < List.length (nth i M []))%nat ->
  exists h', setCell w i j v h = (Ret tt, h')
             /\ working h' w rows (set_cell M i j v)
             /\ List.length h' = List.length h
             /\ (forall l, ~ In l rows -> nth_error h' l = nth_error h l).
Proof.
  intros Hw Hi Hj. destruct (getRow_working h w rows M i Hw Hi) as (r & Hr & Hc & Hg).
  exists (update h r (Cells (update (nth i M []) j v))).
  destruct Hw as (Hw & Hnd & Hrows). repeat split.
  - unfold setCell, bindM. rewrite Hg. unfold setEntry, bindM.
    rewrite (cellsOf_at h r _ Hc). unfold assign.
    apply Nat.ltb_lt in Hj. rewrite Hj. now apply (store_at h r (Cells (nth i M []))).
  - rewrite nth_error_update_neq; [assumption|]. intros ->. congruence.
  - assumption.
  - now apply rowsHold_update.
  - apply update_length.
  - intros l Hl. apply nth_error_update_neq. intros ->.
    apply Hl. eapply nth_error_In, Hr.
Qed.

Lemma In_swap {A : Type} (l : list A) (i p : nat) (a b : A) (x : A) :
  nth_error l i = Some a -> nth_error l p = Some b ->
  In x (update (update l i b) p a) <-> In x l.
Proof.
  intros Hi Hp. split; intros Hx; apply In_nth_error in Hx; destruct Hx as [k Hk].
  - rewrite (nth_error_swap l i p a b) in Hk by assumption.
    eapply nth_error_In, Hk.
  - apply (nth_error_In _ (if (k =? p)%nat then i else if (k =? i)%nat then p else k)).
    rewrite (nth_error_swap l i p a b) by assumption.
    destruct (Nat.eqb_spec k p) as [->|Hkp].
    + destruct (Nat.eqb_spec i p) as [->|Hip]; [assumption|].
      now rewrite Nat.eqb_refl.
    + destruct (Nat.eqb_spec k i) as [->|Hki].
      * now rewrite Nat.eqb_refl.
      * destruct (Nat.eqb_spec k p); [contradiction|].
        destruct (Nat.eqb_spec k i); [contradiction | assumption].
Qed.

Lemma rowsHold_In (h : heap) (rows : list loc) (M : Matrix) (r : loc) :
  rowsHold h rows M -> In r rows -> exists cells, nth_error h r = Some (Cells cells).
Proof.
  intros H. induction H as [|r0 cells rows M Hr0 H IH]; intros Hin; [contradiction|].
  destruct Hin as [->|Hin]; eauto.
Qed.

Lemma setRow_at (h : heap) (w : loc) (rows : list loc) (i : nat) (r : loc) :
  nth_error h w = Some (Rows rows) -> (i < List.length rows)%nat ->
  setRow w i r h = (Ret tt, update h w (Rows (update rows i r))).
Proof.
  intros Hw Hi.
  assert (Hrows : rowsOf w h = (Ret rows, h))
    by (unfold rowsOf, bindM, load; now rewrite Hw).
  unfold setRow, bindM. rewrite Hrows.
  apply Nat.ltb_lt in Hi. rewrite Hi. now apply (store_at h w (Rows rows)).
Qed.

Lemma update_update {A : Type} (l : list A) (k : nat) (u v : A) :
  update (update l k u) k v = update l k v.
Proof. revert k. induction l as [|x l IH]; intros [|k]; cbn; auto. now rewrite IH. Qed.

Lemma swapRows_working (h : heap) (w : loc) (rows : list loc) (M : Matrix) (i p : nat) :
  working h w rows M -> (i < List.length M)%nat -> (p < List.length M)%nat ->
  exists h' rows', swapRows w i p h = (Ret tt, h')
                   /\ working h' w rows' (swap_rows M i p)
                   /\ List.length h' = List.length h
                   /\ (forall l, In l rows' <-> In l rows)
                   /\ (forall l, l <> w -> nth_error h' l = nth_error h l).
Proof.
  intros Hw Hi Hp.
  destruct (getRow_working h w rows M i Hw Hi) as (ri & Hri & Hci & Hgi).
  destruct (getRow_working h w rows M p Hw Hp) as (rp & Hrp & Hcp & Hgp).
  pose proof (rowsHold_length h rows M (proj2 (proj2 Hw))) as Hlen.
  destruct Hw as (Hw & Hnd & Hrows).
  set (rows' := update (update rows i rp) p ri).
  exists (update h w (Rows rows')), rows'.
  assert (Hwlt : (w < List.length h)%nat) by (apply nth_error_Some; congruence).
  repeat split.
  - unfold swapRows, bindM. rewrite Hgp, Hgi.
    rewrite (setRow_at h w rows i rp Hw) by lia.
    rewrite (setRow_at _ w (update rows i rp) p ri).
    + now rewrite update_update.
    + now apply nth_error_update_eq.
    + rewrite update_length. lia.
  - now apply nth_error_update_eq.
  - now apply NoDup_swap.
  - apply (rowsHold_frame h).
    + intros r Hr. apply nth_error_update_neq. intros E. rewrite <- E in Hr.
      apply (In_swap rows i p ri rp) in Hr; [|assumption|assumption].
      destruct (rowsHold_In h rows M w Hrows Hr) as (cells & Hcells). congruence.
    + unfold rows', swap_rows. apply Forall2_update; [|assumption].
      apply Forall2_update; assumption.
  - apply update_length.
  - apply (In_swap rows i p ri rp); assumption.
  - apply (In_swap rows i p ri rp); assumption.
  - intros l Hl. apply nth_error_update_neq. congruence.
Qed.

Lemma bindM_run {A B : Type} (c : M A) (k : A -> M B) (h h' : heap) (a : A) :
  c h = (Ret a, h') -> bindM c k h = k a h'.
Proof. intros H. unfold bindM. now rewrite H. Qed.

Lemma shaped_row (m n : nat) (M : Matrix) (i : nat) :
  shaped m n M -> (i < m)%nat -> List.length (nth i M []) = n.
Proof.
  intros [Hm HM] Hi.
  apply (nth_Forall (fun row => List.length row = n) M i [] HM).
  exact (eq_ind_r (fun x => (i < x)%nat) Hi Hm).
Qed.

Lemma shaped_set_cell (m n : nat) (M : Matrix) (i j : nat) (v : Scalar) :
  shaped m n M -> (i < m)%nat -> shaped m n (set_cell M i j v).
Proof.
  intros HM Hi. pose proof (shaped_row m n M i HM Hi) as Hrow.
  destruct HM as [Hm HM]. unfold set_cell. split.
  - now rewrite update_length.
  - apply update_Forall; [assumption|]. now rewrite update_length.
Qed.

Lemma shaped_swap_rows (m n : nat) (M : Matrix) (i p : nat) :
  shaped m n M -> (i < m)%nat -> (p < m)%nat -> shaped m n (swap_rows M i p).
Proof.
  intros HM Hi Hp. pose proof (shaped_row m n M i HM Hi) as Hrowi.
  pose proof (shaped_row m n M p HM Hp) as Hrowp.
  destruct HM as [Hm HM]. unfold swap_rows. split.
  - now rewrite !update_length.
  - apply update_Forall; [|assumption]. now apply update_Forall.
Qed.

Section Working.
Variable w : loc.
Variables m n : nat.

Variable F : heap -> list loc -> Prop.
Hypothesis F_stable : stable w F.

Lemma getCell_Inv (h : heap) (M : Matrix) (i j : nat) :
  Inv w m n F h M -> (i < m)%nat -> getCell w i j h = (Ret (cell M i j), h).
Proof.
  intros (rows & Hw & [Hm HM] & _) Hi. apply (getCell_working h w rows); [assumption|lia].
Qed.

Lemma readMatrix_Inv (h : heap) (M : Matrix) :
  Inv w m n F h M -> readMatrix w h = (Ret M, h).
Proof. intros (rows & Hw & _). now apply (readMatrix_working h w rows). Qed.

Lemma setCell_agrees (h : heap) (M : Matrix) (i j : nat) (v : Scalar) :
  Inv w m n F h M -> (i < m)%nat -> (j < n)%nat ->
  agrees (setCell w i j v h) (Ret (set_cell M i j v)) (fun _ h' M' => Inv w m n F h' M').
Proof.
  intros (rows & Hw & HM & HF) Hi Hj.
  destruct (setCell_working h w rows M i j v Hw) as (h' & Hrun & Hw' & _ & Hframe).
  - destruct HM. lia.
  - rewrite (shaped_row m n M i HM Hi). exact Hj.
  - rewrite Hrun. exists tt. split; [reflexivity|]. cbn.
    exists rows. split; [assumption|]. split; [now apply shaped_set_cell|].
    apply (F_stable h h' rows rows HF); [|tauto].
    intros l Hl _. now apply Hframe.
Qed.

Lemma swapRows_agrees (h : heap) (M : Matrix) (i p : nat) :
  Inv w m n F h M -> (i < m)%nat -> (p < m)%nat ->
  agrees (swapRows w i p h) (Ret (swap_rows M i p)) (fun _ h' M' => Inv w m n F h' M').
Proof.
  intros (rows & Hw & HM & HF) Hi Hp.
  destruct (swapRows_working h w rows M i p Hw)
    as (h' & rows' & Hrun & Hw' & _ & Hin & Hframe); try (destruct HM; lia).
  rewrite Hrun. exists tt. split; [reflexivity|]. cbn.
  exists rows'. split; [assumption|]. split; [now apply shaped_swap_rows|].
  apply (F_stable h h' rows rows' HF); [|assumption].
  intros l _ Hl. now apply Hframe.
Qed.

End Working.

(** ** calculateDeterminant of the new library: the store against values *)

Lemma findPivotRow_bounds (M : Matrix) (i m : nat) :
  (i < m)%nat -> (i <= findPivotRow M i m < m)%nat.
Proof.
  intros Hi. unfold findPivotRow.
  assert (H : forall l acc, (forall k, In k l -> (i <= k < m)%nat) ->
                            (i <= acc < m)%nat ->
                            (i <= fold_left
                                    (fun pivotRow j =>
                                       if gt (absOf (cell M j i))
                                             (absOf (cell M pivotRow i))
                                       then j else pivotRow) l acc < m)%nat).
  { induction l as [|k l IH]; intros acc Hl Hacc; cbn; [assumption|].
    apply IH; [intros k' Hk'; apply Hl; now right|].
    match goal with
    | |- context [if ?c then _ else _] => destruct c
    end; [apply Hl; now left | assumption]. }
  apply H; [|lia]. intros k Hk. now apply in_range in Hk.
Qed.

Section NewOnWorking.
Variable this : New.MatrixOperations.
Variable w : loc.
Variables m n : nat.
Variable F : heap -> list loc -> Prop.
Hypothesis F_stable : stable w F.

Lemma New_combineRow_agrees (i j from upto : nat) (factor : Scalar) (h : heap)
  (M : Matrix) :
  Inv w m n F h M -> (i < m)%nat -> (j < m)%nat -> (upto <= n)%nat ->
  agrees (NewStore.combineRow this w i j from upto factor h)
         (New.combineRow this i j from upto factor M)
         (fun _ h' M' => Inv w m n F h' M').
Proof.
  intros HI Hi Hj Hupto. unfold NewStore.combineRow, New.combineRow.
  apply (agrees_forH (Inv w m n F)); [|assumption].
  intros k h0 M0 Hk HI0. apply in_range in Hk.
  rewrite (bindM_run _ _ _ _ _ (getCell_Inv w m n F h0 M0 j k HI0 Hj)).
  rewrite (bindM_run _ _ _ _ _ (getCell_Inv w m n F h0 M0 i k HI0 Hi)).
  apply (agrees_bind _ _ _ _ _ (fun a h' a' => a = a' /\ h' = h0)).
  - apply agrees_lift. auto.
  - intros v h' v' [-> ->]. apply setCell_agrees; try assumption. lia.
Qed.

Lemma New_eliminateBelow_agrees (i upto : nat) (pivot : Scalar) (j : nat) (h : heap)
  (M : Matrix) :
  Inv w m n F h M -> (i < m)%nat -> (j < m)%nat -> (upto <= n)%nat ->
  agrees (NewStore.eliminateBelow this w i upto pivot j h)
         (New.eliminateBelow this i upto pivot j M)
         (fun _ h' M' => Inv w m n F h' M').
Proof.
  intros HI Hi Hj Hupto. unfold NewStore.eliminateBelow, New.eliminateBelow.
  rewrite (bindM_run _ _ _ _ _ (getCell_Inv w m n F h M j i HI Hj)).
  apply (agrees_bind _ _ _ _ _ (fun a h' a' => a = a' /\ h' = h)).
  - apply agrees_lift. auto.
  - intros v h' v' [-> ->]. now apply New_combineRow_agrees.
Qed.

End NewOnWorking.

Lemma keeps_stable (w det : loc) (dl : list Scalar) : stable w (keeps w det dl).
Proof.
  intros h h' rows rows' (Hd & Hnotin & Hw) Hframe Hin. repeat split.
  - rewrite Hframe; assumption.
  - intros H. apply Hnotin. now apply Hin.
  - assumption.
Qed.

Lemma working_frame (h h' : heap) (w : loc) (rows : list loc) (M : Matrix) :
  working h w rows M ->
  (forall l, l = w \/ In l rows -> nth_error h' l = nth_error h l) ->
  working h' w rows M.
Proof.
  intros (Hw & Hnd & Hrows) Hsame. repeat split.
  - rewrite Hsame; [assumption | now left].
  - assumption.
  - apply (rowsHold_frame h); [|assumption]. intros r Hr. apply Hsame. now right.
Qed.

Lemma pushEntry_keeps (w det : loc) (m n : nat) (dl : list Scalar) (v : Scalar)
  (h : heap) (M : Matrix) :
  Inv w m n (keeps w det dl) h M ->
  exists h', pushEntry det v h = (Ret tt, h')
             /\ Inv w m n (keeps w det (dl ++ [v])) h' M.
Proof.
  intros (rows & Hw & HM & Hd & Hnotin & Hdw).
  exists (update h det (Cells (dl ++ [v]))). split.
  - unfold pushEntry. rewrite (bindM_run _ _ _ _ _ (cellsOf_at h det dl Hd)).
    now apply (store_at h det (Cells dl)).
  - exists rows. split; [|split; [assumption|]].
    + apply (working_frame h); [assumption|].
      intros l [->|Hl]; apply nth_error_update_neq; congruence.
    + repeat split; try assumption.
      apply nth_error_update_eq. apply nth_error_Some. congruence.
Qed.

Section NewDeterminant.
Variable this : New.MatrixOperations.
Variables w det : loc.
Variable n : nat.

Lemma New_determinantLoop_agrees (columns : list nat) :
  forall (h : heap) (M : Matrix) (dl : list Scalar),
    Inv w n n (keeps w det dl) h M ->
    (forall i, In i columns -> (i < n)%nat) ->
    agrees (NewStore.determinantLoop this n columns w det h)
           (New.determinantLoop this n columns M dl)
           (fun finished h' r =>
              match r with
              | Some (M', dl') =>
                  finished = true /\ Inv w n n (keeps w det dl') h' M'
              | None => finished = false
              end).
Proof.
  induction columns as [|i columns IH]; intros h M dl HI Hcols;
    cbn [NewStore.determinantLoop New.determinantLoop].
  - apply agrees_ret. auto.
  - assert (Hi : (i < n)%nat) by (apply Hcols; now left).
    rewrite (bindM_run _ _ _ _ _ (readMatrix_Inv w n n _ h M HI)).
    pose proof (findPivotRow_bounds M i n Hi) as Hp.
    set (pivotRow := findPivotRow M i n) in *.
    (* the exchange of rows *)
    assert (Hswap :
      exists h1,
        (if (pivotRow =? i)%nat then ret tt
         else bindM (swapRows w i pivotRow) (fun _ => pushEntry det (SNum (-1)))) h
        = (Ret tt, h1)
        /\ Inv w n n
               (keeps w det (if (pivotRow =? i)%nat then dl else dl ++ [SNum (-1)]))
               h1
               (if (pivotRow =? i)%nat then M else swap_rows M i pivotRow)).
    { destruct (pivotRow =? i)%nat.
      - exists h. split; [reflexivity | assumption].
      - pose proof (swapRows_agrees w n n _ (keeps_stable w det dl) h M i pivotRow HI Hi
                      ltac:(lia)) as Hs.
        destruct Hs as (u & Hrun & HI1). cbn in Hrun, HI1.
        destruct (swapRows w i pivotRow h) as [o h1] eqn:E. cbn in Hrun, HI1. subst o.
        destruct (pushEntry_keeps w det n n dl (SNum (-1)) h1 _ HI1) as (h2 & Hpush & HI2).
        exists h2. split; [|assumption].
        rewrite (bindM_run _ _ _ _ _ E). destruct u. exact Hpush. }
    destruct Hswap as (h1 & Hrun1 & HI1).
    rewrite (bindM_run _ _ _ _ _ Hrun1).
    set (M1 := if (pivotRow =? i)%nat then M else swap_rows M i pivotRow) in *.
    set (det1 := if (pivotRow =? i)%nat then dl else dl ++ [SNum (-1)]) in *.
    rewrite (bindM_run _ _ _ _ _ (getCell_Inv w n n _ h1 M1 i i HI1 Hi)).
    destruct (New.isZero (cell M1 i i)).
    + apply agrees_ret. reflexivity.
    + destruct (pushEntry_keeps w det n n det1 (cell M1 i i) h1 M1 HI1)
        as (h2 & Hpush & HI2).
      rewrite (bindM_run _ _ _ _ _ Hpush).
      apply (agrees_bind _ _ _ _ _
               (fun _ h' M' => Inv w n n (keeps w det (det1 ++ [cell M1 i i])) h' M')).
      * apply (agrees_forH (Inv w n n (keeps w det (det1 ++ [cell M1 i i]))));
          [|assumption].
        intros j h0 M0 Hj HI0. apply in_range in Hj.
        apply New_eliminateBelow_agrees; try assumption; try lia.
        apply keeps_stable.
      * intros _ h' M' HI'. apply IH; [assumption|].
        intros k Hk. apply Hcols. now right.
Qed.

End NewDeterminant.

(** ** The copy that opens a method *)

Lemma rowsHold_app (h ext : heap) (rows : list loc) (M : Matrix) :
  rowsHold h rows M -> rowsHold (h ++ ext) rows M.
Proof.
  intros H. induction H as [|r cells rows M Hr H IH]; constructor; [|assumption].
  rewrite nth_error_app1; [assumption|]. apply nth_error_Some. congruence.
Qed.

Lemma rowsHold_fresh (M : Matrix) :
  forall h, rowsHold (h ++ map Cells M) (seq (List.length h) (List.length M)) M.
Proof.
  induction M as [|cells M IH]; intros h; cbn; constructor.
  - rewrite nth_error_app2 by lia. now rewrite Nat.sub_diag.
  - specialize (IH (h ++ [Cells cells])).
    rewrite length_app, <- app_assoc in IH. cbn in IH.
    now rewrite Nat.add_1_r in IH.
Qed.

Lemma agrees_eq {A : Type} (x : outcome A * heap) (y : outcome A) :
  agrees x y (fun a _ b => a = b) -> fst x = y.
Proof.
  unfold agrees. destruct y as [b| | |]; auto. intros (a & Ha & ->). exact Ha.
Qed.

Lemma alloc_run (a : array) (h : heap) : alloc a h = (Ret (List.length h), h ++ [a]).
Proof. reflexivity. Qed.

Section NewConvert.
Variable this : New.MatrixOperations.

Lemma New_convertRows_agrees (rows : list loc) (M : Matrix) :
  forall h,
    rowsHold h rows M ->
    agrees (mapH (fun row =>
                    bindM (cellsOf row) (fun cells =>
                    bindM (lift (mapM (New.convertToAppropriateType this) cells))
                          (fun cells' => alloc (Cells cells'))))
                 rows h)
           (mapM (mapM (New.convertToAppropriateType this)) M)
           (fun locs h' M' =>
              h' = h ++ map Cells M' /\ locs = seq (List.length h) (List.length M')).
Proof.
  revert M.
  induction rows as [|r rows IH]; intros M h H; inversion H as [|? cells ? M0 Hr H0]; subst;
    cbn [mapH mapM].
  - apply agrees_ret. cbn. now rewrite app_nil_r.
  - apply (agrees_bind _ _ _ _ _
             (fun l h' cells' => h' = h ++ [Cells cells'] /\ l = List.length h)).
    + rewrite (bindM_run _ _ _ _ _ (cellsOf_at h r cells Hr)).
      apply (agrees_then _ _ _ _ (fun a h' a' => a = a' /\ h' = h)).
      * apply agrees_lift. auto.
      * intros c h' c' [-> ->]. apply agrees_ret. auto.
    + intros l h' cells' [-> ->].
      apply (agrees_bind _ _ _ _ _
               (fun locs h' M' =>
                  h' = (h ++ [Cells cells']) ++ map Cells M'
                  /\ locs = seq (List.length (h ++ [Cells cells'])) (List.length M'))).
      * apply IH. now apply rowsHold_app.
      * intros locs h' M' [-> ->]. apply agrees_ret. cbn. split.
        -- now rewrite <- app_assoc.
        -- rewrite length_app. cbn. now rewrite Nat.add_1_r.
Qed.

Lemma New_convertMatrix_agrees (h : heap) (matrix : loc) (rows : list loc) (M : Matrix) :
  nth_error h matrix = Some (Rows rows) -> rowsHold h rows M ->
  agrees (NewStore.convertMatrix this matrix h)
         (mapM (mapM (New.convertToAppropriateType this)) M)
         (fun w h' M' =>
            exists rows',
              working h' w rows' M'
              /\ (forall l, (l < List.length h)%nat -> nth_error h' l = nth_error h l)
              /\ (forall l, In l rows' -> (List.length h <= l)%nat)
              /\ (List.length h <= w)%nat).
Proof.
  intros Hm Hrows. unfold NewStore.convertMatrix.
  assert (Hr : rowsOf matrix h = (Ret rows, h))
    by (unfold rowsOf, bindM, load; now rewrite Hm).
  rewrite (bindM_run _ _ _ _ _ Hr).
  apply (agrees_then _ _ _ _
           (fun locs h' M' =>
              h' = h ++ map Cells M' /\ locs = seq (List.length h) (List.length M'))).
  - now apply New_convertRows_agrees.
  - intros locs h' M' [-> ->]. rewrite alloc_run.
    exists (List.length (h ++ map Cells M')). split; [reflexivity|]. cbn.
    exists (seq (List.length h) (List.length M')). repeat split.
    + rewrite nth_error_app2 by lia. now rewrite Nat.sub_diag.
    + apply seq_NoDup.
    + apply rowsHold_app, rowsHold_fresh.
    + intros l Hl. rewrite <- app_assoc. now rewrite nth_error_app1.
    + intros l Hl. apply in_seq in Hl. lia.
    + rewrite length_app. lia.
Qed.

End NewConvert.

Lemma agrees_weaken {A B : Type} (x : outcome A * heap) (y : outcome B)
  (R Q : A -> heap -> B -> Prop) :
  agrees x y R -> (forall a h b, R a h b -> Q a h b) -> agrees x y Q.
Proof.
  unfold agrees. destruct y as [b| | |]; auto.
  intros (a & Ha & HR) HQ. exists a. auto.
Qed.

Lemma agrees_and {A B : Type} (x : outcome A * heap) (y : outcome B)
  (R : A -> heap -> B -> Prop) (P : B -> Prop) :
  agrees x y R -> (forall b, y = Ret b -> P b) ->
  agrees x y (fun a h b => R a h b /\ P b).
Proof.
  unfold agrees. destruct y as [b| | |]; auto.
  intros (a & Ha & HR) HP. exists a. auto.
Qed.

Lemma mapM_rows_length {A B : Type} (f : A -> outcome B) (n : nat) (M : list (list A))
  (M' : list (list B)) :
  mapM (mapM f) M = Ret M' ->
  Forall (fun row => List.length row = n) M ->
  Forall (fun row => List.length row = n) M'.
Proof.
  revert M'. induction M as [|row M IH]; cbn; intros M' H HM.
  - inversion H. constructor.
  - inversion HM as [|? ? Hrow HM']; subst.
    destruct (mapM f row) as [row'| | |] eqn:Erow; try discriminate. cbn in H.
    destruct (mapM (mapM f) M) as [M0| | |]; try discriminate. cbn in H.
    inversion H; subst. constructor; [|now apply IH].
    apply mapM_length in Erow. congruence.
Qed.

Lemma dimensions_at (h : heap) (matrix : loc) (rows : list loc) (M : Matrix) :
  nth_error h matrix = Some (Rows rows) -> rowsHold h rows M ->
  dimensions matrix h
  = (match M with
     | [] => Throw EmptyInput
     | row0 :: _ =>
         if (List.length row0 =? 0)%nat then Throw ShapeError
         else Ret (List.length M, List.length row0)
     end, h).
Proof.
  intros Hm Hrows. unfold dimensions.
  assert (Hr : rowsOf matrix h = (Ret rows, h))
    by (unfold rowsOf, bindM, load; now rewrite Hm).
  rewrite (bindM_run _ _ _ _ _ Hr).
  pose proof (rowsHold_length h rows M Hrows) as Hlen.
  destruct Hrows as [|r0 row0 rows M Hr0 Hrows]; [reflexivity|].
  rewrite (bindM_run _ _ _ _ _ (cellsOf_at h r0 row0 Hr0)).
  destruct (List.length row0 =? 0)%nat; [reflexivity|].
  unfold ret. now rewrite Hlen.
Qed.

(** On a square matrix kept in the store, [calculateDeterminant] of the new
    library on the store ends as it does on the matrix as a value, with the
    same result. *)
Theorem New_calculateDeterminant_on_store (this : New.MatrixOperations) (h : heap)
  (matrix : loc) (rows : list loc) (M : Matrix) :
  nth_error h matrix = Some (Rows rows) -> rowsHold h rows M ->
  Forall (fun row => List.length row = List.length M) M ->
  fst (NewStore.calculateDeterminant this matrix h) = New.calculateDeterminant this M.
Proof.
  intros Hm Hrows Hsquare. apply agrees_eq.
  unfold NewStore.calculateDeterminant, New.calculateDeterminant.
  unfold bindM at 1. rewrite (dimensions_at h matrix rows M Hm Hrows).
  destruct M as [|row0 M0]; [reflexivity|].
  set (M := row0 :: M0) in *.
  destruct (List.length row0 =? 0)%nat; [reflexivity|].
  destruct (negb (List.length M =? List.length row0)%nat); [reflexivity|].
  rewrite (bindM_run _ _ _ _ _ (alloc_run (Cells []) h)).
  set (det := List.length h). set (h1 := h ++ [Cells []]).
  set (n := List.length M) in *.
  assert (Hm1 : nth_error h1 matrix = Some (Rows rows)).
  { unfold h1. rewrite nth_error_app1; [assumption|]. apply nth_error_Some. congruence. }
  assert (Hdet1 : nth_error h1 det = Some (Cells [])).
  { unfold h1, det. rewrite nth_error_app2 by lia. now rewrite Nat.sub_diag. }
  assert (Hlen1 : List.length h1 = S det) by (unfold h1, det; rewrite length_app; cbn; lia).
  apply (agrees_bind _ _ _ _ _
           (fun w h2 M' => Inv w n n (keeps w det []) h2 M')).
  - pose proof (agrees_and _ _ _ (fun M' => shaped n n M')
                  (New_convertMatrix_agrees this h1 matrix rows M Hm1
                     (rowsHold_app h [Cells []] rows M Hrows))) as Hconv.
    eapply agrees_weaken; [apply Hconv|].
    + intros M' HM'. split.
      * apply mapM_length in HM'. exact HM'.
      * exact (mapM_rows_length (New.convertToAppropriateType this) n M M' HM' Hsquare).
    + intros w h2 M' [(rows' & Hw & Hold & Hfresh & Hwfresh) Hshaped].
      exists rows'. split; [assumption|]. split; [assumption|]. repeat split.
      * rewrite Hold by lia. assumption.
      * intros Hin. apply Hfresh in Hin. lia.
      * lia.
  - intros w h2 M' HI.
    apply (agrees_bind _ _ _ _ _
             (fun finished h' r =>
                match r with
                | Some (M3, dl3) =>
                    finished = true /\ Inv w n n (keeps w det dl3) h' M3
                | None => finished = false
                end)).
    + apply New_determinantLoop_agrees; [assumption|].
      intros i Hi. now apply in_range in Hi.
    + intros finished h3 [[M3 dl3]|] Hfin.
      * destruct Hfin as [-> (rows3 & _ & _ & Hd3 & _)].
        rewrite (bindM_run _ _ _ _ _ (cellsOf_at h3 det dl3 Hd3)).
        apply (agrees_bind _ _ _ _ _ (fun a h' a' => a = a' /\ h' = h3)).
        -- apply agrees_lift. auto.
        -- intros d h' d' [-> ->].
           apply (agrees_bind _ _ _ _ _ (fun a h' a' => a = a' /\ h' = h3)).
           ++ apply agrees_lift. auto.
           ++ intros t h' t' [-> ->]. now apply agrees_ret.
      * subst finished. now apply agrees_ret.
Qed.

Lemma New_calculateDeterminant_on_store_witness :
  fst (NewStore.calculateDeterminant New.engine 2%nat sampleStore)
  = New.calculateDeterminant New.engine sampleMatrix.
Proof.
  apply (New_calculateDeterminant_on_store New.engine sampleStore 2%nat
           [0%nat; 1%nat] sampleMatrix).
  - reflexivity.
  - repeat constructor.
  - repeat constructor.
Defined.

(** ** reduceToRowEchelon of the new library: the store against values *)

Lemma nothing_stable (w : loc) : stable w nothing.
Proof. intros h h' rows rows' _ _ _. exact I. Qed.

Lemma copyRows_agrees (rows : list loc) (M : Matrix) :
  forall h,
    rowsHold h rows M ->
    mapH (fun row => bindM (cellsOf row) (fun cells => alloc (Cells cells))) rows h
    = (Ret (seq (List.length h) (List.length M)), h ++ map Cells M).
Proof.
  revert M. induction rows as [|r rows IH]; intros M h H;
    inversion H as [|? cells ? M0 Hr H0]; subst; cbn [mapH].
  - cbn. now rewrite app_nil_r.
  - rewrite (bindM_run _ _ h (h ++ [Cells cells]) (List.length h)).
    + rewrite (bindM_run _ _ _ _ _ (IH M0 (h ++ [Cells cells]) (rowsHold_app _ _ _ _ H0))).
      unfold ret. cbn. rewrite <- app_assoc, length_app. cbn.
      now rewrite Nat.add_1_r.
    + now rewrite (bindM_run _ _ _ _ _ (cellsOf_at h r cells Hr)).
Qed.

Lemma copyMatrix_at (h : heap) (matrix : loc) (rows : list loc) (M : Matrix) :
  nth_error h matrix = Some (Rows rows) -> rowsHold h rows M ->
  exists w h' rows',
    Store.copyMatrix matrix h = (Ret w, h')
    /\ working h' w rows' M
    /\ (forall l, (l < List.length h)%nat -> nth_error h' l = nth_error h l).
Proof.
  intros Hm Hrows.
  exists (List.length (h ++ map Cells M)),
         ((h ++ map Cells M) ++ [Rows (seq (List.length h) (List.length M))]),
         (seq (List.length h) (List.length M)).
  split; [|split].
  - unfold Store.copyMatrix.
    assert (Hr : rowsOf matrix h = (Ret rows, h))
      by (unfold rowsOf, bindM, load; now rewrite Hm).
    rewrite (bindM_run _ _ _ _ _ Hr).
    rewrite (bindM_run _ _ _ _ _ (copyRows_agrees rows M h Hrows)).
    reflexivity.
  - repeat split.
    + rewrite nth_error_app2 by lia. now rewrite Nat.sub_diag.
    + apply seq_NoDup.
    + apply rowsHold_app, rowsHold_fresh.
  - intros l Hl. rewrite <- app_assoc. now rewrite nth_error_app1.
Qed.

Lemma shape_at (h : heap) (matrix : loc) (rows : list loc) (M : Matrix) :
  nth_error h matrix = Some (Rows rows) -> rowsHold h rows M -> M <> [] ->
  shape matrix h = (Ret (List.length M, List.length (nth 0 M [])), h).
Proof.
  intros Hm Hrows Hne. unfold shape.
  assert (Hr : rowsOf matrix h = (Ret rows, h))
    by (unfold rowsOf, bindM, load; now rewrite Hm).
  rewrite (bindM_run _ _ _ _ _ Hr).
  pose proof (rowsHold_length h rows M Hrows) as Hlen.
  destruct Hrows as [|r0 row0 rows M Hr0 Hrows]; [contradiction|].
  assert (Hg : getRow matrix 0 h = (Ret r0, h)).
  { unfold getRow. now rewrite (bindM_run _ _ _ _ _ Hr). }
  rewrite (bindM_run _ _ _ _ _ Hg).
  rewrite (bindM_run _ _ _ _ _ (cellsOf_at h r0 row0 Hr0)).
  unfold ret. now rewrite Hlen.
Qed.

Lemma agrees_step {A B S C : Type} (c : M A) (k : A -> M B) (h : heap) (s : S)
  (y : outcome C) (R : A -> heap -> S -> Prop) (Q : B -> heap -> C -> Prop) :
  agrees (c h) (Ret s) R ->
  (forall a h', R a h' s -> agrees (k a h') y Q) ->
  agrees (bindM c k h) y Q.
Proof.
  intros (a & Ha & HR) Hk. destruct (c h) as [o h'] eqn:E. cbn in Ha, HR. subst o.
  rewrite (bindM_run _ _ _ _ _ E). now apply Hk.
Qed.

Section NewRowEchelon.
Variable this : New.MatrixOperations.
Variable w : loc.
Variables m n : nat.

Lemma New_normalizeRow_agrees (i from : nat) (pivot : Scalar) (h : heap) (M : Matrix) :
  Inv w m n nothing h M -> (i < m)%nat ->
  agrees (NewStore.normalizeRow this w i from n pivot h)
         (New.normalizeRow this i from n pivot M)
         (fun _ h' M' => Inv w m n nothing h' M').
Proof.
  intros HI Hi. unfold NewStore.normalizeRow, New.normalizeRow.
  apply (agrees_forH (Inv w m n nothing)); [|assumption].
  intros j h0 M0 Hj HI0. apply in_range in Hj.
  rewrite (bindM_run _ _ _ _ _ (getCell_Inv w m n nothing h0 M0 i j HI0 Hi)).
  apply (agrees_bind _ _ _ _ _ (fun a h' a' => a = a' /\ h' = h0)).
  - apply agrees_lift. auto.
  - intros v h' v' [-> ->].
    apply setCell_agrees; try assumption; [apply nothing_stable | lia].
Qed.

Lemma New_eliminateOthers_agrees (i pivotCol : nat) (h : heap) (M : Matrix) :
  Inv w m n nothing h M -> (i < m)%nat ->
  agrees (NewStore.eliminateOthers this w i pivotCol m n h)
         (New.eliminateOthers this i pivotCol m n M)
         (fun _ h' M' => Inv w m n nothing h' M').
Proof.
  intros HI Hi. unfold NewStore.eliminateOthers, New.eliminateOthers.
  apply (agrees_forH (Inv w m n nothing)); [|assumption].
  intros j h0 M0 Hj HI0. apply in_range in Hj.
  rewrite (bindM_run _ _ _ _ _
             (getCell_Inv w m n nothing h0 M0 j pivotCol HI0 ltac:(lia))).
  destruct (negb (j =? i)%nat && negb (New.isZero (cell M0 j pivotCol))).
  - apply New_combineRow_agrees; try assumption; try lia. apply nothing_stable.
  - now apply agrees_ret.
Qed.

Lemma New_rowEchelonLoop_agrees (columns : list nat) :
  forall (i : nat) (h : heap) (M : Matrix),
    Inv w m n nothing h M ->
    agrees (NewStore.rowEchelonLoop this m n columns i w h)
           (New.rowEchelonLoop this m n columns i M)
           (fun _ h' M' => Inv w m n nothing h' M').
Proof.
  induction columns as [|pivotCol columns IH]; intros i h M HI;
    cbn [NewStore.rowEchelonLoop New.rowEchelonLoop].
  - now apply agrees_ret.
  - destruct (Nat.leb_spec m i) as [Hmi|Hi]; [now apply agrees_ret|].
    rewrite (bindM_run _ _ _ _ _ (readMatrix_Inv w m n _ h M HI)).
    pose proof (New_firstNonZeroRow_spec M pivotCol (range i m) m) as Hspec.
    set (pivotRow := New.firstNonZeroRow M pivotCol (range i m) m) in *.
    destruct (Nat.eqb_spec pivotRow m) as [Hpm|Hpm]; [now apply IH|].
    assert (Hp : (pivotRow < m)%nat).
    { destruct Hspec as [Hs|Hs]; [contradiction|].
      destruct Hs as [Hin _]. apply in_range in Hin. lia. }
    apply (agrees_step _ _ _ (swap_rows M i pivotRow) _
             (fun _ h' M' => Inv w m n nothing h' M')).
    + apply swapRows_agrees; try assumption. apply nothing_stable.
    + intros _ h1 HI1. set (M1 := swap_rows M i pivotRow) in *.
      rewrite (bindM_run _ _ _ _ _ (getCell_Inv w m n nothing h1 M1 i pivotCol HI1 Hi)).
      apply (agrees_bind _ _ _ _ _ (fun _ h' M' => Inv w m n nothing h' M')).
      * now apply New_normalizeRow_agrees.
      * intros _ h2 M2 HI2.
        apply (agrees_bind _ _ _ _ _ (fun _ h' M' => Inv w m n nothing h' M')).
        -- now apply New_eliminateOthers_agrees.
        -- intros _ h3 M3 HI3. now apply IH.
Qed.

End NewRowEchelon.

Lemma bindM_assoc {A B C : Type} (c : M A) (k : A -> M B) (k' : B -> M C) (h : heap) :
  bindM (bindM c k) k' h = bindM c (fun a => bindM (k a) k') h.
Proof. unfold bindM. destruct (c h) as [[a| | |] h']; reflexivity. Qed.

Lemma readMatrix_at (h : heap) (matrix : loc) (rows : list loc) (M : Matrix) :
  nth_error h matrix = Some (Rows rows) -> rowsHold h rows M ->
  readMatrix matrix h = (Ret M, h).
Proof.
  intros Hm Hrows. unfold readMatrix.
  assert (Hr : rowsOf matrix h = (Ret rows, h))
    by (unfold rowsOf, bindM, load; now rewrite Hm).
  rewrite (bindM_run _ _ _ _ _ Hr). now apply mapH_cellsOf.
Qed.

(** On a matrix kept in the store, all of whose rows have the length of
    the first, [reduceToRowEchelon] of the new library on the store ends as
    it does on the matrix as a value, and the array it returns holds the
    matrix returned there. *)
Theorem New_reduceToRowEchelon_on_store (this : New.MatrixOperations) (h : heap)
  (matrix : loc) (rows : list loc) (M : Matrix) :
  nth_error h matrix = Some (Rows rows) -> rowsHold h rows M -> M <> [] ->
  Forall (fun row => List.length row = List.length (nth 0 M [])) M ->
  fst (bindM (NewStore.reduceToRowEchelon this matrix) readMatrix h)
  = New.reduceToRowEchelon this M.
Proof.
  intros Hm Hrows Hne Hrect. apply agrees_eq.
  unfold NewStore.reduceToRowEchelon, New.reduceToRowEchelon.
  rewrite copyMatrix_id.
  rewrite bindM_assoc, (bindM_run _ _ _ _ _ (shape_at h matrix rows M Hm Hrows Hne)).
  destruct (copyMatrix_at h matrix rows M Hm Hrows) as (w & h1 & rows1 & Hcopy & Hw & _).
  rewrite bindM_assoc, (bindM_run _ _ _ _ _ Hcopy), bindM_assoc.
  apply (agrees_then _ _ _ _
           (fun _ h' M' =>
              Inv w (List.length M) (List.length (nth 0 M [])) nothing h' M')).
  - apply New_rowEchelonLoop_agrees.
    exists rows1. split; [assumption|]. split; [|exact I]. split; [reflexivity | assumption].
  - intros _ h2 M2 HI2.
    change (bindM (ret w) readMatrix h2) with (readMatrix w h2).
    rewrite (readMatrix_Inv w _ _ _ h2 M2 HI2). now apply agrees_ret.
Qed.


Lemma New_reduceToRowEchelon_on_store_witness :
  fst (bindM (NewStore.reduceToRowEchelon New.engine 2%nat) readMatrix sampleStore)
  = New.reduceToRowEchelon New.engine sampleMatrix.
Proof.
  apply (New_reduceToRowEchelon_on_store New.engine sampleStore 2%nat
           [0%nat; 1%nat] sampleMatrix).
  - reflexivity.
  - repeat constructor.
  - discriminate.
  - repeat constructor.
Defined.


(* ================================================================== *)
(** * Exact arithmetic on Fractions *)

(** ** Fractions as rational numbers *)

Lemma reduced_unique (n d n' d' : Z) :
  reduced n d -> reduced n' d' -> n * d' = n' * d -> n = n' /\ d = d'.
Proof.
  intros [Hd Hg] [Hd' Hg'] Heq.
  rewrite Z.gcd_abs_l in Hg, Hg'.
  assert (Hdd' : (d | d')).
  { apply Z.gauss with n; [|now rewrite Z.gcd_comm].
    exists n'. exact Heq. }
  assert (Hd'd : (d' | d)).
  { apply Z.gauss with n'; [|now rewrite Z.gcd_comm].
    exists n. symmetry. exact Heq. }
  assert (d = d').
  { apply Z.divide_antisym_nonneg; [lia | lia | assumption | assumption]. }
  subst d'. split; [nia | reflexivity].
Qed.

Lemma Old_Fraction_new_eq (p q p' q' : Z) :
  q <> 0 -> q' <> 0 ->
  (Old.Fraction_new p q = Old.Fraction_new p' q' <-> p * q' = p' * q).
Proof.
  intros Hq Hq'.
  pose proof (Old_Fraction_new_reduced p q) as (Hr & Hv & _).
  pose proof (Old_Fraction_new_reduced p' q') as (Hr' & Hv' & _).
  specialize (Hv Hq). specialize (Hv' Hq').
  destruct (Old.Fraction_new p q) as [n d].
  destruct (Old.Fraction_new p' q') as [n' d'].
  cbn [numerator denominator] in *.
  assert (Hd : 0 < d) by apply Hr. assert (Hd' : 0 < d') by apply Hr'.
  split.
  - intros E. injection E as -> ->.
    apply (Z.mul_reg_r _ _ d'); [lia|].
    replace (p * q' * d') with ((p * d') * q') by ring. rewrite <- Hv.
    replace (p' * q * d') with ((p' * d') * q) by ring. rewrite <- Hv'. ring.
  - intros E.
    destruct (reduced_unique n d n' d' Hr Hr') as [-> ->]; [|reflexivity].
    apply (Z.mul_reg_r _ _ (q * q')); [nia|].
    replace (n * d' * (q * q')) with ((n * q) * (d' * q')) by ring. rewrite Hv.
    replace (n' * d * (q * q')) with ((n' * q') * (d * q)) by ring. rewrite Hv'.
    replace (p * d * (d' * q')) with ((p * q') * (d * d')) by ring. rewrite E. ring.
Qed.

Lemma Old_Fraction_new_lowest (f : Fraction) :
  lowest f -> Old.Fraction_new (numerator f) (denominator f) = f.
Proof.
  intros Hf.
  pose proof (Old_Fraction_new_reduced (numerator f) (denominator f)) as (Hr & Hv & _).
  assert (Hd : 0 < denominator f) by apply Hf.
  specialize (Hv ltac:(lia)).
  destruct f as [n d]. destruct (Old.Fraction_new _ _) as [n' d'].
  cbn [numerator denominator] in *.
  destruct (reduced_unique n' d' n d Hr Hf) as [-> ->]; [lia | reflexivity].
Qed.

Lemma Qof_eq (a b : Fraction) :
  0 < denominator a -> 0 < denominator b ->
  (Qeq (Qof a) (Qof b) <-> numerator a * denominator b = numerator b * denominator a).
Proof.
  intros Ha Hb. unfold Qeq, Qof. cbn [Qnum Qden].
  rewrite !Z2Pos.id by assumption. reflexivity.
Qed.

Lemma lowest_Qof_inj (a b : Fraction) :
  lowest a -> lowest b -> Qeq (Qof a) (Qof b) -> a = b.
Proof.
  intros Ha Hb E.
  apply Qof_eq in E; [|apply Ha|apply Hb].
  destruct a as [n d], b as [n' d']. cbn [numerator denominator] in *.
  destruct (reduced_unique n d n' d' Ha Hb E) as [-> ->]. reflexivity.
Qed.

Lemma Old_Fraction_new_lowest' (p q : Z) : lowest (Old.Fraction_new p q).
Proof. apply Old_Fraction_new_reduced. Qed.

Lemma Qof_Old_new (p q : Z) :
  q <> 0 -> Qeq (Qof (Old.Fraction_new p q)) (Qdiv (inject_Z p) (inject_Z q)).
Proof.
  intros Hq.
  pose proof (Old_Fraction_new_reduced p q) as (Hr & Hv & _). specialize (Hv Hq).
  assert (Hd : 0 < denominator (Old.Fraction_new p q)) by apply Hr.
  set (f := Old.Fraction_new p q) in *.
  assert (E : Qeq (Qmult (Qof f) (inject_Z q)) (inject_Z p)).
  { unfold Qeq, Qof, Qmult, inject_Z. cbn [Qnum Qden].
    rewrite Pos.mul_1_r, Z2Pos.id by assumption. lia. }
  rewrite <- E. field. intros H. apply Hq.
  unfold Qeq, inject_Z in H. cbn in H. lia.
Qed.

Lemma Qof_inject (f : Fraction) :
  0 < denominator f ->
  Qeq (Qof f) (Qdiv (inject_Z (numerator f)) (inject_Z (denominator f))).
Proof.
  intros Hd. unfold Qof.
  rewrite (Qmake_Qdiv (numerator f) (Z.to_pos (denominator f))).
  rewrite Z2Pos.id by assumption. reflexivity.
Qed.

Lemma inject_Z_nonzero (z : Z) : z <> 0 -> ~ Qeq (inject_Z z) 0%Q.
Proof. intros Hz H. unfold Qeq, inject_Z in H. cbn in H. lia. Qed.

Ltac Qof_arith :=
  unfold Z.sub;
  repeat first [rewrite inject_Z_plus | rewrite inject_Z_mult | rewrite inject_Z_opp];
  field; repeat split; apply inject_Z_nonzero; lia.

Lemma Qof_Old_add (a b : Fraction) :
  0 < denominator a -> 0 < denominator b ->
  Qeq (Qof (Old.add a b)) (Qof a + Qof b)%Q.
Proof.
  intros Ha Hb. unfold Old.add.
  rewrite Qof_Old_new by nia. rewrite (Qof_inject a Ha), (Qof_inject b Hb).
  Qof_arith.
Qed.

Lemma Qof_Old_subtract (a b : Fraction) :
  0 < denominator a -> 0 < denominator b ->
  Qeq (Qof (Old.subtract a b)) (Qof a - Qof b)%Q.
Proof.
  intros Ha Hb. unfold Old.subtract.
  rewrite Qof_Old_new by nia. rewrite (Qof_inject a Ha), (Qof_inject b Hb).
  Qof_arith.
Qed.

Lemma Qof_Old_multiply (a b : Fraction) :
  0 < denominator a -> 0 < denominator b ->
  Qeq (Qof (Old.multiply a b)) (Qof a * Qof b)%Q.
Proof.
  intros Ha Hb. unfold Old.multiply.
  rewrite Qof_Old_new by nia. rewrite (Qof_inject a Ha), (Qof_inject b Hb).
  Qof_arith.
Qed.

Lemma Qof_Old_divide (a b : Fraction) :
  0 < denominator a -> 0 < denominator b -> numerator b <> 0 ->
  exists f, Old.divide a b = Ret f /\ lowest f /\ Qeq (Qof f) (Qof a / Qof b)%Q.
Proof.
  intros Ha Hb Hn. unfold Old.divide.
  destruct (Z.eqb_spec (numerator b) 0); [contradiction|].
  eexists; split; [reflexivity|]. split; [apply Old_Fraction_new_lowest'|].
  rewrite Qof_Old_new by nia. rewrite (Qof_inject a Ha), (Qof_inject b Hb).
  Qof_arith.
Qed.

Lemma lowest_pos (f : Fraction) : lowest f -> 0 < denominator f.
Proof. intros H. apply H. Qed.

Lemma Old_add_lowest (a b : Fraction) : lowest (Old.add a b).
Proof. apply Old_Fraction_new_lowest'. Qed.

Lemma Old_subtract_lowest (a b : Fraction) : lowest (Old.subtract a b).
Proof. apply Old_Fraction_new_lowest'. Qed.

Lemma Old_multiply_lowest (a b : Fraction) : lowest (Old.multiply a b).
Proof. apply Old_Fraction_new_lowest'. Qed.

Lemma Qof_nonzero (b : Fraction) : numerator b <> 0 -> ~ Qeq (Qof b) 0%Q.
Proof. intros Hn H. unfold Qeq, Qof in H. cbn in H. lia. Qed.

Create HintDb fraction.

#[local] Hint Resolve Old_add_lowest Old_subtract_lowest Old_multiply_lowest
  Old_Fraction_new_lowest' lowest_pos : fraction.

Lemma Qof_zero : Qeq (Qof (mkFraction 0 1)) 0%Q.
Proof. reflexivity. Qed.

Lemma Qof_one : Qeq (Qof (mkFraction 1 1)) 1%Q.
Proof. reflexivity. Qed.

Lemma lowest_zero : lowest (mkFraction 0 1).
Proof. unfold lowest, reduced; cbn; lia. Qed.

Lemma lowest_unit : lowest (mkFraction 1 1).
Proof. unfold lowest, reduced; cbn; lia. Qed.

Lemma Qof_Old_again (a : Fraction) :
  0 < denominator a ->
  Qeq (Qof (Old.Fraction_new (numerator a) (denominator a))) (Qof a).
Proof. intros Ha. rewrite Qof_Old_new by lia. now rewrite <- Qof_inject. Qed.

Lemma Old_add_comm (a b : Fraction) :
  0 < denominator a -> 0 < denominator b -> Old.add a b = Old.add b a.
Proof.
  intros Ha Hb. apply lowest_Qof_inj; auto with fraction.
  rewrite !Qof_Old_add by auto with fraction. ring.
Qed.

Lemma Old_subtract_self (a : Fraction) :
  0 < denominator a -> Old.subtract a a = mkFraction 0 1.
Proof.
  intros Ha. apply lowest_Qof_inj; auto using lowest_zero with fraction.
  rewrite Qof_Old_subtract, Qof_zero by auto with fraction. ring.
Qed.

Lemma Old_add_subtract (a b : Fraction) :
  0 < denominator a -> 0 < denominator b ->
  Old.subtract (Old.add a b) b = Old.Fraction_new (numerator a) (denominator a).
Proof.
  intros Ha Hb. apply lowest_Qof_inj; auto with fraction.
  rewrite Qof_Old_subtract, Qof_Old_add, Qof_Old_again by auto with fraction. ring.
Qed.

Lemma Old_subtract_add (a b : Fraction) :
  0 < denominator a -> 0 < denominator b ->
  Old.add (Old.subtract a b) b = Old.Fraction_new (numerator a) (denominator a).
Proof.
  intros Ha Hb. apply lowest_Qof_inj; auto with fraction.
  rewrite Qof_Old_add, Qof_Old_subtract, Qof_Old_again by auto with fraction. ring.
Qed.

Lemma Old_add_zero_r (a : Fraction) : lowest a -> Old.add a (mkFraction 0 1) = a.
Proof.
  intros La. apply lowest_Qof_inj; auto with fraction.
  rewrite Qof_Old_add, Qof_zero by (auto with fraction; cbn; lia). ring.
Qed.

Lemma Old_multiply_one (a : Fraction) : lowest a -> Old.multiply a (mkFraction 1 1) = a.
Proof.
  intros La. apply lowest_Qof_inj; auto with fraction.
  rewrite Qof_Old_multiply, Qof_one by (auto with fraction; cbn; lia). ring.
Qed.


Lemma New_Fraction_new_Old (p q : Z) :
  q <> 0 -> New.Fraction_new p q = Ret (Old.Fraction_new p q).
Proof.
  intros Hq.
  destruct (New_Fraction_new_reduced p q Hq) as (f & Hf & Hr & Hv).
  rewrite Hf. f_equal.
  pose proof (Old_Fraction_new_reduced p q) as (Hr' & Hv' & _). specialize (Hv' Hq).
  destruct f as [n d]. destruct (Old.Fraction_new p q) as [n' d'].
  cbn [numerator denominator] in *.
  destruct (reduced_unique n d n' d' Hr Hr') as [-> ->]; [|reflexivity].
  apply (Z.mul_reg_r _ _ q); [assumption|].
  replace (n * d' * q) with ((n * q) * d') by ring. rewrite Hv.
  replace (n' * d * q) with ((n' * q) * d) by ring. rewrite Hv'. ring.
Qed.






(** ** Printing and reading a Fraction *)

Lemma read_digits_stop (acc : option Z) (rest : string) :
  no_digit_ahead rest -> read_digits acc rest = (acc, rest).
Proof. destruct rest as [|c r]; cbn; [reflexivity|]. now intros ->. Qed.

Lemma read_digits_uint (d : Decimal.uint) :
  forall (acc : option Z) (rest : string),
    no_digit_ahead rest ->
    read_digits acc (NilEmpty.string_of_uint d ++ rest)%string
    = (match d with
       | Decimal.Nil => acc
       | _ => Some (uint_value d (match acc with Some a => a | None => 0 end))
       end, rest).
Proof.
  induction d as [|l IH|l IH|l IH|l IH|l IH|l IH|l IH|l IH|l IH|l IH];
    intros acc rest Hrest;
    [ now apply read_digits_stop | .. ];
    cbn [NilEmpty.string_of_uint append read_digits];
    match goal with
    | |- context [is_digit ?c] => change (is_digit c) with true
    end; cbn iota; rewrite (IH _ rest Hrest);
    destruct l; reflexivity.
Qed.

Lemma uint_value_acc (d : Decimal.uint) :
  forall a, 0 < a -> uint_value d a = Z.pos (Pos.of_uint_acc d (Z.to_pos a)).
Proof.
  induction d as [|l IH|l IH|l IH|l IH|l IH|l IH|l IH|l IH|l IH|l IH];
    intros a Ha; cbn [uint_value Pos.of_uint_acc];
    [ now rewrite Z2Pos.id | .. ];
    (rewrite IH by lia; do 2 f_equal; lia).
Qed.

Lemma uint_value_of_uint (d : Decimal.uint) : uint_value d 0 = Z.of_N (Pos.of_uint d).
Proof.
  induction d as [|l IH|l IH|l IH|l IH|l IH|l IH|l IH|l IH|l IH|l IH];
    cbn [uint_value Pos.of_uint]; [reflexivity | exact IH | ..];
    (rewrite uint_value_acc by lia; reflexivity).
Qed.

Lemma string_of_uint_digit (d : Decimal.uint) (rest : string) :
  d <> Decimal.Nil ->
  exists c s, (NilEmpty.string_of_uint d ++ rest)%string = String c s /\ is_digit c = true
              /\ is_space c = false /\ c <> "-"%char /\ c <> "+"%char.
Proof.
  destruct d; intros Hd; [contradiction | ..];
    cbn [NilEmpty.string_of_uint append]; eexists _, _;
    (split; [reflexivity|]); repeat split; discriminate.
Qed.

Lemma parseInt10_unsigned (c : ascii) (s : string) :
  is_space c = false -> c <> "-"%char -> c <> "+"%char ->
  parseInt10 (String c s) = fst (read_digits None (String c s)).
Proof.
  intros Hsp Hm Hp. unfold parseInt10. cbn [skip_spaces]. rewrite Hsp.
  destruct c as [[] [] [] [] [] [] [] []]; try reflexivity;
    first [now elim Hm | now elim Hp].
Qed.

Lemma parseInt10_negative (s : string) :
  parseInt10 (String "-" s) = option_map Z.opp (fst (read_digits None s)).
Proof.
  unfold parseInt10. cbn [skip_spaces].
  change (is_space "-") with false. reflexivity.
Qed.

(** [parseInt] reads back the decimal rendering of an integer, also when
    text that does not start with a digit follows it. *)
Lemma parseInt10_Z_toString (z : Z) (rest : string) :
  no_digit_ahead rest -> parseInt10 (Z_toString z ++ rest)%string = Some z.
Proof.
  intros Hrest. unfold Z_toString.
  destruct z as [|p|p]; cbn [Z.to_int NilZero.string_of_int].
  - change (NilZero.string_of_uint (Decimal.D0 Decimal.Nil) ++ rest)%string
      with (NilEmpty.string_of_uint (Decimal.D0 Decimal.Nil) ++ rest)%string.
    destruct (string_of_uint_digit (Decimal.D0 Decimal.Nil) rest ltac:(discriminate))
      as (c & s & E & Hdig & Hsp & Hm & Hp).
    rewrite E, parseInt10_unsigned, <- E by assumption.
    now rewrite read_digits_uint.
  - pose proof (Unsigned.to_uint_nonnil p) as Hnn.
    assert (Hs : NilZero.string_of_uint (Pos.to_uint p)
                 = NilEmpty.string_of_uint (Pos.to_uint p))
      by (destruct (Pos.to_uint p); [contradiction | reflexivity ..]).
    rewrite Hs.
    destruct (string_of_uint_digit (Pos.to_uint p) rest Hnn)
      as (c & s & E & Hdig & Hsp & Hm & Hp).
    rewrite E, parseInt10_unsigned, <- E by assumption.
    rewrite read_digits_uint by assumption. cbn [fst].
    rewrite uint_value_of_uint, Unsigned.of_to.
    destruct (Pos.to_uint p); [contradiction | reflexivity ..].
  - pose proof (Unsigned.to_uint_nonnil p) as Hnn.
    assert (Hs : NilZero.string_of_uint (Pos.to_uint p)
                 = NilEmpty.string_of_uint (Pos.to_uint p))
      by (destruct (Pos.to_uint p); [contradiction | reflexivity ..]).
    rewrite Hs. cbn [append]. rewrite parseInt10_negative.
    rewrite read_digits_uint by assumption. cbn [fst option_map].
    rewrite uint_value_of_uint, Unsigned.of_to.
    destruct (Pos.to_uint p); [contradiction | reflexivity ..].
Qed.

Lemma forallb_digits_uint (d : Decimal.uint) :
  forallb is_digit (list_ascii_of_string (NilEmpty.string_of_uint d)) = true.
Proof. induction d; cbn [NilEmpty.string_of_uint list_ascii_of_string forallb];
         [reflexivity | ..]; rewrite IHd; reflexivity. Qed.

Lemma all_digits_uint (d : Decimal.uint) :
  d <> Decimal.Nil -> all_digits (NilEmpty.string_of_uint d) = true.
Proof.
  intros Hd. unfold all_digits. rewrite forallb_digits_uint.
  destruct d; [contradiction | reflexivity ..].
Qed.

(** The decimal rendering of an integer: an optional minus sign, then digits. *)
Lemma Z_toString_shape (z : Z) :
  exists ds, all_digits ds = true
             /\ Z_toString z = (if z <? 0 then String "-" ds else ds).
Proof.
  unfold Z_toString. destruct z as [|p|p]; cbn [Z.to_int NilZero.string_of_int Z.ltb Z.compare].
  - exists "0". split; reflexivity.
  - exists (NilEmpty.string_of_uint (Pos.to_uint p)).
    pose proof (Unsigned.to_uint_nonnil p) as Hnn.
    split; [now apply all_digits_uint|].
    destruct (Pos.to_uint p); [contradiction | reflexivity ..].
  - exists (NilEmpty.string_of_uint (Pos.to_uint p)).
    pose proof (Unsigned.to_uint_nonnil p) as Hnn.
    split; [now apply all_digits_uint|].
    destruct (Pos.to_uint p); [contradiction | reflexivity ..].
Qed.

Lemma string_app_nil_r (s : string) : (s ++ "")%string = s.
Proof. induction s as [|c s IH]; cbn; [reflexivity | now rewrite IH]. Qed.

Lemma string_app_assoc (s t u : string) :
  ((s ++ t) ++ u)%string = (s ++ (t ++ u))%string.
Proof. induction s as [|c s IH]; cbn; [reflexivity | now rewrite IH]. Qed.

Lemma split_slash_aux_app (s : string) :
  forall cur rest,
    forallb (fun c => negb (Ascii.eqb c "/")) (list_ascii_of_string s) = true ->
    split_slash_aux cur (s ++ rest)%string = split_slash_aux (cur ++ s)%string rest.
Proof.
  induction s as [|c s IH]; intros cur rest Hs; cbn [append].
  - now rewrite string_app_nil_r.
  - cbn [list_ascii_of_string forallb] in Hs. apply andb_prop in Hs as [Hc Hs].
    cbn [split_slash_aux]. apply negb_true_iff in Hc. rewrite Hc.
    rewrite IH by assumption. f_equal.
    now rewrite string_app_assoc.
Qed.

Lemma digit_not_slash (c : ascii) : is_digit c = true -> Ascii.eqb c "/" = false.
Proof. destruct c as [[] [] [] [] [] [] [] []]; cbn; intros H; first [reflexivity | discriminate]. Qed.

Lemma digits_no_slash (ds : string) :
  forallb is_digit (list_ascii_of_string ds) = true ->
  forallb (fun c => negb (Ascii.eqb c "/")) (list_ascii_of_string ds) = true.
Proof.
  induction ds as [|c ds IH]; cbn [list_ascii_of_string forallb]; [reflexivity|].
  intros H. apply andb_prop in H as [Hc Hds].
  rewrite (digit_not_slash c Hc), IH by assumption. reflexivity.
Qed.

Lemma all_digits_forallb (ds : string) :
  all_digits ds = true -> forallb is_digit (list_ascii_of_string ds) = true.
Proof. unfold all_digits. destruct ds; [discriminate | auto]. Qed.

Lemma Z_toString_no_slash (z : Z) :
  forallb (fun c => negb (Ascii.eqb c "/")) (list_ascii_of_string (Z_toString z)) = true.
Proof.
  destruct (Z_toString_shape z) as (ds & Hds & ->).
  apply all_digits_forallb, digits_no_slash in Hds.
  destruct (z <? 0); [|assumption].
  cbn [list_ascii_of_string forallb]. now rewrite Hds.
Qed.

Lemma split_slash_integer (z : Z) : split_slash (Z_toString z) = [Z_toString z].
Proof.
  unfold split_slash.
  rewrite <- (string_app_nil_r (Z_toString z)) at 1.
  rewrite split_slash_aux_app by apply Z_toString_no_slash. reflexivity.
Qed.

Lemma split_slash_fraction (n d : Z) :
  split_slash (Z_toString n ++ "/" ++ Z_toString d)%string
  = [Z_toString n; Z_toString d].
Proof.
  unfold split_slash.
  rewrite split_slash_aux_app by apply Z_toString_no_slash.
  cbn [append split_slash_aux]. change (Ascii.eqb "/" "/") with true. cbn iota.
  f_equal. apply split_slash_integer.
Qed.

Lemma Z_toString_negative (n : Z) :
  n < 0 -> ("-" ++ Z_toString (Z.abs n))%string = Z_toString n.
Proof. destruct n as [|p|p]; intros H; try lia. reflexivity. Qed.

Lemma parseInt10_integer (z : Z) : parseInt10 (Z_toString z) = Some z.
Proof.
  rewrite <- (string_app_nil_r (Z_toString z)).
  now apply parseInt10_Z_toString.
Qed.

Lemma Old_toString_text (f : Fraction) :
  Old.toString f
  = if denominator f =? 1 then Z_toString (numerator f)
    else (Z_toString (numerator f) ++ "/" ++ Z_toString (denominator f))%string.
Proof.
  unfold Old.toString. destruct (denominator f =? 1); [reflexivity|].
  destruct (Z.ltb_spec (numerator f) 0) as [Hn|Hn]; [|reflexivity].
  rewrite <- (Z_toString_negative _ Hn).
  now rewrite string_app_assoc.
Qed.

(** A Fraction of the old library in lowest terms is read back from its
    text: [new Fraction(f.toString())] has the fields of [f]. *)
Theorem Old_Fraction_toString_round_trip (f : Fraction) :
  lowest f -> Old.Fraction_of_string (Old.toString f) = f.
Proof.
  intros Hf. rewrite Old_toString_text. unfold Old.Fraction_of_string.
  destruct (Z.eqb_spec (denominator f) 1) as [Hd|Hd].
  - rewrite split_slash_integer, parseInt10_integer. cbn [Old.orElse].
    rewrite <- Hd. now apply Old_Fraction_new_lowest.
  - rewrite split_slash_fraction, !parseInt10_integer. cbn [Old.orElse].
    now apply Old_Fraction_new_lowest.
Qed.

Lemma Old_Fraction_toString_round_trip_witness :
  Old.Fraction_of_string (Old.toString (mkFraction (-3) 4)) = mkFraction (-3) 4.
Proof.
  apply Old_Fraction_toString_round_trip. unfold lowest, reduced. cbn. lia.
Defined.

Lemma match_fraction_text (n d : Z) :
  0 <= d ->
  match_fraction (Z_toString n ++ "/" ++ Z_toString d)%string
  = Some (Z_toString n, Z_toString d).
Proof.
  intros Hd. unfold match_fraction. rewrite split_slash_fraction.
  destruct (Z_toString_shape n) as (ns & Hns & En).
  destruct (Z_toString_shape d) as (ds & Hds & Ed).
  destruct (Z.ltb_spec d 0); [lia|].
  assert (Hn : all_digits (match Z_toString n with
                           | String "-" p' => p'
                           | _ => Z_toString n
                           end) = true).
  { rewrite En. destruct (n <? 0).
    - exact Hns.
    - destruct ns as [|c ns']; [discriminate|].
      assert (Hc : is_digit c = true).
      { apply all_digits_forallb in Hns. cbn in Hns. now apply andb_prop in Hns as [? _]. }
      destruct c as [[] [] [] [] [] [] [] []]; try exact Hns; discriminate. }
  rewrite Hn, Ed, Hds. reflexivity.
Qed.

Lemma match_fraction_integer (z : Z) : match_fraction (Z_toString z) = None.
Proof. unfold match_fraction. now rewrite split_slash_integer. Qed.

Lemma Z_toString_not_hex (z : Z) :
  match skip_spaces (Z_toString z) with
  | String "0" (String "x" _) | String "0" (String "X" _) => False
  | _ => True
  end.
Proof.
  destruct (Z_toString_shape z) as (ds & Hds & ->).
  destruct (z <? 0).
  - cbn [skip_spaces]. change (is_space "-") with false. exact I.
  - destruct ds as [|c ds']; [discriminate|].
    apply all_digits_forallb in Hds. cbn [list_ascii_of_string forallb] in Hds.
    apply andb_prop in Hds as [Hc Hds].
    cbn [skip_spaces].
    assert (Hsp : is_space c = false)
      by (destruct c as [[] [] [] [] [] [] [] []]; first [reflexivity | discriminate]).
    rewrite Hsp.
    destruct ds' as [|c' ds'']; [destruct c as [[] [] [] [] [] [] [] []]; exact I|].
    cbn [list_ascii_of_string forallb] in Hds. apply andb_prop in Hds as [Hc' _].
    destruct c as [[] [] [] [] [] [] [] []]; try exact I;
      destruct c' as [[] [] [] [] [] [] [] []]; first [exact I | discriminate].
Qed.



(** ** Combinations and principal minors *)

Lemma backtrack_Old {A : Type} (k : nat) (rest : list A) :
  forall combo, (List.length combo <= k)%nat ->
    New.backtrack k rest combo
    = map (app combo) (Old.generateCombinations rest (k - List.length combo)).
Proof.
  induction rest as [|x rest IH]; intros combo Hk.
  - cbn [New.backtrack]. destruct (Nat.eqb_spec (List.length combo) k) as [E|E].
    + rewrite E, Nat.sub_diag. cbn. now rewrite app_nil_r.
    + destruct (k - List.length combo)%nat eqn:Ek; [lia|]. reflexivity.
  - cbn [New.backtrack]. destruct (Nat.eqb_spec (List.length combo) k) as [E|E].
    + rewrite E, Nat.sub_diag. cbn. now rewrite app_nil_r.
    + destruct (k - List.length combo)%nat as [|r] eqn:Ek; [lia|].
      cbn [Old.generateCombinations]. rewrite map_app, map_map.
      rewrite (IH (combo ++ [x])) by (rewrite length_app; cbn; lia).
      rewrite (IH combo) by lia.
      rewrite length_app. cbn [List.length].
      replace (k - (List.length combo + 1))%nat with r by lia.
      rewrite Ek. f_equal. apply map_ext. intros c. now rewrite <- app_assoc.
Qed.

Lemma subseq_nil_l {A : Type} (l : list A) : subseq [] l.
Proof. induction l; constructor; assumption. Qed.

Lemma subseq_length {A : Type} (c l : list A) :
  subseq c l -> (List.length c <= List.length l)%nat.
Proof. induction 1; cbn; lia. Qed.

Lemma Old_generateCombinations_spec {A : Type} (arr : list A) :
  forall r c, In c (Old.generateCombinations arr r)
              <-> subseq c arr /\ List.length c = r.
Proof.
  induction arr as [|x arr IH]; intros r c.
  - destruct r as [|r]; cbn [Old.generateCombinations In].
    + split.
      * intros [<- | []]. split; [constructor | reflexivity].
      * intros [Hs Hl]. destruct c; [now left | discriminate].
    + split; [intros [] | intros [Hs Hl]]. inversion Hs; subst. discriminate.
  - destruct r as [|r]; cbn [Old.generateCombinations].
    + cbn [In]. split.
      * intros [<- | []]. split; [apply subseq_nil_l | reflexivity].
      * intros [Hs Hl]. destruct c; [now left | discriminate].
    + rewrite in_app_iff, in_map_iff. split.
      * intros [(c' & <- & Hc') | Hc].
        -- apply IH in Hc' as [Hs Hl]. split; [now constructor | cbn; lia].
        -- apply IH in Hc as [Hs Hl]. split; [now constructor | assumption].
      * intros [Hs Hl]. inversion Hs; subst.
        -- left. exists c0. split; [reflexivity|]. apply IH.
           split; [assumption | cbn in Hl; lia].
        -- right. apply IH. split; assumption.
Qed.

Lemma Old_generateCombinations_length {A : Type} (arr : list A) :
  forall r, List.length (Old.generateCombinations arr r) = choose (List.length arr) r.
Proof.
  induction arr as [|x arr IH]; intros [|r]; cbn [Old.generateCombinations choose List.length];
    try reflexivity.
  now rewrite length_app, length_map, !IH.
Qed.

Lemma choose_gt (n : nat) : forall k, (n < k)%nat -> choose n k = 0%nat.
Proof.
  induction n as [|n IH]; intros [|k] H; cbn [choose]; try lia.
  rewrite !IH by lia. reflexivity.
Qed.

Lemma choose_fact (n : nat) :
  forall k, (k <= n)%nat -> (choose n k * (fact k * fact (n - k)) = fact n)%nat.
Proof.
  induction n as [|n IH]; intros [|k] H; cbn [choose].
  - reflexivity.
  - lia.
  - rewrite Nat.sub_0_r. cbn [fact]. lia.
  - destruct (Nat.eq_dec k n) as [->|Hne].
    + rewrite (choose_gt n (S n)) by lia.
      specialize (IH n (le_n n)). rewrite Nat.sub_diag in *. cbn [fact] in *. nia.
    + pose proof (IH k ltac:(lia)) as H1. pose proof (IH (S k) ltac:(lia)) as H2.
      replace (S n - S k)%nat with (n - k)%nat by lia.
      replace (n - k)%nat with (S (n - S k)) in * by lia.
      cbn [fact] in *. nia.
Qed.

Lemma subseq_In {A : Type} (c l : list A) (x : A) : subseq c l -> In x c -> In x l.
Proof.
  induction 1; intros Hx; [assumption | |].
  - destruct Hx as [<-|Hx]; [now left | right; auto].
  - right; auto.
Qed.

Lemma NoDup_map_cons {A : Type} (x : A) (l : list (list A)) :
  NoDup l -> NoDup (map (cons x) l).
Proof.
  induction 1 as [|c l Hc Hnd IH]; cbn; constructor; [|assumption].
  intros Hin. apply in_map_iff in Hin as (c' & E & Hc'). injection E as ->.
  contradiction.
Qed.

Lemma Old_generateCombinations_NoDup {A : Type} (arr : list A) :
  NoDup arr -> forall r, NoDup (Old.generateCombinations arr r).
Proof.
  induction 1 as [|x arr Hx Hnd IH]; intros [|r]; cbn [Old.generateCombinations].
  - repeat constructor. intros [].
  - constructor.
  - repeat constructor. intros [].
  - apply NoDup_app; [| apply IH |].
    + apply NoDup_map_cons, IH.
    + intros c Hc Hc'. apply in_map_iff in Hc as (c' & <- & _).
      apply Old_generateCombinations_spec in Hc' as [Hs _].
      apply Hx. apply (subseq_In _ _ x Hs). now left.
Qed.

Lemma Old_generateCombinationsChecked_eq {A : Type} (arr : list A) :
  forall r, Old.generateCombinationsChecked arr r = Old.generateCombinations arr r.
Proof.
  induction arr as [|first rest IH]; intros [|r']; try reflexivity.
  cbn [Old.generateCombinationsChecked Old.generateCombinations].
  destruct (Nat.ltb_spec (List.length (first :: rest)) (S r')) as [H|H].
  - symmetry. apply length_zero_iff_nil.
    change (List.length (Old.generateCombinations (first :: rest) (S r')) = 0%nat).
    rewrite Old_generateCombinations_length. now apply choose_gt.
  - now rewrite !IH.
Qed.

(** [generateCombinations(arr, r)] of the old library lists exactly the
    selections of [r] elements of [arr] in their order, each once when
    [arr] has no repetition: there are [choose (length arr) r] of them, and
    none when [arr] has fewer than [r] elements.  The test
    [arr.length < r] of the source changes no result. *)
Theorem Old_generateCombinations_complete {A : Type} (arr : list A) (r : nat) :
  Old.generateCombinationsChecked arr r = Old.generateCombinations arr r
  /\ (forall c, In c (Old.generateCombinationsChecked arr r)
                <-> subseq c arr /\ List.length c = r)
  /\ List.length (Old.generateCombinationsChecked arr r) = choose (List.length arr) r
  /\ (choose (List.length arr) r * (fact r * fact (List.length arr - r))
      = if (r <=? List.length arr)%nat then fact (List.length arr) else 0)%nat
  /\ (NoDup arr -> NoDup (Old.generateCombinationsChecked arr r)).
Proof.
  rewrite Old_generateCombinationsChecked_eq.
  split; [reflexivity|].
  split; [apply Old_generateCombinations_spec|].
  split; [apply Old_generateCombinations_length|].
  split.
  - destruct (Nat.leb_spec r (List.length arr)) as [H|H].
    + now apply choose_fact.
    + now rewrite choose_gt.
  - intros H. now apply Old_generateCombinations_NoDup.
Qed.

(** The backtracking [generateCombinations(arr, k)] of the new library
    returns the same list, in the same order, as the recursive one of the
    old library. *)
Theorem New_generateCombinations_is_Old {A : Type} (arr : list A) (k : nat) :
  New.generateCombinations arr k = Old.generateCombinationsChecked arr k.
Proof.
  rewrite Old_generateCombinationsChecked_eq.
  unfold New.generateCombinations.
  rewrite backtrack_Old by (cbn; lia). cbn [List.length app].
  rewrite Nat.sub_0_r. rewrite <- (map_id (Old.generateCombinations arr k)) at 2.
  apply map_ext. reflexivity.
Qed.

Lemma Old_Fraction_new_integer (n : Z) : Old.Fraction_new n 1 = mkFraction n 1.
Proof.
  unfold Old.Fraction_new, Old.reduce. cbn [Z.eqb Z.ltb Z.compare numerator denominator].
  rewrite Old_gcd_is_Zgcd, Z.gcd_1_r, !Z.div_1_r. reflexivity.
Qed.

Lemma no_digit_ahead_slash (s : string) : no_digit_ahead (String "/" s).
Proof. reflexivity. Qed.

Lemma Old_Fraction_of_Fraction_spec (f : Fraction) :
  Old.Fraction_of_Fraction f = mkFraction (numerator f) 1.
Proof.
  unfold Old.Fraction_of_Fraction. rewrite Old_toString_text.
  destruct (denominator f =? 1).
  - rewrite parseInt10_integer. apply Old_Fraction_new_integer.
  - rewrite parseInt10_Z_toString by apply no_digit_ahead_slash.
    apply Old_Fraction_new_integer.
Qed.

(** [extractPrincipalMinor] of the old library copies a Fraction with
    [new Fraction(value)], which reads the text of [value] with [parseInt]:
    every Fraction entry n/d of the minor is n/1.  So the characteristic
    polynomial of the 1 x 1 matrix (n/d) is x - n. *)
Theorem Old_extractPrincipalMinor_drops_denominators :
  (forall f, Old.Fraction_of_Fraction f = mkFraction (numerator f) 1)
  /\ (forall M indices,
        Old.extractPrincipalMinor M indices
        = map (fun i => map (fun j => match cell M i j with
                                      | SFrac f => SFrac (mkFraction (numerator f) 1)
                                      | SNum x => SNum x
                                      end) indices) indices)
  /\ (forall this f,
        Old.useFractions this = true ->
        Old.calculateCharacteristicPolynomial this [[SFrac f]]
        = Ret [SNum 1; SFrac (mkFraction (- numerator f) 1)]).
Proof.
  split; [apply Old_Fraction_of_Fraction_spec|]. split.
  - intros M indices. unfold Old.extractPrincipalMinor.
    apply map_ext. intros i. apply map_ext. intros j.
    destruct (cell M i j); [|reflexivity]. now rewrite Old_Fraction_of_Fraction_spec.
  - intros [p u ft] f Hthis. cbn [Old.useFractions] in Hthis. subst u.
    unfold Old.calculateCharacteristicPolynomial. cbn [List.length Nat.eqb negb].
    cbn -[Old.calculatePrincipalMinorsSum Old.signedCoefficient].
    unfold Old.calculatePrincipalMinorsSum. cbn [Nat.eqb].
    cbn -[Old.extractPrincipalMinor Old.calculateDeterminant Old.accumulate
          Old.signedCoefficient Old.Fraction_new].
    unfold Old.extractPrincipalMinor. cbn [map cell nth].
    rewrite Old_Fraction_of_Fraction_spec.
    cbn -[Old.Fraction_new Old.add Old.multiply].
    do 3 f_equal.
    unfold Old.multiply, Old.add.
    rewrite !Old_Fraction_new_integer. cbn [numerator denominator].
    rewrite ?Z.mul_1_r, ?Z.add_0_l, ?Old_Fraction_new_integer.
    cbn [numerator denominator].
    rewrite ?Z.mul_1_r, ?Z.add_0_l, ?Old_Fraction_new_integer.
    do 2 f_equal; ring.
Qed.

Lemma Old_extractPrincipalMinor_drops_denominators_witness :
  Old.calculateCharacteristicPolynomial Old.engine [[SFrac (mkFraction 3 2)]]
  = Ret [SNum 1; SFrac (mkFraction (-3) 1)].
Proof.
  apply (proj2 (proj2 Old_extractPrincipalMinor_drops_denominators)
           Old.engine (mkFraction 3 2)).
  reflexivity.
Defined.

(** ** Vectors of Fractions *)

Lemma nth_fractions (v : list Fraction) (i : nat) :
  (i < List.length v)%nat -> nth i (fractions v) undefined = SFrac (nth i v zeroFraction).
Proof.
  intros Hi. unfold fractions.
  rewrite (nth_indep _ undefined (SFrac zeroFraction)) by (rewrite length_map; lia).
  apply map_nth.
Qed.

Lemma fractions_length (v : list Fraction) : List.length (fractions v) = List.length v.
Proof. apply length_map. Qed.

Lemma map_seq_nth2 {B : Type} (g : Fraction -> Fraction -> B) :
  forall (v w : list Fraction) (k : nat) (pre1 pre2 : list Fraction),
    List.length v = List.length w ->
    List.length pre1 = k -> List.length pre2 = k ->
    map (fun i => g (nth i (pre1 ++ v) zeroFraction) (nth i (pre2 ++ w) zeroFraction))
        (seq k (List.length v))
    = map (fun ab => g (fst ab) (snd ab)) (combine v w).
Proof.
  induction v as [|a v IH]; intros [|b w] k pre1 pre2 Hlen H1 H2; try discriminate.
  - reflexivity.
  - cbn [List.length seq map combine fst snd]. f_equal.
    + rewrite !app_nth2 by lia. rewrite H1, H2, Nat.sub_diag. reflexivity.
    + specialize (IH w (S k) (pre1 ++ [a]) (pre2 ++ [b])).
      rewrite <- !app_assoc in IH. cbn [app] in IH.
      apply IH.
      * cbn in Hlen. lia.
      * rewrite length_app. cbn. lia.
      * rewrite length_app. cbn. lia.
Qed.

Lemma mapM_range_pointwise (f : nat -> outcome Scalar)
  (op : Fraction -> Fraction -> Fraction) (v w : list Fraction) :
  List.length v = List.length w ->
  (forall i, (i < List.length v)%nat ->
             f i = Ret (SFrac (op (nth i v zeroFraction) (nth i w zeroFraction)))) ->
  mapM f (range 0 (List.length v)) = Ret (fractions (pointwise op v w)).
Proof.
  intros Hlen Hf.
  rewrite (mapM_map f (fun i => SFrac (op (nth i v zeroFraction) (nth i w zeroFraction)))).
  - f_equal. unfold range. rewrite Nat.sub_0_r.
    unfold fractions, pointwise. rewrite map_map.
    apply (map_seq_nth2 (fun a b => SFrac (op a b)) v w 0 [] [] Hlen eq_refl eq_refl).
  - intros i Hi. apply in_range in Hi. apply Hf. lia.
Qed.

Lemma nth_positive (v : list Fraction) (i : nat) :
  Forall positiveFraction v -> positiveFraction (nth i v zeroFraction).
Proof.
  intros Hv. destruct (Nat.lt_ge_cases i (List.length v)) as [Hi|Hi].
  - apply (proj1 (Forall_forall _ _) Hv). now apply nth_In.
  - rewrite nth_overflow by assumption. unfold positiveFraction. cbn. lia.
Qed.

Lemma New_add_Old (a b : Fraction) :
  positiveFraction a -> positiveFraction b -> New.add a b = Ret (Old.add a b).
Proof. intros Ha Hb. apply New_Fraction_new_Old. unfold positiveFraction in *. nia. Qed.

Lemma New_subtract_Old (a b : Fraction) :
  positiveFraction a -> positiveFraction b -> New.subtract a b = Ret (Old.subtract a b).
Proof. intros Ha Hb. apply New_Fraction_new_Old. unfold positiveFraction in *. nia. Qed.

Lemma New_multiply_Old (a b : Fraction) :
  positiveFraction a -> positiveFraction b -> New.multiply a b = Ret (Old.multiply a b).
Proof. intros Ha Hb. apply New_Fraction_new_Old. unfold positiveFraction in *. nia. Qed.

Lemma New_addVectors_fractions (this : New.MatrixOperations) (v w : list Fraction) :
  List.length v = List.length w -> Forall positiveFraction v -> Forall positiveFraction w ->
  New.addVectors this (fractions v) (fractions w)
  = Ret (fractions (pointwise Old.add v w)).
Proof.
  intros Hlen Hv Hw. unfold New.addVectors.
  rewrite !fractions_length, Hlen, Nat.eqb_refl. cbn [negb]. rewrite <- Hlen.
  apply mapM_range_pointwise; [assumption|].
  intros i Hi. rewrite !nth_fractions by lia.
  rewrite New_add_Old by now apply nth_positive. reflexivity.
Qed.

Lemma New_subtractVectors_fractions (this : New.MatrixOperations) (v w : list Fraction) :
  List.length v = List.length w -> Forall positiveFraction v -> Forall positiveFraction w ->
  New.subtractVectors this (fractions v) (fractions w)
  = Ret (fractions (pointwise Old.subtract v w)).
Proof.
  intros Hlen Hv Hw. unfold New.subtractVectors.
  rewrite !fractions_length, Hlen, Nat.eqb_refl. cbn [negb]. rewrite <- Hlen.
  apply mapM_range_pointwise; [assumption|].
  intros i Hi. rewrite !nth_fractions by lia.
  rewrite New_subtract_Old by now apply nth_positive. reflexivity.
Qed.

Lemma New_scalarMultiply_fractions (this : New.MatrixOperations) (v : list Fraction)
  (s : Fraction) :
  Forall positiveFraction v -> positiveFraction s ->
  New.scalarMultiply this (fractions v) (SFrac s)
  = Ret (fractions (map (fun c => Old.multiply c s) v)).
Proof.
  intros Hv Hs. unfold New.scalarMultiply, fractions. rewrite map_map.
  rewrite <- (map_map SFrac (fun x => match x with
                                      | SFrac c => SFrac (Old.multiply c s)
                                      | SNum _ => undefined
                                      end)).
  apply mapM_map. intros x Hx. apply in_map_iff in Hx as (c & <- & Hc).
  rewrite New_multiply_Old; [reflexivity | | assumption].
  now apply (proj1 (Forall_forall _ _) Hv).
Qed.

Lemma pointwise_length (op : Fraction -> Fraction -> Fraction) (v w : list Fraction) :
  List.length v = List.length w -> List.length (pointwise op v w) = List.length v.
Proof.
  intros H. unfold pointwise. rewrite length_map, length_combine. lia.
Qed.

Lemma pointwise_Forall (P : Fraction -> Prop) (op : Fraction -> Fraction -> Fraction)
  (v w : list Fraction) :
  (forall a b, P (op a b)) -> Forall P (pointwise op v w).
Proof.
  intros H. unfold pointwise. apply Forall_forall. intros x Hx.
  apply in_map_iff in Hx as (ab & <- & _). apply H.
Qed.

Lemma lowest_positive (f : Fraction) : lowest f -> positiveFraction f.
Proof. intros H. apply H. Qed.

Lemma Forall_lowest_positive (v : list Fraction) : Forall lowest v -> Forall positiveFraction v.
Proof. apply Forall_impl. exact lowest_positive. Qed.

Lemma pointwise_cons (op : Fraction -> Fraction -> Fraction) (a b : Fraction)
  (v w : list Fraction) :
  pointwise op (a :: v) (b :: w) = op a b :: pointwise op v w.
Proof. reflexivity. Qed.

Lemma pointwise_add_comm (v : list Fraction) :
  forall w, Forall positiveFraction v -> Forall positiveFraction w ->
            pointwise Old.add v w = pointwise Old.add w v.
Proof.
  induction v as [|a v IH]; intros [|b w] Hv Hw; try reflexivity.
  inversion Hv; inversion Hw; subst. rewrite !pointwise_cons. f_equal.
  - now apply Old_add_comm.
  - now apply IH.
Qed.

Lemma pointwise_add_subtract (v : list Fraction) :
  forall w, List.length v = List.length w -> Forall lowest v -> Forall positiveFraction w ->
            pointwise Old.subtract (pointwise Old.add v w) w = v.
Proof.
  induction v as [|a v IH]; intros [|b w] Hlen Hv Hw; try discriminate; [reflexivity|].
  inversion Hv; inversion Hw; subst. rewrite !pointwise_cons. f_equal.
  - rewrite Old_add_subtract by (assumption || now apply lowest_positive).
    now apply Old_Fraction_new_lowest.
  - apply IH; [now injection Hlen | assumption | assumption].
Qed.

Lemma pointwise_subtract_add (v : list Fraction) :
  forall w, List.length v = List.length w -> Forall lowest v -> Forall positiveFraction w ->
            pointwise Old.add (pointwise Old.subtract v w) w = v.
Proof.
  induction v as [|a v IH]; intros [|b w] Hlen Hv Hw; try discriminate; [reflexivity|].
  inversion Hv; inversion Hw; subst. rewrite !pointwise_cons. f_equal.
  - rewrite Old_subtract_add by (assumption || now apply lowest_positive).
    now apply Old_Fraction_new_lowest.
  - apply IH; [now injection Hlen | assumption | assumption].
Qed.

Lemma pointwise_subtract_self (v : list Fraction) :
  Forall positiveFraction v ->
  pointwise Old.subtract v v = map (fun _ => mkFraction 0 1) v.
Proof.
  induction 1 as [|a v Ha Hv IH]; [reflexivity|].
  rewrite pointwise_cons. cbn [map]. f_equal; [|assumption].
  now apply Old_subtract_self.
Qed.

Lemma map_multiply_one (v : list Fraction) :
  Forall lowest v -> map (fun c => Old.multiply c (mkFraction 1 1)) v = v.
Proof.
  induction 1 as [|a v Ha Hv IH]; [reflexivity|]. cbn [map]. f_equal; [|assumption].
  now apply Old_multiply_one.
Qed.



Lemma sumFrom_lowest (l : list Fraction) : forall p, lowest p -> lowest (sumFrom p l).
Proof.
  induction l as [|t l IH]; intros p Hp; cbn; [assumption|].
  apply IH, Old_add_lowest.
Qed.

Lemma Qof_sumFrom (l : list Fraction) :
  forall p, positiveFraction p -> Forall positiveFraction l ->
            Qeq (Qof (sumFrom p l)) (Qof p + fold_right (fun t s => Qof t + s) 0 l)%Q.
Proof.
  induction l as [|t l IH]; intros p Hp Hl; cbn [sumFrom fold_left fold_right].
  - ring.
  - inversion Hl; subst. fold (sumFrom (Old.add p t) l).
    rewrite IH by (try assumption; apply lowest_positive, Old_add_lowest).
    rewrite Qof_Old_add by assumption. ring.
Qed.

Lemma dotQ_products (v : list Fraction) :
  forall w, Forall positiveFraction v -> Forall positiveFraction w ->
            Qeq (fold_right (fun t s => Qof t + s)%Q 0%Q (pointwise Old.multiply v w))
                (dotQ v w).
Proof.
  induction v as [|a v IH]; intros [|b w] Hv Hw; try reflexivity.
  inversion Hv; inversion Hw; subst.
  rewrite pointwise_cons. unfold dotQ. cbn [combine fold_right fst snd].
  fold (dotQ v w). rewrite IH by assumption.
  rewrite Qof_Old_multiply by assumption. reflexivity.
Qed.

Lemma dotQ_comm (v : list Fraction) : forall w, Qeq (dotQ v w) (dotQ w v).
Proof.
  induction v as [|a v IH]; intros [|b w]; try reflexivity.
  unfold dotQ. cbn [combine fold_right fst snd]. fold (dotQ v w) (dotQ w v).
  rewrite IH. ring.
Qed.

Lemma foldM_seq_nth2 {St : Type} (g : Fraction -> Fraction -> St -> outcome St) :
  forall (v w : list Fraction) (k : nat) (pre1 pre2 : list Fraction) (s : St),
    List.length v = List.length w ->
    List.length pre1 = k -> List.length pre2 = k ->
    foldM (fun i => g (nth i (pre1 ++ v) zeroFraction) (nth i (pre2 ++ w) zeroFraction))
          (seq k (List.length v)) s
    = foldM (fun ab => g (fst ab) (snd ab)) (combine v w) s.
Proof.
  induction v as [|a v IH]; intros [|b w] k pre1 pre2 s Hlen H1 H2; try discriminate.
  - reflexivity.
  - cbn [List.length seq foldM combine fst snd].
    rewrite !app_nth2 by lia. rewrite H1, H2, Nat.sub_diag. cbn [nth].
    destruct (g a b s) as [s'| | |]; cbn [bind]; try reflexivity.
    specialize (IH w (S k) (pre1 ++ [a]) (pre2 ++ [b]) s').
    rewrite <- !app_assoc in IH. cbn [app] in IH.
    apply IH.
    + cbn in Hlen. lia.
    + rewrite length_app. cbn. lia.
    + rewrite length_app. cbn. lia.
Qed.

Lemma foldM_range_fractions {St : Type} (body : nat -> St -> outcome St)
  (g : Fraction -> Fraction -> St -> outcome St) (v w : list Fraction) (s : St) :
  List.length v = List.length w ->
  (forall i t, (i < List.length v)%nat ->
               body i t = g (nth i v zeroFraction) (nth i w zeroFraction) t) ->
  foldM body (range 0 (List.length v)) s
  = foldM (fun ab => g (fst ab) (snd ab)) (combine v w) s.
Proof.
  intros Hlen Hbody.
  rewrite <- (foldM_seq_nth2 g v w 0 [] [] s Hlen eq_refl eq_refl).
  unfold range. rewrite Nat.sub_0_r. cbn [app].
  assert (H : forall l t, (forall i, In i l -> (i < List.length v)%nat) ->
                          foldM body l t
                          = foldM (fun i => g (nth i v zeroFraction) (nth i w zeroFraction)) l t).
  { induction l as [|i l IH]; intros t Hl; [reflexivity|]. cbn [foldM].
    rewrite Hbody by (apply Hl; now left).
    destruct (g _ _ t); cbn [bind]; try reflexivity.
    apply IH. intros j Hj. apply Hl. now right. }
  apply H. intros i Hi. apply in_seq in Hi. lia.
Qed.

Lemma Old_dot_fold (l : list (Fraction * Fraction)) :
  forall p,
    foldM (fun ab t => Old.plus t (SFrac (Old.multiply (fst ab) (snd ab)))) l (SFrac p)
    = Ret (SFrac (sumFrom p (map (fun ab => Old.multiply (fst ab) (snd ab)) l))).
Proof.
  induction l as [|ab l IH]; intros p; [reflexivity|].
  cbn [foldM map sumFrom fold_left Old.plus Old.normalizeOperand bind]. apply IH.
Qed.

Lemma Old_dotProduct_fractions (this : Old.MatrixOperations) (v w : list Fraction) :
  Old.useFractions this = true -> List.length v = List.length w ->
  Old.dotProduct this (fractions v) (fractions w)
  = Ret (SFrac (sumFrom (mkFraction 0 1) (pointwise Old.multiply v w))).
Proof.
  intros Hthis Hlen. unfold Old.dotProduct.
  rewrite !fractions_length, Hlen, Nat.eqb_refl. cbn [negb]. rewrite <- Hlen.
  rewrite (foldM_range_fractions _
             (fun a b t => Old.plus t (SFrac (Old.multiply a b))) v w _ Hlen).
  - unfold Old.zeroOf. rewrite Hthis. rewrite Old_dot_fold. reflexivity.
  - intros i t Hi. rewrite !nth_fractions by lia. reflexivity.
Qed.

Lemma New_dot_fold (l : list (Fraction * Fraction)) :
  forall p, positiveFraction p -> Forall (fun ab => positiveFraction (fst ab) /\ positiveFraction (snd ab)) l ->
    foldM (fun ab product =>
             let* temp := New.multiply (fst ab) (snd ab) in
             match product with
             | New.VScalar (SFrac p) =>
                 let* r := New.add p temp in Ret (New.VScalar (SFrac r))
             | _ => Ret (New.VScalar (SFrac temp))
             end) l (New.VScalar (SFrac p))
    = Ret (New.VScalar
             (SFrac (sumFrom p (map (fun ab => Old.multiply (fst ab) (snd ab)) l)))).
Proof.
  induction l as [|ab l IH]; intros p Hp Hl; [reflexivity|].
  inversion Hl as [|? ? [Ha Hb] Hl']; subst.
  cbn [foldM map sumFrom fold_left].
  rewrite New_multiply_Old by assumption. cbn [bind].
  rewrite New_add_Old by (try assumption; apply lowest_positive, Old_multiply_lowest).
  cbn [bind]. apply IH; [apply lowest_positive, Old_add_lowest | assumption].
Qed.

Lemma combine_positive (v : list Fraction) :
  forall w, Forall positiveFraction v -> Forall positiveFraction w ->
            Forall (fun ab => positiveFraction (fst ab) /\ positiveFraction (snd ab)) (combine v w).
Proof.
  induction v as [|a v IH]; intros [|b w] Hv Hw; cbn; try constructor.
  - inversion Hv; inversion Hw; subst. now split.
  - inversion Hv; inversion Hw; subst. now apply IH.
Qed.

Lemma Old_add_zero_l (t : Fraction) : lowest t -> Old.add (mkFraction 0 1) t = t.
Proof.
  intros Ht.
  rewrite Old_add_comm by (try (now apply lowest_positive); cbn; lia).
  now apply Old_add_zero_r.
Qed.

Lemma New_dotProduct_fractions (v w : list Fraction) :
  v <> [] -> List.length v = List.length w ->
  Forall positiveFraction v -> Forall positiveFraction w ->
  New.dotProduct (fractions v) (fractions w)
  = Ret (New.VScalar (SFrac (sumFrom (mkFraction 0 1) (pointwise Old.multiply v w)))).
Proof.
  intros Hne Hlen Hv Hw. unfold New.dotProduct.
  rewrite !fractions_length, Hlen, Nat.eqb_refl. cbn [negb]. rewrite <- Hlen.
  rewrite (foldM_range_fractions _
             (fun a b product =>
                let* temp := New.multiply a b in
                match product with
                | New.VScalar (SFrac p) =>
                    let* r := New.add p temp in Ret (New.VScalar (SFrac r))
                | _ => Ret (New.VScalar (SFrac temp))
                end) v w _ Hlen).
  - destruct v as [|a v]; [contradiction|]. destruct w as [|b w]; [discriminate|].
    inversion Hv; inversion Hw; subst.
    cbn [combine foldM fst snd]. rewrite New_multiply_Old by assumption. cbn [bind].
    rewrite New_dot_fold;
      [| apply lowest_positive, Old_multiply_lowest | now apply combine_positive].
    rewrite pointwise_cons. cbn [sumFrom fold_left].
    rewrite Old_add_zero_l by apply Old_multiply_lowest. reflexivity.
  - intros i t Hi. rewrite !nth_fractions by lia. reflexivity.
Qed.

Lemma sum_products_spec (v w : list Fraction) :
  Forall positiveFraction v -> Forall positiveFraction w ->
  lowest (sumFrom (mkFraction 0 1) (pointwise Old.multiply v w))
  /\ Qeq (Qof (sumFrom (mkFraction 0 1) (pointwise Old.multiply v w))) (dotQ v w).
Proof.
  intros Hv Hw. split.
  - apply sumFrom_lowest. unfold lowest, reduced. cbn. lia.
  - rewrite Qof_sumFrom.
    + rewrite dotQ_products by assumption.
      change (Qof (mkFraction 0 1)) with (0 # 1)%Q. ring.
    + unfold positiveFraction. cbn. lia.
    + apply pointwise_Forall. intros. apply lowest_positive, Old_multiply_lowest.
Qed.





Lemma Old_addVectors_fractions (this : Old.MatrixOperations) (v w : list Fraction) :
  List.length v = List.length w ->
  Old.addVectors this (fractions v) (fractions w)
  = Ret (fractions (pointwise Old.add v w)).
Proof.
  intros Hlen. unfold Old.addVectors.
  rewrite !fractions_length, Hlen, Nat.eqb_refl. cbn [negb]. rewrite <- Hlen.
  apply mapM_range_pointwise; [assumption|].
  intros i Hi. rewrite !nth_fractions by lia. reflexivity.
Qed.

Lemma Old_subtractVectors_fractions (this : Old.MatrixOperations) (v w : list Fraction) :
  List.length v = List.length w ->
  Old.subtractVectors this (fractions v) (fractions w)
  = Ret (fractions (pointwise Old.subtract v w)).
Proof.
  intros Hlen. unfold Old.subtractVectors.
  rewrite !fractions_length, Hlen, Nat.eqb_refl. cbn [negb]. rewrite <- Hlen.
  apply mapM_range_pointwise; [assumption|].
  intros i Hi. rewrite !nth_fractions by lia. reflexivity.
Qed.

Lemma Old_scalarMultiply_fractions (this : Old.MatrixOperations) (v : list Fraction)
  (s : Fraction) :
  Old.scalarMultiply this (fractions v) (SFrac s)
  = Ret (fractions (map (fun c => Old.multiply c s) v)).
Proof.
  unfold Old.scalarMultiply, fractions. cbn [Old.convertToAppropriateType bind].
  rewrite map_map.
  rewrite <- (map_map SFrac (fun x => match x with
                                      | SFrac c => SFrac (Old.multiply c s)
                                      | SNum _ => undefined
                                      end)).
  apply mapM_map. intros x Hx. apply in_map_iff in Hx as (c & <- & Hc). reflexivity.
Qed.



(** ** Row operations over the rationals *)

Lemma posMatrix_row (m n : nat) (M : Matrix) (r : nat) :
  posMatrix m n M -> (r < m)%nat ->
  List.length (nth r M []) = n /\ Forall posEntry (nth r M []).
Proof.
  intros [Hm HM] Hr.
  apply (nth_Forall (fun row => List.length row = n /\ Forall posEntry row) M r []).
  - assumption.
  - rewrite <- Hm in Hr. exact Hr.
Qed.

Lemma posMatrix_cell (m n : nat) (M : Matrix) (r c : nat) :
  posMatrix m n M -> (r < m)%nat -> (c < n)%nat ->
  cell M r c = SFrac (entry M r c) /\ positiveFraction (entry M r c).
Proof.
  intros HM Hr Hc. destruct (posMatrix_row m n M r HM Hr) as [Hlen Hrow].
  assert (H : posEntry (cell M r c)).
  { unfold cell. apply nth_Forall; [assumption | lia]. }
  unfold entry. destruct (cell M r c); [split; [reflexivity | exact H] | contradiction].
Qed.

Lemma posMatrix_set_cell (m n : nat) (M : Matrix) (r c : nat) (f : Fraction) :
  posMatrix m n M -> (r < m)%nat -> positiveFraction f ->
  posMatrix m n (set_cell M r c (SFrac f)).
Proof.
  intros HM Hr Hf. pose proof (posMatrix_row m n M r HM Hr) as [Hlen Hrow].
  destruct HM as [Hm HM]. unfold set_cell. split.
  - now rewrite update_length.
  - apply update_Forall; [assumption|]. split.
    + now rewrite update_length.
    + now apply update_Forall.
Qed.

Lemma posMatrix_swap_rows (m n : nat) (M : Matrix) (i p : nat) :
  posMatrix m n M -> (i < m)%nat -> (p < m)%nat -> posMatrix m n (swap_rows M i p).
Proof.
  intros HM Hi Hp.
  pose proof (posMatrix_row m n M i HM Hi).
  pose proof (posMatrix_row m n M p HM Hp).
  destruct HM as [Hm HM]. unfold swap_rows. split.
  - now rewrite !update_length.
  - now repeat apply update_Forall.
Qed.

Lemma cell_swap_rows (M : Matrix) (i p r c : nat) :
  (i < List.length M)%nat -> (p < List.length M)%nat ->
  cell (swap_rows M i p) r c
  = cell M (if (r =? i)%nat then p else if (r =? p)%nat then i else r) c.
Proof.
  intros Hi Hp. unfold cell, swap_rows.
  destruct (Nat.eqb_spec r p) as [->|Hrp].
  - rewrite nth_update_eq by now rewrite update_length.
    destruct (Nat.eqb_spec p i) as [->|]; reflexivity.
  - rewrite nth_update_neq by auto.
    destruct (Nat.eqb_spec r i) as [->|Hri].
    + now rewrite nth_update_eq.
    + now rewrite nth_update_neq by auto.
Qed.

Lemma entry_set_cell_same (m n : nat) (M : Matrix) (r c : nat) (f : Fraction) :
  posMatrix m n M -> (r < m)%nat -> (c < n)%nat ->
  entry (set_cell M r c (SFrac f)) r c = f.
Proof.
  intros HM Hr Hc. unfold entry.
  destruct (posMatrix_row m n M r HM Hr) as [Hlen _]. destruct HM as [Hm _].
  rewrite cell_set_cell_same by lia. reflexivity.
Qed.

Lemma foldM_range_inv {St : Type} (P : nat -> St -> Prop) (body : nat -> St -> outcome St)
  (lo hi : nat) :
  (lo <= hi)%nat ->
  (forall k s, (lo <= k < hi)%nat -> P k s -> exists s', body k s = Ret s' /\ P (S k) s') ->
  forall s, P lo s -> exists s', foldM body (range lo hi) s = Ret s' /\ P hi s'.
Proof.
  intros Hle. unfold range.
  remember (hi - lo)%nat as d eqn:Hd. revert lo Hle Hd.
  induction d as [|d IH]; intros lo Hle Hd Hbody s Hs.
  - cbn. replace hi with lo by lia. eauto.
  - cbn [seq foldM].
    destruct (Hbody lo s ltac:(lia) Hs) as (s1 & -> & Hs1). cbn [bind].
    apply (IH (S lo)); try lia; [|assumption].
    intros k t Hk. apply Hbody. lia.
Qed.

Lemma sumQ_ext (f g : nat -> Q) (n : nat) :
  (forall c, (c < n)%nat -> Qeq (f c) (g c)) -> Qeq (sumQ f n) (sumQ g n).
Proof.
  induction n as [|k IH]; intros H; cbn; [reflexivity|].
  rewrite IH by (intros; apply H; lia). rewrite (H k) by lia. reflexivity.
Qed.

Lemma sumQ_scale (f : nat -> Q) (a : Q) (n : nat) :
  Qeq (sumQ (fun c => a * f c)%Q n) (a * sumQ f n)%Q.
Proof. induction n as [|k IH]; cbn; [ring | rewrite IH; ring]. Qed.

Lemma sumQ_minus (f g : nat -> Q) (n : nat) :
  Qeq (sumQ (fun c => f c - g c)%Q n) (sumQ f n - sumQ g n)%Q.
Proof. induction n as [|k IH]; cbn; [ring | rewrite IH; ring]. Qed.

Lemma sumQ_plus (f g : nat -> Q) (n : nat) :
  Qeq (sumQ (fun c => f c + g c)%Q n) (sumQ f n + sumQ g n)%Q.
Proof. induction n as [|k IH]; cbn; [ring | rewrite IH; ring]. Qed.

Lemma Qof_zero_iff (f : Fraction) : Qeq (Qof f) 0%Q <-> numerator f = 0.
Proof. unfold Qeq, Qof. cbn. lia. Qed.

Lemma lowest_one (f : Fraction) : lowest f -> Qeq (Qof f) 1%Q -> f = oneFraction.
Proof.
  intros Hf Hq. apply lowest_Qof_inj; [assumption | |exact Hq].
  unfold lowest, reduced. cbn. lia.
Qed.

(** A loop that writes the entries [from .. n-1] of row [j], each computed
    from entries not yet written. *)
Lemma rowLoop_exact (F : nat -> Matrix -> outcome Scalar) (g : nat -> Fraction)
  (m n j from : nat) (M : Matrix) :
  posMatrix m n M -> (j < m)%nat -> (from <= n)%nat ->
  (forall k Mk, (from <= k < n)%nat -> posMatrix m n Mk ->
                (forall r c, ~ (r = j /\ (from <= c < k)%nat) -> cell Mk r c = cell M r c) ->
                F k Mk = Ret (SFrac (g k)) /\ positiveFraction (g k)) ->
  exists M', foldM (fun k M => let* v := F k M in Ret (set_cell M j k v)) (range from n) M
             = Ret M'
             /\ posMatrix m n M'
             /\ (forall r c, ~ (r = j /\ (from <= c < n)%nat) -> cell M' r c = cell M r c)
             /\ (forall c, (from <= c < n)%nat -> cell M' j c = SFrac (g c)).
Proof.
  intros HM Hj Hfrom HF.
  apply (foldM_range_inv
           (fun k Mk => posMatrix m n Mk
                        /\ (forall r c, ~ (r = j /\ (from <= c < k)%nat) ->
                                        cell Mk r c = cell M r c)
                        /\ (forall c, (from <= c < k)%nat -> cell Mk j c = SFrac (g c))));
    [assumption | |].
  - intros k Mk Hk (HMk & Hsame & Hdone).
    destruct (HF k Mk Hk HMk Hsame) as [-> Hpos]. cbn [bind].
    eexists; split; [reflexivity|].
    destruct (posMatrix_row m n Mk j HMk Hj) as [Hlen _].
    assert (HmMk : List.length Mk = m) by apply HMk.
    split; [now apply posMatrix_set_cell|]. split.
    + intros r c Hrc. rewrite cell_set_cell_other.
      * apply Hsame. intros [-> Hc]. apply Hrc. split; [reflexivity | lia].
      * destruct (Nat.eq_dec r j) as [->|]; [|now left].
        right. intros ->. apply Hrc. split; [reflexivity | lia].
    + intros c Hc. destruct (Nat.eq_dec c k) as [->|Hne].
      * apply cell_set_cell_same; [rewrite HmMk; exact Hj | rewrite Hlen; lia].
      * rewrite cell_set_cell_other by (right; exact Hne). apply Hdone. lia.
  - split; [assumption|]. split; [reflexivity|]. intros c Hc. lia.
Qed.

Lemma entry_cell (M : Matrix) (r c : nat) (f : Fraction) :
  cell M r c = SFrac f -> entry M r c = f.
Proof. unfold entry. now intros ->. Qed.

(** [combineRow] of the new library on Fractions, for two different rows. *)
Lemma New_combineRow_exact (this : New.MatrixOperations) (m n i j from : nat)
  (ff : Fraction) (M : Matrix) :
  posMatrix m n M -> (i < m)%nat -> (j < m)%nat -> i <> j -> positiveFraction ff ->
  (from <= n)%nat ->
  exists M', New.combineRow this i j from n (SFrac ff) M = Ret M'
             /\ posMatrix m n M'
             /\ (forall r c, ~ (r = j /\ (from <= c < n)%nat) -> cell M' r c = cell M r c)
             /\ (forall c, (from <= c < n)%nat ->
                           cell M' j c
                           = SFrac (Old.subtract (entry M j c)
                                                 (Old.multiply ff (entry M i c)))).
Proof.
  intros HM Hi Hj Hij Hff Hfrom. unfold New.combineRow.
  apply (rowLoop_exact
           (fun k M => New.combine this (cell M j k) (cell M i k) (SFrac ff))
           (fun k => Old.subtract (entry M j k) (Old.multiply ff (entry M i k))));
    try assumption.
  intros k Mk Hk HMk Hsame.
  rewrite (Hsame j k) by lia. rewrite (Hsame i k) by (intros [E _]; now apply Hij).
  destruct (posMatrix_cell m n M j k HM Hj ltac:(lia)) as [-> Hpj].
  destruct (posMatrix_cell m n M i k HM Hi ltac:(lia)) as [-> Hpi].
  cbn [New.combine]. rewrite New_multiply_Old by assumption. cbn [bind].
  rewrite New_subtract_Old
    by (try assumption; apply lowest_positive, Old_multiply_lowest).
  cbn [bind]. split; [reflexivity|]. apply lowest_positive, Old_subtract_lowest.
Qed.

Lemma New_divide_Old (a p : Fraction) :
  positiveFraction a -> numerator p <> 0 -> New.divide a p = Ret (quotientOf a p).
Proof. intros Ha Hp. apply New_Fraction_new_Old. unfold positiveFraction in Ha. nia. Qed.

Lemma Qof_quotientOf (a p : Fraction) :
  positiveFraction a -> positiveFraction p -> numerator p <> 0 ->
  Qeq (Qof (quotientOf a p)) (Qof a / Qof p)%Q.
Proof.
  intros Ha Hp Hn.
  destruct (Qof_Old_divide a p Ha Hp Hn) as (f & Hf & _ & Hq).
  unfold Old.divide in Hf. destruct (Z.eqb_spec (numerator p) 0); [contradiction|].
  injection Hf as <-. exact Hq.
Qed.

Lemma quotientOf_lowest (a p : Fraction) : lowest (quotientOf a p).
Proof. apply Old_Fraction_new_lowest'. Qed.

(** [normalizeRow] of the new library on Fractions. *)
Lemma New_normalizeRow_exact (this : New.MatrixOperations) (m n i from : nat)
  (p : Fraction) (M : Matrix) :
  posMatrix m n M -> (i < m)%nat -> numerator p <> 0 -> (from <= n)%nat ->
  exists M', New.normalizeRow this i from n (SFrac p) M = Ret M'
             /\ posMatrix m n M'
             /\ (forall r c, ~ (r = i /\ (from <= c < n)%nat) -> cell M' r c = cell M r c)
             /\ (forall c, (from <= c < n)%nat ->
                           cell M' i c = SFrac (quotientOf (entry M i c) p)).
Proof.
  intros HM Hi Hp Hfrom. unfold New.normalizeRow.
  apply (rowLoop_exact
           (fun k M => New.scaleDown this (cell M i k) (SFrac p))
           (fun k => quotientOf (entry M i k) p));
    try assumption.
  intros k Mk Hk HMk Hsame.
  rewrite (Hsame i k) by lia.
  destruct (posMatrix_cell m n M i k HM Hi ltac:(lia)) as [-> Hpi].
  cbn [New.scaleDown]. rewrite New_divide_Old by assumption. cbn [bind].
  split; [reflexivity|]. apply lowest_positive, quotientOf_lowest.
Qed.

Lemma val_cell (M M' : Matrix) (r c r' c' : nat) :
  cell M' r' c' = cell M r c -> val M' r' c' = val M r c.
Proof. unfold val, entry. now intros ->. Qed.

Lemma val_cell_frac (M : Matrix) (r c : nat) (f : Fraction) :
  cell M r c = SFrac f -> val M r c = Qof f.
Proof. unfold val, entry. now intros ->. Qed.

Lemma New_isZero_val (m n : nat) (M : Matrix) (r c : nat) :
  posMatrix m n M -> (r < m)%nat -> (c < n)%nat ->
  (New.isZero (cell M r c) = true <-> Qeq (val M r c) 0%Q).
Proof.
  intros HM Hr Hc. destruct (posMatrix_cell m n M r c HM Hr Hc) as [E Hp].
  unfold val. rewrite E, Qof_zero_iff. cbn [New.isZero]. apply Z.eqb_eq.
Qed.

(** [eliminateOthers] of the new library on Fractions: every row but [i]
    has its multiple of row [i] subtracted, from column [pc] on. *)
Lemma New_eliminateOthers_exact (this : New.MatrixOperations) (m n i pc : nat)
  (M : Matrix) :
  posMatrix m n M -> (i < m)%nat -> (pc < n)%nat ->
  exists M', New.eliminateOthers this i pc m n M = Ret M'
             /\ posMatrix m n M'
             /\ (forall r c, ~ ((r < m)%nat /\ r <> i /\ (pc <= c < n)%nat) ->
                             cell M' r c = cell M r c)
             /\ (forall r c, (r < m)%nat -> r <> i -> (pc <= c < n)%nat ->
                             Qeq (val M' r c) (val M r c - val M r pc * val M i c)%Q).
Proof.
  intros HM Hi Hpc. unfold New.eliminateOthers.
  replace m with (m - 0)%nat at 1 by lia.
  apply (foldM_range_inv
           (fun k Mk => posMatrix m n Mk
                        /\ (forall r c, ~ ((r < k)%nat /\ r <> i /\ (pc <= c < n)%nat) ->
                                        cell Mk r c = cell M r c)
                        /\ (forall r c, (r < k)%nat -> r <> i -> (pc <= c < n)%nat ->
                                        Qeq (val Mk r c)
                                            (val M r c - val M r pc * val M i c)%Q)));
    [lia | |].
  - intros k Mk Hk (HMk & Hsame & Hdone).
    assert (Hkpc : cell Mk k pc = cell M k pc) by (apply Hsame; lia).
    destruct (posMatrix_cell m n M k pc HM ltac:(lia) Hpc) as [Ekpc Hpos].
    destruct (Nat.eqb_spec k i) as [->|Hki]; cbn [negb andb].
    + eexists; split; [reflexivity|]. split; [assumption|]. split.
      * intros r c Hrc. apply Hsame. intros (H1 & H2 & H3). apply Hrc. lia.
      * intros r c Hr Hri Hc. apply Hdone; [lia | assumption | assumption].
    + destruct (New.isZero (cell Mk k pc)) eqn:Hz; cbn [negb].
      * eexists; split; [reflexivity|]. split; [assumption|]. split.
        -- intros r c Hrc. apply Hsame. intros (H1 & H2 & H3). apply Hrc. lia.
        -- intros r c Hr Hri Hc. destruct (Nat.eq_dec r k) as [->|Hrk].
           ++ rewrite (val_cell M Mk k c k c) by (apply Hsame; lia).
              rewrite Hkpc in Hz.
              apply (New_isZero_val m n M k pc HM ltac:(lia) Hpc) in Hz.
              rewrite Hz. ring.
           ++ apply Hdone; [lia | assumption | assumption].
      * rewrite Hkpc, Ekpc.
        destruct (New_combineRow_exact this m n i k pc (entry M k pc) Mk)
          as (M' & -> & HM' & Hsame' & Hrow); try assumption; try lia.
        eexists; split; [reflexivity|]. split; [assumption|]. split.
        -- intros r c Hrc. rewrite Hsame'.
           ++ apply Hsame. intros (H1 & H2 & H3). apply Hrc. lia.
           ++ intros [-> Hc]. apply Hrc. lia.
        -- intros r c Hr Hri Hc. destruct (Nat.eq_dec r k) as [->|Hrk].
           ++ rewrite (val_cell_frac _ _ _ _ (Hrow c Hc)).
              assert (Ek : entry Mk k c = entry M k c)
                by (unfold entry; rewrite Hsame by lia; reflexivity).
              assert (Ei : entry Mk i c = entry M i c)
                by (unfold entry; rewrite Hsame by lia; reflexivity).
              rewrite Ek, Ei.
              destruct (posMatrix_cell m n M k c HM ltac:(lia) ltac:(lia)) as [_ Hp1].
              destruct (posMatrix_cell m n M i c HM Hi ltac:(lia)) as [_ Hp2].
              rewrite Qof_Old_subtract, Qof_Old_multiply
                by (try assumption; apply lowest_positive, Old_multiply_lowest).
              reflexivity.
           ++ rewrite (val_cell Mk M' r c r c) by (apply Hsame'; lia).
              apply Hdone; [lia | assumption | assumption].
  - split; [assumption|]. split; [reflexivity|]. intros r c Hr. lia.
Qed.

Lemma rowDot_ext (M M' : Matrix) (n : nat) (x : nat -> Q) (r r' : nat) :
  (forall c, (c < n)%nat -> Qeq (val M' r' c) (val M r c)) ->
  Qeq (rowDot M' n x r') (rowDot M n x r).
Proof.
  intros H. unfold rowDot. apply sumQ_ext. intros c Hc. now rewrite H.
Qed.

Lemma inKernel_swap (m n : nat) (M : Matrix) (i p : nat) (x : nat -> Q) :
  List.length M = m -> (i < m)%nat -> (p < m)%nat ->
  (inKernel m n (swap_rows M i p) x <-> inKernel m n M x).
Proof.
  intros Hm Hi Hp.
  assert (Hrow : forall r, Qeq (rowDot (swap_rows M i p) n x r)
                               (rowDot M n x (if (r =? i)%nat then p
                                              else if (r =? p)%nat then i else r))).
  { intros r. apply rowDot_ext. intros c _.
    rewrite (val_cell M (swap_rows M i p)
               (if (r =? i)%nat then p else if (r =? p)%nat then i else r) c r c);
      [reflexivity|].
    apply cell_swap_rows; rewrite Hm; assumption. }
  split; intros H r Hr.
  - destruct (Nat.eq_dec r i) as [->|Hri].
    + specialize (H p Hp). rewrite Hrow in H.
      destruct (Nat.eqb_spec p i) as [->|]; [assumption|].
      now rewrite Nat.eqb_refl in H.
    + destruct (Nat.eq_dec r p) as [->|Hrp].
      * specialize (H i Hi). rewrite Hrow in H. now rewrite Nat.eqb_refl in H.
      * specialize (H r Hr). rewrite Hrow in H.
        destruct (Nat.eqb_spec r i); [contradiction|].
        destruct (Nat.eqb_spec r p); [contradiction|]. assumption.
  - rewrite Hrow. destruct (r =? i)%nat; [now apply H|].
    destruct (r =? p)%nat; now apply H.
Qed.

Lemma inKernel_scale_row (m n : nat) (M M' : Matrix) (i : nat) (q : Q) (x : nat -> Q) :
  (i < m)%nat -> ~ Qeq q 0%Q ->
  (forall r c, (r < m)%nat -> r <> i -> (c < n)%nat -> Qeq (val M' r c) (val M r c)) ->
  (forall c, (c < n)%nat -> Qeq (val M' i c) (val M i c / q)%Q) ->
  (inKernel m n M' x <-> inKernel m n M x).
Proof.
  intros Hi Hq Hother Hrow.
  assert (Hi' : Qeq (rowDot M' n x i) (rowDot M n x i / q)%Q).
  { unfold rowDot.
    rewrite (sumQ_ext _ (fun c => (/ q) * (val M i c * x c))%Q).
    - rewrite sumQ_scale. field. exact Hq.
    - intros c Hc. rewrite Hrow by assumption. field. exact Hq. }
  assert (Hr' : forall r, (r < m)%nat -> r <> i ->
                          Qeq (rowDot M' n x r) (rowDot M n x r)).
  { intros r Hr Hri. apply rowDot_ext. intros c Hc. now apply Hother. }
  split; intros H r Hr.
  - destruct (Nat.eq_dec r i) as [->|Hri].
    + specialize (H i Hi). rewrite Hi' in H.
      rewrite <- (Qmult_div_r (rowDot M n x i) q Hq). rewrite H. ring.
    + rewrite <- Hr' by assumption. now apply H.
  - destruct (Nat.eq_dec r i) as [->|Hri].
    + rewrite Hi', (H i Hi). field. exact Hq.
    + rewrite Hr' by assumption. now apply H.
Qed.

Lemma inKernel_combine_rows (m n : nat) (M M' : Matrix) (i : nat) (f : nat -> Q)
  (x : nat -> Q) :
  (i < m)%nat ->
  (forall c, (c < n)%nat -> Qeq (val M' i c) (val M i c)) ->
  (forall r c, (r < m)%nat -> r <> i -> (c < n)%nat ->
               Qeq (val M' r c) (val M r c - f r * val M i c)%Q) ->
  (inKernel m n M' x <-> inKernel m n M x).
Proof.
  intros Hi Hrow Hother.
  assert (Hi' : Qeq (rowDot M' n x i) (rowDot M n x i))
    by (apply rowDot_ext; assumption).
  assert (Hr' : forall r, (r < m)%nat -> r <> i ->
                          Qeq (rowDot M' n x r) (rowDot M n x r - f r * rowDot M n x i)%Q).
  { intros r Hr Hri. unfold rowDot.
    rewrite (sumQ_ext _ (fun c => val M r c * x c - f r * (val M i c * x c))%Q).
    - rewrite sumQ_minus, sumQ_scale. reflexivity.
    - intros c Hc. rewrite Hother by assumption. ring. }
  split; intros H r Hr.
  - destruct (Nat.eq_dec r i) as [->|Hri].
    + rewrite <- Hi'. now apply H.
    + pose proof (H r Hr) as H1. pose proof (H i Hi) as H2.
      rewrite Hr' in H1 by assumption. rewrite Hi' in H2.
      rewrite H2 in H1. rewrite <- H1. ring.
  - destruct (Nat.eq_dec r i) as [->|Hri].
    + rewrite Hi'. now apply H.
    + rewrite Hr' by assumption. rewrite (H r Hr), (H i Hi). ring.
Qed.

Lemma Qof_nonzero' (p : Fraction) : numerator p <> 0 -> ~ Qeq (Qof p) 0%Q.
Proof. intros Hp H. apply Qof_zero_iff in H. contradiction. Qed.

Lemma quotientOf_self (p : Fraction) :
  positiveFraction p -> numerator p <> 0 -> quotientOf p p = oneFraction.
Proof.
  intros Hp Hn. apply lowest_one; [apply quotientOf_lowest|].
  rewrite Qof_quotientOf by assumption. field. now apply Qof_nonzero'.
Qed.

(** One round of [reduceToRowEchelon] that finds a pivot: rows [i] and
    [pr] are swapped, row [i] is divided by its entry in column [pc], and
    its multiples are subtracted from the other rows. *)
Lemma New_pivotStep_exact (this : New.MatrixOperations) (m n i pr pc : nat) (M : Matrix) :
  posMatrix m n M -> (i <= pr < m)%nat -> (pc < n)%nat ->
  New.isZero (cell M pr pc) = false ->
  (forall r c, (i <= r < m)%nat -> (c < pc)%nat -> New.isZero (cell M r c) = true) ->
  exists M2 M3,
    New.normalizeRow this i pc n (cell (swap_rows M i pr) i pc) (swap_rows M i pr)
    = Ret M2
    /\ New.eliminateOthers this i pc m n M2 = Ret M3
    /\ posMatrix m n M3
    /\ (forall r c, (r < m)%nat -> (c < pc)%nat ->
                    cell M3 r c
                    = cell M (if (r =? i)%nat then pr
                              else if (r =? pr)%nat then i else r) c)
    /\ cell M3 i pc = SFrac oneFraction
    /\ (forall r, (r < m)%nat -> r <> i -> New.isZero (cell M3 r pc) = true)
    /\ (forall x, inKernel m n M3 x <-> inKernel m n M x).
Proof.
  intros HM Hpr Hpc Hnz Hzero.
  assert (HmM : List.length M = m) by apply HM.
  assert (Hi : (i < m)%nat) by lia.
  set (M1 := swap_rows M i pr).
  assert (HM1 : posMatrix m n M1) by (apply posMatrix_swap_rows; assumption || lia).
  assert (Hcell1 : forall r c, cell M1 r c
                               = cell M (if (r =? i)%nat then pr
                                         else if (r =? pr)%nat then i else r) c).
  { intros r c. apply cell_swap_rows; rewrite HmM; lia. }
  assert (Hpivot : cell M1 i pc = cell M pr pc)
    by (rewrite Hcell1, Nat.eqb_refl; reflexivity).
  destruct (posMatrix_cell m n M pr pc HM ltac:(lia) Hpc) as [Ep Hp].
  set (p := entry M pr pc) in *.
  assert (Hpn : numerator p <> 0).
  { rewrite Ep in Hnz. cbn [New.isZero] in Hnz. now apply Z.eqb_neq. }
  rewrite Hpivot, Ep.
  destruct (New_normalizeRow_exact this m n i pc p M1 HM1 Hi Hpn ltac:(lia))
    as (M2 & -> & HM2 & Hsame2 & Hrow2).
  destruct (New_eliminateOthers_exact this m n i pc M2 HM2 Hi Hpc)
    as (M3 & HM3eq & HM3 & Hsame3 & Hval3).
  exists M2, M3. split; [reflexivity|]. split; [assumption|]. split; [assumption|].
  assert (Hleft1 : forall c, (c < pc)%nat -> Qeq (val M1 i c) 0%Q).
  { intros c Hc. apply (New_isZero_val m n M1 i c HM1 Hi ltac:(lia)).
    rewrite Hcell1, Nat.eqb_refl. apply Hzero; lia. }
  assert (Hval2i : forall c, (c < n)%nat -> Qeq (val M2 i c) (val M1 i c / Qof p)%Q).
  { intros c Hc. destruct (Nat.lt_ge_cases c pc) as [Hlt|Hge].
    - rewrite (val_cell M1 M2 i c i c) by (apply Hsame2; lia).
      rewrite (Hleft1 c Hlt). field. now apply Qof_nonzero'.
    - rewrite (val_cell_frac _ _ _ _ (Hrow2 c ltac:(lia))).
      destruct (posMatrix_cell m n M1 i c HM1 Hi Hc) as [_ Hpos].
      now rewrite Qof_quotientOf. }
  assert (Hone : cell M2 i pc = SFrac oneFraction).
  { rewrite Hrow2 by lia. f_equal.
    unfold entry. rewrite Hpivot, Ep. now apply quotientOf_self. }
  assert (Hleft2 : forall c, (c < pc)%nat -> Qeq (val M2 i c) 0%Q).
  { intros c Hc. rewrite Hval2i by lia. rewrite (Hleft1 c Hc). field.
    now apply Qof_nonzero'. }
  assert (Hval3' : forall r c, (r < m)%nat -> r <> i -> (c < n)%nat ->
                               Qeq (val M3 r c) (val M2 r c - val M2 r pc * val M2 i c)%Q).
  { intros r c Hr Hri Hc. destruct (Nat.lt_ge_cases c pc) as [Hlt|Hge].
    - rewrite (val_cell M2 M3 r c r c) by (apply Hsame3; lia).
      rewrite (Hleft2 c Hlt). ring.
    - apply Hval3; [assumption | assumption | lia]. }
  split; [|split; [|split]].
  - intros r c Hr Hc. rewrite Hsame3 by lia. rewrite Hsame2 by lia. apply Hcell1.
  - rewrite Hsame3 by lia. exact Hone.
  - intros r Hr Hri. apply (New_isZero_val m n M3 r pc HM3 Hr Hpc).
    rewrite Hval3' by assumption.
    rewrite (val_cell_frac _ _ _ _ Hone). change (Qof oneFraction) with 1%Q. ring.
  - intros x.
    rewrite (inKernel_combine_rows m n M2 M3 i (fun r => val M2 r pc) x Hi).
    + rewrite (inKernel_scale_row m n M1 M2 i (Qof p) x Hi (Qof_nonzero' p Hpn)).
      * now apply inKernel_swap.
      * intros r c Hr Hri Hc. rewrite (val_cell M1 M2 r c r c); [reflexivity|].
        apply Hsame2. lia.
      * exact Hval2i.
    + intros c Hc. rewrite (val_cell M2 M3 i c i c); [reflexivity|].
      apply Hsame3. lia.
    + exact Hval3'.
Qed.

Lemma New_firstNonZeroRow_none (M : Matrix) (c : nat) (rows : list nat) (m : nat) :
  New.firstNonZeroRow M c rows m = m -> (forall r, In r rows -> r <> m) ->
  forall r, In r rows -> New.isZero (cell M r c) = true.
Proof.
  induction rows as [|r0 rows IH]; intros E Hne r Hr; [contradiction|].
  cbn [New.firstNonZeroRow] in E.
  destruct (New.isZero (cell M r0 c)) eqn:Hz.
  - destruct Hr as [<-|Hr]; [assumption|].
    apply IH; [assumption | intros; apply Hne; now right | assumption].
  - exfalso. apply (Hne r0); [now left | assumption].
Qed.

Lemma New_rowEchelonLoop_exact (this : New.MatrixOperations) (m n : nat) :
  forall (d pc i : nat) (M : Matrix) (ps : list nat),
    d = (n - pc)%nat -> (pc <= n)%nat ->
    posMatrix m n M -> List.length ps = i -> (i <= m)%nat ->
    (forall k, (k < i)%nat -> (nth k ps O < pc)%nat /\ pivotAt m M k (nth k ps O)) ->
    (forall k k', (k < k' < i)%nat -> (nth k ps O < nth k' ps O)%nat) ->
    (forall r c, (i <= r < m)%nat -> (c < pc)%nat -> New.isZero (cell M r c) = true) ->
    exists R pivots,
      New.rowEchelonLoop this m n (range pc n) i M = Ret R
      /\ posMatrix m n R /\ rrefForm m n R pivots
      /\ (forall x, inKernel m n R x <-> inKernel m n M x).
Proof.
  induction d as [|d IH]; intros pc i M ps Hd Hpc HM Hlen Hi Hpiv Hinc Hzero.
  - assert (pc = n) by lia. subst pc. unfold range. rewrite Nat.sub_diag.
    cbn [seq New.rowEchelonLoop]. exists M, ps.
    split; [reflexivity|]. split; [assumption|]. split; [|reflexivity].
    unfold rrefForm. rewrite Hlen. repeat split; auto.
    + now apply Hpiv.
    + now apply Hpiv.
    + now apply Hpiv.
    + now apply Hpiv.
  - rewrite range_cons by lia. cbn [New.rowEchelonLoop].
    destruct (Nat.leb_spec m i) as [Hmi|Hmi].
    + exists M, ps. split; [reflexivity|]. split; [assumption|]. split; [|reflexivity].
      unfold rrefForm. rewrite Hlen. repeat split; auto; try lia.
      * destruct (Hpiv k H) as [Hlt _]. lia.
      * now apply Hpiv.
      * now apply Hpiv.
      * now apply Hpiv.
    + pose proof (New_firstNonZeroRow_spec M pc (range i m) m) as Hrow.
      cbv zeta in Hrow.
      destruct (Nat.eqb_spec (New.firstNonZeroRow M pc (range i m) m) m) as [E|E].
      * (* no pivot in this column *)
        apply (IH (S pc) i M ps); try assumption; try lia.
        -- intros k Hk. destruct (Hpiv k Hk) as [Hlt Hp]. split; [lia | assumption].
        -- intros r c Hr Hc. destruct (Nat.eq_dec c pc) as [->|Hne].
           ++ apply (New_firstNonZeroRow_none M pc (range i m) m E).
              ** intros r' Hr'. apply in_range in Hr'. lia.
              ** apply in_range. lia.
           ++ apply Hzero; lia.
      * destruct Hrow as [Hrow|[Hin Hnz]]; [contradiction|].
        apply in_range in Hin.
        set (pr := New.firstNonZeroRow M pc (range i m) m) in *.
        destruct (New_pivotStep_exact this m n i pr pc M HM ltac:(lia) ltac:(lia)
                    Hnz Hzero)
          as (M2 & M3 & HM2eq & HM3eq & HM3 & Hleft & Hone & Hcol & Hker).
        rewrite HM2eq. cbn [bind]. rewrite HM3eq. cbn [bind].
        destruct (IH (S pc) (i + 1)%nat M3 (ps ++ [pc])) as (R & pivots & HR & HRpos & HRform & HRker);
          try assumption; try lia.
        -- rewrite length_app. cbn. lia.
        -- intros k Hk. destruct (Nat.eq_dec k i) as [->|Hki].
           ++ rewrite app_nth2 by lia. rewrite Hlen, Nat.sub_diag. cbn [nth].
              split; [lia|]. split; [exact Hone|]. split; [exact Hcol|].
              intros c Hc. rewrite Hleft by lia. rewrite Nat.eqb_refl.
              apply Hzero; lia.
           ++ rewrite app_nth1 by lia.
              destruct (Hpiv k ltac:(lia)) as [Hlt (Hp1 & Hp2 & Hp3)].
              split; [lia|].
              assert (Hk' : (k =? i)%nat = false) by (apply Nat.eqb_neq; lia).
              assert (Hk'' : (k =? pr)%nat = false) by (apply Nat.eqb_neq; lia).
              split; [|split].
              ** rewrite Hleft by lia. now rewrite Hk', Hk''.
              ** intros r Hr Hrk. rewrite Hleft by lia.
                 apply Hp2; [|]; destruct (r =? i)%nat; try lia;
                   destruct (r =? pr)%nat; lia.
              ** intros c Hc. rewrite Hleft by lia. rewrite Hk', Hk''. now apply Hp3.
        -- intros k k' Hk. destruct (Nat.eq_dec k' i) as [->|Hk'i].
           ++ rewrite (@app_nth2 _ ps [pc] O i) by lia.
              rewrite Hlen, Nat.sub_diag. cbn [nth].
              rewrite app_nth1 by lia. now apply Hpiv.
           ++ rewrite !app_nth1 by lia. apply Hinc. lia.
        -- intros r c Hr Hc. destruct (Nat.eq_dec c pc) as [->|Hne].
           ++ apply Hcol; lia.
           ++ rewrite Hleft by lia.
              apply Hzero; [|lia]. destruct (r =? i)%nat; try lia.
              destruct (r =? pr)%nat; lia.
        -- exists R, pivots. split; [exact HR|]. split; [assumption|].
           split; [assumption|]. intros x. rewrite HRker. apply Hker.
Qed.

Lemma filter_seq_all (f : nat -> bool) (m : nat) :
  (forall k, (k < m)%nat -> f k = true) -> List.length (filter f (seq 0 m)) = m.
Proof.
  induction m as [|m IH]; intros Ht; [reflexivity|].
  rewrite seq_S, filter_app, length_app. cbn [Nat.add filter].
  rewrite Ht by lia. cbn [List.length]. rewrite IH; [lia|].
  intros k Hk. apply Ht. lia.
Qed.

Lemma filter_range_count (f : nat -> bool) (p : nat) :
  forall m, (p <= m)%nat ->
    (forall k, (k < p)%nat -> f k = true) ->
    (forall k, (p <= k < m)%nat -> f k = false) ->
    List.length (filter f (range 0 m)) = p.
Proof.
  intros m Hp Ht Hf. unfold range. rewrite Nat.sub_0_r.
  induction m as [|m IH].
  - cbn. lia.
  - destruct (Nat.eq_dec p (S m)) as [->|Hne].
    + now apply filter_seq_all.
    + rewrite seq_S, filter_app, length_app. cbn [Nat.add filter].
      rewrite Hf by lia. cbn [List.length]. rewrite IH; [lia | lia |].
      intros k Hk. apply Hf. lia.
Qed.

Lemma rrefForm_rank (m n : nat) (R : Matrix) (pivots : list nat) :
  (0 < m)%nat -> posMatrix m n R -> rrefForm m n R pivots ->
  New.calculateRank R = List.length pivots.
Proof.
  intros Hm HR (Hle & Hpiv & Hinc & Hzero). unfold New.calculateRank.
  destruct (posMatrix_row m n R 0 HR Hm) as [Hn _].
  assert (HmR : List.length R = m) by apply HR.
  rewrite Hn, HmR.
  apply filter_range_count; [assumption | |].
  - intros k Hk. destruct (Hpiv k Hk) as [Hlt (Hone & _)].
    apply existsb_exists. exists (nth k pivots O). split.
    + apply in_range. lia.
    + rewrite Hone. reflexivity.
  - intros k Hk. apply not_true_is_false. intros H.
    apply existsb_exists in H as (c & Hc & Hnz). apply in_range in Hc.
    rewrite Hzero in Hnz by lia. discriminate.
Qed.

Lemma increasing_ge (ps : list nat) :
  (forall k k', (k < k' < List.length ps)%nat -> (nth k ps O < nth k' ps O)%nat) ->
  forall k, (k < List.length ps)%nat -> (k <= nth k ps O)%nat.
Proof.
  intros Hinc k. induction k as [|k IH]; intros Hk; [lia|].
  specialize (IH ltac:(lia)). specialize (Hinc k (S k) ltac:(lia)). lia.
Qed.

Lemma rrefForm_bound (m n : nat) (R : Matrix) (pivots : list nat) :
  rrefForm m n R pivots -> (List.length pivots <= Nat.min m n)%nat.
Proof.
  intros (Hle & Hpiv & Hinc & _).
  destruct (Nat.eq_dec (List.length pivots) 0) as [E|E]; [lia|].
  pose proof (increasing_ge pivots Hinc (List.length pivots - 1) ltac:(lia)) as H1.
  destruct (Hpiv (List.length pivots - 1)%nat ltac:(lia)) as [H2 _]. lia.
Qed.

Lemma New_reduceToRowEchelon_exact (this : New.MatrixOperations) (m n : nat)
  (M : Matrix) :
  (0 < m)%nat -> posMatrix m n M ->
  exists R pivots,
    New.reduceToRowEchelon this M = Ret R
    /\ posMatrix m n R
    /\ rrefForm m n R pivots
    /\ (forall x, inKernel m n R x <-> inKernel m n M x).
Proof.
  intros Hm HM. unfold New.reduceToRowEchelon. rewrite copyMatrix_id.
  destruct (posMatrix_row m n M 0 HM Hm) as [Hn _].
  assert (HmM : List.length M = m) by apply HM.
  rewrite Hn, HmM.
  destruct (New_rowEchelonLoop_exact this m n n 0 0 M [])
    as (R & pivots & HR & HRpos & HRform & HRker);
    try assumption; try reflexivity; try lia.
  exists R, pivots. auto.
Qed.



(** ** Linear independence *)

Lemma fold_left_range_inv {St : Type} (P : nat -> St -> Prop) (f : St -> nat -> St)
  (lo hi : nat) :
  (lo <= hi)%nat ->
  (forall k s, (lo <= k < hi)%nat -> P k s -> P (S k) (f s k)) ->
  forall s, P lo s -> P hi (fold_left f (range lo hi) s).
Proof.
  intros Hle. unfold range.
  remember (hi - lo)%nat as d eqn:Hd. revert lo Hle Hd.
  induction d as [|d IH]; intros lo Hle Hd Hf s Hs.
  - cbn. now replace hi with lo by lia.
  - cbn [seq fold_left]. apply (IH (S lo)); try lia.
    + intros k t Hk. apply Hf. lia.
    + apply Hf; [lia | assumption].
Qed.

Lemma fold_left_nth_seq {St A : Type} (f : St -> A -> St) (d : A) :
  forall (l pre : list A) (s : St),
    fold_left f l s
    = fold_left (fun s r => f s (nth r (pre ++ l) d))
                (seq (List.length pre) (List.length l)) s.
Proof.
  induction l as [|a l IH]; intros pre s; [reflexivity|].
  cbn [List.length seq fold_left].
  rewrite app_nth2 by lia. rewrite Nat.sub_diag. cbn [nth].
  rewrite (IH (pre ++ [a])). rewrite length_app. cbn [List.length].
  rewrite Nat.add_1_r. rewrite <- app_assoc. reflexivity.
Qed.

Lemma fold_left_rows {St : Type} (f : St -> Vector -> St) (M : Matrix) (s : St) :
  fold_left f M s = fold_left (fun s r => f s (nth r M [])) (range 0 (List.length M)) s.
Proof.
  unfold range. rewrite Nat.sub_0_r. apply (fold_left_nth_seq f [] M []).
Qed.

Lemma findIndexNonZero_first (row : Vector) :
  forall s j, (j < List.length row)%nat ->
    (forall c, (c < j)%nat -> New.isZero (nth c row undefined) = true) ->
    New.isZero (nth j row undefined) = false ->
    New.findIndexNonZero row s = Some (s + j)%nat.
Proof.
  induction row as [|v row IH]; intros s j Hj Hz Hnz; [cbn in Hj; lia|].
  cbn [New.findIndexNonZero]. destruct j as [|j].
  - cbn [nth] in Hnz. rewrite Hnz. f_equal. lia.
  - pose proof (Hz O ltac:(lia)) as H0. cbn [nth] in H0. rewrite H0.
    rewrite (IH (S s) j).
    + f_equal. lia.
    + cbn in Hj. lia.
    + intros c Hc. apply (Hz (S c)). lia.
    + exact Hnz.
Qed.

Lemma findIndexNonZero_none (row : Vector) :
  forall s, (forall c, (c < List.length row)%nat -> New.isZero (nth c row undefined) = true) ->
            New.findIndexNonZero row s = None.
Proof.
  induction row as [|v row IH]; intros s Hz; [reflexivity|].
  cbn [New.findIndexNonZero].
  pose proof (Hz O ltac:(cbn; lia)) as H0. cbn [nth] in H0. rewrite H0.
  apply IH. intros c Hc. apply (Hz (S c)). cbn. lia.
Qed.

Lemma firstn_S_nth {A : Type} (l : list A) (d : A) :
  forall k, (k < List.length l)%nat -> firstn (S k) l = firstn k l ++ [nth k l d].
Proof.
  induction l as [|a l IH]; intros k Hk; [cbn in Hk; lia|].
  destruct k as [|k]; [reflexivity|].
  cbn [firstn nth app]. f_equal. apply IH. cbn in Hk. lia.
Qed.

Lemma rrefForm_findPivotColumns (m n : nat) (R : Matrix) (pivots : list nat) :
  posMatrix m n R -> rrefForm m n R pivots -> New.findPivotColumns R = pivots.
Proof.
  intros HR (Hle & Hpiv & Hinc & Hzero). unfold New.findPivotColumns.
  assert (HmR : List.length R = m) by apply HR.
  rewrite fold_left_rows, HmR.
  set (step := fun (acc : list nat * option nat) (r : nat) => _).
  assert (H : forall k, (k <= m)%nat ->
                fold_left step (range 0 k) ([], None)
                = (firstn k pivots,
                   match Nat.min k (List.length pivots) with
                   | O => None
                   | S j => Some (nth j pivots O)
                   end)).
  { induction k as [|k IH]; intros Hk; [reflexivity|].
    unfold range in *. rewrite Nat.sub_0_r in *. rewrite seq_S, fold_left_app.
    rewrite IH by lia. cbn [Nat.add fold_left]. unfold step at 1.
    destruct (posMatrix_row m n R k HR ltac:(lia)) as [Hlen _].
    destruct (Nat.lt_ge_cases k (List.length pivots)) as [Hlt|Hge].
    - destruct (Hpiv k Hlt) as [Hpn (Hone & _ & Hbefore)].
      rewrite (findIndexNonZero_first (nth k R []) 0 (nth k pivots O)).
      + cbn [Nat.add].
        assert (Hcond : match match Nat.min k (List.length pivots) with
                              | O => None
                              | S j => Some (nth j pivots O)
                              end with
                        | None => true
                        | Some l => (l <? nth k pivots O)%nat
                        end = true).
        { replace (Nat.min k (List.length pivots)) with k by lia.
          destruct k as [|j]; [reflexivity|]. apply Nat.ltb_lt. apply Hinc. lia. }
        rewrite Hcond. f_equal.
        * symmetry. now apply firstn_S_nth.
        * replace (Nat.min (S k) (List.length pivots)) with (S k) by lia. reflexivity.
      + rewrite Hlen. exact Hpn.
      + intros c Hc. apply Hbefore. exact Hc.
      + fold (cell R k (nth k pivots O)). rewrite Hone. reflexivity.
    - rewrite (findIndexNonZero_none (nth k R []) 0).
      + f_equal.
        * rewrite !firstn_all2 by lia. reflexivity.
        * replace (Nat.min (S k) (List.length pivots)) with (List.length pivots) by lia.
          replace (Nat.min k (List.length pivots)) with (List.length pivots) by lia.
          reflexivity.
      + intros c Hc. rewrite Hlen in Hc. apply Hzero; lia. }
  rewrite H by lia. cbn [fst]. apply firstn_all2. lia.
Qed.

Lemma indexOf_Some (ps : list nat) (c r : nat) :
  indexOf ps c = Some r -> (r < List.length ps)%nat /\ nth r ps O = c.
Proof.
  revert r. induction ps as [|p ps IH]; intros r H; [discriminate|].
  cbn [indexOf] in H. destruct (Nat.eqb_spec p c) as [->|Hne].
  - injection H as <-. cbn. split; [lia | reflexivity].
  - destruct (indexOf ps c) as [r'|]; [|discriminate].
    injection H as <-. destruct (IH r' eq_refl) as [H1 H2]. cbn. split; [lia | assumption].
Qed.

Lemma indexOf_None (ps : list nat) (c : nat) : indexOf ps c = None -> ~ In c ps.
Proof.
  induction ps as [|p ps IH]; intros H [].
  - cbn [indexOf] in H. subst p. now rewrite Nat.eqb_refl in H.
  - cbn [indexOf] in H. destruct (p =? c)%nat; [discriminate|].
    destruct (indexOf ps c); [discriminate|]. now apply IH.
Qed.

Lemma indexOf_nth (ps : list nat) :
  (forall k k', (k < k' < List.length ps)%nat -> (nth k ps O < nth k' ps O)%nat) ->
  forall r, (r < List.length ps)%nat -> indexOf ps (nth r ps O) = Some r.
Proof.
  intros Hinc r Hr.
  destruct (indexOf ps (nth r ps O)) as [r'|] eqn:E.
  - destruct (indexOf_Some _ _ _ E) as [Hr' Heq].
    destruct (Nat.lt_trichotomy r r') as [H|[H|H]].
    + specialize (Hinc r r' ltac:(lia)). lia.
    + now subst.
    + specialize (Hinc r' r ltac:(lia)). lia.
  - exfalso. apply (indexOf_None _ _ E). now apply nth_In.
Qed.

Lemma sumQ_zero (g : nat -> Q) (n : nat) :
  (forall c, (c < n)%nat -> Qeq (g c) 0%Q) -> Qeq (sumQ g n) 0%Q.
Proof.
  induction n as [|k IH]; intros H; cbn; [reflexivity|].
  rewrite IH by (intros; apply H; lia). rewrite (H k) by lia. ring.
Qed.

Lemma sumQ_single (g : nat -> Q) (n a : nat) :
  (a < n)%nat -> (forall c, (c < n)%nat -> c <> a -> Qeq (g c) 0%Q) ->
  Qeq (sumQ g n) (g a).
Proof.
  induction n as [|k IH]; intros Ha H; [lia|]. cbn.
  destruct (Nat.eq_dec a k) as [->|Hne].
  - rewrite sumQ_zero by (intros; apply H; lia). ring.
  - rewrite IH by (try lia; intros; apply H; lia).
    rewrite (H k) by lia. ring.
Qed.

Lemma sumQ_two (g : nat -> Q) (n a b : nat) :
  (a < n)%nat -> (b < n)%nat -> a <> b ->
  (forall c, (c < n)%nat -> c <> a -> c <> b -> Qeq (g c) 0%Q) ->
  Qeq (sumQ g n) (g a + g b)%Q.
Proof.
  induction n as [|k IH]; intros Ha Hb Hab H; [lia|]. cbn.
  destruct (Nat.eq_dec a k) as [->|Hak].
  - rewrite (sumQ_single g k b) by (try lia; intros; apply H; lia). ring.
  - destruct (Nat.eq_dec b k) as [->|Hbk].
    + rewrite (sumQ_single g k a) by (try lia; intros; apply H; lia). ring.
    + rewrite IH by (try lia; intros; apply H; lia).
      rewrite (H k) by lia. ring.
Qed.

Lemma increasing_full (ps : list nat) (n : nat) :
  (forall k k', (k < k' < List.length ps)%nat -> (nth k ps O < nth k' ps O)%nat) ->
  (forall k, (k < List.length ps)%nat -> (nth k ps O < n)%nat) ->
  List.length ps = n -> forall k, (k < n)%nat -> nth k ps O = k.
Proof.
  intros Hinc Hlt Hlen k Hk.
  pose proof (increasing_ge ps Hinc k ltac:(lia)) as Hge.
  assert (H : forall j, (j < n - k)%nat -> (nth (n - 1 - j) ps O <= n - 1 - j)%nat).
  { induction j as [|j IH]; intros Hj.
    - specialize (Hlt (n - 1)%nat ltac:(lia)). rewrite Nat.sub_0_r. lia.
    - specialize (IH ltac:(lia)).
      specialize (Hinc (n - 1 - S j)%nat (n - 1 - j)%nat ltac:(lia)). lia. }
  specialize (H (n - 1 - k)%nat ltac:(lia)).
  replace (n - 1 - (n - 1 - k))%nat with k in H by lia. lia.
Qed.

Lemma free_column (ps : list nat) (n : nat) :
  (List.length ps < n)%nat -> exists f, (f < n)%nat /\ ~ In f ps.
Proof.
  intros Hlen.
  destruct (find (fun c => negb (existsb (Nat.eqb c) ps)) (range 0 n)) as [f|] eqn:E.
  - apply find_some in E as [Hin Hf]. apply in_range in Hin.
    exists f. split; [lia|]. intros Hfps.
    apply negb_true_iff in Hf.
    assert (existsb (Nat.eqb f) ps = true)
      by (apply existsb_exists; exists f; split; [assumption | apply Nat.eqb_refl]).
    congruence.
  - exfalso.
    assert (Hincl : incl (range 0 n) ps).
    { intros c Hc. pose proof (find_none _ _ E c Hc) as H.
      apply negb_false_iff in H. apply existsb_exists in H as (c' & Hc' & Heq).
      apply Nat.eqb_eq in Heq. now subst. }
    pose proof (NoDup_incl_length (range_NoDup 0 n) Hincl) as H.
    rewrite range_length in H. lia.
Qed.

Lemma rrefForm_val_zero (m n : nat) (R : Matrix) (r c : nat) :
  posMatrix m n R -> (r < m)%nat -> (c < n)%nat ->
  New.isZero (cell R r c) = true -> Qeq (val R r c) 0%Q.
Proof. intros HR Hr Hc. now apply (New_isZero_val m n R r c HR Hr Hc). Qed.

Lemma rrefForm_full_rank (m n : nat) (R : Matrix) (pivots : list nat) :
  posMatrix m n R -> rrefForm m n R pivots ->
  List.length pivots = n -> trivialKernel m n R.
Proof.
  intros HR (Hle & Hpiv & Hinc & Hzero) Hlen x Hx c Hc.
  assert (Hid : forall k, (k < n)%nat -> nth k pivots O = k).
  { apply increasing_full; [assumption | | assumption].
    intros k Hk. now apply Hpiv. }
  specialize (Hx c ltac:(lia)). unfold rowDot in Hx.
  rewrite (sumQ_single _ n c Hc) in Hx.
  - destruct (Hpiv c ltac:(lia)) as [_ (Hone & _)]. rewrite Hid in Hone by lia.
    rewrite (val_cell_frac _ _ _ _ Hone) in Hx.
    change (Qof oneFraction) with 1%Q in Hx. rewrite <- Hx. ring.
  - intros c' Hc' Hne.
    destruct (Hpiv c' ltac:(lia)) as [_ (_ & Hcol & _)]. rewrite Hid in Hcol by lia.
    rewrite (rrefForm_val_zero m n R c c' HR ltac:(lia) Hc'); [ring|].
    apply Hcol; lia.
Qed.

Lemma rrefForm_deficient (m n : nat) (R : Matrix) (pivots : list nat) :
  posMatrix m n R -> rrefForm m n R pivots ->
  (List.length pivots < n)%nat -> ~ trivialKernel m n R.
Proof.
  intros HR (Hle & Hpiv & Hinc & Hzero) Hlen Htriv.
  destruct (free_column pivots n Hlen) as (f & Hf & Hfree).
  set (x := fun c => if (c =? f)%nat then 1%Q
                     else match indexOf pivots c with
                          | Some r => (- val R r f)%Q
                          | None => 0%Q
                          end).
  assert (Hxf : x f = 1%Q) by (unfold x; now rewrite Nat.eqb_refl).
  assert (Hker : inKernel m n R x).
  { intros r Hr. unfold rowDot.
    destruct (Nat.lt_ge_cases r (List.length pivots)) as [Hrp|Hrp].
    - destruct (Hpiv r Hrp) as [Hpn (Hone & Hcol & Hbefore)].
      assert (Hpf : nth r pivots O <> f)
        by (intros E; apply Hfree; rewrite <- E; now apply nth_In).
      rewrite (sumQ_two _ n f (nth r pivots O)); try assumption; try lia; auto.
      + rewrite Hxf. unfold x at 1.
        destruct (Nat.eqb_spec (nth r pivots O) f) as [E|_]; [contradiction|].
        rewrite (indexOf_nth pivots Hinc r Hrp).
        rewrite (val_cell_frac _ _ _ _ Hone). change (Qof oneFraction) with 1%Q. ring.
      + intros c Hc Hcf Hcp. unfold x.
        destruct (Nat.eqb_spec c f) as [E|_]; [contradiction|].
        destruct (indexOf pivots c) as [r'|] eqn:E; [|ring].
        destruct (indexOf_Some _ _ _ E) as [Hr' Hnth].
        assert (Hrr' : r <> r') by (intros ->; now apply Hcp).
        destruct (Hpiv r' Hr') as [_ (_ & Hcol' & _)]. rewrite Hnth in Hcol'.
        rewrite (rrefForm_val_zero m n R r c HR Hr Hc); [ring|].
        apply Hcol'; assumption.
    - apply sumQ_zero. intros c Hc.
      rewrite (rrefForm_val_zero m n R r c HR Hr Hc); [ring|]. apply Hzero; lia. }
  specialize (Htriv x Hker f Hf). rewrite Hxf in Htriv. discriminate.
Qed.

(** The columns of a matrix in reduced row echelon form are linearly
    independent exactly when every column has a pivot. *)
Lemma rrefForm_independent (m n : nat) (R : Matrix) (pivots : list nat) :
  posMatrix m n R -> rrefForm m n R pivots ->
  (List.length pivots = n <-> trivialKernel m n R).
Proof.
  intros HR Hform. split.
  - now apply (rrefForm_full_rank m n R pivots).
  - intros Htriv.
    pose proof (rrefForm_bound m n R pivots Hform) as Hb.
    destruct (Nat.eq_dec (List.length pivots) n) as [E|E]; [assumption|].
    exfalso. apply (rrefForm_deficient m n R pivots HR Hform); [lia | assumption].
Qed.

Lemma nth_map_range {A : Type} (g : nat -> A) (d : A) (k i : nat) :
  (i < k)%nat -> nth i (map g (range 0 k)) d = g i.
Proof.
  intros Hi. unfold range. rewrite Nat.sub_0_r.
  rewrite (nth_indep _ d (g O)) by (rewrite length_map, length_seq; lia).
  rewrite (map_nth g (seq 0 k) O i). now rewrite seq_nth.
Qed.

Lemma family_cell (n : nat) (vs : list (list Fraction)) (i j : nat) :
  positiveFamily n vs -> (j < List.length vs)%nat -> (i < n)%nat ->
  cell (map fractions vs) j i = SFrac (nth i (nth j vs []) zeroFraction)
  /\ positiveFraction (nth i (nth j vs []) zeroFraction).
Proof.
  intros Hvs Hj Hi. unfold cell.
  assert (Hrow : nth j (map fractions vs) [] = fractions (nth j vs [])).
  { change [] with (fractions []) at 1. apply map_nth. }
  rewrite Hrow.
  pose proof (nth_Forall _ vs j [] Hvs Hj) as [Hlen Hpos]. cbn beta in Hlen, Hpos.
  rewrite nth_fractions by lia. split; [reflexivity|].
  now apply nth_positive.
Qed.

Lemma columns_posMatrix (n : nat) (vs : list (list Fraction)) :
  positiveFamily n vs ->
  let A := map (fun i => map (fun j => cell (map fractions vs) j i)
                             (range 0 (List.length vs))) (range 0 n) in
  posMatrix n (List.length vs) A
  /\ forall i j, (i < n)%nat -> (j < List.length vs)%nat ->
                 val A i j = Qof (nth i (nth j vs []) zeroFraction).
Proof.
  intros Hvs A. split; [split|].
  - unfold A. now rewrite length_map, range_length, Nat.sub_0_r.
  - apply Forall_forall. intros row Hrow. apply in_map_iff in Hrow as (i & <- & Hi).
    apply in_range in Hi. split.
    + now rewrite length_map, range_length, Nat.sub_0_r.
    + apply Forall_forall. intros v Hv. apply in_map_iff in Hv as (j & <- & Hj).
      apply in_range in Hj.
      destruct (family_cell n vs i j Hvs ltac:(lia) ltac:(lia)) as [-> Hp]. exact Hp.
  - intros i j Hi Hj. apply val_cell_frac.
    destruct (family_cell n vs i j Hvs Hj Hi) as [<- _].
    unfold A. unfold cell at 1. unfold Vector.
    rewrite (nth_map_range _ [] n i Hi).
    now rewrite (nth_map_range _ undefined (List.length vs) j Hj).
Qed.

Lemma New_formatVectors_fractions (this : New.MatrixOperations) (vecs : list Vector) :
  Forall (Forall posEntry) vecs ->
  exists ts, New.formatVectors this vecs = Ret ts /\ List.length ts = List.length vecs.
Proof.
  intros Hv.
  destruct (New_formatVectors_rational this vecs) as (ts & Hts).
  - eapply Forall_impl; [|exact Hv]. intros vec Hvec.
    eapply Forall_impl; [|exact Hvec]. intros [f|]; cbn; [|contradiction].
    unfold positiveFraction. lia.
  - exists ts. split; [assumption|]. unfold New.formatVectors in Hts.
    now apply mapM_length in Hts.
Qed.

Lemma fractions_posEntry (v : list Fraction) :
  Forall positiveFraction v -> Forall posEntry (fractions v).
Proof.
  intros Hv. unfold fractions. apply Forall_forall. intros x Hx.
  apply in_map_iff in Hx as (f & <- & Hf).
  now apply (proj1 (Forall_forall _ _) Hv).
Qed.



(** ** Products of matrices *)

Lemma cell_repeat (v : Scalar) (m n r c : nat) :
  (r < m)%nat -> (c < n)%nat -> cell (repeat (repeat v n) m) r c = v.
Proof.
  intros Hr Hc. unfold cell.
  rewrite (nth_indep _ [] (repeat v n)) by now rewrite repeat_length.
  rewrite nth_repeat. rewrite (nth_indep _ undefined v) by now rewrite repeat_length.
  apply nth_repeat.
Qed.

Lemma posMatrix_repeat (f : Fraction) (m n : nat) :
  positiveFraction f -> posMatrix m n (repeat (repeat (SFrac f) n) m).
Proof.
  intros Hf. split; [apply repeat_length|].
  apply Forall_forall. intros row Hrow. apply repeat_spec in Hrow. subst row.
  split; [apply repeat_length|].
  apply Forall_forall. intros v Hv. apply repeat_spec in Hv. now subst v.
Qed.

Lemma New_Fraction_of_zero : New.Fraction_of_number 0 = Ret zeroFraction.
Proof. vm_compute. reflexivity. Qed.

(** The loop on [k]: entry [(i, j)] collects the products. *)
Lemma New_multiply_entry (this : New.MatrixOperations) (m k n i j : nat)
  (A B R : Matrix) :
  posMatrix m k A -> posMatrix k n B -> posMatrix m n R ->
  (i < m)%nat -> (j < n)%nat ->
  exists R',
    foldM (fun l result =>
             let* product := New.productOf this (cell A i l) (cell B l j) in
             let* v := New.accumulate (cell result i j) product in
             Ret (set_cell result i j v)) (range 0 k) R = Ret R'
    /\ posMatrix m n R'
    /\ (forall r c, r <> i \/ c <> j -> cell R' r c = cell R r c)
    /\ Qeq (val R' i j) (val R i j + productQ A B k i j)%Q
    /\ ((0 < k)%nat -> lowest (entry R' i j)).
Proof.
  intros HA HB HR Hi Hj.
  destruct (foldM_range_inv
              (fun l R' => posMatrix m n R'
                           /\ (forall r c, r <> i \/ c <> j -> cell R' r c = cell R r c)
                           /\ Qeq (val R' i j) (val R i j + productQ A B l i j)%Q
                           /\ ((0 < l)%nat -> lowest (entry R' i j)))
              (fun l result =>
                 let* product := New.productOf this (cell A i l) (cell B l j) in
                 let* v := New.accumulate (cell result i j) product in
                 Ret (set_cell result i j v)) 0 k ltac:(lia)) with (s := R)
    as (R' & HR' & Hinv).
  - intros l S [_ Hl] (HS & Hother & Hval & _).
    destruct (posMatrix_cell m k A i l HA Hi Hl) as [Ea Pa].
    destruct (posMatrix_cell k n B l j HB Hl Hj) as [Eb Pb].
    destruct (posMatrix_cell m n S i j HS Hi Hj) as [Es Ps].
    rewrite Ea, Eb, Es. cbn [New.productOf].
    rewrite New_multiply_Old by assumption. cbn [bind New.accumulate].
    rewrite New_add_Old by (try assumption; apply lowest_positive, Old_multiply_lowest).
    cbn [bind]. eexists. split; [reflexivity|].
    split; [|split; [|split]].
    + apply posMatrix_set_cell; try assumption. apply lowest_positive, Old_add_lowest.
    + intros r c Hrc. rewrite cell_set_cell_other by assumption. now apply Hother.
    + unfold val at 1. rewrite (entry_set_cell_same m n) by assumption.
      rewrite Qof_Old_add by (try assumption; apply lowest_positive, Old_multiply_lowest).
      rewrite Qof_Old_multiply by assumption.
      fold (val S i j). rewrite Hval. unfold productQ. cbn [sumQ].
      unfold val. ring.
    + intros _. rewrite (entry_set_cell_same m n) by assumption. apply Old_add_lowest.
  - split; [assumption|]. split; [reflexivity|]. split.
    + unfold productQ. cbn [sumQ]. ring.
    + intros H; lia.
  - exists R'. tauto.
Qed.

(** The loop on [j]: row [i] of the result. *)
Lemma New_multiply_row (this : New.MatrixOperations) (m k n i : nat) (A B R : Matrix) :
  posMatrix m k A -> posMatrix k n B -> posMatrix m n R -> (i < m)%nat ->
  exists R',
    foldM (fun j result =>
             foldM (fun l result =>
                      let* product := New.productOf this (cell A i l) (cell B l j) in
                      let* v := New.accumulate (cell result i j) product in
                      Ret (set_cell result i j v)) (range 0 k) result)
          (range 0 n) R = Ret R'
    /\ posMatrix m n R'
    /\ (forall r c, r <> i -> cell R' r c = cell R r c)
    /\ (forall c, (c < n)%nat ->
                  Qeq (val R' i c) (val R i c + productQ A B k i c)%Q
                  /\ ((0 < k)%nat -> lowest (entry R' i c))).
Proof.
  intros HA HB HR Hi.
  destruct (foldM_range_inv
              (fun j R' => posMatrix m n R'
                           /\ (forall r c, r <> i \/ (j <= c)%nat -> cell R' r c = cell R r c)
                           /\ (forall c, (c < j)%nat ->
                                         Qeq (val R' i c) (val R i c + productQ A B k i c)%Q
                                         /\ ((0 < k)%nat -> lowest (entry R' i c))))
              (fun j result =>
                 foldM (fun l result =>
                          let* product := New.productOf this (cell A i l) (cell B l j) in
                          let* v := New.accumulate (cell result i j) product in
                          Ret (set_cell result i j v)) (range 0 k) result)
              0 n ltac:(lia)) with (s := R) as (R' & HR' & Hinv).
  - intros j S [_ Hj] (HS & Hother & Hdone).
    destruct (New_multiply_entry this m k n i j A B S HA HB HS Hi Hj)
      as (S' & -> & HS' & Hother' & Hval & Hlow).
    exists S'. split; [reflexivity|]. split; [assumption|]. split.
    + intros r c Hrc. rewrite Hother' by lia. apply Hother. lia.
    + intros c Hc. destruct (Nat.eq_dec c j) as [->|Hne].
      * split; [|assumption]. rewrite Hval.
        rewrite (val_cell R S i j i j) by (apply Hother; lia). reflexivity.
      * rewrite (val_cell S S' i c i c) by (apply Hother'; lia).
        unfold entry. rewrite Hother' by lia. apply Hdone. lia.
  - split; [assumption|]. split; [reflexivity|]. intros c Hc. lia.
  - destruct Hinv as (H1 & H2 & H3). exists R'. split; [assumption|].
    split; [assumption|]. split; [|assumption].
    intros r c Hr. apply H2. now left.
Qed.

(** The three loops from the matrix of zeros *)
Lemma New_multiply_loops (this : New.MatrixOperations) (m k n : nat) (A B : Matrix) :
  posMatrix m k A -> posMatrix k n B -> (0 < k)%nat ->
  exists C,
    foldM (fun i result =>
             foldM (fun j result =>
                      foldM (fun l result =>
                               let* product := New.productOf this (cell A i l) (cell B l j) in
                               let* v := New.accumulate (cell result i j) product in
                               Ret (set_cell result i j v)) (range 0 k) result)
                   (range 0 n) result)
          (range 0 m) (repeat (repeat (SFrac zeroFraction) n) m) = Ret C
    /\ posMatrix m n C
    /\ (forall i j, (i < m)%nat -> (j < n)%nat ->
                    lowest (entry C i j) /\ Qeq (val C i j) (productQ A B k i j)).
Proof.
  intros HA HB Hk.
  set (Z := repeat (repeat (SFrac zeroFraction) n) m).
  assert (HZ : posMatrix m n Z).
  { apply posMatrix_repeat. unfold positiveFraction, zeroFraction. cbn. lia. }
  destruct (foldM_range_inv
              (fun i R => posMatrix m n R
                          /\ (forall r c, (i <= r)%nat -> cell R r c = cell Z r c)
                          /\ (forall r c, (r < i)%nat -> (c < n)%nat ->
                                          lowest (entry R r c)
                                          /\ Qeq (val R r c) (productQ A B k r c)))
              (fun i result =>
                 foldM (fun j result =>
                          foldM (fun l result =>
                                   let* product :=
                                     New.productOf this (cell A i l) (cell B l j) in
                                   let* v := New.accumulate (cell result i j) product in
                                   Ret (set_cell result i j v)) (range 0 k) result)
                       (range 0 n) result)
              0 m ltac:(lia)) with (s := Z) as (C & HC & Hinv).
  - intros i S [_ Hi] (HS & Hrest & Hdone).
    destruct (New_multiply_row this m k n i A B S HA HB HS Hi)
      as (S' & -> & HS' & Hother & Hrow).
    exists S'. split; [reflexivity|]. split; [assumption|]. split.
    + intros r c Hr. rewrite Hother by lia. apply Hrest. lia.
    + intros r c Hr Hc. destruct (Nat.eq_dec r i) as [->|Hne].
      * destruct (Hrow c Hc) as [Hval Hlow]. split; [now apply Hlow|].
        rewrite Hval. rewrite (val_cell Z S i c i c) by (apply Hrest; lia).
        rewrite (val_cell_frac Z i c zeroFraction) by (now apply cell_repeat).
        rewrite Qof_zero. ring.
      * rewrite (val_cell S S' r c r c) by now apply Hother.
        unfold entry. rewrite Hother by assumption. apply Hdone; lia.
  - split; [assumption|]. split; [reflexivity|]. intros r c Hr. lia.
  - exists C. tauto.
Qed.

Lemma New_formatNumber_rational (this : New.MatrixOperations) (f : Fraction) :
  New.formatNumber this (New.VScalar (SFrac f)) New.rational
  = Ret (New.Text (New.toString f)).
Proof.
  cbn. unfold New.toString. now destruct (denominator f =? 1).
Qed.

Lemma New_formatVectors_text (this : New.MatrixOperations) (C : Matrix) :
  New.formatType this = New.rational -> Forall (Forall posEntry) C ->
  New.formatVectors this C = Ret (textOf C).
Proof.
  intros Hfmt HC. unfold New.formatVectors, textOf.
  induction HC as [|row C Hrow HC IH]; [reflexivity|].
  cbn [mapM map].
  assert (E : New.formatVector this row
              = Ret (map (fun v => match v with
                                   | SFrac f => New.Text (New.toString f)
                                   | SNum x => New.Printed x
                                   end) row)).
  { unfold New.formatVector. rewrite Hfmt.
    induction Hrow as [|v row Hv Hrow IHrow]; [reflexivity|].
    cbn [mapM map]. destruct v as [f|x]; [|contradiction].
    rewrite New_formatNumber_rational. cbn [bind]. now rewrite IHrow. }
  rewrite E. cbn [bind]. now rewrite IH.
Qed.

Lemma posMatrix_entries (m n : nat) (M : Matrix) :
  posMatrix m n M -> Forall (Forall posEntry) M.
Proof.
  intros [_ H]. eapply Forall_impl; [|exact H]. now intros row [_ Hrow].
Qed.

Lemma mapM_convert_fractions (this : New.MatrixOperations) (M : Matrix) :
  Forall (Forall posEntry) M ->
  mapM (mapM (New.convertToAppropriateType this)) M = Ret M.
Proof.
  intros HM. apply mapM_Ret_id. intros row Hrow. apply mapM_Ret_id. intros v Hv.
  rewrite Forall_forall in HM. specialize (HM row Hrow).
  rewrite Forall_forall in HM. specialize (HM v Hv).
  destruct v; [reflexivity | contradiction].
Qed.

(** The call on arguments that [convertToAppropriateType] turns into the
    matrices [A] and [B] of Fractions *)
Lemma New_multiplyMatrices_converted (this : New.MatrixOperations) (m k n : nat)
  (A0 B0 A B : Matrix) :
  New.useFractions this = true ->
  (0 < m)%nat -> (0 < k)%nat -> (0 < n)%nat ->
  List.length A0 = m -> List.length (nth 0 A0 []) = k ->
  List.length B0 = k -> List.length (nth 0 B0 []) = n ->
  mapM (mapM (New.convertToAppropriateType this)) A0 = Ret A ->
  mapM (mapM (New.convertToAppropriateType this)) B0 = Ret B ->
  posMatrix m k A -> posMatrix k n B ->
  exists C ts,
    New.multiplyMatrices this A0 B0 = Ret ts
    /\ New.formatVectors this C = Ret ts
    /\ (New.formatType this = New.rational -> ts = textOf C)
    /\ posMatrix m n C
    /\ (forall i j, (i < m)%nat -> (j < n)%nat ->
                    lowest (entry C i j) /\ Qeq (val C i j) (productQ A B k i j)).
Proof.
  intros Hfrac Hm Hk Hn HlenA HA0 HlenB HB0 EA EB HA HB.
  destruct A0 as [|a0 A']; [cbn in HlenA; lia|].
  destruct B0 as [|b0 B']; [cbn in HlenB; lia|].
  cbn [nth] in HA0, HB0.
  unfold New.multiplyMatrices. rewrite HA0, HB0, HlenA, HlenB.
  destruct (Nat.eqb_spec k 0); [lia|]. destruct (Nat.eqb_spec n 0); [lia|].
  rewrite Nat.eqb_refl. cbn [negb]. rewrite EA, EB.
  cbn [bind]. rewrite Hfrac, New_Fraction_of_zero. cbn [bind].
  destruct (New_multiply_loops this m k n A B HA HB Hk) as (C & -> & HC & Hval).
  cbn [bind].
  destruct (New_formatVectors_fractions this C (posMatrix_entries m n C HC))
    as (ts & Hts & _).
  exists C, ts. split; [assumption|]. split; [assumption|].
  split; [|split; assumption].
  intros Hfmt. rewrite (New_formatVectors_text this C Hfmt) in Hts
    by now apply (posMatrix_entries m n).
  now injection Hts.
Qed.



(** ** The identity matrix *)

Lemma New_convert_unit (this : New.MatrixOperations) (b : bool) :
  New.useFractions this = true ->
  New.convertToAppropriateType this (SNum (if b then 1 else 0)%float)
  = Ret (SFrac (if b then oneFraction else zeroFraction)).
Proof.
  intros Hfrac. unfold New.convertToAppropriateType. rewrite Hfrac.
  destruct b; vm_compute; reflexivity.
Qed.

Lemma mapM_map_Ret {A B C : Type} (f : B -> outcome C) (g : A -> B) (h : A -> C)
  (l : list A) :
  (forall x, In x l -> f (g x) = Ret (h x)) -> mapM f (map g l) = Ret (map h l).
Proof.
  induction l as [|x l IH]; intros H; [reflexivity|].
  cbn [map mapM]. rewrite H by now left. cbn [bind].
  rewrite IH by (intros y Hy; apply H; now right). reflexivity.
Qed.

Lemma New_convert_identity (this : New.MatrixOperations) (size : nat) :
  New.useFractions this = true ->
  mapM (mapM (New.convertToAppropriateType this)) (New.createIdentityMatrix size)
  = Ret (identityFractions size).
Proof.
  intros Hfrac. unfold New.createIdentityMatrix, identityFractions.
  apply mapM_map_Ret. intros i _.
  apply mapM_map_Ret. intros j _. now apply New_convert_unit.
Qed.

Lemma identityFractions_cell (size i j : nat) :
  (i < size)%nat -> (j < size)%nat ->
  cell (identityFractions size) i j
  = SFrac (if (j =? i)%nat then oneFraction else zeroFraction).
Proof.
  intros Hi Hj. unfold cell, identityFractions, Vector.
  rewrite (nth_map_range _ [] size i Hi).
  now rewrite (nth_map_range _ undefined size j Hj).
Qed.

Lemma identityFractions_posMatrix (size : nat) :
  posMatrix size size (identityFractions size).
Proof.
  unfold identityFractions. split.
  - now rewrite length_map, range_length, Nat.sub_0_r.
  - apply Forall_forall. intros row Hrow. apply in_map_iff in Hrow as (i & <- & _).
    split; [now rewrite length_map, range_length, Nat.sub_0_r|].
    apply Forall_forall. intros v Hv. apply in_map_iff in Hv as (j & <- & _).
    destruct (j =? i)%nat; unfold posEntry, positiveFraction; cbn; lia.
Qed.

Lemma identityFractions_val (size i j : nat) :
  (i < size)%nat -> (j < size)%nat ->
  Qeq (val (identityFractions size) i j) (if (j =? i)%nat then 1 else 0)%Q.
Proof.
  intros Hi Hj. rewrite (val_cell_frac _ i j _ (identityFractions_cell size i j Hi Hj)).
  now destruct (j =? i)%nat.
Qed.

(** Two matrices of one size with the same cells *)
Lemma matrix_ext (m n : nat) (M N : Matrix) :
  List.length M = m -> List.length N = m ->
  Forall (fun row => List.length row = n) M ->
  Forall (fun row => List.length row = n) N ->
  (forall i j, (i < m)%nat -> (j < n)%nat -> cell M i j = cell N i j) ->
  M = N.
Proof.
  intros HM HN HrM HrN Hcell.
  apply (nth_ext M N [] []); [lia|]. intros i Hi.
  assert (Hi' : (i < m)%nat) by lia.
  apply (nth_ext _ _ undefined undefined).
  - pose proof (nth_Forall _ M i [] HrM ltac:(lia)) as E1.
    pose proof (nth_Forall _ N i [] HrN ltac:(lia)) as E2.
    cbn beta in E1, E2. now rewrite E1, E2.
  - intros j Hj.
    pose proof (nth_Forall _ M i [] HrM ltac:(lia)) as E1. cbn beta in E1.
    rewrite E1 in Hj. now apply Hcell.
Qed.

Lemma posMatrix_rows (m n : nat) (M : Matrix) :
  posMatrix m n M -> Forall (fun row => List.length row = n) M.
Proof. intros [_ H]. eapply Forall_impl; [|exact H]. now intros row [Hrow _]. Qed.

Lemma posMatrix_ext (m n : nat) (M N : Matrix) :
  posMatrix m n M -> posMatrix m n N ->
  (forall i j, (i < m)%nat -> (j < n)%nat ->
               lowest (entry M i j) /\ lowest (entry N i j)
               /\ Qeq (val M i j) (val N i j)) ->
  M = N.
Proof.
  intros HM HN H.
  apply (matrix_ext m n); try (apply HM || apply HN);
    try now apply (posMatrix_rows m n).
  intros i j Hi Hj. destruct (H i j Hi Hj) as (LM & LN & E).
  destruct (posMatrix_cell m n M i j HM Hi Hj) as [-> _].
  destruct (posMatrix_cell m n N i j HN Hi Hj) as [-> _].
  f_equal. now apply lowest_Qof_inj.
Qed.

Lemma createIdentityMatrix_shape (size : nat) :
  (0 < size)%nat ->
  List.length (New.createIdentityMatrix size) = size
  /\ List.length (nth 0 (New.createIdentityMatrix size) []) = size.
Proof.
  intros H. unfold New.createIdentityMatrix. split.
  - now rewrite length_map, range_length, Nat.sub_0_r.
  - unfold Vector. rewrite (nth_map_range _ [] size 0 H).
    now rewrite length_map, range_length, Nat.sub_0_r.
Qed.

(** The identity matrix of [createIdentityMatrix] is neutral for
    [multiplyMatrices] in fraction mode: the product of a matrix of
    Fractions in lowest terms with the identity matrix, on either side, is
    the formatted matrix itself.  The numbers 0 and 1 of the identity
    matrix become the Fractions 0/1 and 1/1 on the way. *)
Theorem New_multiplyMatrices_identity (this : New.MatrixOperations) (m n : nat)
  (A : Matrix) :
  New.useFractions this = true ->
  (0 < m)%nat -> (0 < n)%nat -> posMatrix m n A ->
  (forall i j, (i < m)%nat -> (j < n)%nat -> lowest (entry A i j)) ->
  New.multiplyMatrices this A (New.createIdentityMatrix n) = New.formatVectors this A
  /\ New.multiplyMatrices this (New.createIdentityMatrix m) A = New.formatVectors this A
  /\ exists ts, New.formatVectors this A = Ret ts.
Proof.
  intros Hfrac Hm Hn HA Hlow.
  destruct (posMatrix_row m n A 0 HA Hm) as [HA0 _].
  assert (HlenA : List.length A = m) by apply HA.
  pose proof (mapM_convert_fractions this A (posMatrix_entries m n A HA)) as EA.
  split; [|split].
  - destruct (createIdentityMatrix_shape n Hn) as [HI HI0].
    destruct (New_multiplyMatrices_converted this m n n A (New.createIdentityMatrix n)
                A (identityFractions n) Hfrac Hm Hn Hn HlenA HA0 HI HI0 EA
                (New_convert_identity this n Hfrac) HA (identityFractions_posMatrix n))
      as (C & ts & -> & Hts & _ & HC & Hval).
    + rewrite <- Hts. f_equal.
      apply (posMatrix_ext m n); try assumption.
      intros i j Hi Hj. destruct (Hval i j Hi Hj) as [LC VC].
      split; [assumption|]. split; [now apply Hlow|].
      rewrite VC. unfold productQ.
      rewrite (sumQ_single _ n j Hj).
      * rewrite identityFractions_val by assumption. rewrite Nat.eqb_refl. ring.
      * intros c Hc Hne. rewrite identityFractions_val by assumption.
        destruct (Nat.eqb_spec j c); [congruence|]. ring.
  - destruct (createIdentityMatrix_shape m Hm) as [HI HI0].
    destruct (New_multiplyMatrices_converted this m m n (New.createIdentityMatrix m) A
                (identityFractions m) A Hfrac Hm Hm Hn HI HI0 HlenA HA0
                (New_convert_identity this m Hfrac) EA (identityFractions_posMatrix m) HA)
      as (C & ts & -> & Hts & _ & HC & Hval).
    + rewrite <- Hts. f_equal.
      apply (posMatrix_ext m n); try assumption.
      intros i j Hi Hj. destruct (Hval i j Hi Hj) as [LC VC].
      split; [assumption|]. split; [now apply Hlow|].
      rewrite VC. unfold productQ.
      rewrite (sumQ_single _ m i Hi).
      * rewrite identityFractions_val by assumption. rewrite Nat.eqb_refl. ring.
      * intros c Hc Hne. rewrite identityFractions_val by assumption.
        destruct (Nat.eqb_spec c i); [congruence|]. ring.
  - destruct (New_formatVectors_fractions this A (posMatrix_entries m n A HA))
      as (ts & Hts & _).
    now exists ts.
Qed.

Lemma New_multiplyMatrices_identity_witness :
  New.multiplyMatrices New.engine
    [[SFrac (mkFraction 1 2); SFrac (mkFraction 1 3)]] (New.createIdentityMatrix 2)
  = New.formatVectors New.engine [[SFrac (mkFraction 1 2); SFrac (mkFraction 1 3)]].
Proof.
  assert (HA : posMatrix 1 2 [[SFrac (mkFraction 1 2); SFrac (mkFraction 1 3)]]).
  { split; [reflexivity|]. repeat constructor. }
  assert (Hlow : forall i j, (i < 1)%nat -> (j < 2)%nat ->
                   lowest (entry [[SFrac (mkFraction 1 2); SFrac (mkFraction 1 3)]] i j)).
  { intros [|i] [|[|j]] Hi Hj; try lia; unfold lowest, reduced; cbn; lia. }
  exact (proj1 (New_multiplyMatrices_identity New.engine 1 2
                  [[SFrac (mkFraction 1 2); SFrac (mkFraction 1 3)]]
                  eq_refl ltac:(lia) ltac:(lia) HA Hlow)).
Defined.

(** ** Inverses *)

Lemma foldM_ext {A St : Type} (f g : A -> St -> outcome St) (l : list A) :
  (forall x s, f x s = g x s) -> forall s, foldM f l s = foldM g l s.
Proof.
  intros H. induction l as [|x l IH]; intros s; [reflexivity|].
  cbn [foldM]. rewrite H. destruct (g x s); cbn [bind]; auto.
Qed.

(** [row j -= factor * row i] on all the columns, as in [calculateInverse] *)
Lemma New_inverse_row_exact (this : New.MatrixOperations) (m n i j : nat)
  (ff : Fraction) (M : Matrix) :
  posMatrix m n M -> (i < m)%nat -> (j < m)%nat -> i <> j -> positiveFraction ff ->
  exists M',
    foldM (fun k augMatrix =>
             let* product := New.productOf this (SFrac ff) (cell augMatrix i k) in
             let* v := New.minus this (cell augMatrix j k) product in
             Ret (set_cell augMatrix j k v)) (range 0 n) M = Ret M'
    /\ posMatrix m n M'
    /\ (forall r c, r <> j -> cell M' r c = cell M r c)
    /\ (forall c, (c < n)%nat ->
                  Qeq (val M' j c) (val M j c - Qof ff * val M i c)%Q).
Proof.
  intros HM Hi Hj Hij Hff.
  rewrite (foldM_ext _
             (fun k augMatrix =>
                let* v := (let* product :=
                             New.productOf this (SFrac ff) (cell augMatrix i k) in
                           New.minus this (cell augMatrix j k) product) in
                Ret (set_cell augMatrix j k v)))
    by (intros k s; destruct (New.productOf this (SFrac ff) (cell s i k)); reflexivity).
  destruct (rowLoop_exact
              (fun k augMatrix =>
                 let* product := New.productOf this (SFrac ff) (cell augMatrix i k) in
                 New.minus this (cell augMatrix j k) product)
              (fun k => Old.subtract (entry M j k) (Old.multiply ff (entry M i k)))
              m n j 0 M HM Hj ltac:(lia)) as (M' & HM' & Hpos & Hsame & Hrow).
  - intros k Mk Hk HMk Hsame.
    rewrite (Hsame j k) by lia. rewrite (Hsame i k) by (intros [E _]; now apply Hij).
    destruct (posMatrix_cell m n M j k HM Hj ltac:(lia)) as [-> Hpj].
    destruct (posMatrix_cell m n M i k HM Hi ltac:(lia)) as [-> Hpi].
    cbn [New.productOf]. rewrite New_multiply_Old by assumption. cbn [bind New.minus].
    rewrite New_subtract_Old
      by (try assumption; apply lowest_positive, Old_multiply_lowest).
    cbn [bind]. split; [reflexivity|]. apply lowest_positive, Old_subtract_lowest.
  - exists M'. split; [assumption|]. split; [assumption|]. split.
    + intros r c Hr. apply Hsame. intros [E _]. now apply Hr.
    + intros c Hc. rewrite (val_cell_frac _ _ _ _ (Hrow c ltac:(lia))).
      destruct (posMatrix_cell m n M j c HM Hj Hc) as [_ Hp1].
      destruct (posMatrix_cell m n M i c HM Hi Hc) as [_ Hp2].
      rewrite Qof_Old_subtract, Qof_Old_multiply
        by (try assumption; apply lowest_positive, Old_multiply_lowest).
      reflexivity.
Qed.

(** The elimination of column [i] from the rows other than [i] *)
Lemma New_inverse_eliminate_exact (this : New.MatrixOperations) (m n i : nat)
  (M : Matrix) :
  posMatrix m n M -> (i < m)%nat -> (i < n)%nat ->
  exists M',
    foldM (fun j augMatrix =>
             if (j =? i)%nat then Ret augMatrix
             else
               foldM (fun k augMatrix' =>
                        let* product :=
                          New.productOf this (cell augMatrix j i) (cell augMatrix' i k) in
                        let* v := New.minus this (cell augMatrix' j k) product in
                        Ret (set_cell augMatrix' j k v))
                     (range 0 n) augMatrix)
          (range 0 m) M = Ret M'
    /\ posMatrix m n M'
    /\ (forall c, cell M' i c = cell M i c)
    /\ (forall r c, (r < m)%nat -> r <> i -> (c < n)%nat ->
                    Qeq (val M' r c) (val M r c - val M r i * val M i c)%Q).
Proof.
  intros HM Hi Hin.
  destruct (foldM_range_inv
              (fun k Mk => posMatrix m n Mk
                           /\ (forall r c, (k <= r)%nat \/ r = i -> cell Mk r c = cell M r c)
                           /\ (forall r c, (r < k)%nat -> r <> i -> (c < n)%nat ->
                                           Qeq (val Mk r c)
                                               (val M r c - val M r i * val M i c)%Q))
              (fun j augMatrix =>
                 if (j =? i)%nat then Ret augMatrix
                 else
                   foldM (fun k augMatrix' =>
                            let* product :=
                              New.productOf this (cell augMatrix j i)
                                            (cell augMatrix' i k) in
                            let* v := New.minus this (cell augMatrix' j k) product in
                            Ret (set_cell augMatrix' j k v))
                         (range 0 n) augMatrix)
              0 m ltac:(lia)) with (s := M) as (M' & HM' & Hinv).
  - intros k Mk [_ Hk] (HMk & Hsame & Hdone).
    destruct (Nat.eqb_spec k i) as [->|Hki].
    + eexists; split; [reflexivity|]. split; [assumption|]. split.
      * intros r c Hr. apply Hsame. lia.
      * intros r c Hr Hri Hc. apply Hdone; [lia | assumption | assumption].
    + assert (Hki' : cell Mk k i = cell M k i) by (apply Hsame; lia).
      destruct (posMatrix_cell m n M k i HM Hk Hin) as [Eki Hpos].
      rewrite Hki', Eki.
      destruct (New_inverse_row_exact this m n i k (entry M k i) Mk)
        as (M2 & -> & HM2 & Hsame2 & Hrow); try assumption; try congruence.
      exists M2. split; [reflexivity|]. split; [assumption|]. split.
      * intros r c Hr. rewrite Hsame2 by lia. apply Hsame. lia.
      * intros r c Hr Hri Hc. destruct (Nat.eq_dec r k) as [->|Hrk].
        -- rewrite (Hrow c Hc).
           rewrite (val_cell M Mk k c k c) by (apply Hsame; lia).
           rewrite (val_cell M Mk i c i c) by (apply Hsame; lia).
           reflexivity.
        -- rewrite (val_cell Mk M2 r c r c) by (apply Hsame2; lia).
           apply Hdone; [lia | assumption | assumption].
  - split; [assumption|]. split; [reflexivity|]. intros r c Hr. lia.
  - destruct Hinv as (H1 & H2 & H3). exists M'. split; [assumption|].
    split; [assumption|]. split; [|assumption].
    intros c. apply H2. now right.
Qed.

Lemma swap_if_needed (m n : nat) (M : Matrix) (i p : nat) :
  posMatrix m n M -> (i < m)%nat -> (p < m)%nat ->
  posMatrix m n (if (p =? i)%nat then M else swap_rows M i p)
  /\ forall r c, cell (if (p =? i)%nat then M else swap_rows M i p) r c
                 = cell M (if (r =? i)%nat then p else if (r =? p)%nat then i else r) c.
Proof.
  intros HM Hi Hp. assert (Hlen : List.length M = m) by apply HM.
  destruct (Nat.eqb_spec p i) as [->|Hne].
  - split; [assumption|]. intros r c. now destruct (Nat.eqb_spec r i) as [->|].
  - split; [now apply posMatrix_swap_rows|].
    intros r c. apply cell_swap_rows; lia.
Qed.

Lemma Qof_positive_nonzero (f : Fraction) :
  positiveFraction f -> numerator f <> 0 -> ~ Qeq (Qof f) 0%Q.
Proof. intros _ Hn H. apply Qof_zero_iff in H. contradiction. Qed.

(** ** Sums under an exchange of two indices *)

Lemma sumQ_transpose (g : nat -> Q) (n i p : nat) :
  (i < n)%nat -> (p < n)%nat ->
  Qeq (sumQ (fun l => g (if (l =? i)%nat then p else if (l =? p)%nat then i else l)) n)
      (sumQ g n).
Proof.
  intros Hi Hp. destruct (Nat.eq_dec i p) as [->|Hne].
  - apply sumQ_ext. intros l Hl. now destruct (Nat.eqb_spec l p) as [->|].
  - set (s := fun l => if (l =? i)%nat then p else if (l =? p)%nat then i else l).
    transitivity (sumQ (fun l => g l + (g (s l) - g l))%Q n);
      [apply sumQ_ext; intros; unfold s; ring|].
    rewrite sumQ_plus.
    rewrite (sumQ_two (fun l => g (s l) - g l)%Q n i p Hi Hp Hne).
    + unfold s. rewrite Nat.eqb_refl.
      destruct (Nat.eqb_spec p i); [congruence|]. rewrite Nat.eqb_refl. ring.
    + intros c Hc Hci Hcp. unfold s.
      destruct (Nat.eqb_spec c i); [congruence|].
      destruct (Nat.eqb_spec c p); [congruence|]. ring.
Qed.

Lemma traced_swap (n w : nat) (M0 M M1 : Matrix) (i p : nat) :
  (i < n)%nat -> (p < n)%nat ->
  (forall r c, val M1 r c
               = val M (if (r =? i)%nat then p else if (r =? p)%nat then i else r) c) ->
  traced n w M0 M -> traced n w M0 M1.
Proof.
  intros Hi Hp Hval [F HF].
  exists (fun r l => F r (if (l =? i)%nat then p else if (l =? p)%nat then i else l)).
  intros r c Hr Hc. rewrite <- (HF r c Hr Hc).
  rewrite <- (sumQ_transpose (fun l => F r l * val M l c)%Q n i p Hi Hp).
  apply sumQ_ext. intros l Hl. now rewrite Hval.
Qed.

Lemma traced_scale (n w : nat) (M0 M1 M2 : Matrix) (i : nat) (q : Q) :
  (i < n)%nat -> ~ Qeq q 0%Q ->
  (forall c, (c < w)%nat -> Qeq (val M2 i c) (val M1 i c / q)%Q) ->
  (forall r c, r <> i -> val M2 r c = val M1 r c) ->
  traced n w M0 M1 -> traced n w M0 M2.
Proof.
  intros Hi Hq Hrow Hother [F HF].
  exists (fun r l => if (l =? i)%nat then (F r i * q)%Q else F r l).
  intros r c Hr Hc. rewrite <- (HF r c Hr Hc).
  apply sumQ_ext. intros l Hl. destruct (Nat.eqb_spec l i) as [->|Hli].
  - rewrite (Hrow c Hc). field. exact Hq.
  - now rewrite Hother.
Qed.

Lemma traced_eliminate (n w : nat) (M0 M2 M3 : Matrix) (i : nat) :
  (i < n)%nat -> Qeq (val M2 i i) 1%Q ->
  (forall c, val M3 i c = val M2 i c) ->
  (forall r c, (r < n)%nat -> r <> i -> (c < w)%nat ->
               Qeq (val M3 r c) (val M2 r c - val M2 r i * val M2 i c)%Q) ->
  traced n w M0 M2 -> traced n w M0 M3.
Proof.
  intros Hi Hone Hrow Helim [F HF].
  exists (fun r l => if (l =? i)%nat
                     then sumQ (fun j => F r j * val M2 j i)%Q n
                     else F r l).
  intros r c Hr Hc. rewrite <- (HF r c Hr Hc).
  set (S := sumQ (fun j => F r j * val M2 j i)%Q n).
  transitivity (sumQ (fun l => F r l * val M2 l c
                                - val M2 i c * (F r l * val M2 l i)
                                + (if (l =? i)%nat then S * val M2 i c else 0))%Q n).
  2: { rewrite sumQ_plus, sumQ_minus, sumQ_scale. fold S.
    rewrite (sumQ_single (fun l => if (l =? i)%nat then (S * val M2 i c)%Q else 0%Q) n i Hi).
    + rewrite Nat.eqb_refl. ring.
    + intros l Hl Hli. now destruct (Nat.eqb_spec l i). }
  apply sumQ_ext. intros l Hl. destruct (Nat.eqb_spec l i) as [->|Hli].
  - rewrite Hrow, Hone. ring.
  - rewrite (Helim l c Hl Hli Hc). ring.
Qed.

(** One round of the Gauss-Jordan loop of [calculateInverse] *)
Lemma New_inverseStep_exact (this : New.MatrixOperations) (n i : nat)
  (A M0 M : Matrix) :
  posMatrix n (2 * n) M -> (i < n)%nat ->
  augmented n A M -> unitColumns n i M -> traced n (2 * n) M0 M ->
  New.inverseStep this n i M = Throw NotInvertible
  \/ exists M', New.inverseStep this n i M = Ret M'
                /\ posMatrix n (2 * n) M'
                /\ augmented n A M'
                /\ unitColumns n (S i) M'
                /\ traced n (2 * n) M0 M'.
Proof.
  intros HM Hi Haug Hunit Htr. unfold New.inverseStep. cbv zeta.
  pose proof (findPivotRow_bounds M i n Hi) as Hp.
  set (p := findPivotRow M i n) in *.
  destruct (swap_if_needed n (2 * n) M i p HM Hi ltac:(lia)) as [HM1 Hcell1].
  set (M1 := if (p =? i)%nat then M else swap_rows M i p) in *.
  set (sigma := fun r => if (r =? i)%nat then p else if (r =? p)%nat then i else r).
  assert (Hsigma : forall r, (r < n)%nat -> (sigma r < n)%nat).
  { intros r Hr. unfold sigma. destruct (r =? i)%nat; [lia|].
    destruct (r =? p)%nat; lia. }
  assert (Hval1 : forall r c, val M1 r c = val M (sigma r) c).
  { intros r c. apply val_cell. apply Hcell1. }
  assert (Haug1 : augmented n A M1).
  { intros r c Hr Hc. rewrite Hval1. rewrite <- (Haug (sigma r) c (Hsigma r Hr) Hc).
    apply sumQ_ext. intros l Hl. now rewrite Hval1. }
  assert (Hunit1 : unitColumns n i M1).
  { intros r c Hr Hc. rewrite Hval1. rewrite (Hunit (sigma r) c (Hsigma r Hr) Hc).
    unfold sigma. destruct (Nat.eqb_spec r i) as [->|Hri].
    - destruct (Nat.eqb_spec c p); [lia|]. destruct (Nat.eqb_spec c i); [lia|]. reflexivity.
    - destruct (Nat.eqb_spec r p) as [->|Hrp]; [|reflexivity].
      destruct (Nat.eqb_spec c i); [lia|]. destruct (Nat.eqb_spec c p); [lia|]. reflexivity. }
  destruct (posMatrix_cell n (2 * n) M1 i i HM1 Hi ltac:(lia)) as [Epivot Hpivot].
  rewrite Epivot. cbn [New.isZero].
  destruct (Z.eqb_spec (numerator (entry M1 i i)) 0) as [Hz|Hnz]; [now left|].
  right.
  set (pf := entry M1 i i) in *.
  pose proof (Qof_positive_nonzero pf Hpivot Hnz) as Hq.
  destruct (New_normalizeRow_exact this n (2 * n) i 0 pf M1 HM1 Hi Hnz ltac:(lia))
    as (M2 & -> & HM2 & Hsame2 & Hrow2).
  cbn [bind].
  destruct (New_inverse_eliminate_exact this n (2 * n) i M2 HM2 Hi ltac:(lia))
    as (M3 & -> & HM3 & Hrow3 & Helim3).
  exists M3. split; [reflexivity|]. split; [assumption|].
  assert (Hval2i : forall c, (c < 2 * n)%nat -> Qeq (val M2 i c) (val M1 i c / Qof pf)%Q).
  { intros c Hc. rewrite (val_cell_frac _ _ _ _ (Hrow2 c ltac:(lia))).
    destruct (posMatrix_cell n (2 * n) M1 i c HM1 Hi Hc) as [_ Hpos].
    now rewrite Qof_quotientOf. }
  assert (Hval2 : forall r c, r <> i -> val M2 r c = val M1 r c).
  { intros r c Hr. apply val_cell. apply Hsame2. intros [E _]. now apply Hr. }
  assert (Hval3i : forall c, val M3 i c = val M2 i c).
  { intros c. apply val_cell. apply Hrow3. }
  assert (Haug2 : augmented n A M2).
  { intros r c Hr Hc. destruct (Nat.eq_dec r i) as [->|Hri].
    - rewrite Hval2i by lia. rewrite <- (Haug1 i c Hi Hc).
      rewrite (sumQ_ext _ (fun l => (/ Qof pf) * (val M1 i (n + l) * val A l c))%Q).
      + rewrite sumQ_scale. field. exact Hq.
      + intros l Hl. rewrite Hval2i by lia. field. exact Hq.
    - rewrite Hval2 by assumption. rewrite <- (Haug1 r c Hr Hc).
      apply sumQ_ext. intros l Hl. now rewrite Hval2. }
  assert (Hunit2 : forall r c, (r < n)%nat -> (c < i)%nat ->
                               Qeq (val M2 r c) (if (c =? r)%nat then 1 else 0)%Q).
  { intros r c Hr Hc. destruct (Nat.eq_dec r i) as [->|Hri].
    - rewrite Hval2i by lia. rewrite (Hunit1 i c Hi Hc).
      destruct (Nat.eqb_spec c i); [lia|]. field. exact Hq.
    - rewrite Hval2 by assumption. now apply Hunit1. }
  assert (Hone : Qeq (val M2 i i) 1%Q).
  { rewrite Hval2i by lia. unfold val. fold pf. field. exact Hq. }
  split; [|split].
  3: { apply (traced_eliminate n (2 * n) M0 M2 M3 i Hi Hone Hval3i Helim3).
       apply (traced_scale n (2 * n) M0 M1 M2 i (Qof pf) Hi Hq Hval2i Hval2).
       apply (traced_swap n (2 * n) M0 M M1 i p Hi ltac:(lia) Hval1 Htr). }
  - intros r c Hr Hc. destruct (Nat.eq_dec r i) as [->|Hri].
    + rewrite Hval3i. rewrite <- (Haug2 i c Hi Hc).
      apply sumQ_ext. intros l Hl. now rewrite Hval3i.
    + rewrite (Helim3 r c Hr Hri ltac:(lia)).
      rewrite <- (Haug2 r c Hr Hc), <- (Haug2 i c Hi Hc).
      rewrite <- sumQ_scale, <- sumQ_minus.
      apply sumQ_ext. intros l Hl. rewrite (Helim3 r (n + l)%nat Hr Hri ltac:(lia)).
      ring.
  - intros r c Hr Hc. destruct (Nat.eq_dec r i) as [->|Hri].
    + rewrite Hval3i. destruct (Nat.eq_dec c i) as [->|Hci].
      * rewrite Nat.eqb_refl. exact Hone.
      * apply Hunit2; lia.
    + rewrite (Helim3 r c Hr Hri ltac:(lia)).
      destruct (Nat.eq_dec c i) as [->|Hci].
      * rewrite Hone. destruct (Nat.eqb_spec i r); [congruence|]. ring.
      * rewrite (Hunit2 r c Hr ltac:(lia)), (Hunit2 i c Hi ltac:(lia)).
        destruct (Nat.eqb_spec c i); [lia|]. ring.
Qed.

Lemma foldM_range_or {St : Type} (P : nat -> St -> Prop)
  (body : nat -> St -> outcome St) (e : JsError) (lo hi : nat) :
  (lo <= hi)%nat ->
  (forall k s, (lo <= k < hi)%nat -> P k s ->
               body k s = Throw e \/ exists s', body k s = Ret s' /\ P (S k) s') ->
  forall s, P lo s ->
            foldM body (range lo hi) s = Throw e
            \/ exists s', foldM body (range lo hi) s = Ret s' /\ P hi s'.
Proof.
  intros Hle. unfold range.
  remember (hi - lo)%nat as d eqn:Hd. revert lo Hle Hd.
  induction d as [|d IH]; intros lo Hle Hd Hbody s Hs.
  - cbn. replace hi with lo by lia. eauto.
  - cbn [seq foldM].
    destruct (Hbody lo s ltac:(lia) Hs) as [->|(s1 & -> & Hs1)]; [now left|].
    cbn [bind].
    apply (IH (S lo)); try lia; [|assumption].
    intros k t Hk. apply Hbody. lia.
Qed.

Lemma New_identityRow_fractions (this : New.MatrixOperations) (n i : nat) :
  New.useFractions this = true ->
  New.identityRow this n i
  = Ret (map (fun idx => SFrac (if (idx =? i)%nat then oneFraction else zeroFraction))
             (range 0 n)).
Proof.
  intros Hfrac. unfold New.identityRow.
  apply mapM_map. intros idx _. now apply New_convert_unit.
Qed.

Lemma augmentedStart_cell (n : nat) (A : Matrix) (r c : nat) :
  posMatrix n n A -> (r < n)%nat -> (c < 2 * n)%nat ->
  cell (augmentedStart n A) r c
  = if (c <? n)%nat then cell A r c
    else SFrac (if (c - n =? r)%nat then oneFraction else zeroFraction).
Proof.
  intros HA Hr Hc. unfold cell at 1, augmentedStart, Vector.
  rewrite (nth_map_range _ [] n r Hr).
  destruct (posMatrix_row n n A r HA Hr) as [Hlen _].
  destruct (Nat.ltb_spec c n) as [Hlt|Hge].
  - now rewrite app_nth1 by (unfold Vector in *; lia).
  - rewrite app_nth2 by (unfold Vector in *; lia).
    unfold Vector in *. rewrite Hlen.
    now rewrite (nth_map_range _ undefined n (c - n)) by lia.
Qed.

Lemma augmentedStart_posMatrix (n : nat) (A : Matrix) :
  posMatrix n n A -> posMatrix n (2 * n) (augmentedStart n A).
Proof.
  intros HA. split.
  - unfold augmentedStart. now rewrite length_map, range_length, Nat.sub_0_r.
  - apply Forall_forall. intros row Hrow. unfold augmentedStart in Hrow.
    apply in_map_iff in Hrow as (i & <- & Hi). apply in_range in Hi.
    destruct (posMatrix_row n n A i HA ltac:(lia)) as [Hlen Hpos]. split.
    + rewrite length_app, length_map, range_length.
      unfold Vector in *. lia.
    + apply Forall_app. split; [assumption|].
      apply Forall_forall. intros v Hv. apply in_map_iff in Hv as (idx & <- & _).
      destruct (idx =? i)%nat; unfold posEntry, positiveFraction; cbn; lia.
Qed.

Lemma augmentedStart_val (n : nat) (A : Matrix) (r c : nat) :
  posMatrix n n A -> (r < n)%nat -> (c < n)%nat ->
  val (augmentedStart n A) r c = val A r c
  /\ Qeq (val (augmentedStart n A) r (n + c)) (if (c =? r)%nat then 1 else 0)%Q.
Proof.
  intros HA Hr Hc. split.
  - apply val_cell. rewrite augmentedStart_cell by (try assumption; lia).
    destruct (Nat.ltb_spec c n); [reflexivity | lia].
  - rewrite (val_cell_frac _ r (n + c)
               (if (c =? r)%nat then oneFraction else zeroFraction)).
    + now destruct (c =? r)%nat.
    + rewrite augmentedStart_cell by (try assumption; lia).
      destruct (Nat.ltb_spec (n + c) n); [lia|].
      now replace (n + c - n)%nat with c by lia.
Qed.

Lemma sumQ_exchange (g : nat -> nat -> Q) (m n : nat) :
  Qeq (sumQ (fun c => sumQ (fun l => g l c) n) m)
      (sumQ (fun l => sumQ (fun c => g l c) m) n).
Proof.
  induction m as [|m IH]; cbn [sumQ].
  - symmetry. apply sumQ_zero. intros; reflexivity.
  - rewrite IH. rewrite <- sumQ_plus. apply sumQ_ext. intros; reflexivity.
Qed.

Lemma sumQ_scale_r (f : nat -> Q) (a : Q) (n : nat) :
  Qeq (sumQ f n * a)%Q (sumQ (fun l => f l * a)%Q n).
Proof.
  transitivity (a * sumQ f n)%Q; [ring|].
  transitivity (sumQ (fun l => a * f l)%Q n); [symmetry; apply sumQ_scale|].
  apply sumQ_ext. intros; ring.
Qed.

(** A matrix with a left inverse has only the zero vector in its kernel. *)
Lemma left_inverse_trivialKernel (n : nat) (A R : Matrix) :
  (forall i j, (i < n)%nat -> (j < n)%nat ->
               Qeq (productQ R A n i j) (if (j =? i)%nat then 1 else 0)%Q) ->
  trivialKernel n n A.
Proof.
  intros HRA x Hx j Hj.
  transitivity (sumQ (fun c => productQ R A n j c * x c)%Q n).
  - symmetry. rewrite (sumQ_single _ n j Hj).
    + rewrite (HRA j j Hj Hj), Nat.eqb_refl. ring.
    + intros c Hc Hne. rewrite (HRA j c Hj Hc).
      destruct (Nat.eqb_spec c j); [congruence|]. ring.
  - unfold productQ.
    transitivity (sumQ (fun c => sumQ (fun l => val R j l * (val A l c * x c))%Q n) n).
    { apply sumQ_ext. intros c Hc. rewrite sumQ_scale_r.
      apply sumQ_ext. intros; ring. }
    rewrite (sumQ_exchange (fun l c => val R j l * (val A l c * x c))%Q n n).
    apply sumQ_zero. intros l Hl. rewrite sumQ_scale.
    specialize (Hx l Hl). unfold rowDot in Hx. rewrite Hx. ring.
Qed.

Lemma rightHalf_cell (n : nat) (M : Matrix) (r l : nat) :
  (r < n)%nat ->
  cell (map (fun i => skipn n (nth i M [])) (range 0 n)) r l = cell M r (n + l).
Proof.
  intros Hr. unfold cell, Vector.
  rewrite (nth_map_range _ [] n r Hr). apply nth_skipn.
Qed.

Lemma rightHalf_posMatrix (n : nat) (M : Matrix) :
  posMatrix n (2 * n) M ->
  posMatrix n n (map (fun i => skipn n (nth i M [])) (range 0 n)).
Proof.
  intros HM. split.
  - now rewrite length_map, range_length, Nat.sub_0_r.
  - apply Forall_forall. intros row Hrow.
    apply in_map_iff in Hrow as (i & <- & Hi). apply in_range in Hi.
    destruct (posMatrix_row n (2 * n) M i HM ltac:(lia)) as [Hlen Hpos]. split.
    + rewrite length_skipn. unfold Vector in *. lia.
    + apply Forall_forall. intros v Hv.
      rewrite Forall_forall in Hpos. apply Hpos.
      rewrite <- (firstn_skipn n (nth i M [])). apply in_or_app. now right.
Qed.

(** The Gauss-Jordan loop of [calculateInverse] from [A | I] *)
Lemma New_inverse_loop_exact (this : New.MatrixOperations) (n : nat) (A : Matrix) :
  posMatrix n n A ->
  foldM (New.inverseStep this n) (range 0 n) (augmentedStart n A) = Throw NotInvertible
  \/ exists M, foldM (New.inverseStep this n) (range 0 n) (augmentedStart n A) = Ret M
               /\ posMatrix n (2 * n) M
               /\ augmented n A M
               /\ unitColumns n n M
               /\ traced n (2 * n) (augmentedStart n A) M.
Proof.
  intros HA.
  destruct (foldM_range_or
              (fun i M => posMatrix n (2 * n) M /\ augmented n A M /\ unitColumns n i M
                          /\ traced n (2 * n) (augmentedStart n A) M)
              (New.inverseStep this n) NotInvertible 0 n ltac:(lia))
    with (s := augmentedStart n A) as [H|(M & HM & Hinv)].
  - intros i M [_ Hi] (HM & Haug & Hunit & Htr).
    destruct (New_inverseStep_exact this n i A (augmentedStart n A) M HM Hi Haug Hunit Htr)
      as [H|(M' & HM' & H')]; [now left|].
    right. exists M'. tauto.
  - split; [now apply augmentedStart_posMatrix|]. split; [|split].
    + intros r c Hr Hc.
      rewrite (proj1 (augmentedStart_val n A r c HA Hr Hc)).
      rewrite (sumQ_single _ n r Hr).
      * rewrite (proj2 (augmentedStart_val n A r r HA Hr Hr)), Nat.eqb_refl. ring.
      * intros l Hl Hne. rewrite (proj2 (augmentedStart_val n A r l HA Hr Hl)).
        destruct (Nat.eqb_spec l r); [congruence|]. ring.
    + intros r c Hr Hc. lia.
    + exists (fun r l => if (l =? r)%nat then 1 else 0)%Q.
      intros r c Hr Hc. rewrite (sumQ_single _ n r Hr).
      * rewrite Nat.eqb_refl. ring.
      * intros l Hl Hne. destruct (Nat.eqb_spec l r); [congruence|]. ring.
  - now left.
  - right. exists M. tauto.
Qed.



(** ** Systems of linear equations *)

Lemma solves_inKernel (m n : nat) (M : Matrix) (y : nat -> Q) :
  solves m n M y
  <-> inKernel m (S n) M (fun c => if (c <? n)%nat then y c else - (1))%Q.
Proof.
  assert (E : forall r,
             Qeq (rowDot M (S n) (fun c => if (c <? n)%nat then y c else - (1))%Q r)
                 (sumQ (fun c => val M r c * y c)%Q n + val M r n * - (1))%Q).
  { intros r. unfold rowDot. cbn [sumQ]. rewrite Nat.ltb_irrefl.
    rewrite (sumQ_ext _ (fun c => val M r c * y c)%Q n); [reflexivity|].
    intros c Hc. destruct (Nat.ltb_spec c n); [reflexivity | lia]. }
  split; intros H r Hr; specialize (H r Hr).
  - rewrite E, H. ring.
  - rewrite E in H.
    transitivity (sumQ (fun c => val M r c * y c)%Q n + val M r n * - (1) + val M r n)%Q;
      [ring | rewrite H; ring].
Qed.

Lemma cell_removelast (m n : nat) (R : Matrix) (r c : nat) :
  posMatrix m (S n) R -> (r < m)%nat -> (c < n)%nat ->
  cell (map (fun row => removelast row) R) r c = cell R r c.
Proof.
  intros HR Hr Hc. unfold cell.
  change (@nil Scalar) with ((fun row : Vector => removelast row) []) at 1.
  rewrite map_nth.
  destruct (posMatrix_row m (S n) R r HR Hr) as [Hlen _].
  rewrite removelast_firstn_len. unfold Vector in *. rewrite Hlen. cbn [pred].
  rewrite nth_firstn. destruct (Nat.ltb_spec c n); [reflexivity | lia].
Qed.

Lemma rrefForm_last_pivot (m n : nat) (R : Matrix) (pivots : list nat) :
  rrefForm m (S n) R pivots ->
  (forall k, (k < List.length pivots)%nat -> (nth k pivots O < n)%nat)
  \/ ((0 < List.length pivots)%nat /\ nth (List.length pivots - 1) pivots O = n).
Proof.
  intros (Hle & Hpiv & Hinc & _).
  destruct (Nat.eq_dec (List.length pivots) 0) as [E|E]; [left; intros k Hk; lia|].
  destruct (Hpiv (List.length pivots - 1)%nat ltac:(lia)) as [Hlast _].
  destruct (Nat.eq_dec (nth (List.length pivots - 1) pivots O) n) as [En|En].
  - right. split; [lia | assumption].
  - left. intros k Hk.
    destruct (Nat.eq_dec k (List.length pivots - 1)) as [->|Hne]; [lia|].
    specialize (Hinc k (List.length pivots - 1)%nat ltac:(lia)). lia.
Qed.

(** The rank of the coefficient part of a reduced augmented matrix *)
Lemma coefficient_rank (m n : nat) (R : Matrix) (pivots : list nat) :
  (0 < m)%nat -> posMatrix m (S n) R -> rrefForm m (S n) R pivots ->
  ((forall k, (k < List.length pivots)%nat -> (nth k pivots O < n)%nat) ->
   New.calculateRank (map (fun row => removelast row) R) = List.length pivots)
  /\ ((0 < List.length pivots)%nat -> nth (List.length pivots - 1) pivots O = n ->
      New.calculateRank (map (fun row => removelast row) R)
      = (List.length pivots - 1)%nat).
Proof.
  intros Hm HR Hform. pose proof Hform as (Hle & Hpiv & Hinc & Hzero).
  assert (HmR : List.length R = m) by apply HR.
  unfold New.calculateRank, Vector in *.
  match goal with
  | |- context [List.length (nth 0 ?M [])] =>
      assert (Hn : List.length (nth 0 M []) = n)
  end.
  { change (@nil Scalar) with ((fun row : list Scalar => removelast row) []).
    rewrite map_nth. destruct (posMatrix_row m (S n) R 0 HR Hm) as [Hlen _].
    rewrite removelast_firstn_len, length_firstn. unfold Vector in *. lia. }
  rewrite Hn, length_map, HmR.
  split.
  - intros Hall. apply filter_range_count; [assumption | |].
    + intros k Hk. destruct (Hpiv k Hk) as [_ (Hone & _)].
      apply existsb_exists. exists (nth k pivots O). split.
      * apply in_range. specialize (Hall k Hk). lia.
      * rewrite (cell_removelast m n) by (try assumption; try lia; now apply Hall).
        rewrite Hone. reflexivity.
    + intros k Hk. apply not_true_is_false. intros H.
      apply existsb_exists in H as (c & Hc & Hnz). apply in_range in Hc.
      rewrite (cell_removelast m n) in Hnz by (try assumption; lia).
      rewrite Hzero in Hnz by lia. discriminate.
  - intros Hpos Hlast. apply filter_range_count; [lia | |].
    + intros k Hk. destruct (Hpiv k ltac:(lia)) as [_ (Hone & _)].
      pose proof (Hinc k (List.length pivots - 1)%nat ltac:(lia)) as Hlt.
      apply existsb_exists. exists (nth k pivots O). split.
      * apply in_range. lia.
      * rewrite (cell_removelast m n) by (try assumption; lia).
        rewrite Hone. reflexivity.
    + intros k Hk. apply not_true_is_false. intros H.
      apply existsb_exists in H as (c & Hc & Hnz). apply in_range in Hc.
      rewrite (cell_removelast m n) in Hnz by (try assumption; lia).
      destruct (Nat.eq_dec k (List.length pivots - 1)) as [->|Hne].
      * destruct (Hpiv (List.length pivots - 1)%nat ltac:(lia)) as [_ (_ & _ & Hbefore)].
        rewrite Hbefore in Hnz by lia. discriminate.
      * rewrite Hzero in Hnz by lia. discriminate.
Qed.

Lemma foldM_rev_range_inv {St : Type} (P : nat -> St -> Prop)
  (body : nat -> St -> outcome St) (m : nat) :
  (forall k s, (k < m)%nat -> P (S k) s -> exists s', body k s = Ret s' /\ P k s') ->
  forall s, P m s -> exists s', foldM body (rev (range 0 m)) s = Ret s' /\ P O s'.
Proof.
  unfold range. rewrite Nat.sub_0_r.
  induction m as [|m IH]; intros Hbody s Hs.
  - cbn. eauto.
  - rewrite seq_S, rev_app_distr. cbn [rev app Nat.add foldM].
    destruct (Hbody m s ltac:(lia) Hs) as (s1 & -> & Hs1). cbn [bind].
    apply IH; [|assumption]. intros k t Hk. apply Hbody. lia.
Qed.

(** One row of [extractSolution] on a reduced matrix whose pivots are the
    first [n] diagonal places *)
Lemma New_extractSolutionRow_exact (this : New.MatrixOperations) (m n : nat)
  (R : Matrix) (pivots : list nat) (i : nat) (solution : Vector) :
  posMatrix m (S n) R -> rrefForm m (S n) R pivots ->
  List.length pivots = n -> (forall k, (k < n)%nat -> nth k pivots O = k) ->
  (i < m)%nat -> solvedFrom n R (S i) solution ->
  exists solution', New.extractSolutionRow this R n i solution = Ret solution'
                    /\ solvedFrom n R i solution'.
Proof.
  intros HR (Hle & Hpiv & Hinc & Hzero) Hlen Hid Hi [Hsol Hdone].
  unfold New.extractSolutionRow.
  destruct (posMatrix_row m (S n) R i HR Hi) as [Hrow _].
  destruct (Nat.lt_ge_cases i n) as [Hin|Hin].
  - destruct (Hpiv i ltac:(lia)) as [_ (Hone & Hcol & Hbefore)].
    rewrite (Hid i Hin) in Hone, Hcol, Hbefore.
    rewrite (findIndexNonZero_first (nth i R []) 0 i).
    + cbn [Nat.add].
      destruct (posMatrix_cell m (S n) R i n HR Hi ltac:(lia)) as [Elast Plast].
      destruct (foldM_invariant
                  (fun sum => exists s, sum = SFrac s /\ positiveFraction s
                                        /\ Qeq (Qof s) (val R i n))
                  (fun j sum =>
                     if New.isZero (nth j solution undefined) then Ret sum
                     else New.substitute this sum (cell R i j)
                                         (nth j solution undefined))
                  (range (i + 1) n)) with (s := cell R i n)
        as (sum & -> & (s & -> & Ps & Vs)).
      * intros j sum Hj (s & -> & Ps & Vs). apply in_range in Hj.
        destruct (Hdone j ltac:(lia)) as (xj & -> & Pxj & _).
        destruct (New.isZero (SFrac xj));
          [exists (SFrac s); split; [reflexivity|]; exists s; auto|].
        destruct (posMatrix_cell m (S n) R i j HR Hi ltac:(lia)) as [Ee Pe].
        rewrite Ee. cbn [New.substitute].
        rewrite New_multiply_Old by assumption. cbn [bind].
        rewrite New_subtract_Old
          by (try assumption; apply lowest_positive, Old_multiply_lowest).
        cbn [bind]. eexists. split; [reflexivity|].
        eexists. split; [reflexivity|].
        split; [apply lowest_positive, Old_subtract_lowest|].
        rewrite Qof_Old_subtract, Qof_Old_multiply
          by (try assumption; apply lowest_positive, Old_multiply_lowest).
        rewrite Vs.
        destruct (Hpiv j ltac:(lia)) as [_ (_ & Hcolj & _)].
        rewrite (Hid j ltac:(lia)) in Hcolj.
        specialize (Hcolj i Hi ltac:(lia)).
        apply (rrefForm_val_zero m (S n) R i j HR Hi ltac:(lia)) in Hcolj.
        unfold val in Hcolj. rewrite Hcolj. ring.
      * exists (entry R i n). split; [assumption|]. split; [assumption | reflexivity].
      * cbn [bind]. eexists. split; [reflexivity|]. split.
        -- now rewrite update_length.
        -- intros j Hj. destruct (Nat.eq_dec j i) as [->|Hne].
           ++ exists s. rewrite nth_update_eq by lia. auto.
           ++ rewrite nth_update_neq by lia. apply Hdone. lia.
    + unfold Vector in *. lia.
    + intros c Hc. now apply Hbefore.
    + fold (cell R i i). rewrite Hone. reflexivity.
  - rewrite findIndexNonZero_none.
    + eexists. split; [reflexivity|]. split; [assumption|].
      intros j Hj. lia.
    + intros c Hc. fold (cell R i c). apply Hzero; unfold Vector in *; lia.
Qed.

Lemma fractions_of_entries (v : Vector) :
  (forall j, (j < List.length v)%nat -> exists f, nth j v undefined = SFrac f) ->
  v = fractions (map (fun s => match s with
                               | SFrac f => f
                               | SNum _ => zeroFraction
                               end) v).
Proof.
  induction v as [|s v IH]; intros H; [reflexivity|].
  cbn [map fractions]. f_equal.
  - destruct (H O ltac:(cbn; lia)) as (f & Hf). cbn [nth] in Hf. now rewrite Hf.
  - apply IH. intros j Hj. apply (H (S j)). cbn. lia.
Qed.

(** [extractSolution] on a reduced augmented matrix whose pivots are the
    first [n] diagonal places: the unknowns are the entries of the last
    column. *)
Lemma New_extractSolution_exact (this : New.MatrixOperations) (m n : nat)
  (R : Matrix) (pivots : list nat) :
  (0 < m)%nat -> posMatrix m (S n) R -> rrefForm m (S n) R pivots ->
  List.length pivots = n -> (forall k, (k < n)%nat -> nth k pivots O = k) ->
  exists x, New.extractSolution this R = Ret (fractions x)
            /\ List.length x = n
            /\ forall j, (j < n)%nat ->
                         positiveFraction (nth j x zeroFraction)
                         /\ Qeq (Qof (nth j x zeroFraction)) (val R j n).
Proof.
  intros Hm HR Hform Hlen Hid. unfold New.extractSolution.
  destruct (posMatrix_row m (S n) R 0 HR Hm) as [Hrow _].
  assert (HmR : List.length R = m) by apply HR.
  unfold Vector in *. rewrite Hrow, HmR.
  replace (S n - 1)%nat with n by lia.
  assert (Hnm : (n <= m)%nat) by (destruct Hform as [Hle _]; lia).
  destruct (foldM_rev_range_inv (solvedFrom n R) (New.extractSolutionRow this R n) m)
    with (s := repeat (SNum 0%float) n) as (sol & Hfold & Hsol & Hdone).
  - intros k s Hk Hs.
    now apply (New_extractSolutionRow_exact this m n R pivots k s).
  - split; [apply repeat_length|]. intros j Hj. lia.
  - exists (map (fun s => match s with
                          | SFrac f => f
                          | SNum _ => zeroFraction
                          end) sol).
    split; [|split].
    + transitivity (Ret sol); [exact Hfold|].
      f_equal. apply fractions_of_entries. intros j Hj.
      destruct (Hdone j ltac:(unfold Vector in *; lia)) as (f & Hf & _). eauto.
    + now rewrite length_map.
    + intros j Hj. destruct (Hdone j ltac:(lia)) as (f & Hf & Pf & Vf).
      change zeroFraction with ((fun s => match s with
                                          | SFrac f => f
                                          | SNum _ => zeroFraction
                                          end) undefined).
      rewrite map_nth, Hf. now split.
Qed.

Lemma solves_ext (m n : nat) (M : Matrix) (y z : nat -> Q) :
  (forall c, (c < n)%nat -> Qeq (y c) (z c)) -> solves m n M y -> solves m n M z.
Proof.
  intros E H r Hr. rewrite <- (H r Hr). apply sumQ_ext. intros c Hc.
  now rewrite (E c Hc).
Qed.

(** A reduced augmented matrix without a pivot in its last column has the
    solution that takes the last column at the pivots and 0 elsewhere. *)
Lemma rrefForm_particular (m n : nat) (R : Matrix) (pivots : list nat) :
  posMatrix m (S n) R -> rrefForm m (S n) R pivots ->
  (forall k, (k < List.length pivots)%nat -> (nth k pivots O < n)%nat) ->
  solves m n R (fun c => match indexOf pivots c with
                         | Some r => val R r n
                         | None => 0%Q
                         end).
Proof.
  intros HR (Hle & Hpiv & Hinc & Hzero) Hall r Hr.
  destruct (Nat.lt_ge_cases r (List.length pivots)) as [Hrp|Hrp].
  - destruct (Hpiv r Hrp) as [_ (Hone & Hcol & Hbefore)].
    rewrite (sumQ_single _ n (nth r pivots O) (Hall r Hrp)).
    + rewrite (indexOf_nth pivots Hinc r Hrp).
      rewrite (val_cell_frac _ _ _ _ Hone). change (Qof oneFraction) with 1%Q. ring.
    + intros c Hc Hne.
      destruct (indexOf pivots c) as [r'|] eqn:E; [|ring].
      destruct (indexOf_Some _ _ _ E) as [Hr' Hnth].
      assert (Hrr' : r <> r') by (intros ->; now apply Hne).
      destruct (Hpiv r' Hr') as [_ (_ & Hcol' & _)]. rewrite Hnth in Hcol'.
      rewrite (rrefForm_val_zero m (S n) R r c HR Hr ltac:(lia)); [ring|].
      now apply Hcol'.
  - rewrite (rrefForm_val_zero m (S n) R r n HR Hr ltac:(lia))
      by (apply Hzero; lia).
    apply sumQ_zero. intros c Hc.
    rewrite (rrefForm_val_zero m (S n) R r c HR Hr ltac:(lia)); [ring|].
    apply Hzero; lia.
Qed.

(** A pivot in the last column is the equation [0 = 1]. *)
Lemma rrefForm_inconsistent (m n : nat) (R : Matrix) (pivots : list nat) :
  posMatrix m (S n) R -> rrefForm m (S n) R pivots ->
  (0 < List.length pivots)%nat -> nth (List.length pivots - 1) pivots O = n ->
  forall y, ~ solves m n R y.
Proof.
  intros HR (Hle & Hpiv & Hinc & Hzero) Hpos Hlast y Hy.
  destruct (Hpiv (List.length pivots - 1)%nat ltac:(lia)) as [_ (Hone & _ & Hbefore)].
  rewrite Hlast in Hone, Hbefore.
  specialize (Hy (List.length pivots - 1)%nat ltac:(lia)).
  rewrite (val_cell_frac _ _ _ _ Hone) in Hy.
  rewrite sumQ_zero in Hy.
  - discriminate Hy.
  - intros c Hc.
    rewrite (rrefForm_val_zero m (S n) R (List.length pivots - 1) c HR
               ltac:(lia) ltac:(lia)); [ring|].
    now apply Hbefore.
Qed.



(** ** LaTeX and formats *)

Lemma replaceAll_app (c : ascii) (by_ : string) (s t : string) :
  New.replaceAll c by_ (s ++ t) = (New.replaceAll c by_ s ++ New.replaceAll c by_ t)%string.
Proof.
  induction s as [|a s IH]; [reflexivity|].
  cbn [append New.replaceAll]. destruct (Ascii.eqb a c).
  - now rewrite IH, string_app_assoc.
  - cbn [append]. now rewrite IH.
Qed.

Lemma formatStringToLatex_app (s t : string) :
  New.formatStringToLatex (s ++ t)
  = (New.formatStringToLatex s ++ New.formatStringToLatex t)%string.
Proof. unfold New.formatStringToLatex. now rewrite !replaceAll_app. Qed.

Lemma formatStringToLatex_char (c : ascii) :
  New.formatStringToLatex (String c "") = escapeChar c.
Proof.
  destruct c as [[] [] [] [] [] [] [] []]; reflexivity.
Qed.

Lemma formatStringToLatex_cons (c : ascii) (s : string) :
  New.formatStringToLatex (String c s)
  = (escapeChar c ++ New.formatStringToLatex s)%string.
Proof.
  change (String c s) with (String c "" ++ s)%string.
  now rewrite formatStringToLatex_app, formatStringToLatex_char.
Qed.

(** [formatStringToLatex] is one pass over the text: the nine replacements
    in a row put, for each character of the text in turn, a backslash
    before [&], [%], [$], [#], [_], [^] and [~], and the words [\gt] and
    [\lt] for [>] and [<]; what one replacement puts is not touched by the
    later ones.  So a text without these characters is returned as it is,
    the result of a concatenation is the concatenation of the results, and
    the backslash is not escaped: [>] and the text [\gt] give the same
    result. *)
Theorem New_formatStringToLatex_one_pass (s t : string) :
  New.formatStringToLatex s
  = String.concat "" (map escapeChar (list_ascii_of_string s))
  /\ New.formatStringToLatex (s ++ t)
     = (New.formatStringToLatex s ++ New.formatStringToLatex t)%string
  /\ (forallb (fun c => negb (special c)) (list_ascii_of_string s) = true ->
      New.formatStringToLatex s = s)
  /\ New.formatStringToLatex (s ++ ">" ++ t) = New.formatStringToLatex (s ++ "\gt" ++ t).
Proof.
  split; [|split; [|split]].
  - induction s as [|c s IH]; [reflexivity|].
    rewrite formatStringToLatex_cons, IH. cbn [list_ascii_of_string map].
    destruct (map escapeChar (list_ascii_of_string s)) as [|e es] eqn:E.
    + cbn. now rewrite string_app_nil_r.
    + reflexivity.
  - apply formatStringToLatex_app.
  - induction s as [|c s IH]; intros H; [reflexivity|].
    cbn [list_ascii_of_string forallb] in H. apply andb_true_iff in H as [Hc Hs].
    rewrite formatStringToLatex_cons, (IH Hs).
    assert (E : escapeChar c = String c "").
    { revert Hc. destruct c as [[] [] [] [] [] [] [] []]; cbn; congruence. }
    now rewrite E.
  - rewrite !formatStringToLatex_app. reflexivity.
Qed.

(** ** autoWrapMath and the LaTeX of vectors and matrices *)

Lemma prefix_app_r (w s t : string) :
  String.prefix w s = true -> String.prefix w (s ++ t) = true.
Proof.
  revert s. induction w as [|a w IH]; intros s H;
    [destruct (s ++ t)%string; reflexivity|].
  destruct s as [|b s]; [discriminate|].
  cbn [String.prefix append] in *.
  destruct (ascii_dec a b); [now apply IH | discriminate].
Qed.

Lemma includes_app_r (w s t : string) :
  New.includes w s = true -> New.includes w (s ++ t) = true.
Proof.
  induction s as [|b s IH]; intros H.
  - cbn [New.includes] in H. rewrite orb_false_r in H.
    destruct w; [|discriminate]. destruct t; reflexivity.
  - cbn [New.includes append] in *. apply orb_true_iff in H as [H|H].
    + apply orb_true_iff. left.
      now apply (prefix_app_r w (String b s) t).
    + apply orb_true_iff. right. now apply IH.
Qed.

Lemma includes_cons (w : string) (c : ascii) (s : string) :
  New.includes w s = true -> New.includes w (String c s) = true.
Proof. intros H. cbn [New.includes]. rewrite H. apply orb_true_r. Qed.

Lemma containsLatexMarkers_wrap (c : ascii) (s t : string) :
  New.containsLatexMarkers s = true ->
  New.containsLatexMarkers (String c (s ++ t)) = true.
Proof.
  unfold New.containsLatexMarkers. intros H.
  apply existsb_exists in H as (w & Hw & Hin).
  apply existsb_exists. exists w. split; [assumption|].
  now apply includes_cons, includes_app_r.
Qed.

Lemma endsWith_app (s : string) (c : ascii) :
  New.endsWith (s ++ String c "") c = true.
Proof.
  induction s as [|a s IH]; [cbn; apply Ascii.eqb_refl|].
  cbn [append New.endsWith]. destruct (s ++ String c "")%string eqn:E.
  - destruct s; discriminate.
  - exact IH.
Qed.

Lemma endsWith_brace (s : string) :
  New.endsWith (s ++ "\end{pmatrix}") "$" = false.
Proof.
  induction s as [|a s IH]; [reflexivity|].
  cbn [append New.endsWith]. destruct (s ++ "\end{pmatrix}")%string eqn:E.
  - destruct s; discriminate.
  - exact IH.
Qed.

Lemma autoWrapMath_pmatrix (body : string) :
  New.autoWrapMath ("\begin{pmatrix}" ++ body ++ "\end{pmatrix}")
  = ("$" ++ ("\begin{pmatrix}" ++ body ++ "\end{pmatrix}") ++ "$")%string.
Proof.
  unfold New.autoWrapMath.
  assert (Hm : New.containsLatexMarkers ("\begin{pmatrix}" ++ body ++ "\end{pmatrix}")
               = true).
  { unfold New.containsLatexMarkers, New.latexMarkers. cbn [existsb].
    apply orb_true_iff. left.
    change ("\begin{pmatrix}" ++ body ++ "\end{pmatrix}")%string
      with ("\begin" ++ ("{pmatrix}" ++ body ++ "\end{pmatrix}"))%string.
    apply includes_app_r. reflexivity. }
  rewrite Hm.
  assert (He : New.endsWith ("\begin{pmatrix}" ++ body ++ "\end{pmatrix}") "$" = false).
  { rewrite <- string_app_assoc. apply endsWith_brace. }
  rewrite He. reflexivity.
Qed.

(** [autoWrapMath] puts a text with LaTeX commands between two [$] unless it
    starts or ends with one, and leaves every other text as it is.
    Applying it twice is applying it once, and it wraps what
    [vectorToLatex] and [matrixToLatex] return. *)
Theorem New_autoWrapMath_wraps (this : New.MatrixOperations) (text : string)
  (vector : Vector) (matrix : Matrix) :
  New.autoWrapMath (New.autoWrapMath text) = New.autoWrapMath text
  /\ (New.containsLatexMarkers text = false -> New.autoWrapMath text = text)
  /\ (forall s, New.vectorToLatex this vector = Ret s ->
                New.autoWrapMath s = ("$" ++ s ++ "$")%string)
  /\ (forall s, New.matrixToLatex this matrix = Ret s ->
                New.autoWrapMath s = ("$" ++ s ++ "$")%string).
Proof.
  split; [|split; [|split]].
  - unfold New.autoWrapMath at 2.
    destruct (New.containsLatexMarkers text) eqn:Hm.
    + destruct (negb (New.startsWith text "$") && negb (New.endsWith text "$")) eqn:Hw.
      * unfold New.autoWrapMath. cbn [append].
        rewrite (containsLatexMarkers_wrap "$" text "$" Hm), Hm, Hw.
        cbn [New.startsWith]. rewrite Ascii.eqb_refl. reflexivity.
      * unfold New.autoWrapMath. now rewrite Hm, Hw.
    + unfold New.autoWrapMath. now rewrite Hm.
  - intros Hm. unfold New.autoWrapMath. now rewrite Hm.
  - intros s Hs. unfold New.vectorToLatex in Hs.
    match type of Hs with
    | bind ?c _ = _ => destruct c as [entries| | |]; try discriminate
    end.
    cbn [bind] in Hs. injection Hs as <-.
    apply autoWrapMath_pmatrix.
  - intros s Hs. unfold New.matrixToLatex in Hs.
    match type of Hs with
    | bind ?c _ = _ => destruct c as [lines| | |]; try discriminate
    end.
    cbn [bind] in Hs. injection Hs as <-.
    apply autoWrapMath_pmatrix.
Qed.

Lemma New_autoWrapMath_wraps_witness :
  New.autoWrapMath "\frac{1}{2}" = "$\frac{1}{2}$"
  /\ New.autoWrapMath "one half" = "one half".
Proof.
  destruct (New_autoWrapMath_wraps New.engine "one half" [] []) as (_ & H & _).
  split; [reflexivity | apply H; reflexivity].
Defined.

(** ** The LaTeX of Fractions *)

Lemma New_formatted_Fraction (this : New.MatrixOperations) (f : Fraction)
  (fmt : New.FormatType) :
  fmt <> New.integer ->
  New.formatted this (SFrac f) fmt = Ret (New.toString f).
Proof.
  intros Hfmt. unfold New.formatted.
  destruct fmt; [contradiction| |reflexivity].
  cbn. unfold New.toString. now destruct (denominator f =? 1).
Qed.

Lemma replaceAll_none (c : ascii) (by_ : string) (s : string) :
  forallb (fun a => negb (Ascii.eqb a c)) (list_ascii_of_string s) = true ->
  New.replaceAll c by_ s = s.
Proof.
  induction s as [|a s IH]; intros H; [reflexivity|].
  cbn [list_ascii_of_string forallb] in H. apply andb_true_iff in H as [Ha Hs].
  cbn [New.replaceAll]. destruct (Ascii.eqb a c); [discriminate|].
  now rewrite IH.
Qed.

(** The LaTeX that the new library writes for Fractions, in a format that
    is not the integer format: [vectorToLatex] and [matrixToLatex] return a
    [pmatrix] of the texts of [toString], and [numberToLatex] returns the
    numerator alone for a whole number, and otherwise the numerator, two
    backslashes, [frac{] and the denominator: a text with an opening brace
    that is not closed. *)
Theorem New_latex_of_fractions (this : New.MatrixOperations) (v : list Fraction)
  (rows : list (list Fraction)) (f : Fraction) :
  New.formatType this <> New.integer ->
  New.vectorToLatex this (fractions v)
  = Ret ("\begin{pmatrix}" ++ String.concat "\\" (map New.toString v)
         ++ "\end{pmatrix}")%string
  /\ New.matrixToLatex this (map fractions rows)
     = Ret ("\begin{pmatrix}"
            ++ String.concat "\\" (map (fun row => String.concat " & "
                                                     (map New.toString row)) rows)
            ++ "\end{pmatrix}")%string
  /\ New.numberToLatex this (SFrac f)
     = Ret (if denominator f =? 1 then Z_toString (numerator f)
            else (Z_toString (numerator f) ++ "\\frac{"
                  ++ Z_toString (denominator f))%string).
Proof.
  intros Hfmt.
  assert (Hrow : forall row : list Fraction,
             mapM (fun col => New.formatted this col (New.getFormatType this))
                  (fractions row)
             = Ret (map New.toString row)).
  { intros row. unfold fractions. apply mapM_map_Ret. intros x _.
    now apply New_formatted_Fraction. }
  split; [|split].
  - unfold New.vectorToLatex. now rewrite Hrow.
  - unfold New.matrixToLatex.
    rewrite (mapM_map_Ret _ fractions
               (fun row => String.concat " & " (map New.toString row))).
    + reflexivity.
    + intros row _. now rewrite Hrow.
  - unfold New.numberToLatex. rewrite New_formatted_Fraction by assumption.
    cbn [bind]. f_equal. unfold New.toString.
    destruct (denominator f =? 1).
    + apply replaceAll_none, Z_toString_no_slash.
    + rewrite !replaceAll_app.
      rewrite !(replaceAll_none "/" _ (Z_toString _)) by apply Z_toString_no_slash.
      reflexivity.
Qed.

Lemma New_latex_of_fractions_witness :
  New.numberToLatex New.engine (SFrac (mkFraction 1 2)) = Ret "1\\frac{2"
  /\ New.vectorToLatex New.engine (fractions [mkFraction 1 2; mkFraction 3 1])
     = Ret "\begin{pmatrix}1/2\\3\end{pmatrix}".
Proof.
  destruct (New_latex_of_fractions New.engine [mkFraction 1 2; mkFraction 3 1] []
              (mkFraction 1 2)) as (Hv & _ & Hn); [discriminate|].
  split; [exact Hn | exact Hv].
Defined.

(** ** The format type *)

(** [setFormatType]: setting a format twice is setting it once, [decimal]
    and [fraction] select the rational format without and with Fractions,
    and whatever format but [integer] is set, a Fraction is printed by
    [formatNumber] as [toString] prints it: [decimal] prints no decimals
    for a Fraction. *)
Theorem New_setFormatType_prints (this : New.MatrixOperations) (formatType : string)
  (f : Fraction) :
  New.setFormatType (New.setFormatType this formatType) formatType
  = New.setFormatType this formatType
  /\ New.getFormatType (New.setFormatType this "decimal") = New.rational
  /\ New.useFractions (New.setFormatType this "decimal") = false
  /\ New.getFormatType (New.setFormatType this "fraction") = New.rational
  /\ New.useFractions (New.setFormatType this "fraction") = true
  /\ (formatType <> "integer" ->
      New.formatNumber (New.setFormatType this formatType) (New.VScalar (SFrac f))
                       (New.getFormatType (New.setFormatType this formatType))
      = Ret (New.Text (New.toString f))).
Proof.
  split; [|split; [|split; [|split; [|split]]]]; try reflexivity.
  - unfold New.setFormatType.
    destruct (String.eqb formatType "integer"); [reflexivity|].
    destruct (String.eqb formatType "decimal"); [reflexivity|].
    destruct (String.eqb formatType "fraction"); reflexivity.
  - intros Hne. unfold New.setFormatType, New.getFormatType.
    destruct (String.eqb_spec formatType "integer") as [E|_]; [contradiction|].
    destruct (String.eqb formatType "decimal");
      [apply New_formatNumber_rational|].
    destruct (String.eqb formatType "fraction");
      [apply New_formatNumber_rational|].
    cbn [New.formatType]. unfold New.formatOfString.
    destruct (String.eqb_spec formatType "integer") as [E|_]; [contradiction|].
    destruct (String.eqb formatType "rational");
      [apply New_formatNumber_rational | reflexivity].
Qed.

Lemma New_setFormatType_prints_witness :
  New.formatNumber (New.setFormatType New.engine "decimal")
    (New.VScalar (SFrac (mkFraction 1 2)))
    (New.getFormatType (New.setFormatType New.engine "decimal"))
  = Ret (New.Text "1/2").
Proof.
  destruct (New_setFormatType_prints New.engine "decimal" (mkFraction 1 2))
    as (_ & _ & _ & _ & _ & H).
  apply H. discriminate.
Defined.

(** ** The texts of the old library *)

Lemma list_ascii_of_string_app (s t : string) :
  list_ascii_of_string (s ++ t) = list_ascii_of_string s ++ list_ascii_of_string t.
Proof. induction s as [|a s IH]; [reflexivity|]. cbn. now rewrite IH. Qed.

Lemma no_slash_app (s t : string) :
  forallb (fun c => negb (Ascii.eqb c "/")) (list_ascii_of_string s) = true ->
  forallb (fun c => negb (Ascii.eqb c "/")) (list_ascii_of_string t) = true ->
  forallb (fun c => negb (Ascii.eqb c "/")) (list_ascii_of_string (s ++ t)) = true.
Proof.
  intros Hs Ht. rewrite list_ascii_of_string_app, forallb_app. now rewrite Hs, Ht.
Qed.

(** The text of a mixed number is read by the constructor as its integer
    part over its denominator. *)
Lemma Old_Fraction_of_mixed (sign : bool) (q r d : Z) :
  0 < q ->
  Old.Fraction_of_string ((if sign then "-" else "") ++ Z_toString q ++ " "
                          ++ Z_toString r ++ "/" ++ Z_toString d)
  = Old.Fraction_new (if sign then - q else q) d.
Proof.
  intros Hq. unfold Old.Fraction_of_string.
  set (whole := ((if sign then "-" else "") ++ Z_toString q ++ " " ++ Z_toString r)%string).
  assert (E : ((if sign then "-" else "") ++ Z_toString q ++ " "
               ++ Z_toString r ++ "/" ++ Z_toString d)%string
              = (whole ++ "/" ++ Z_toString d)%string).
  { unfold whole. now rewrite !string_app_assoc. }
  rewrite E. unfold split_slash.
  rewrite split_slash_aux_app.
  - cbn [append split_slash_aux Ascii.eqb Bool.eqb].
    fold (split_slash (Z_toString d)). rewrite split_slash_integer.
    rewrite parseInt10_integer. cbn [Old.orElse]. f_equal.
    assert (P : parseInt10 whole = Some (if sign then - q else q)).
    { unfold whole. destruct sign.
      - rewrite <- string_app_assoc.
        replace ("-" ++ Z_toString q)%string with (Z_toString (- q)).
        + apply parseInt10_Z_toString. reflexivity.
        + rewrite <- (Z_toString_negative (- q)) by lia.
          now rewrite Z.abs_opp, Z.abs_eq by lia.
      - cbn [append]. apply parseInt10_Z_toString. reflexivity. }
    now rewrite P.
  - unfold whole. repeat apply no_slash_app; try apply Z_toString_no_slash.
    + now destruct sign.
    + reflexivity.
Qed.



(** ** The Euclidean loop ends *)

Lemma gcd_loop_enough (n : nat) :
  forall k a b, 0 <= a -> 0 <= b < 2 ^ Z.of_nat n -> (S (2 * n) <= k)%nat ->
                gcd_loop k a b = Z.gcd a b.
Proof.
  induction n as [|n IH]; intros k a b Ha Hb Hk.
  - assert (b = 0) by (change (2 ^ Z.of_nat 0) with 1 in Hb; lia). subst b.
    destruct k as [|k]; [lia|]. rewrite gcd_loop_S. cbn [Z.eqb].
    rewrite Z.gcd_0_r. lia.
  - destruct k as [|[|k]]; try lia.
    rewrite gcd_loop_S.
    destruct (Z.eqb_spec b 0) as [->|Hb0].
    + rewrite Z.gcd_0_r. lia.
    + assert (Hr1 : 0 <= Z.rem a b < b) by (apply Z.rem_bound_pos; lia).
      assert (Hg1 : Z.gcd b (Z.rem a b) = Z.gcd a b).
      { rewrite Z.rem_mod_nonneg by lia.
        rewrite Z.gcd_comm. rewrite Z.gcd_mod by lia.
        apply Z.gcd_comm. }
      rewrite gcd_loop_S.
      destruct (Z.eqb_spec (Z.rem a b) 0) as [Hz|Hnz].
      * rewrite <- Hg1, Hz, Z.gcd_0_r. lia.
      * set (r1 := Z.rem a b) in *.
        assert (Hr2 : 0 <= Z.rem b r1 < r1) by (apply Z.rem_bound_pos; lia).
        assert (Hhalf : 2 * Z.rem b r1 < b).
        { rewrite Z.rem_mod_nonneg by lia.
          pose proof (Z.div_mod b r1 ltac:(lia)) as Hdm.
          assert (1 <= b / r1) by (apply Z.div_le_lower_bound; lia).
          pose proof (Z.mod_pos_bound b r1 ltac:(lia)). nia. }
        rewrite IH.
        -- rewrite <- Hg1. rewrite Z.rem_mod_nonneg by lia.
           rewrite (Z.gcd_comm r1). rewrite Z.gcd_mod by lia. apply Z.gcd_comm.
        -- lia.
        -- split; [lia|].
           rewrite Nat2Z.inj_succ, Z.pow_succ_r in Hb by lia. lia.
        -- lia.
Qed.

(** [Fraction.gcd] is the greatest common divisor.  On two integers that are
    not negative the loop of both libraries has reached [b = 0] after
    [gcd_fuel b] rounds, about twice the number of binary digits of [b], and
    returns [gcd(a, b)] however many more rounds it is given; the old
    library, which takes absolute values first, returns the greatest common
    divisor of any two integers, and so does the new constructor's call on
    the absolute values.  The result is 0 only for [gcd(0, 0)]. *)
Theorem Fraction_gcd_correct (a b : Z) :
  (0 <= a -> 0 <= b ->
   (forall k, (gcd_fuel b <= k)%nat -> gcd_loop k a b = Z.gcd a b)
   /\ New.gcd a b = Z.gcd a b)
  /\ Old.gcd a b = Z.gcd a b
  /\ New.gcd (Z.abs a) (Z.abs b) = Old.gcd a b
  /\ (Old.gcd a b | a) /\ (Old.gcd a b | b)
  /\ (forall c, (c | a) -> (c | b) -> (c | Old.gcd a b))
  /\ (Old.gcd a b = 0 <-> a = 0 /\ b = 0).
Proof.
  split; [|split; [|split]].
  - intros Ha Hb. split.
    + intros k Hk. unfold gcd_fuel in Hk.
      apply (gcd_loop_enough (Z.to_nat (Z.log2_up (b + 1)))); try assumption.
      split; [assumption|]. now apply gcd_fuel_enough.
    + now apply New_gcd_is_Zgcd.
  - apply Old_gcd_is_Zgcd.
  - rewrite Old_gcd_is_Zgcd, New_gcd_is_Zgcd by apply Z.abs_nonneg.
    now rewrite Z.gcd_abs_l, Z.gcd_abs_r.
  - rewrite Old_gcd_is_Zgcd.
    split; [apply Z.gcd_divide_l|]. split; [apply Z.gcd_divide_r|].
    split; [intros c; apply Z.gcd_greatest|]. apply Z.gcd_eq_0.
Qed.

Lemma Fraction_gcd_correct_witness :
  New.gcd 12 18 = 6 /\ gcd_loop 100 12 18 = 6.
Proof.
  destruct (Fraction_gcd_correct 12 18) as [H _].
  destruct H as [Hloop Hnew]; [lia | lia |].
  split; [exact Hnew|].
  apply Hloop. vm_compute. lia.
Defined.

